(** * PedigreeDPTable: the pedigree-aware phasing DP engine of whatshap

    A shallow embedding of [src/pedigreedptable.cpp].  Unsigned machine
    integers are binary naturals [N] with their wrap-around written out,
    vectors are lists read with stdpp's lookup, the members of the class
    are a record that is threaded through the member functions, and every
    exception, failed assertion or out-of-range access is a value of the
    [result] type. *)

From Stdlib Require Import NArith ZArith Lia.
From stdpp Require Import base tactics option numbers list sorting gmap strings pretty.

Local Open Scope N_scope.

(** ** Machine integers *)

(** [numeric_limits<unsigned int>::max()], the cost sentinel. *)
Definition UINT_MAX : N := 4294967295.

(** Conversion to [unsigned int] (32 bits) and to [size_t] (64 bits). *)
Definition wrap32 (x : N) : N := x mod 2 ^ 32.
Definition wrap64 (x : N) : N := x mod 2 ^ 64.

(** ** Failures

    [MendelianConflict] is the [std::runtime_error] of [compute_column];
    [InvariantViolation] stands for a failed [assert], a null pointer that is
    dereferenced and an access outside a table; [PreconditionViolation] for
    caller data that is too short, too large or names an unknown sample.

    The code reads [allele_counts] and [positions] with [at], which throws
    outside the vector.  It reads [precomputed_partitioning] (line 44) and
    [recombcost] (line 393) with [operator[]], which checks nothing: outside
    the vector the behaviour of the code is undefined, it need not stop.
    The model stops there with [PreconditionViolation]; the properties below
    that speak of these reads are stated for reads inside the vector.
    Likewise an [assert] is compiled out when [NDEBUG] is defined: the model
    stops where the condition of an [assert] is false, so that a run of the
    model that ends well is a run of the code with or without [NDEBUG]. *)
Inductive error : Set :=
  | MendelianConflict
  | InvariantViolation
  | PreconditionViolation.

Inductive result (A : Type) : Type :=
  | Ok (a : A)
  | Err (e : error).
Arguments Ok {A} a.
Arguments Err {A} e.

Global Instance error_eq_dec : EqDecision error.
Proof. solve_decision. Defined.

Global Instance result_ret : MRet result := λ A a, Ok a.
Global Instance result_bind : MBind result := λ A B f m,
  match m with
  | Ok a => f a
  | Err e => Err e
  end.

(** A pointer or an index that has to be valid. *)
Definition require {A} (e : error) (o : option A) : result A :=
  match o with
  | Some a => Ok a
  | None => Err e
  end.

Definition assert (b : bool) : result unit :=
  if b then Ok tt else Err InvariantViolation.

(** A [for] loop over the elements of [l] whose body may fail. *)
Fixpoint foldlM {A B} (f : A → B → result A) (a : A) (l : list B) : result A :=
  match l with
  | [] => Ok a
  | b :: l' => a' ← f a b; foldlM f a' l'
  end.

(** The index range [0 .. n-1] of a [for (i = 0; i < n; ++i)] loop. *)
Definition N_range (n : N) : list N := N.of_nat <$> seq 0 (N.to_nat n).

(** ** Vector2D *)

(** Modelled from the spec: the header [vector2d.h] is missing.  A 2-D table
    of [size0] rows and [size1] columns, filled with an initial value; reading
    or writing outside the table is an [InvariantViolation]. *)
Record Vector2D : Type := {
  size0 : N;
  size1 : N;
  cells : list (list N)
}.

Definition Vector2D_new (s0 s1 initial_value : N) : Vector2D :=
  {| size0 := s0; size1 := s1;
     cells := replicate (N.to_nat s0) (replicate (N.to_nat s1) initial_value) |}.

Definition Vector2D_at (t : Vector2D) (index0 index1 : N) : result N :=
  require InvariantViolation
    (row ← cells t !! N.to_nat index0; row !! N.to_nat index1).

Definition Vector2D_set (t : Vector2D) (index0 index1 value : N) : result Vector2D :=
  row ← require InvariantViolation (cells t !! N.to_nat index0);
  _ ← require InvariantViolation (row !! N.to_nat index1);
  Ok {| size0 := size0 t; size1 := size1 t;
        cells := <[N.to_nat index0 := <[N.to_nat index1 := value]> row]> (cells t) |}.

(** ** popcount *)

(** [for (; x; x >>= 1) count += x & 1;] on a [size_t]: at most 64 rounds. *)
Fixpoint popcount_loop (rounds : nat) (x count : N) : N :=
  match rounds with
  | O => count
  | S r =>
      if x =? 0 then count
      else popcount_loop r (N.shiftr x 1) (wrap32 (count + N.land x 1))
  end.

Definition popcount (x : N) : N := popcount_loop 64 (wrap64 x) 0.

(** ** The candidate cost of the forward relaxation *)

(** Lines 378-394 of [compute_column]: the value [val] that is compared with
    the running minimum, for current pattern [i] and predecessor [j].  The
    read [recombcost[column_index]] of line 393 is unchecked in the code. *)
Definition candidate_cost (recombcost : list N) (column_index : nat)
    (current_cost previous_cost i j : N) : result N :=
  let val :=
    if (current_cost <? UINT_MAX) && (previous_cost <? UINT_MAX)
    then wrap32 (current_cost + previous_cost)
    else UINT_MAX in
  let x := N.lxor i j in
  if val <? UINT_MAX then
    rc ← require PreconditionViolation (recombcost !! column_index);
    Ok (wrap32 (val + wrap64 (popcount x * rc)))
  else Ok val.

(** Lines 379-382: the cost fetched from the previous projection column, 0 in
    the first column. *)
Definition previous_cost_of (column_index : nat)
    (previous_projection_column : option Vector2D)
    (backward_projection_index j : N) : result N :=
  if decide (0 < column_index)%nat then
    prev ← require InvariantViolation previous_projection_column;
    Vector2D_at prev backward_projection_index j
  else Ok 0.

(** Lines 378-394 for one predecessor [j]: the fetched cost and the sum. *)
Definition predecessor_candidate (recombcost : list N) (column_index : nat)
    (previous_projection_column : option Vector2D)
    (backward_projection_index current_cost i j : N) : result N :=
  previous_cost ← previous_cost_of column_index previous_projection_column
                     backward_projection_index j;
  candidate_cost recombcost column_index current_cost previous_cost i j.

(** One round of the loop over the predecessors [j] (lines 376-401): the
    running minimum and its index. *)
Definition relax_predecessor (recombcost : list N) (column_index : nat)
    (previous_projection_column : option Vector2D)
    (backward_projection_index current_cost i : N)
    (acc : N * N) (j : N) : result (N * N) :=
  let '(min, min_index) := acc in
  val ← predecessor_candidate recombcost column_index previous_projection_column
          backward_projection_index current_cost i j;
  Ok (if val <? min then (val, j) else (min, min_index)).

(** The candidate as the specification words it: the sum of the three costs,
    saturated at the sentinel. *)
Definition saturating_candidate (previous_cost current_cost i j rc : N) : N :=
  N.min UINT_MAX (previous_cost + current_cost + popcount (N.lxor i j) * rc).

(** ** Entries, columns, reads *)

(** Modelled from the spec: [entry.h] is missing.  An observation
    [(read_id, allele, quality)]. *)
Record Entry : Type := {
  get_read_id : N;
  get_allele_type : Z;
  get_phred_score : N
}.

Abbreviation Column := (list Entry).

(** Modelled from the spec: [read.h] is missing.  A read has a name, a mapping
    quality, a source, the sample it belongs to, an id, and the variants
    [(position, allele, qualities)] added to it. *)
Record Read : Type := {
  getName : string;
  getMapq : Z;
  getSourceID : Z;
  getSampleID : N;
  getID : Z;
  getVariants : list (N * Z * list N)
}.

Definition Read_new (name : string) (mapq source_id : Z) (sample_id : N) : Read :=
  {| getName := name; getMapq := mapq; getSourceID := source_id;
     getSampleID := sample_id; getID := (-1)%Z; getVariants := [] |}.

Definition setID (r : Read) (i : Z) : Read :=
  {| getName := getName r; getMapq := getMapq r; getSourceID := getSourceID r;
     getSampleID := getSampleID r; getID := i; getVariants := getVariants r |}.

Definition addVariant (r : Read) (position : N) (allele : Z) (qualities : list N) : Read :=
  {| getName := getName r; getMapq := getMapq r; getSourceID := getSourceID r;
     getSampleID := getSampleID r; getID := getID r;
     getVariants := getVariants r ++ [(position, allele, qualities)] |}.

(** Modelled from the spec: [readset.h] is missing.  A read set is the
    sequence of its reads; [add] appends. *)
Abbreviation ReadSet := (list Read).

Definition ReadSet_add (rs : ReadSet) (r : Read) : ReadSet := rs ++ [r].

(** Modelled from the spec: [ReadSet::reassignReadIds] is missing.  "After ID
    reassignment, read IDs are dense in [0, num_reads)": the read at position
    [i] gets the id [i]. *)
Definition reassignReadIds (rs : ReadSet) : ReadSet :=
  imap (λ i r, setID r (Z.of_nat i)) rs.

(** ** Pedigree *)

(** Modelled from the spec: [pedigree.h] is missing.  "An ordered list of
    individuals plus a list of triples; exposes [size()], [triple_count()] and
    the mapping sample-id to index"; an unknown sample is a precondition
    violation. *)
Record Pedigree : Type := {
  individual_ids : list N;
  triples : list (N * N * N)
}.

Definition Pedigree_size (p : Pedigree) : nat := length (individual_ids p).
Definition triple_count (p : Pedigree) : nat := length (triples p).

Fixpoint find_index (x : N) (l : list N) (from : N) : option N :=
  match l with
  | [] => None
  | y :: l' => if x =? y then Some from else find_index x l' (from + 1)
  end.

Definition id_to_index (p : Pedigree) (sample : N) : result N :=
  require PreconditionViolation (find_index sample (individual_ids p) 0).

Definition index_to_id (p : Pedigree) (i : nat) : result N :=
  require InvariantViolation (individual_ids p !! i).

(** Modelled from the spec: [pedigreepartitions.h] is missing.  The object is
    only handed to the cost computer; it is kept as its constructor
    arguments. *)
Record PedigreePartitions : Type := {
  pp_pedigree : Pedigree;
  pp_inheritance : N;
  pp_ploidy : N
}.

(** ** Column indexing schemes *)

(** Modelled from the spec: [columnindexingiterator.h] is missing.  What one
    [advance()] of the iterator lets the engine read: the changed read and its
    new partition (both -1 when the partitioning is set afresh), the full
    partition, the index, and the two projections of the index. *)
Record IteratorStep : Type := {
  bit_changed : Z;
  partition_changed : Z;
  get_partition : N;
  get_index : N;
  get_backward_projection : N;
  get_forward_projection : N
}.

(** Modelled from the spec: [columnindexingscheme.h] is missing.  A scheme is
    kept as its ploidy and what the engine reads from it: the active reads,
    the sizes, the walk of [get_iterator()] until [has_next()] is false, and
    the backward projection of an arbitrary index. *)
Record ColumnIndexingScheme : Type := {
  scheme_ploidy : N;
  get_read_ids : list N;
  column_size : N;
  forward_projection_size : N;
  get_iterator : list IteratorStep;
  index_backward_projection : N → N
}.

(** The two ways the engine builds and completes a scheme. *)
Class IndexingScheme : Type := {
  (** [new ColumnIndexingScheme(previous, read_ids, ploidy)] *)
  scheme_new : option ColumnIndexingScheme → list N → N → ColumnIndexingScheme;
  (** [current->set_next_column(next)] *)
  set_next_column : ColumnIndexingScheme → ColumnIndexingScheme → ColumnIndexingScheme
}.

(** ** Column cost computers *)

(** The interface of [PedigreeColumnCostComputer] (the header is included by
    the source, the class itself is missing). *)
Class CostComputer (CC : Type) : Type := {
  cc_new : Column → nat → list N → Pedigree → PedigreePartitions → bool → N → CC;
  set_partitioning : CC → N → CC;
  update_partitioning : CC → Z → Z → CC;
  get_cost_raw : CC → N;
  (** for each individual, the allele of each of its haplotypes *)
  get_alleles : CC → list (list Z)
}.

(** [get_cost()] returns an [unsigned int]. *)
Definition get_cost `{CostComputer CC} (c : CC) : N := wrap32 (get_cost_raw c).

(** ** The column iterator *)

(** Modelled from the spec: [columniterator.h] is missing.  The iterator walks
    the columns of the read set in order; it knows the positions. *)
Record ColumnIterator : Type := {
  it_columns : list Column;
  it_positions : list N;
  it_next : nat
}.

(** The variant reader behind the iterator: the columns and the positions of
    a read set (the positions may be given by the caller). *)
Class ColumnReader : Type := {
  read_columns : ReadSet → option (list N) → list Column;
  read_positions : ReadSet → option (list N) → list N
}.

Definition ColumnIterator_new `{ColumnReader} (rs : ReadSet) (positions : option (list N))
    : ColumnIterator :=
  {| it_columns := read_columns rs positions;
     it_positions := read_positions rs positions;
     it_next := 0%nat |}.

Definition get_column_count (it : ColumnIterator) : nat := length (it_columns it).

Definition jump_to_column (it : ColumnIterator) (c : nat) : ColumnIterator :=
  {| it_columns := it_columns it; it_positions := it_positions it; it_next := c |}.

Definition has_next (it : ColumnIterator) : bool :=
  bool_decide (it_next it < length (it_columns it))%nat.

Definition get_next (it : ColumnIterator) : result (Column * ColumnIterator) :=
  col ← require InvariantViolation (it_columns it !! it_next it);
  Ok (col, jump_to_column it (S (it_next it))).

Definition get_positions (it : ColumnIterator) : list N := it_positions it.

(** ** The engine *)

Record index_and_inheritance_t : Type := {
  index : N;
  inheritance_value : N
}.

(** The members of [PedigreeDPTable] that never change after construction. *)
Record Params : Type := {
  recombcost : list N;
  pedigree : Pedigree;
  ploidy : N;
  distrust_genotypes : bool;
  allele_counts : list N
}.

(** The members that the member functions update.  A [nullptr] in one of the
    pointer vectors is [None]. *)
Record PedigreeDPTable : Type := {
  read_set : ReadSet;
  optimal_score : N;
  optimal_score_index : N;
  optimal_transmission_value : N;
  previous_transmission_value : N;
  input_column_iterator : ColumnIterator;
  pedigree_partitions : list PedigreePartitions;
  read_sources : list N;
  read_to_partition : gmap N N;
  projection_column_table : list (option Vector2D);
  index_backtrace_table : list (option Vector2D);
  transmission_backtrace_table : list (option Vector2D);
  indexers : list (option ColumnIndexingScheme);
  index_path : list index_and_inheritance_t
}.

(** The running optimum of the last column (four members updated together). *)
Record Optimum : Type := {
  opt_score : N;
  opt_index : N;
  opt_transmission : N;
  opt_previous_transmission : N
}.

Definition optimum_of (t : PedigreeDPTable) : Optimum :=
  {| opt_score := optimal_score t; opt_index := optimal_score_index t;
     opt_transmission := optimal_transmission_value t;
     opt_previous_transmission := previous_transmission_value t |}.

Definition with_optimum (t : PedigreeDPTable) (o : Optimum) : PedigreeDPTable :=
  {| read_set := read_set t;
     optimal_score := opt_score o;
     optimal_score_index := opt_index o;
     optimal_transmission_value := opt_transmission o;
     previous_transmission_value := opt_previous_transmission o;
     input_column_iterator := input_column_iterator t;
     pedigree_partitions := pedigree_partitions t;
     read_sources := read_sources t;
     read_to_partition := read_to_partition t;
     projection_column_table := projection_column_table t;
     index_backtrace_table := index_backtrace_table t;
     transmission_backtrace_table := transmission_backtrace_table t;
     indexers := indexers t;
     index_path := index_path t |}.

Definition with_iterator (t : PedigreeDPTable) (it : ColumnIterator) : PedigreeDPTable :=
  {| read_set := read_set t;
     optimal_score := optimal_score t;
     optimal_score_index := optimal_score_index t;
     optimal_transmission_value := optimal_transmission_value t;
     previous_transmission_value := previous_transmission_value t;
     input_column_iterator := it;
     pedigree_partitions := pedigree_partitions t;
     read_sources := read_sources t;
     read_to_partition := read_to_partition t;
     projection_column_table := projection_column_table t;
     index_backtrace_table := index_backtrace_table t;
     transmission_backtrace_table := transmission_backtrace_table t;
     indexers := indexers t;
     index_path := index_path t |}.

(** The three table vectors are always written together. *)
Definition with_tables (t : PedigreeDPTable)
    (proj ibt tbt : list (option Vector2D)) : PedigreeDPTable :=
  {| read_set := read_set t;
     optimal_score := optimal_score t;
     optimal_score_index := optimal_score_index t;
     optimal_transmission_value := optimal_transmission_value t;
     previous_transmission_value := previous_transmission_value t;
     input_column_iterator := input_column_iterator t;
     pedigree_partitions := pedigree_partitions t;
     read_sources := read_sources t;
     read_to_partition := read_to_partition t;
     projection_column_table := proj;
     index_backtrace_table := ibt;
     transmission_backtrace_table := tbt;
     indexers := indexers t;
     index_path := index_path t |}.

Definition with_indexers (t : PedigreeDPTable)
    (ix : list (option ColumnIndexingScheme)) : PedigreeDPTable :=
  {| read_set := read_set t;
     optimal_score := optimal_score t;
     optimal_score_index := optimal_score_index t;
     optimal_transmission_value := optimal_transmission_value t;
     previous_transmission_value := previous_transmission_value t;
     input_column_iterator := input_column_iterator t;
     pedigree_partitions := pedigree_partitions t;
     read_sources := read_sources t;
     read_to_partition := read_to_partition t;
     projection_column_table := projection_column_table t;
     index_backtrace_table := index_backtrace_table t;
     transmission_backtrace_table := transmission_backtrace_table t;
     indexers := ix;
     index_path := index_path t |}.

Definition with_index_path (t : PedigreeDPTable)
    (p : list index_and_inheritance_t) : PedigreeDPTable :=
  {| read_set := read_set t;
     optimal_score := optimal_score t;
     optimal_score_index := optimal_score_index t;
     optimal_transmission_value := optimal_transmission_value t;
     previous_transmission_value := previous_transmission_value t;
     input_column_iterator := input_column_iterator t;
     pedigree_partitions := pedigree_partitions t;
     read_sources := read_sources t;
     read_to_partition := read_to_partition t;
     projection_column_table := projection_column_table t;
     index_backtrace_table := index_backtrace_table t;
     transmission_backtrace_table := transmission_backtrace_table t;
     indexers := indexers t;
     index_path := p |}.

(** [extract_read_ids] *)
Definition extract_read_ids (entries : Column) : list N :=
  get_read_id <$> entries.

(** The number of transmission vectors, [std::pow(4, triple_count)]. *)
Definition transmission_configurations (p : Pedigree) : N :=
  4 ^ N.of_nat (triple_count p).

(** Modelled from the spec: the helper [init] of the missing header
    [pedigreedptable.h] frees a vector of pointers and resizes it to [size]
    null pointers. *)
Definition init {A} (size : nat) : list (option A) := replicate size None.

(** [clear_table] *)
Definition clear_table (t : PedigreeDPTable) : PedigreeDPTable :=
  let column_count := get_column_count (input_column_iterator t) in
  {| read_set := read_set t;
     optimal_score := UINT_MAX;
     optimal_score_index := 0;
     optimal_transmission_value := 0;
     previous_transmission_value := 0;
     input_column_iterator := input_column_iterator t;
     pedigree_partitions := pedigree_partitions t;
     read_sources := read_sources t;
     read_to_partition := read_to_partition t;
     projection_column_table := init column_count;
     index_backtrace_table := init column_count;
     transmission_backtrace_table := init column_count;
     indexers := init column_count;
     index_path := [] |}.

(** The three tables that a column that is not the last one produces. *)
Record ColumnTables : Type := {
  projection_column : Vector2D;
  index_backtrace_column : Vector2D;
  transmission_backtrace_column : Vector2D
}.

Section Engine.
Context `{IndexingScheme} `{CostComputer CC} `{ColumnReader}.

(** *** compute_column *)

(** Lines 334-339: one cost computer per transmission vector. *)
Definition make_cost_computers (p : Params) (sources : list N)
    (partitions : list PedigreePartitions) (column : Column) (column_index : nat)
    : result (list CC) :=
  foldlM (λ ccs i,
      pp ← require InvariantViolation (partitions !! N.to_nat i);
      ac ← require PreconditionViolation (allele_counts p !! column_index);
      Ok (ccs ++ [cc_new column column_index sources (pedigree p) pp
                         (distrust_genotypes p) ac]))
    [] (N_range (transmission_configurations (pedigree p))).

(** Lines 344-355: the cost computers follow the iterator. *)
Definition advance_cost_computers (s : IteratorStep) (ccs : list CC) : list CC :=
  if (0 <=? bit_changed s)%Z
  then (λ c, update_partitioning c (bit_changed s) (partition_changed s)) <$> ccs
  else (λ c, set_partitioning c (get_partition s)) <$> ccs.

(** Lines 368-404, the body of the loop over the patterns [i]: the DP column,
    [min_recomb_index] and [found_valid_transmission_vector]. *)
Definition relax_pattern (p : Params) (column_index : nat)
    (previous_projection_column : option Vector2D)
    (backward_projection_index current_index : N) (ccs : list CC)
    (acc : Vector2D * list N * bool) (i : N) : result (Vector2D * list N * bool) :=
  let '(dp_column, min_recomb_index, found) := acc in
  cc ← require InvariantViolation (ccs !! N.to_nat i);
  let current_cost := get_cost cc in
  let found' := found || (current_cost <? UINT_MAX) in
  '(min, min_index) ←
    foldlM (relax_predecessor (recombcost p) column_index previous_projection_column
              backward_projection_index current_cost i)
      (UINT_MAX, 0) (N_range (transmission_configurations (pedigree p)));
  dp_column' ← Vector2D_set dp_column current_index i min;
  Ok (dp_column', <[N.to_nat i := min_index]> min_recomb_index, found').

(** Lines 412-419: the running optimum of the last column. *)
Definition update_optimum (dp_column : Vector2D) (current_index : N)
    (s : IteratorStep) (min_recomb_index : list N) (o : Optimum) (i : N)
    : result Optimum :=
  d ← Vector2D_at dp_column current_index i;
  if d <? opt_score o then
    m ← require InvariantViolation (min_recomb_index !! N.to_nat i);
    Ok {| opt_score := d; opt_index := get_index s;
          opt_transmission := i; opt_previous_transmission := m |}
  else Ok o.

(** Lines 421-429: the forward projection slot and its backtrace entries. *)
Definition relax_projection (dp_column : Vector2D) (current_index : N)
    (forward_index it_idx : N) (min_recomb_index : list N)
    (tabs : ColumnTables) (i : N) : result ColumnTables :=
  d ← Vector2D_at dp_column current_index i;
  slot ← Vector2D_at (projection_column tabs) forward_index i;
  if d <? slot then
    proj ← Vector2D_set (projection_column tabs) forward_index i d;
    ibt ← Vector2D_set (index_backtrace_column tabs) forward_index i it_idx;
    m ← require InvariantViolation (min_recomb_index !! N.to_nat i);
    tbt ← Vector2D_set (transmission_backtrace_column tabs) forward_index i m;
    Ok {| projection_column := proj; index_backtrace_column := ibt;
          transmission_backtrace_column := tbt |}
  else Ok tabs.

(** Lines 343-431, the body of the loop over the iterator. *)
Definition process_step (p : Params) (column_index : nat)
    (previous_projection_column : option Vector2D)
    (acc : list CC * Vector2D * option ColumnTables * Optimum) (s : IteratorStep)
    : result (list CC * Vector2D * option ColumnTables * Optimum) :=
  let '(ccs0, dp_column, tabs, o) := acc in
  let T := transmission_configurations (pedigree p) in
  let ccs := advance_cost_computers s ccs0 in
  let backward_projection_index :=
    if decide (0 < column_index)%nat then get_backward_projection s else 0 in
  let current_index := get_index s in
  '(dp_column', min_recomb_index, found) ←
    foldlM (relax_pattern p column_index previous_projection_column
              backward_projection_index current_index ccs)
      (dp_column, replicate (N.to_nat T) 0, false) (N_range T);
  if negb found then Err MendelianConflict
  else
    match tabs with
    | None =>
        o' ← foldlM (update_optimum dp_column' current_index s min_recomb_index)
               o (N_range T);
        Ok (ccs, dp_column', None, o')
    | Some tb =>
        tb' ← foldlM (relax_projection dp_column' current_index
                        (get_forward_projection s) (get_index s) min_recomb_index)
                tb (N_range T);
        Ok (ccs, dp_column', Some tb', o)
    end.

(** Lines 301-431: everything [compute_column] computes for a column that is
    not there yet, from the column, its scheme and the previous projection
    column: the tables (none for the last column) and the running optimum. *)
Definition column_pass (p : Params) (sources : list N)
    (partitions : list PedigreePartitions) (column_count column_index : nat)
    (current_indexer : ColumnIndexingScheme) (column : Column)
    (previous_projection_column : option Vector2D) (o : Optimum)
    : result (option ColumnTables * Optimum) :=
  let T := transmission_configurations (pedigree p) in
  let dp_column := Vector2D_new (column_size current_indexer) T 0 in
  let tabs :=
    if decide (column_index + 1 < column_count)%nat then
      Some {| projection_column :=
                Vector2D_new (forward_projection_size current_indexer) T UINT_MAX;
              index_backtrace_column :=
                Vector2D_new (forward_projection_size current_indexer) T UINT_MAX;
              transmission_backtrace_column :=
                Vector2D_new (forward_projection_size current_indexer) T UINT_MAX |}
    else None in
  ccs ← make_cost_computers p sources partitions column column_index;
  '(_, _, tabs', o') ←
    foldlM (process_step p column_index previous_projection_column)
      (ccs, dp_column, tabs, o) (get_iterator current_indexer);
  Ok (tabs', o').

(** Lines 433-438. *)
Definition store_tables (t : PedigreeDPTable) (column_index : nat)
    (tabs : option ColumnTables) : PedigreeDPTable :=
  match tabs with
  | Some tb =>
      with_tables t
        (<[column_index := Some (projection_column tb)]> (projection_column_table t))
        (<[column_index := Some (index_backtrace_column tb)]> (index_backtrace_table t))
        (<[column_index := Some (transmission_backtrace_column tb)]>
           (transmission_backtrace_table t))
  | None => t
  end.

(** Lines 296-299: the column is handed over by the caller or fetched. *)
Definition fetch_column (t : PedigreeDPTable) (column_index : nat)
    (current_input_column : option Column) : result (Column * ColumnIterator) :=
  match current_input_column with
  | Some column => Ok (column, input_column_iterator t)
  | None => get_next (jump_to_column (input_column_iterator t) column_index)
  end.

(** Lines 305-308: the previous projection column, a null pointer when it was
    deleted. *)
Definition previous_projection (t : PedigreeDPTable) (column_index : nat)
    : option Vector2D :=
  if decide (0 < column_index)%nat
  then mjoin (projection_column_table t !! (column_index - 1)%nat)
  else None.

Definition compute_column (p : Params) (t : PedigreeDPTable) (column_index : nat)
    (current_input_column : option Column) : result PedigreeDPTable :=
  _ ← assert (bool_decide
                (column_index < get_column_count (input_column_iterator t))%nat);
  there ← require InvariantViolation (projection_column_table t !! column_index);
  match there with
  | Some _ =>
      _ ← assert (bool_decide
                    (is_Some (mjoin (index_backtrace_table t !! column_index))));
      _ ← assert (bool_decide
                    (is_Some (mjoin (transmission_backtrace_table t !! column_index))));
      Ok t
  | None =>
      current_indexer ← require InvariantViolation (mjoin (indexers t !! column_index));
      '(column, it) ← fetch_column t column_index current_input_column;
      '(tabs, o) ←
        column_pass p (read_sources t) (pedigree_partitions t)
          (get_column_count it) column_index current_indexer column
          (previous_projection t column_index) (optimum_of t);
      Ok (store_tables (with_optimum (with_iterator t it) o) column_index tabs)
  end.

(** *** compute_table *)

(** Deleting the three tables of a column (lines 192-197 and 255-260). *)
Definition release_tables (t : PedigreeDPTable) (j : nat) : PedigreeDPTable :=
  with_tables t
    (<[j := None]> (projection_column_table t))
    (<[j := None]> (index_backtrace_table t))
    (<[j := None]> (transmission_backtrace_table t)).

(** The local variables of the forward loop that live across its rounds. *)
Record ForwardState : Type := {
  fw_table : PedigreeDPTable;
  next_input_column : option Column;
  next_read_ids : option (list N);
  next_indexer : option ColumnIndexingScheme
}.

(** Lines 175-186: peek ahead and get the next column; its scheme is built
    from the current one, which is completed with it. *)
Definition peek_next_column (p : Params) (fs : ForwardState) (column_index : nat)
    : result ForwardState :=
  let t := fw_table fs in
  let current_indexer := next_indexer fs in
  if has_next (input_column_iterator t) then
    '(column, it) ← get_next (input_column_iterator t);
    let read_ids := extract_read_ids column in
    current ← require InvariantViolation current_indexer;
    let next := scheme_new (Some current) read_ids (ploidy p) in
    Ok {| fw_table :=
            with_indexers (with_iterator t it)
              (<[S column_index := Some next]>
                 (<[column_index := Some (set_next_column current next)]>
                    (indexers t)));
          next_input_column := Some column;
          next_read_ids := Some read_ids;
          next_indexer := Some next |}
  else
    Ok {| fw_table := t; next_input_column := None;
          next_read_ids := None; next_indexer := None |}.

(** Lines 190-198: the tables of the previous column are deleted unless it is
    a checkpoint. *)
Definition release_previous (k : nat) (t : PedigreeDPTable) (column_index : nat)
    : PedigreeDPTable :=
  if bool_decide (1 < k)%nat && bool_decide (0 < column_index)%nat
     && negb (bool_decide ((column_index - 1) `mod` k = 0)%nat)
  then release_tables t (column_index - 1)%nat
  else t.

(** Lines 169-199, the body of the forward loop; [k] is the checkpoint
    stride. *)
Definition forward_step (p : Params) (k : nat) (fs : ForwardState)
    (column_index : nat) : result ForwardState :=
  let current_input_column := next_input_column fs in
  fs1 ← peek_next_column p fs column_index;
  t2 ← compute_column p (fw_table fs1) column_index current_input_column;
  Ok {| fw_table := release_previous k t2 column_index;
        next_input_column := next_input_column fs1;
        next_read_ids := next_read_ids fs1; next_indexer := next_indexer fs1 |}.

(** Lines 158-166: the state in which the forward loop starts. *)
Definition forward_start (p : Params) (t : PedigreeDPTable) : result ForwardState :=
  '(column, it) ← get_next (jump_to_column (input_column_iterator t) 0);
  let read_ids := extract_read_ids column in
  let next := scheme_new None read_ids (ploidy p) in
  Ok {| fw_table := with_indexers (with_iterator t it) (<[0%nat := Some next]> (indexers t));
        next_input_column := Some column;
        next_read_ids := Some read_ids;
        next_indexer := Some next |}.

(** The forward loop run for its first [m] columns. *)
Definition forward_upto (p : Params) (k : nat) (fs : ForwardState) (m : nat)
    : result ForwardState :=
  foldlM (forward_step p k) fs (seq 0 m).

(** The checkpoint stride, [(size_t) sqrt(column_count)]. *)
Definition checkpoint_stride (column_count : nat) : nat := Nat.sqrt column_count.

(** The forward sweep: lines 158-199. *)
Definition forward_sweep (p : Params) (t : PedigreeDPTable) : result ForwardState :=
  let n := get_column_count (input_column_iterator t) in
  fs ← forward_start p t;
  forward_upto p (checkpoint_stride n) fs n.

(** The local variables of the backtrace loop. *)
Record BacktraceState : Type := {
  bt_table : PedigreeDPTable;
  bt_v : index_and_inheritance_t;
  prev_inheritance_value : N
}.

(** Lines 214-221: make sure that the tables of column [i-1] exist. *)
Definition ensure_tables (p : Params) (k : nat) (t : PedigreeDPTable) (i : nat)
    : result PedigreeDPTable :=
  there ← require InvariantViolation (projection_column_table t !! (i - 1)%nat);
  match there with
  | Some _ => Ok t
  | None =>
      let j := ((i - 1) / k * k)%nat in
      _ ← assert (bool_decide (is_Some (mjoin (projection_column_table t !! j))));
      foldlM (λ t' j', compute_column p t' j' None) t (seq (j + 1) (i - (j + 1)))
  end.

(** Lines 252-262: free the block of tables that starts at a checkpoint. *)
Definition free_block (k : nat) (t : PedigreeDPTable) (i : nat) : result PedigreeDPTable :=
  if bool_decide (i `mod` k = 0)%nat then
    let stop := Nat.min (i + k) (get_column_count (input_column_iterator t) - 1) in
    foldlM (λ t' j,
        _ ← assert (bool_decide (is_Some (mjoin (projection_column_table t' !! j))));
        Ok (release_tables t' j))
      t (seq i (stop - i))
  else Ok t.

(** Lines 212-263, the body of the backtrace loop, for column [i > 0]. *)
Definition backtrace_step (p : Params) (k : nat) (i : nat) (bs : BacktraceState)
    : result BacktraceState :=
  t1 ← ensure_tables p k (bt_table bs) i;
  indexer ← require InvariantViolation (mjoin (indexers t1 !! i));
  let backtrace_index := wrap32 (index_backward_projection indexer (index (bt_v bs))) in
  ibt ← require InvariantViolation (mjoin (index_backtrace_table t1 !! (i - 1)%nat));
  new_index ← Vector2D_at ibt backtrace_index (prev_inheritance_value bs);
  let v := {| index := new_index; inheritance_value := prev_inheritance_value bs |} in
  tbt ← require InvariantViolation (mjoin (transmission_backtrace_table t1 !! (i - 1)%nat));
  prev ← Vector2D_at tbt backtrace_index (inheritance_value v);
  let t2 := with_index_path t1 (<[(i - 1)%nat := v]> (index_path t1)) in
  t3 ← free_block k t2 i;
  Ok {| bt_table := t3; bt_v := v; prev_inheritance_value := prev |}.

(** The loop [for (i = from; i > 0; --i)]. *)
Fixpoint backtrace_loop (p : Params) (k : nat) (from : nat) (bs : BacktraceState)
    : result BacktraceState :=
  match from with
  | O => Ok bs
  | S i' => bs' ← backtrace_step p k (S i') bs; backtrace_loop p k i' bs'
  end.

(** Lines 202-207: the state in which the backtrace starts. *)
Definition backtrace_start (t : PedigreeDPTable) : BacktraceState :=
  let v := {| index := optimal_score_index t;
              inheritance_value := optimal_transmission_value t |} in
  let path := replicate (length (indexers t)) {| index := 0; inheritance_value := 0 |} in
  {| bt_table := with_index_path t (<[(length (indexers t) - 1)%nat := v]> path);
     bt_v := v;
     prev_inheritance_value := previous_transmission_value t |}.

Definition compute_table (p : Params) (t : PedigreeDPTable) : result PedigreeDPTable :=
  let t0 := clear_table t in
  let n := get_column_count (input_column_iterator t0) in
  if bool_decide (n = 0)%nat then
    Ok (with_optimum t0
          {| opt_score := 0; opt_index := 0;
             opt_transmission := optimal_transmission_value t0;
             opt_previous_transmission := previous_transmission_value t0 |})
  else
    fs ← forward_sweep p t0;
    let t1 := fw_table fs in
    bs ← backtrace_loop p (checkpoint_stride n) (length (indexers t1) - 1)
           (backtrace_start t1);
    Ok (bt_table bs).

(** *** set_index_path *)

(** [read_to_partition[id]]: reading a key that is absent enters it with the
    value 0. *)
Definition partition_of (m : gmap N N) (id : N) : N * gmap N N :=
  match m !! id with
  | Some x => (x, m)
  | None => (0, <[id := 0]> m)
  end.

(** Lines 120-126: the partitioning of the reads of a column, packed in base
    [ploidy] into an [unsigned int]. *)
Definition pack_step (ploidy : N) (acc : N * N * gmap N N) (id : N) : N * N * gmap N N :=
  let '(partitioning, offset, m) := acc in
  let '(x, m') := partition_of m id in
  (wrap32 (partitioning + wrap32 (x * offset)), wrap32 (offset * ploidy), m').

Definition pack_partitioning (ploidy : N) (m : gmap N N) (read_ids : list N)
    : N * gmap N N :=
  let '(partitioning, _, m') := foldl (pack_step ploidy) (0, 1, m) read_ids in
  (partitioning, m').

Definition with_read_to_partition (t : PedigreeDPTable) (m : gmap N N) : PedigreeDPTable :=
  {| read_set := read_set t;
     optimal_score := optimal_score t;
     optimal_score_index := optimal_score_index t;
     optimal_transmission_value := optimal_transmission_value t;
     previous_transmission_value := previous_transmission_value t;
     input_column_iterator := input_column_iterator t;
     pedigree_partitions := pedigree_partitions t;
     read_sources := read_sources t;
     read_to_partition := m;
     projection_column_table := projection_column_table t;
     index_backtrace_table := index_backtrace_table t;
     transmission_backtrace_table := transmission_backtrace_table t;
     indexers := indexers t;
     index_path := index_path t |}.

Definition with_optimal_score (t : PedigreeDPTable) (score : N) : PedigreeDPTable :=
  with_optimum t
    {| opt_score := score; opt_index := optimal_score_index t;
       opt_transmission := optimal_transmission_value t;
       opt_previous_transmission := previous_transmission_value t |}.

(** The cost of a column for a given entry of the index path (lines 136-138
    and 481-482): a fresh cost computer set to the partitioning. *)
Definition path_cost_computer (p : Params) (t : PedigreeDPTable) (column : Column)
    (column_index : nat) (v : index_and_inheritance_t) : result CC :=
  pp ← require InvariantViolation
         (pedigree_partitions t !! N.to_nat (inheritance_value v));
  ac ← require PreconditionViolation (allele_counts p !! column_index);
  Ok (set_partitioning
        (cc_new column column_index (read_sources t) (pedigree p) pp
                (distrust_genotypes p) ac)
        (index v)).

(** Lines 118-144, the body of the loop over the columns. *)
Definition set_index_path_step (p : Params)
    (acc : PedigreeDPTable * Column * list N) (column_index : nat)
    : result (PedigreeDPTable * Column * list N) :=
  let '(t, current_input_column, current_read_ids) := acc in
  let '(partitioning, m) :=
    pack_partitioning (ploidy p) (read_to_partition t) current_read_ids in
  let v := {| index := partitioning; inheritance_value := 0 |} in
  let t1 := with_index_path (with_read_to_partition t m)
              (<[column_index := v]> (index_path t)) in
  cc ← path_cost_computer p t1 current_input_column column_index v;
  let t2 := with_optimal_score t1 (wrap32 (optimal_score t1 + get_cost cc)) in
  if has_next (input_column_iterator t2) then
    '(column, it) ← get_next (input_column_iterator t2);
    Ok (with_iterator t2 it, column, extract_read_ids column)
  else Ok (t2, current_input_column, current_read_ids).

Definition set_index_path (p : Params) (t : PedigreeDPTable) : result PedigreeDPTable :=
  let t0 := with_optimum (clear_table t)
              {| opt_score := 0; opt_index := 0;
                 opt_transmission := 0; opt_previous_transmission := 0 |} in
  let column_count := get_column_count (input_column_iterator t0) in
  if bool_decide (column_count = 0)%nat then Ok t0
  else
    '(column, it) ← get_next (jump_to_column (input_column_iterator t0) 0);
    let t1 := with_index_path (with_iterator t0 it)
                (replicate column_count {| index := 0; inheritance_value := 0 |}) in
    '(t2, _, _) ←
      foldlM (set_index_path_step p) (t1, column, extract_read_ids column)
        (seq 0 column_count);
    Ok t2.

(** *** The constructor *)

(** The key under which a read is entered into [read_to_partition]: its id. *)
Definition read_key (r : Read) : N := Z.to_N (getID r).

(** Lines 17-37: the members after the initializer list and the two loops
    that fill [pedigree_partitions] and [read_sources]. *)
Definition initial_table (reads : ReadSet) (p : Params) (positions : option (list N))
    (sources : list N) : PedigreeDPTable :=
  {| read_set := reads;
     optimal_score := 0;
     optimal_score_index := 0;
     optimal_transmission_value := 0;
     previous_transmission_value := 0;
     input_column_iterator := ColumnIterator_new reads positions;
     pedigree_partitions :=
       (λ i, {| pp_pedigree := pedigree p; pp_inheritance := i; pp_ploidy := ploidy p |})
         <$> N_range (transmission_configurations (pedigree p));
     read_sources := sources;
     read_to_partition := ∅;
     projection_column_table := [];
     index_backtrace_table := [];
     transmission_backtrace_table := [];
     indexers := [];
     index_path := [] |}.

(** Lines 35-37: the individual of every read. *)
Definition translate_sources (p : Params) (reads : ReadSet) : result (list N) :=
  foldlM (λ acc r, s ← id_to_index (pedigree p) (getSampleID r); Ok (acc ++ [s]))
    [] reads.

(** Lines 43-45: the map from read id to assigned partition.  The read of
    entry [i] of [precomputed_partitioning] at line 44 is unchecked in the
    code. *)
Definition assign_reads (reads : ReadSet) (partitioning : list N) : result (gmap N N) :=
  foldlM (λ m i,
      r ← require InvariantViolation (reads !! i);
      x ← require PreconditionViolation (partitioning !! i);
      Ok (<[read_key r := x]> m))
    ∅ (seq 0 (length reads)).

(** Lines 16-48.  The read set of the caller is changed in place, so it is
    returned next to the outcome of the construction. *)
Definition PedigreeDPTable_new (reads : ReadSet) (p : Params)
    (positions : option (list N)) (precomputed_partitioning : option (list N))
    : ReadSet * result PedigreeDPTable :=
  let reads' := reassignReadIds reads in
  (reads',
   sources ← translate_sources p reads';
   let t := initial_table reads' p positions sources in
   match precomputed_partitioning with
   | None => compute_table p t
   | Some partitioning =>
       m ← assign_reads reads' partitioning;
       set_index_path p (with_read_to_partition t m)
   end).

(** *** The accessors *)

Definition get_optimal_score (t : PedigreeDPTable) : N := optimal_score t.

(** Lines 464-471: the empty super-reads, [ploidy] for each individual. *)
Definition new_superreads (p : Params) : result (list (list Read)) :=
  foldlM (λ acc i,
      sample ← index_to_id (pedigree p) i;
      Ok (acc ++ [(λ j, Read_new ("superread_" +:+ pretty j +:+ "_" +:+ pretty i)
                                 (-1) (-1) sample) <$> N_range (ploidy p)]))
    [] (seq 0 (Pedigree_size (pedigree p))).

(** Line 485, [int n_alleles = allele_counts->at(i)]: the conversion of an
    [unsigned int] to [int]. *)
Definition to_int (x : N) : Z :=
  if wrap32 x <? 2 ^ 31 then Z.of_N (wrap32 x) else (Z.of_N (wrap32 x) - 2 ^ 32)%Z.

(** Line 490, [std::vector<unsigned int> qualities(n_alleles, 10)]: a negative
    [int] becomes a size beyond [max_size()] and the vector throws. *)
Definition new_qualities (n_alleles : Z) : result unit :=
  if (n_alleles <? 0)%Z then Err PreconditionViolation else Ok tt.

(** Lines 490-493: quality 10 for every allele but the chosen one. *)
Definition allele_qualities (n_alleles : Z) (allele : Z) : list N :=
  (λ a, if (Z.of_nat a =? allele)%Z then 0 else 10) <$> seq 0 (Z.to_nat n_alleles).

(** Lines 488-496: one variant for every super-read. *)
Definition add_variants (p : Params) (position : N) (n_alleles : Z)
    (population_alleles : list (list Z)) (superreads : list (list Read))
    : result (list (list Read)) :=
  foldlM (λ sr k,
      foldlM (λ sr' j,
          _ ← new_qualities n_alleles;
          alleles ← require InvariantViolation (population_alleles !! k);
          a ← require InvariantViolation (alleles !! N.to_nat j);
          reads ← require InvariantViolation (sr' !! k);
          r ← require InvariantViolation (reads !! N.to_nat j);
          Ok (<[k := <[N.to_nat j := addVariant r position a
                                       (allele_qualities n_alleles a)]> reads]> sr'))
        sr (N_range (ploidy p)))
    superreads (seq 0 (Pedigree_size (pedigree p))).

(** Lines 478-500: the loop [while (input_column_iterator.has_next())]; the
    iterator is at column [i] and [rounds] columns remain. *)
Fixpoint super_reads_loop (p : Params) (t : PedigreeDPTable) (positions : list N)
    (rounds : nat) (i : nat) (superreads : list (list Read))
    (transmission_vector : list N)
    : result (PedigreeDPTable * list (list Read) * list N) :=
  match rounds with
  | O => Ok (t, superreads, transmission_vector)
  | S rounds' =>
      if has_next (input_column_iterator t) then
        v ← require InvariantViolation (index_path t !! i);
        '(column, it) ← get_next (input_column_iterator t);
        let t' := with_iterator t it in
        cc ← path_cost_computer p t' column i v;
        let population_alleles := get_alleles cc in
        n_alleles ← require PreconditionViolation (allele_counts p !! i);
        position ← require PreconditionViolation (positions !! i);
        superreads' ← add_variants p position (to_int n_alleles) population_alleles
                        superreads;
        super_reads_loop p t' positions rounds' (S i) superreads'
          (transmission_vector ++ [inheritance_value v])
      else Ok (t, superreads, transmission_vector)
  end.

(** Lines 502-507: hand the super-reads to the read sets of the caller. *)
Definition deliver_superreads (p : Params) (superreads : list (list Read))
    (output_read_set : list ReadSet) : result (list ReadSet) :=
  foldlM (λ out k,
      foldlM (λ out' j,
          rs ← require InvariantViolation (out' !! k);
          reads ← require InvariantViolation (superreads !! k);
          r ← require InvariantViolation (reads !! N.to_nat j);
          Ok (<[k := ReadSet_add rs r]> out'))
        out (N_range (ploidy p)))
    output_read_set (seq 0 (Pedigree_size (pedigree p))).

(** Lines 455-508.  The engine (its iterator), the read sets of the caller and
    the transmission vector of the caller are changed. *)
Definition get_super_reads (p : Params) (t : PedigreeDPTable)
    (output_read_set : list ReadSet) (transmission_vector : list N)
    : result (PedigreeDPTable * list ReadSet * list N) :=
  _ ← assert (bool_decide (length output_read_set = Pedigree_size (pedigree p)));
  let t0 := with_iterator t (jump_to_column (input_column_iterator t) 0) in
  let positions := get_positions (input_column_iterator t0) in
  superreads ← new_superreads p;
  '(t1, superreads', tv) ←
    (if bool_decide (index_backtrace_table t0 = []) then
       _ ← assert (negb (has_next (input_column_iterator t0)));
       Ok (t0, superreads, [])
     else
       super_reads_loop p t0 positions (get_column_count (input_column_iterator t0))
         0 superreads []);
  out ← deliver_superreads p superreads' output_read_set;
  Ok (t1, out, tv).

(** Lines 514-518, the loop over the reads of one column. *)
Definition assign_partitions (ploidy : N) (acc : list N * N) (read_id : N)
    : result (list N * N) :=
  let '(partitioning, index) := acc in
  _ ← assert (negb (ploidy =? 0));
  let partition := index mod ploidy in
  _ ← require InvariantViolation (partitioning !! N.to_nat read_id);
  Ok (<[N.to_nat read_id := partition]> partitioning, index / ploidy).

(** Lines 510-521. *)
Definition get_optimal_partitioning (p : Params) (t : PedigreeDPTable)
    : result (list N) :=
  foldlM (λ partitioning i,
      v ← require InvariantViolation (index_path t !! i);
      indexer ← require InvariantViolation (mjoin (indexers t !! i));
      '(partitioning', _) ←
        foldlM (assign_partitions (ploidy p)) (partitioning, index v)
          (get_read_ids indexer);
      Ok partitioning')
    (replicate (length (read_set t)) 0) (seq 0 (length (index_path t))).

End Engine.

(** ** A small instance of the collaborators

    The engine is verified for every indexing scheme, cost computer and
    reader.  The examples below run it on this instance: partitionings are
    walked in counting order, the cost of a column is read from a table, and
    the columns are the variants of the reads at the given positions. *)
Module Toy.

(** The digit of [index] for the read at position [pos] of a column. *)
Definition digit (ploidy : N) (index : N) (pos : nat) : N :=
  (index / ploidy ^ N.of_nat pos) mod ploidy.

Fixpoint pack_digits (ploidy : N) (ds : list N) : N :=
  match ds with
  | [] => 0
  | d :: ds' => d + ploidy * pack_digits ploidy ds'
  end.

(** The positions of the reads of [ids] that are also in [other]. *)
Definition shared_positions (ids other : list N) : list nat :=
  (λ '(pos, _), pos) <$>
    filter (λ '(_, r), r ∈ other) (imap (λ pos r, (pos, r)) ids).

(** The partitioning [index] restricted to the reads at [positions]. *)
Definition project (ploidy : N) (positions : list nat) (index : N) : N :=
  pack_digits ploidy (digit ploidy index <$> positions).

(** Counting order: a step changes the first read only, or sets afresh. *)
Definition walk_step (ploidy : N) (backward : list nat) (k : N) : IteratorStep :=
  let fresh := (k =? 0) || (k mod ploidy =? 0) in
  {| bit_changed := if fresh then (-1)%Z else 0%Z;
     partition_changed := if fresh then (-1)%Z else Z.of_N (k mod ploidy);
     get_partition := k;
     get_index := k;
     get_backward_projection := project ploidy backward k;
     get_forward_projection := 0 |}.

Definition with_forward (ploidy : N) (forward : list nat) (s : IteratorStep)
    : IteratorStep :=
  {| bit_changed := bit_changed s;
     partition_changed := partition_changed s;
     get_partition := get_partition s;
     get_index := get_index s;
     get_backward_projection := get_backward_projection s;
     get_forward_projection := project ploidy forward (get_index s) |}.

Definition toy_scheme_new (previous : option ColumnIndexingScheme)
    (read_ids : list N) (ploidy : N) : ColumnIndexingScheme :=
  let backward :=
    match previous with
    | Some prev => shared_positions read_ids (get_read_ids prev)
    | None => []
    end in
  let size := ploidy ^ N.of_nat (length read_ids) in
  {| scheme_ploidy := ploidy;
     get_read_ids := read_ids;
     column_size := size;
     forward_projection_size := 0;
     get_iterator := walk_step ploidy backward <$> N_range size;
     index_backward_projection := project ploidy backward |}.

Definition toy_set_next_column (current next : ColumnIndexingScheme)
    : ColumnIndexingScheme :=
  let forward := shared_positions (get_read_ids current) (get_read_ids next) in
  {| scheme_ploidy := scheme_ploidy current;
     get_read_ids := get_read_ids current;
     column_size := column_size current;
     forward_projection_size := scheme_ploidy current ^ N.of_nat (length forward);
     get_iterator := with_forward (scheme_ploidy current) forward <$> get_iterator current;
     index_backward_projection := index_backward_projection current |}.

Global Instance toy_indexing : IndexingScheme :=
  {| scheme_new := toy_scheme_new; set_next_column := toy_set_next_column |}.

(** A cost computer that reads the cost of (column, pattern, partitioning)
    from a table; every haplotype of every individual gets the allele 0 or 1
    that is the parity of the partitioning and the haplotype. *)
Record ToyCC : Type := {
  tc_cost : N → N;
  tc_ploidy : N;
  tc_individuals : nat;
  tc_partitioning : N
}.

Definition toy_cc_new (costs : nat → N → N → N) (column : Column)
    (column_index : nat) (sources : list N) (ped : Pedigree)
    (pp : PedigreePartitions) (distrust : bool) (allele_count : N) : ToyCC :=
  {| tc_cost := costs column_index (pp_inheritance pp);
     tc_ploidy := pp_ploidy pp;
     tc_individuals := Pedigree_size ped;
     tc_partitioning := 0 |}.

Definition toy_set_partitioning (c : ToyCC) (partitioning : N) : ToyCC :=
  {| tc_cost := tc_cost c; tc_ploidy := tc_ploidy c;
     tc_individuals := tc_individuals c; tc_partitioning := partitioning |}.

(** The read [bit] moves to the partition [partition]. *)
Definition toy_update_partitioning (c : ToyCC) (bit partition : Z) : ToyCC :=
  let weight := tc_ploidy c ^ Z.to_N bit in
  let old := digit (tc_ploidy c) (tc_partitioning c) (Z.to_nat bit) in
  toy_set_partitioning c
    (tc_partitioning c - old * weight + Z.to_N partition * weight).

Definition toy_get_alleles (c : ToyCC) : list (list Z) :=
  replicate (tc_individuals c)
    ((λ j, Z.of_N ((tc_partitioning c + j) mod 2)) <$> N_range (tc_ploidy c)).

Definition toy_cost_computer (costs : nat → N → N → N) : CostComputer ToyCC :=
  {| cc_new := toy_cc_new costs;
     set_partitioning := toy_set_partitioning;
     update_partitioning := toy_update_partitioning;
     get_cost_raw := λ c, tc_cost c (tc_partitioning c);
     get_alleles := toy_get_alleles |}.

(** The column of a position: one entry for every read that has a variant at
    this position, in the order of the read set. *)
Definition entry_at (position : N) (r : Read) : option Entry :=
  '(_, allele, qualities) ← list_find (λ '(pos, _, _), pos = position) (getVariants r) ≫= (λ x, Some x.2);
  Some {| get_read_id := Z.to_N (getID r);
          get_allele_type := allele;
          get_phred_score := default 0 (head qualities) |}.

Definition column_at (rs : ReadSet) (position : N) : Column :=
  omap (entry_at position) rs.

(** The positions of the caller, or the sorted positions of all variants of
    the read set when none are given. *)
Definition toy_positions (rs : ReadSet) (positions : option (list N)) : list N :=
  default
    (merge_sort N.le (remove_dups (rs ≫= λ r, (λ v, v.1.1) <$> getVariants r)))
    positions.

Global Instance toy_reader : ColumnReader :=
  {| read_columns := λ rs positions, column_at rs <$> toy_positions rs positions;
     read_positions := toy_positions |}.

End Toy.

(** ** What the member functions leave alone *)

(** The read set, the read sources, the pedigree partitions and the columns
    and positions behind the iterator are fixed once the engine is set up. *)
Definition same_frame (t t' : PedigreeDPTable) : Prop :=
  read_set t' = read_set t ∧
  read_sources t' = read_sources t ∧
  pedigree_partitions t' = pedigree_partitions t ∧
  it_columns (input_column_iterator t') = it_columns (input_column_iterator t) ∧
  it_positions (input_column_iterator t') = it_positions (input_column_iterator t).

(** ** The columns seen from outside the sweep

    What the sweep does to a column depends on the column, on its indexing
    scheme and on the previous projection column only.  The definitions of
    this section give these as functions of the input; the properties below
    show that the sweep uses them. *)
Section Reference.
Context `{IndexingScheme} `{CostComputer CC}.

(** The schemes in the order of their construction (lines 164 and 179): each
    is built from its predecessor, before [set_next_column] is called on the
    predecessor. *)
Fixpoint raw_schemes (ploidy : N) (previous : option ColumnIndexingScheme)
    (cols : list Column) : list ColumnIndexingScheme :=
  match cols with
  | [] => []
  | col :: cols' =>
      let s := scheme_new previous (extract_read_ids col) ploidy in
      s :: raw_schemes ploidy (Some s) cols'
  end.

(** The scheme of column [c] when [compute_column] runs on it: completed by
    [set_next_column] unless the column is the last one. *)
Definition scheme_of_column (ploidy : N) (cols : list Column) (c : nat)
    : option ColumnIndexingScheme :=
  s ← raw_schemes ploidy None cols !! c;
  Some (match raw_schemes ploidy None cols !! S c with
        | Some next => set_next_column s next
        | None => s
        end).

(** The costs that the cost computers report along the walk of the iterator:
    one row for each step, one cell for each inheritance pattern. *)
Fixpoint walk_costs (ccs : list CC) (steps : list IteratorStep) : list (list N) :=
  match steps with
  | [] => []
  | s :: steps' =>
      let ccs' := advance_cost_computers s ccs in
      (get_cost <$> ccs') :: walk_costs ccs' steps'
  end.

(** The cost cells [(index, i)] of column [c]. *)
Definition cost_cells (p : Params) (t : PedigreeDPTable) (c : nat)
    : option (list (list N)) :=
  column ← it_columns (input_column_iterator t) !! c;
  indexer ← scheme_of_column (ploidy p) (it_columns (input_column_iterator t)) c;
  match make_cost_computers p (read_sources t) (pedigree_partitions t) column c with
  | Ok ccs => Some (walk_costs ccs (get_iterator indexer))
  | Err _ => None
  end.

(** A row without a finite cost: every pattern has the sentinel. *)
Definition all_infinite (row : list N) : Prop := Forall (λ x, x = UINT_MAX) row.

(** The conflict as the specification states it: it is raised exactly when
    some column has no finite cell at all. *)
Definition conflict_of_whole_column (p : Params) (t : PedigreeDPTable) : Prop :=
  ∃ c cells, (c < get_column_count (input_column_iterator t))%nat ∧
    cost_cells p t c = Some cells ∧ Forall all_infinite cells.

(** The conflict as the code tests it, at the end of every step of the
    walk: some step of some column has no finite cell. *)
Definition conflict_of_some_step (p : Params) (t : PedigreeDPTable) : Prop :=
  ∃ c cells, (c < get_column_count (input_column_iterator t))%nat ∧
    cost_cells p t c = Some cells ∧ Exists all_infinite cells.

(** The contract of [get_cost] (section 4.3 of the specification): the cost
    is the sentinel when no allele assignment agrees with the genotype
    constraints of the pedigree, and the partitioning of the reads has no
    part in this.  Along the walk of a column a pattern then has the sentinel
    at every step or at none. *)
Definition sentinel_by_pattern (p : Params) (t : PedigreeDPTable) : Prop :=
  ∀ c cells row row' i, cost_cells p t c = Some cells →
    row ∈ cells → row' ∈ cells →
    row !! i = Some UINT_MAX → row' !! i = Some UINT_MAX.

(** The same contract on the interface of the cost computer: neither
    [set_partitioning] nor [update_partitioning] makes a cost the sentinel or
    makes it finite. *)
Definition sentinel_kept : Prop :=
  (∀ (cc : CC) partitioning,
     get_cost (set_partitioning cc partitioning) = UINT_MAX ↔ get_cost cc = UINT_MAX) ∧
  (∀ (cc : CC) bit partition,
     get_cost (update_partitioning cc bit partition) = UINT_MAX ↔
     get_cost cc = UINT_MAX).

(** The walk of every column has a step: a scheme enumerates the
    [ploidy ^ reads] partitionings of its column. *)
Definition walks_nonempty (p : Params) (t : PedigreeDPTable) : Prop :=
  ∀ c indexer,
    scheme_of_column (ploidy p) (it_columns (input_column_iterator t)) c = Some indexer →
    get_iterator indexer ≠ [].

(** The tables of a result of [column_pass]. *)
Definition pass_tables (r : result (option ColumnTables * Optimum))
    : option ColumnTables :=
  match r with
  | Ok (Some tb, _) => Some tb
  | _ => None
  end.

Definition no_optimum : Optimum :=
  {| opt_score := UINT_MAX; opt_index := 0; opt_transmission := 0;
     opt_previous_transmission := 0 |}.

(** The tables of column [c] when no table is ever deleted: column 0 is
    computed without a predecessor, column [c+1] from the projection column
    of column [c]. *)
Fixpoint reference_tables (p : Params) (t : PedigreeDPTable) (c : nat)
    : option ColumnTables :=
  let cols := it_columns (input_column_iterator t) in
  match c with
  | O =>
      column ← cols !! 0%nat;
      indexer ← scheme_of_column (ploidy p) cols 0;
      pass_tables (column_pass p (read_sources t) (pedigree_partitions t)
                     (length cols) 0 indexer column None no_optimum)
  | S c' =>
      prev ← reference_tables p t c';
      column ← cols !! c;
      indexer ← scheme_of_column (ploidy p) cols c;
      pass_tables (column_pass p (read_sources t) (pedigree_partitions t)
                     (length cols) c indexer column
                     (Some (projection_column prev)) no_optimum)
  end.

End Reference.

(** The three tables of column [j] are there and are [tb]. *)
Definition has_tables (t : PedigreeDPTable) (j : nat) (tb : ColumnTables) : Prop :=
  projection_column_table t !! j = Some (Some (projection_column tb)) ∧
  index_backtrace_table t !! j = Some (Some (index_backtrace_column tb)) ∧
  transmission_backtrace_table t !! j = Some (Some (transmission_backtrace_column tb)).

(** The three tables of column [j] are null pointers. *)
Definition no_tables (t : PedigreeDPTable) (j : nat) : Prop :=
  projection_column_table t !! j = Some None ∧
  index_backtrace_table t !! j = Some None ∧
  transmission_backtrace_table t !! j = Some None.

(** Column [j] is a checkpoint of the forward sweep with stride [k]: its
    tables are not deleted (line 191). *)
Definition checkpoint (k j : nat) : Prop := ¬ ((1 < k)%nat ∧ (j `mod` k ≠ 0)%nat).

Global Instance checkpoint_dec (k j : nat) : Decision (checkpoint k j).
Proof. unfold checkpoint. apply _. Defined.

Section Invariants.
Context `{IndexingScheme} `{CostComputer CC}.

(** The pass over column [c] with the running optimum [o], when the tables
    of column [c-1] are the reference ones. *)
Definition reference_pass (p : Params) (t : PedigreeDPTable) (c : nat) (o : Optimum)
    : result (option ColumnTables * Optimum) :=
  let cols := it_columns (input_column_iterator t) in
  column ← require InvariantViolation (cols !! c);
  indexer ← require InvariantViolation (scheme_of_column (ploidy p) cols c);
  prev ← match c with
         | O => Ok None
         | S c' =>
             tb ← require InvariantViolation (reference_tables p t c');
             Ok (Some (projection_column tb))
         end;
  column_pass p (read_sources t) (pedigree_partitions t) (length cols) c
    indexer column prev o.

(** The three table vectors have one entry for each column. *)
Definition tables_sized (n : nat) (t : PedigreeDPTable) : Prop :=
  length (projection_column_table t) = n ∧
  length (index_backtrace_table t) = n ∧
  length (transmission_backtrace_table t) = n.

(** The state of the forward loop before the round of column [m], for the
    engine that was set up as [t0] and the checkpoint stride [k]: the
    iterator is one column ahead, the schemes of the columns before [m] are
    complete, the tables of the columns from [m] on do not exist yet, and of
    the columns before [m] exactly the checkpoints and column [m-1] have
    their tables, which are the reference ones. *)
Definition forward_inv (p : Params) (t0 : PedigreeDPTable) (k m : nat)
    (fs : ForwardState) : Prop :=
  let t := fw_table fs in
  let cols := it_columns (input_column_iterator t0) in
  let n := length cols in
  let raw := raw_schemes (ploidy p) None cols in
  same_frame t0 t ∧
  it_next (input_column_iterator t) = Nat.min (S m) n ∧
  next_input_column fs = cols !! m ∧
  next_indexer fs = raw !! m ∧
  length (indexers t) = n ∧
  (∀ j, (j < m)%nat → indexers t !! j = Some (scheme_of_column (ploidy p) cols j)) ∧
  ((m < n)%nat → indexers t !! m = Some (raw !! m)) ∧
  tables_sized n t ∧
  (∀ j, (m ≤ j < n)%nat → no_tables t j) ∧
  (∀ j, (j < m)%nat →
     if decide ((S j < n)%nat ∧ (checkpoint k j ∨ S j = m))
     then ∃ tb, reference_tables p t0 j = Some tb ∧ has_tables t j tb
     else no_tables t j).

End Invariants.

(** The state in which [clear_table] leaves the pointer vectors: one null
    pointer for each column. *)
Definition cleared (t : PedigreeDPTable) : Prop :=
  let n := get_column_count (input_column_iterator t) in
  tables_sized n t ∧ length (indexers t) = n ∧ ∀ j, (j < n)%nat → no_tables t j.

Section BackwardInvariant.
Context `{IndexingScheme} `{CostComputer CC} `{ColumnReader}.

(** Column [j] has the reference tables. *)
Definition has_reference_tables (p : Params) (t0 t : PedigreeDPTable) (j : nat) : Prop :=
  ∃ tb, reference_tables p t0 j = Some tb ∧ has_tables t j tb.

(** The state of the backward sweep before the round of column [i]: every
    column has its scheme; the tables of a column are null pointers or the
    reference tables; the checkpoints before [i] have their tables. *)
Definition backward_inv (p : Params) (t0 : PedigreeDPTable) (k i : nat)
    (t : PedigreeDPTable) : Prop :=
  let cols := it_columns (input_column_iterator t0) in
  let n := length cols in
  same_frame t0 t ∧
  tables_sized n t ∧
  (∀ j, (j < n)%nat → indexers t !! j = Some (scheme_of_column (ploidy p) cols j)) ∧
  (∀ j, (j < n)%nat → no_tables t j ∨ has_reference_tables p t0 t j) ∧
  (∀ j, (j < i)%nat → (S j < n)%nat → checkpoint k j → has_reference_tables p t0 t j).

(** The backtrace loop that is about to run the round of column [i] in the
    state [bs] comes to the round of column [j] in the state [bs']. *)
Inductive backtrace_reaches (p : Params) (k : nat)
    : nat → BacktraceState → nat → BacktraceState → Prop :=
  | reaches_here (i : nat) (bs : BacktraceState) :
      backtrace_reaches p k i bs i bs
  | reaches_step (i j : nat) (bs bs' bs'' : BacktraceState) :
      backtrace_step p k (S i) bs = Ok bs' →
      backtrace_reaches p k i bs' j bs'' →
      backtrace_reaches p k (S i) bs j bs''.

End BackwardInvariant.

Section AsStated.
Context `{IndexingScheme} `{CostComputer CC} `{ColumnReader}.

(** C3 as the specification states it: the new [prev_inheritance] is read
    from the transmission backtrace table of column [i-1] at the inheritance
    of [v], the entry already chosen for column [i]. *)
Definition prev_inheritance_as_stated (p : Params) (k i : nat) (bs : BacktraceState)
    : result N :=
  t1 ← ensure_tables p k (bt_table bs) i;
  indexer ← require InvariantViolation (mjoin (indexers t1 !! i));
  tbt ← require InvariantViolation (mjoin (transmission_backtrace_table t1 !! (i - 1)%nat));
  Vector2D_at tbt (wrap32 (index_backward_projection indexer (index (bt_v bs))))
    (inheritance_value (bt_v bs)).

End AsStated.

(** The same engine parameters with another sequence of recombination
    costs. *)
Definition with_recombcost (p : Params) (rc : list N) : Params :=
  {| recombcost := rc; pedigree := pedigree p; ploidy := ploidy p;
     distrust_genotypes := distrust_genotypes p; allele_counts := allele_counts p |}.

(** ** The precomputed partitioning as the specification words it *)

(** The partition that the precomputed partitioning assigns to a read id (0
    for an id that is not an id of the read set). *)
Definition assigned_partition (num_reads : nat) (partitioning : list N) (id : N) : N :=
  if decide (N.to_nat id < num_reads)%nat
  then default 0 (partitioning !! N.to_nat id)
  else 0.

(** The packing of partition values in base [ploidy], first value lowest. *)
Fixpoint packing (ploidy : N) (values : list N) : N :=
  match values with
  | [] => 0
  | v :: values' => v + ploidy * packing ploidy values'
  end.

(** The packed partitioning of the active reads of a column. *)
Definition packed_index (ploidy : N) (num_reads : nat) (partitioning : list N)
    (column : Column) : N :=
  packing ploidy (assigned_partition num_reads partitioning <$> extract_read_ids column).

Definition sum_of_costs (costs : list N) : N := foldr N.add 0 costs.

(** A map read with default 0 agrees with [f]. *)
Definition reads_as (f : N → N) (m : gmap N N) : Prop :=
  ∀ id, default 0 (m !! id) = f id.

Section PrecomputedInvariant.
Context `{CostComputer CC}.

(** The entry of the index path for a column. *)
Definition path_entry (p : Params) (num_reads : nat) (partitioning : list N)
    (column : Column) : index_and_inheritance_t :=
  {| index := wrap32 (packed_index (ploidy p) num_reads partitioning column);
     inheritance_value := 0 |}.

(** The state of the loop of [set_index_path] before the round of column
    [m]; [t1] is the state in which the loop starts. *)
Definition precomputed_inv (p : Params) (t1 : PedigreeDPTable) (num_reads : nat)
    (partitioning : list N) (m : nat) (acc : PedigreeDPTable * Column * list N)
    : Prop :=
  let '(t, col, ids) := acc in
  let cols := it_columns (input_column_iterator t1) in
  let n := length cols in
  same_frame t1 t ∧
  (projection_column_table t = projection_column_table t1 ∧
   index_backtrace_table t = index_backtrace_table t1 ∧
   transmission_backtrace_table t = transmission_backtrace_table t1 ∧
   indexers t = indexers t1) ∧
  ((m < n)%nat → cols !! m = Some col ∧ ids = extract_read_ids col) ∧
  it_next (input_column_iterator t) = Nat.min (S m) n ∧
  length (index_path t) = n ∧
  (∀ j column, (j < m)%nat → cols !! j = Some column →
     index_path t !! j = Some (path_entry p num_reads partitioning column)) ∧
  reads_as (assigned_partition num_reads partitioning) (read_to_partition t) ∧
  ∃ costs, length costs = m ∧
    (∀ j column, (j < m)%nat → cols !! j = Some column →
       ∃ cc, path_cost_computer p t1 column j
               (path_entry p num_reads partitioning column) = Ok cc ∧
             costs !! j = Some (get_cost cc)) ∧
    optimal_score t = wrap32 (sum_of_costs costs).

End PrecomputedInvariant.

(** ** Example runs *)
Module Examples.
Import Toy.

(** A read of a sample with its alleles at some positions. *)
Definition read_with (sample : N) (variants : list (N * Z)) : Read :=
  {| getName := "read"; getMapq := 60%Z; getSourceID := 0%Z; getSampleID := sample;
     getID := (-1)%Z;
     getVariants := (λ '(pos, a), (pos, a, [30])) <$> variants |}.

Definition single : Pedigree := {| individual_ids := [7]; triples := [] |}.
Definition trio : Pedigree := {| individual_ids := [1; 2; 3]; triples := [(0, 1, 2)] |}.

(** The value of a computation that ended well. *)
Definition outcome {A} (otherwise : A) (r : result A) : A :=
  match r with
  | Ok a => a
  | Err _ => otherwise
  end.

(** The engine before [compute_table] or [set_index_path] runs. *)
Definition table_of (reads : ReadSet) (p : Params) (positions : list N)
    (sources : list N) : PedigreeDPTable :=
  @initial_table toy_reader (reassignReadIds reads) p (Some positions) sources.

Definition engine (costs : nat → N → N → N) (reads : ReadSet) (p : Params)
    (positions : list N) (precomputed : option (list N)) : result PedigreeDPTable :=
  (@PedigreeDPTable_new toy_indexing ToyCC (toy_cost_computer costs) toy_reader
     reads p (Some positions) precomputed).2.

Definition sweep (costs : nat → N → N → N) (p : Params) (t : PedigreeDPTable)
    : result ForwardState :=
  @forward_sweep toy_indexing ToyCC (toy_cost_computer costs) p (clear_table t).

Definition no_forward_state (t : PedigreeDPTable) : ForwardState :=
  {| fw_table := t; next_input_column := None; next_read_ids := None;
     next_indexer := None |}.

(** Example A: two reads that disagree at two sites, and a third read that
    covers neither site. *)
Definition reads_a : ReadSet :=
  [read_with 7 [(100, 0%Z); (200, 1%Z)]; read_with 7 [(100, 1%Z); (200, 0%Z)];
   read_with 7 [(300, 1%Z)]].
Definition params_a : Params :=
  {| recombcost := [0; 0]; pedigree := single; ploidy := 2;
     distrust_genotypes := false; allele_counts := [2; 2] |}.
Definition costs_a (c : nat) (i part : N) : N :=
  if (part =? 1) || (part =? 2) then 0 else 20.
Definition table_a : PedigreeDPTable := table_of reads_a params_a [100; 200] [0; 0; 0].
Definition engine_a : PedigreeDPTable :=
  outcome table_a (engine costs_a reads_a params_a [100; 200] None).
Definition precomputed_a : PedigreeDPTable :=
  outcome table_a (engine costs_a reads_a params_a [100; 200] (Some [0; 1; 0])).
Definition super_reads_a
    : result (PedigreeDPTable * list ReadSet * list N) :=
  @get_super_reads ToyCC (toy_cost_computer costs_a) params_a engine_a [[]] [].
Definition after_super_reads_a : PedigreeDPTable * list ReadSet * list N :=
  outcome (engine_a, [], []) super_reads_a.

(** Example B: one read, one site; the partitioning 0 is infeasible. *)
Definition reads_b : ReadSet := [read_with 7 [(100, 0%Z)]].
Definition params_b : Params :=
  {| recombcost := [0]; pedigree := single; ploidy := 2;
     distrust_genotypes := false; allele_counts := [2] |}.
Definition costs_b (c : nat) (i part : N) : N :=
  if part =? 0 then UINT_MAX else 0.
Definition table_b : PedigreeDPTable := table_of reads_b params_b [100] [0].

(** Example C: a trio, one read of the child over two sites; pattern 0 is
    cheap at the first site and pattern 1 at the second. *)
Definition reads_c : ReadSet := [read_with 3 [(100, 0%Z); (200, 1%Z)]].
Definition params_c : Params :=
  {| recombcost := [1; 1]; pedigree := trio; ploidy := 2;
     distrust_genotypes := false; allele_counts := [2; 2] |}.
Definition costs_c (c : nat) (i part : N) : N :=
  match c with
  | O => if i =? 0 then 0 else 10
  | _ => if i =? 1 then 0 else 10
  end.
Definition table_c : PedigreeDPTable := table_of reads_c params_c [100; 200] [2].
Definition forward_c : ForwardState :=
  outcome (no_forward_state table_c) (sweep costs_c params_c table_c).
Definition backtrace_c : BacktraceState := backtrace_start (fw_table forward_c).
Definition backtrace_c_1 : BacktraceState :=
  outcome backtrace_c
    (@backtrace_step ToyCC (toy_cost_computer costs_c) params_c 1 1 backtrace_c).

(** Example D: one read over four sites; the checkpoint stride is 2. *)
Definition reads_d : ReadSet :=
  [read_with 7 [(100, 0%Z); (200, 1%Z); (300, 0%Z); (400, 1%Z)]].
Definition params_d : Params :=
  {| recombcost := [0; 0; 0; 0]; pedigree := single; ploidy := 2;
     distrust_genotypes := false; allele_counts := [2; 2; 2; 2] |}.
Definition costs_d (c : nat) (i part : N) : N := N.of_nat c + part.
Definition table_d : PedigreeDPTable :=
  table_of reads_d params_d [100; 200; 300; 400] [0].
Definition forward_d : ForwardState :=
  outcome (no_forward_state table_d) (sweep costs_d params_d table_d).
Definition backtrace_d : BacktraceState := backtrace_start (fw_table forward_d).
Definition backtrace_d_3 : BacktraceState :=
  outcome backtrace_d
    (@backtrace_step ToyCC (toy_cost_computer costs_d) params_d 2 3 backtrace_d).

(** Example E: the reads of example A with a precomputed partitioning for
    which the first site is infeasible and the second costs 1. *)
Definition costs_e (c : nat) (i part : N) : N :=
  match c with
  | O => UINT_MAX
  | _ => 1
  end.
Definition precomputed_e : PedigreeDPTable :=
  outcome table_a (engine costs_e reads_a params_a [100; 200] (Some [0; 1; 0])).

(** Example G: the trio of example C with costs that keep the contract of
    the cost computer, as they depend on the column and the pattern only: at
    the first site the pattern 0 is excluded, at the second every pattern. *)
Definition costs_g (c : nat) (i part : N) : N :=
  match c with
  | O => if i =? 0 then UINT_MAX else 2
  | _ => UINT_MAX
  end.

(** Example D after its forward sweep, with column 1 computed again. *)
Definition recomputed_d : PedigreeDPTable :=
  outcome (fw_table forward_d)
    (@compute_column ToyCC (toy_cost_computer costs_d) params_d (fw_table forward_d) 1 None).

(** The engine of example D. *)
Definition engine_d : PedigreeDPTable :=
  outcome table_d (@compute_table toy_indexing ToyCC (toy_cost_computer costs_d)
                     params_d table_d).

(** The entry of the index path and the scheme of the last column of
    example A. *)
Definition last_entry_a : index_and_inheritance_t :=
  default {| index := 0; inheritance_value := 0 |} (index_path engine_a !! 1%nat).
Definition last_scheme_a : ColumnIndexingScheme :=
  default (toy_scheme_new None [] 2) (mjoin (indexers engine_a !! 1%nat)).

(** Example F: a read without variants, so a read set without columns. *)
Definition reads_f : ReadSet := [read_with 7 []].

(** The two columns of example C with their schemes and cost computers, the
    tables of the first column and the optimum of the second. *)
Definition columns_c : list Column :=
  @read_columns toy_reader (reassignReadIds reads_c) (Some [100; 200]).
Definition column_c (c : nat) : Column := default [] (columns_c !! c).
Definition scheme_c (c : nat) : ColumnIndexingScheme :=
  default (toy_scheme_new None [] 2) (scheme_of_column 2 columns_c c).
Definition computers_c (c : nat) : list ToyCC :=
  outcome []
    (@make_cost_computers ToyCC (toy_cost_computer costs_c) params_c [2]
       (pedigree_partitions table_c) (column_c c) c).
Definition pass_c (c : nat) (prev : option Vector2D)
    : result (option ColumnTables * Optimum) :=
  @column_pass ToyCC (toy_cost_computer costs_c) params_c [2]
    (pedigree_partitions table_c) 2 c (scheme_c c) (column_c c) prev no_optimum.
Definition tables_c0 : ColumnTables :=
  default {| projection_column := Vector2D_new 0 0 0;
             index_backtrace_column := Vector2D_new 0 0 0;
             transmission_backtrace_column := Vector2D_new 0 0 0 |}
    (pass_tables (pass_c 0 None)).
Definition optimum_c : Optimum :=
  (outcome (None, no_optimum) (pass_c 1 (Some (projection_column tables_c0)))).2.

(** The engine of example C. *)
Definition engine_c : PedigreeDPTable :=
  outcome table_c (@compute_table toy_indexing ToyCC (toy_cost_computer costs_c)
                     params_c table_c).

(** Example A constructed from the partitioning (0, 1, 0), after
    [get_super_reads]. *)
Definition super_reads_precomputed_a
    : result (PedigreeDPTable * list ReadSet * list N) :=
  @get_super_reads ToyCC (toy_cost_computer costs_a) params_a precomputed_a [[]] [5].
Definition after_super_reads_precomputed_a : PedigreeDPTable * list ReadSet * list N :=
  outcome (precomputed_a, [], []) super_reads_precomputed_a.

End Examples.

(** ** Counting bits *)

(** The number of the bits of [x] that are set among its lowest [width] bits. *)
Definition ones_below (width : nat) (x : N) : N :=
  N.of_nat (sum_list_with (λ i, Nat.b2n (N.testbit x (N.of_nat i))) (seq 0 width)).

(** The schemes, the running optimum and the number of columns. *)
Definition same_optimum (t t' : PedigreeDPTable) : Prop :=
  indexers t' = indexers t ∧ optimum_of t' = optimum_of t ∧
  get_column_count (input_column_iterator t')
    = get_column_count (input_column_iterator t).

(** ** Failures of the backward sweep *)

(** A computation that can only fail on a broken invariant. *)
Definition internal_failure_only {A} (r : result A) : Prop :=
  ∀ e, r = Err e → e = InvariantViolation.

(** A computation that stops on caller data only if [P] holds. *)
Definition caller_data_only_if {A} (P : Prop) (r : result A) : Prop :=
  r = Err PreconditionViolation → P.

(** ** The super-reads as they are handed out *)

(** The read at place [j] of row [k] of a table of reads. *)
Definition cell (sr : list (list Read)) (kj : nat * N) : option Read :=
  row ← sr !! kj.1; row !! N.to_nat kj.2.

(** The allele of haplotype [j] of individual [k]. *)
Definition allele_at (population_alleles : list (list Z)) (kj : nat * N) : option Z :=
  alleles ← population_alleles !! kj.1; alleles !! N.to_nat kj.2.

Section SuperReads.
Context `{CostComputer CC}.

(** The super-read of haplotype [j] of individual [k] after the first [c]
    columns: its name and sample, and for each of these columns one variant
    at the position of the column, with the allele that the cost computer of
    the column reports for the entry of the index path, quality 0 for this
    allele and 10 for the others. *)
Definition superread_after (p : Params) (t : PedigreeDPTable) (c : nat)
    (k : nat) (j : N) (r : Read) : Prop :=
  getName r = "superread_" +:+ pretty j +:+ "_" +:+ pretty k ∧
  individual_ids (pedigree p) !! k = Some (getSampleID r) ∧
  length (getVariants r) = c ∧
  ∀ c', (c' < c)%nat →
    ∃ v column cc a position n_alleles,
      index_path t !! c' = Some v ∧
      it_columns (input_column_iterator t) !! c' = Some column ∧
      path_cost_computer p t column c' v = Ok cc ∧
      allele_at (get_alleles cc) (k, j) = Some a ∧
      it_positions (input_column_iterator t) !! c' = Some position ∧
      allele_counts p !! c' = Some n_alleles ∧
      (0 ≤ to_int n_alleles)%Z ∧
      getVariants r !! c'
        = Some (position, a, allele_qualities (to_int n_alleles) a).

End SuperReads.

(** ** The DP recurrence *)

(** A table with [rows] rows of [columns] cells. *)
Definition table_shape (rows columns : N) (t : Vector2D) : Prop :=
  length (cells t) = N.to_nat rows ∧
  Forall (λ row, length row = N.to_nat columns) (cells t).

(** The cell of the DP column and the entry of [min_recomb_index] for the
    pattern [i] at the step [s] of the iterator (lines 371-403, with the
    current cost [cost]): the least candidate over the predecessors and the
    first predecessor that attains it. *)
Definition best_predecessor (p : Params) (c : nat) (prev : option Vector2D)
    (s : IteratorStep) (cost i : N) : result (N * N) :=
  foldlM (relax_predecessor (recombcost p) c prev
            (if decide (0 < c)%nat then get_backward_projection s else 0) cost i)
    (UINT_MAX, 0) (N_range (transmission_configurations (pedigree p))).

(** The cell [(f, i)] of the three tables of a column. *)
Definition table_cell (tb : ColumnTables) (f i : N) : result (N * N * N) :=
  x ← Vector2D_at (projection_column tb) f i;
  a ← Vector2D_at (index_backtrace_column tb) f i;
  b ← Vector2D_at (transmission_backtrace_column tb) f i;
  Ok (x, a, b).

Definition tables_shape (rows columns : N) (tb : ColumnTables) : Prop :=
  table_shape rows columns (projection_column tb) ∧
  table_shape rows columns (index_backtrace_column tb) ∧
  table_shape rows columns (transmission_backtrace_column tb).

Section Recurrence.
Context `{CostComputer CC}.

(** The cell of the DP column for the pattern [i] at the [k]-th step of the
    walk of a column, and its best predecessor; [ccs] are the cost computers
    before the walk. *)
Definition dp_cell (p : Params) (c : nat) (prev : option Vector2D) (ccs : list CC)
    (steps : list IteratorStep) (k : nat) (i : N) : option (N * N) :=
  s ← steps !! k;
  row ← walk_costs ccs steps !! k;
  cost ← row !! N.to_nat i;
  match best_predecessor p c prev s cost i with
  | Ok r => Some r
  | Err _ => None
  end.

End Recurrence.

(** * Properties *)

(** ** The result monad and loops *)

Lemma foldlM_app {A B} (f : A → B → result A) (a : A) (l1 l2 : list B) :
  foldlM f a (l1 ++ l2) = (a' ← foldlM f a l1; foldlM f a' l2).
Proof.
  revert a. induction l1 as [|b l1 IH]; intros a; simpl; [done|].
  destruct (f a b) as [a'|e]; simpl; [apply IH|done].
Qed.

Lemma foldlM_snoc {A B} (f : A → B → result A) (a : A) (l : list B) (b : B) :
  foldlM f a (l ++ [b]) = (a' ← foldlM f a l; f a' b).
Proof.
  rewrite foldlM_app. destruct (foldlM f a l) as [a'|e]; simpl; [|done].
  by destruct (f a' b).
Qed.

Lemma foldlM_ext {A B} (f g : A → B → result A) (a : A) (l : list B) :
  (∀ a' b, b ∈ l → f a' b = g a' b) → foldlM f a l = foldlM g a l.
Proof.
  revert a. induction l as [|b l IH]; intros a Hfg; simpl; [done|].
  rewrite Hfg by left. destruct (g a b); simpl; [|done].
  apply IH. intros a' b' Hb'. apply Hfg. by right.
Qed.

(** An invariant of a loop that ends well holds at its end. *)
Lemma foldlM_invariant {A B} (P : A → Prop) (f : A → B → result A) (l : list B) :
  (∀ a b a', b ∈ l → P a → f a b = Ok a' → P a') →
  ∀ a a', P a → foldlM f a l = Ok a' → P a'.
Proof.
  induction l as [|b l IH]; intros Hstep a a' Ha; simpl.
  - by intros [= <-].
  - destruct (f a b) as [a1|e] eqn:Hf; simpl; [|done].
    apply IH; [|eapply Hstep; [left|done..]].
    intros a2 b' a3 Hb'. apply Hstep. by right.
Qed.

Lemma bind_Ok {A B} (m : result A) (f : A → result B) (b : B) :
  m ≫= f = Ok b ↔ ∃ a, m = Ok a ∧ f a = Ok b.
Proof.
  destruct m as [a|e]; simpl; split; try done.
  - eauto.
  - by intros (a' & [= <-] & ?).
  - by intros (a' & ? & ?).
Qed.

Lemma require_Ok {A} (e : error) (o : option A) (a : A) :
  require e o = Ok a ↔ o = Some a.
Proof. destruct o; simpl; split; congruence. Qed.

Lemma assert_Ok (b : bool) (u : unit) : assert b = Ok u ↔ b = true.
Proof. destruct b, u; simpl; split; congruence. Qed.

Lemma N_range_1 : N_range 1 = [0].
Proof. reflexivity. Qed.

Lemma elem_of_N_range (n i : N) : i ∈ N_range n ↔ i < n.
Proof.
  unfold N_range. rewrite list_elem_of_fmap. split.
  - intros (m & -> & Hm). apply elem_of_seq in Hm. lia.
  - intros Hi. exists (N.to_nat i). split; [lia|]. apply elem_of_seq. lia.
Qed.

(** ** Machine arithmetic *)

Lemma wrap32_small (x : N) : x < 2 ^ 32 → wrap32 x = x.
Proof. intros. unfold wrap32. by apply N.mod_small. Qed.

Lemma wrap32_bound (x : N) : wrap32 x ≤ UINT_MAX.
Proof.
  unfold wrap32, UINT_MAX.
  pose proof (N.mod_upper_bound x (2 ^ 32)) as Hlt.
  change (2 ^ 32) with 4294967296 in *. lia.
Qed.

Lemma mod_mod_mul (x a b : N) : a ≠ 0 → b ≠ 0 → (x mod (a * b)) mod a = x mod a.
Proof.
  intros Ha Hb. rewrite N.Div0.mod_mul_r.
  rewrite (N.mul_comm a), N.Div0.mod_add. apply N.Div0.mod_mod.
Qed.

Lemma wrap32_wrap64 (x : N) : wrap32 (wrap64 x) = wrap32 x.
Proof.
  unfold wrap32, wrap64. change (2 ^ 64) with (2 ^ 32 * 2 ^ 32).
  by apply mod_mod_mul.
Qed.

Lemma wrap32_wrap64_add (a b : N) : wrap32 (a + wrap64 b) = wrap32 (a + b).
Proof.
  pose proof (wrap32_wrap64 b) as Hb. unfold wrap32 in *.
  rewrite <- (N.Div0.add_mod_idemp_r a (wrap64 b)), Hb.
  by rewrite N.Div0.add_mod_idemp_r.
Qed.

(** The loop of [popcount] has come to its end within 64 rounds. *)
Lemma popcount_loop_done (rounds : nat) (x count : N) :
  x < 2 ^ N.of_nat rounds →
  ∀ more, popcount_loop (rounds + more) x count = popcount_loop rounds x count.
Proof.
  revert x count. induction rounds as [|r IH]; intros x count Hx more.
  - assert (x = 0) as -> by (simpl in Hx; lia). by destruct more.
  - simpl. destruct (x =? 0); [done|]. apply IH.
    rewrite N.shiftr_div_pow2. apply N.Div0.div_lt_upper_bound.
    rewrite <- N.pow_succ_r'. by replace (N.succ (N.of_nat r)) with (N.of_nat (S r)) by lia.
Qed.

Lemma popcount_0 : popcount 0 = 0.
Proof. reflexivity. Qed.

(** ** The candidate cost (C2) *)

Lemma candidate_cost_value (rc : list N) (c : nat) (cur prev i j r : N) :
  rc !! c = Some r →
  candidate_cost rc c cur prev i j =
    Ok (if (cur <? UINT_MAX) && (prev <? UINT_MAX) then
          if wrap32 (cur + prev) <? UINT_MAX
          then wrap32 (wrap32 (cur + prev) + popcount (N.lxor i j) * r)
          else UINT_MAX
        else UINT_MAX).
Proof.
  intros Hr. unfold candidate_cost. rewrite Hr.
  destruct ((cur <? UINT_MAX) && (prev <? UINT_MAX)); simpl.
  - destruct (wrap32 (cur + prev) <? UINT_MAX) eqn:Hlt; simpl.
    + by rewrite wrap32_wrap64_add.
    + apply N.ltb_ge in Hlt. pose proof (wrap32_bound (cur + prev)).
      f_equal. lia.
  - done.
Qed.

(** C2, as the code has it.  In a column after the first, the candidate for
    pattern [i] and predecessor [j] is the sentinel when the current cost or
    the fetched previous cost is the sentinel; otherwise it is the sum of the
    two taken modulo 2^32, to which (unless that sum is the sentinel)
    popcount(i XOR j) * recombcost[c] is added modulo 2^32.  It is the exact
    sum of the three summands whenever that sum is below the sentinel; above
    it the sum wraps around. *)
Theorem candidate_cost_wraps (rc : list N) (c : nat) (prev : Vector2D)
    (bpi cur i j pcost r : N) :
  (0 < c)%nat →
  Vector2D_at prev bpi j = Ok pcost →
  pcost ≤ UINT_MAX →
  cur ≤ UINT_MAX →
  rc !! c = Some r →
  ∃ v, predecessor_candidate rc c (Some prev) bpi cur i j = Ok v ∧
    (cur = UINT_MAX ∨ pcost = UINT_MAX → v = UINT_MAX) ∧
    (cur < UINT_MAX → pcost < UINT_MAX →
       v = if wrap32 (cur + pcost) <? UINT_MAX
           then wrap32 (wrap32 (cur + pcost) + popcount (N.lxor i j) * r)
           else UINT_MAX) ∧
    (pcost + cur + popcount (N.lxor i j) * r < UINT_MAX →
       v = pcost + cur + popcount (N.lxor i j) * r).
Proof.
  intros Hc Hat Hp Hcur Hr. eexists. split.
  { unfold predecessor_candidate, previous_cost_of.
    destruct (decide (0 < c)%nat); [|lia]. simpl. rewrite Hat. simpl.
    by apply candidate_cost_value. }
  split; [|split].
  - intros [-> | ->]; [done|].
    by rewrite N.ltb_irrefl, andb_false_r.
  - intros H1 H2.
    by rewrite (proj2 (N.ltb_lt _ _) H1), (proj2 (N.ltb_lt _ _) H2).
  - intros Hsum.
    assert (cur < UINT_MAX) as H1 by lia.
    assert (pcost < UINT_MAX) as H2 by lia.
    rewrite (proj2 (N.ltb_lt _ _) H1), (proj2 (N.ltb_lt _ _) H2). simpl.
    unfold UINT_MAX in *.
    rewrite (wrap32_small (cur + pcost)) by (change (2 ^ 32) with 4294967296; lia).
    rewrite (proj2 (N.ltb_lt _ _)) by lia.
    rewrite wrap32_small by (change (2 ^ 32) with 4294967296; lia). lia.
Qed.

Lemma candidate_cost_wraps_witness :
  ∃ v, predecessor_candidate [0; 5] 1 (Some (Vector2D_new 1 4 7)) 0 3 1 2 = Ok v ∧
    (3 = UINT_MAX ∨ 7 = UINT_MAX → v = UINT_MAX) ∧
    (3 < UINT_MAX → 7 < UINT_MAX →
       v = if wrap32 (3 + 7) <? UINT_MAX
           then wrap32 (wrap32 (3 + 7) + popcount (N.lxor 1 2) * 5)
           else UINT_MAX) ∧
    (7 + 3 + popcount (N.lxor 1 2) * 5 < UINT_MAX →
       v = 7 + 3 + popcount (N.lxor 1 2) * 5).
Proof.
  apply (candidate_cost_wraps [0; 5] 1 (Vector2D_new 1 4 7) 0 3 1 2 7 5);
    [lia | reflexivity | unfold UINT_MAX; lia | unfold UINT_MAX; lia | reflexivity].
Defined.

(** C2 as the specification states it fails: two finite costs whose sum
    passes the sentinel give the candidate 0, not the sentinel. *)
Lemma candidate_cost_not_saturating :
  Vector2D_at (Vector2D_new 1 1 2) 0 0 = Ok 2 ∧
  predecessor_candidate [0; 0] 1 (Some (Vector2D_new 1 1 2)) 0 4294967294 0 0 = Ok 0 ∧
  saturating_candidate 2 4294967294 0 0 0 = UINT_MAX ∧
  predecessor_candidate [0; 0] 1 (Some (Vector2D_new 1 1 2)) 0 4294967294 0 0
    ≠ Ok (saturating_candidate 2 4294967294 0 0 0).
Proof. by vm_compute. Qed.

(** ** The constructor and the read set (C9) *)

Lemma reassignReadIds_length (rs : ReadSet) :
  length (reassignReadIds rs) = length rs.
Proof. unfold reassignReadIds. apply length_imap. Qed.

Lemma reassignReadIds_lookup (rs : ReadSet) (i : nat) (r : Read) :
  reassignReadIds rs !! i = Some r ↔ ∃ r0, rs !! i = Some r0 ∧ r = setID r0 (Z.of_nat i).
Proof.
  unfold reassignReadIds. rewrite list_lookup_imap.
  destruct (rs !! i) as [r0|]; simpl; split.
  - intros [= <-]. eauto.
  - by intros (r1 & [= <-] & ->).
  - done.
  - by intros (r1 & ? & _).
Qed.

(** ** Taking apart a computation that ended well *)

Ltac inv_result :=
  repeat match goal with
  | H : Ok _ = Ok _ |- _ => injection H as H
  | H : Err _ = Ok _ |- _ => discriminate H
  | H : (_ ≫= _) = Ok _ |- _ =>
      let a := fresh "a" in
      let Ha := fresh "Hstep" in
      apply bind_Ok in H as (a & Ha & H)
  | H : require _ _ = Ok _ |- _ => apply require_Ok in H
  | H : assert _ = Ok _ |- _ => apply assert_Ok in H
  | H : context [match ?a with (_, _) => _ end] |- _ => is_var a; destruct a
  end.

(** ** What the member functions leave alone *)

Lemma same_frame_refl (t : PedigreeDPTable) : same_frame t t.
Proof. by repeat split. Qed.

Lemma same_frame_trans (t1 t2 t3 : PedigreeDPTable) :
  same_frame t1 t2 → same_frame t2 t3 → same_frame t1 t3.
Proof.
  intros (? & ? & ? & ? & ?) (? & ? & ? & ? & ?).
  repeat split; congruence.
Qed.

Lemma get_next_columns (it it' : ColumnIterator) (col : Column) :
  get_next it = Ok (col, it') →
  it_columns it !! it_next it = Some col ∧
  it_columns it' = it_columns it ∧ it_positions it' = it_positions it ∧
  it_next it' = S (it_next it).
Proof.
  unfold get_next. intros Hn. inv_result. by subst.
Qed.

Lemma store_tables_frame (t : PedigreeDPTable) (c : nat) (tabs : option ColumnTables) :
  same_frame t (store_tables t c tabs).
Proof. destruct tabs; by repeat split. Qed.

Lemma ones_below_S (w : nat) (x : N) :
  ones_below (S w) x = N.b2n (N.testbit x 0) + ones_below w (N.shiftr x 1).
Proof.
  unfold ones_below. cbn [seq sum_list_with].
  rewrite Nat2N.inj_add. change (N.of_nat 0) with 0.
  f_equal; [by destruct (N.testbit x 0)|]. f_equal.
  rewrite <- fmap_S_seq.
  induction (seq 0 w) as [|i l IH]; [done|].
  cbn [fmap list_fmap sum_list_with]. rewrite IH. f_equal.
  rewrite N.shiftr_spec by lia. do 2 f_equal. lia.
Qed.

Lemma ones_below_0 (w : nat) : ones_below w 0 = 0.
Proof.
  unfold ones_below. induction (seq 0 w) as [|i l IH]; [done|].
  cbn [sum_list_with]. rewrite N.bits_0. simpl. done.
Qed.

Lemma ones_below_le (w : nat) (x : N) : ones_below w x ≤ N.of_nat w.
Proof.
  revert x. induction w as [|w IH]; intros x; [done|].
  rewrite ones_below_S. specialize (IH (N.shiftr x 1)).
  destruct (N.testbit x 0); simpl N.b2n; lia.
Qed.

Lemma land_1_testbit (x : N) : N.land x 1 = N.b2n (N.testbit x 0).
Proof.
  change 1 with (N.ones 1). rewrite N.land_ones. change (2 ^ 1) with 2.
  rewrite N.bit0_mod. done.
Qed.

(** The loop of [popcount] adds the number of set bits to the counter. *)
Lemma popcount_loop_spec (rounds : nat) :
  ∀ x count, x < 2 ^ N.of_nat rounds → count + N.of_nat rounds < 2 ^ 32 →
    popcount_loop rounds x count = count + ones_below rounds x.
Proof.
  induction rounds as [|r IH]; intros x count Hx Hc.
  - simpl. unfold ones_below. simpl. lia.
  - cbn [popcount_loop]. destruct (x =? 0) eqn:Hz.
    + apply N.eqb_eq in Hz. subst x. rewrite ones_below_0. lia.
    + rewrite ones_below_S, land_1_testbit.
      assert (N.b2n (N.testbit x 0) ≤ 1) as Hb by (destruct (N.testbit x 0); simpl; lia).
      rewrite wrap32_small by lia.
      rewrite IH; [lia| |lia].
      rewrite N.shiftr_div_pow2. apply N.Div0.div_lt_upper_bound.
      rewrite <- N.pow_succ_r'. by replace (N.succ (N.of_nat r)) with (N.of_nat (S r)) by lia.
Qed.

Lemma ones_below_ext (w : nat) (x y : N) :
  (∀ i, i < N.of_nat w → N.testbit x i = N.testbit y i) →
  ones_below w x = ones_below w y.
Proof.
  intros Hxy. unfold ones_below. f_equal.
  assert (∀ i, i ∈ seq 0 w → N.testbit x (N.of_nat i) = N.testbit y (N.of_nat i)) as Hin.
  { intros i Hi. apply elem_of_seq in Hi. apply Hxy. lia. }
  induction (seq 0 w) as [|i l IH]; [done|].
  cbn [sum_list_with]. rewrite IH, (Hin i); [done|left|].
  intros i' Hi'. apply Hin. by right.
Qed.

(** The bits of [x] below [w] are clear exactly when no multiple of a power
    of two below 2^w is left of [x]. *)
Lemma ones_below_zero (w : nat) (x : N) :
  ones_below w x = 0 ↔ x mod 2 ^ N.of_nat w = 0.
Proof.
  split.
  - intros Hz. apply N.bits_inj_0. intros i.
    destruct (N.lt_ge_cases i (N.of_nat w)) as [Hlt|Hge].
    + rewrite N.mod_pow2_bits_low by done.
      unfold ones_below in Hz.
      assert (sum_list_with (λ i, Nat.b2n (N.testbit x (N.of_nat i))) (seq 0 w) = 0%nat)
        as Hs by lia.
      assert (N.to_nat i ∈ seq 0 w) as Hi by (apply elem_of_seq; lia).
      pose proof (sum_list_with_in _ (λ i, Nat.b2n (N.testbit x (N.of_nat i))) _ Hi) as Hle.
      simpl in Hle. rewrite N2Nat.id in Hle.
      destruct (N.testbit x i); [simpl in Hle; lia|done].
    + by apply N.mod_pow2_bits_high.
  - intros Hz. rewrite <- (ones_below_0 w). apply ones_below_ext.
    intros i Hi. rewrite N.bits_0, <- (N.mod_pow2_bits_low x (N.of_nat w)) by done.
    by rewrite Hz, N.bits_0.
Qed.

(** X1.  [popcount] returns the number of the bits that are set in its
    argument, a [size_t] of 64 bits. *)
Theorem popcount_counts_set_bits (x : N) : popcount x = ones_below 64 x.
Proof.
  unfold popcount. rewrite popcount_loop_spec.
  - rewrite N.add_0_l. apply ones_below_ext. intros i Hi.
    unfold wrap64. by apply N.mod_pow2_bits_low.
  - apply N.mod_upper_bound. done.
  - done.
Qed.

Lemma lxor_mod_pow2 (a b n : N) :
  N.lxor a b mod 2 ^ n = N.lxor (a mod 2 ^ n) (b mod 2 ^ n).
Proof.
  apply N.bits_inj. intros i. rewrite N.lxor_spec.
  destruct (N.lt_ge_cases i n) as [Hlt|Hge].
  - by rewrite !N.mod_pow2_bits_low, N.lxor_spec by done.
  - by rewrite !N.mod_pow2_bits_high by done.
Qed.

(** X2.  The number of recombinations between two inheritance patterns,
    [popcount(i ^ j)], is 0 exactly when the two patterns are the same
    [size_t] value, and it is at most 64. *)
Theorem popcount_xor_zero_iff (i j : N) :
  (popcount (N.lxor i j) = 0 ↔ wrap64 i = wrap64 j) ∧ popcount (N.lxor i j) ≤ 64.
Proof.
  unfold popcount.
  rewrite popcount_loop_spec; [|by apply N.mod_upper_bound|done].
  rewrite N.add_0_l. split; [|apply (ones_below_le 64)].
  rewrite ones_below_zero. unfold wrap64.
  change (2 ^ N.of_nat 64) with (2 ^ 64).
  rewrite N.Div0.mod_mod, lxor_mod_pow2. apply N.lxor_eq_0_iff.
Qed.

Lemma N_range_S (n : nat) :
  N_range (N.of_nat (S n)) = N_range (N.of_nat n) ++ [N.of_nat n].
Proof. unfold N_range. rewrite !Nat2N.id, seq_S, fmap_app. done. Qed.

Lemma candidate_cost_bound (rc : list N) (c : nat) (cur prev i j v : N) :
  candidate_cost rc c cur prev i j = Ok v → v ≤ UINT_MAX.
Proof.
  unfold candidate_cost. destruct (_ <? UINT_MAX) eqn:Hlt.
  - intros Hc. inv_result. subst v. apply wrap32_bound.
  - intros [= <-]. destruct (_ && _); [|done]. apply wrap32_bound.
Qed.

Lemma predecessor_candidate_bound (rc : list N) (c : nat) (prev : option Vector2D)
    (bpi cur i j v : N) :
  predecessor_candidate rc c prev bpi cur i j = Ok v → v ≤ UINT_MAX.
Proof.
  unfold predecessor_candidate. intros Hp. inv_result.
  by eapply candidate_cost_bound.
Qed.

(** X3.  The loop over the predecessors [j] of lines 371-401 ends with the
    least candidate and the first predecessor that attains it; when every
    candidate is the sentinel, it ends with the sentinel and the index 0. *)
Theorem relax_predecessor_first_minimum (rc : list N) (c : nat)
    (prev : option Vector2D) (bpi cur i T min min_index : N) :
  foldlM (relax_predecessor rc c prev bpi cur i) (UINT_MAX, 0) (N_range T)
    = Ok (min, min_index) →
  (∀ j, j < T → ∃ v, predecessor_candidate rc c prev bpi cur i j = Ok v ∧ min ≤ v) ∧
  (min < UINT_MAX →
     min_index < T ∧
     predecessor_candidate rc c prev bpi cur i min_index = Ok min ∧
     ∀ j, j < min_index →
       ∃ v, predecessor_candidate rc c prev bpi cur i j = Ok v ∧ min < v) ∧
  (¬ min < UINT_MAX → min = UINT_MAX ∧ min_index = 0).
Proof.
  rewrite <- (N2Nat.id T). generalize (N.to_nat T). clear T. intros n.
  revert min min_index. induction n as [|n IH]; intros min min_index.
  - change (N_range (N.of_nat 0)) with (@nil N). simpl. intros [= <- <-].
    split; [intros j Hj; lia|]. split; [unfold UINT_MAX; lia|done].
  - rewrite N_range_S, foldlM_snoc. intros Hf.
    apply bind_Ok in Hf as ([min0 mi0] & Hf & Hs).
    destruct (IH _ _ Hf) as (Hall & Hfin & Hinf).
    unfold relax_predecessor in Hs. apply bind_Ok in Hs as (v & Hv & Hs).
    pose proof (predecessor_candidate_bound _ _ _ _ _ _ _ _ Hv) as Hvb.
    destruct (v <? min0) eqn:Hlt; injection Hs as <- <-.
    + apply N.ltb_lt in Hlt. split; [|split].
      * intros j Hj. destruct (decide (j = N.of_nat n)) as [->|Hne].
        -- exists v. split; [done|lia].
        -- destruct (Hall j ltac:(lia)) as (v' & Hv' & Hle). exists v'. split; [done|lia].
      * intros _. split; [lia|]. split; [done|].
        intros j Hj. destruct (Hall j Hj) as (v' & Hv' & Hle). exists v'. split; [done|lia].
      * intros Hn. lia.
    + apply N.ltb_ge in Hlt. split; [|split].
      * intros j Hj. destruct (decide (j = N.of_nat n)) as [->|Hne].
        -- exists v. split; [done|lia].
        -- apply Hall. lia.
      * intros Hm. destruct (Hfin Hm) as (Hmi & Hat & Hfirst). split; [lia|done].
      * done.
Qed.

Section EngineProperties.
Context `{IndexingScheme} `{CostComputer CC} `{ColumnReader}.

Lemma compute_column_inv (p : Params) (t t' : PedigreeDPTable) (c : nat)
    (col : option Column) :
  compute_column p t c col = Ok t' →
  (c < get_column_count (input_column_iterator t))%nat ∧
  ((∃ v, projection_column_table t !! c = Some (Some v) ∧ t' = t) ∨
   (projection_column_table t !! c = Some None ∧
    ∃ indexer column it tabs o,
      mjoin (indexers t !! c) = Some indexer ∧
      fetch_column t c col = Ok (column, it) ∧
      column_pass p (read_sources t) (pedigree_partitions t) (get_column_count it)
        c indexer column (previous_projection t c) (optimum_of t) = Ok (tabs, o) ∧
      t' = store_tables (with_optimum (with_iterator t it) o) c tabs)).
Proof.
  unfold compute_column. intros Hc. inv_result.
  apply bool_decide_eq_true in Hstep. split; [done|].
  destruct a0 as [present|].
  - left. inv_result. subst. eauto.
  - right. split; [done|]. inv_result. subst t'. eauto 10.
Qed.

Lemma fetch_column_columns (t : PedigreeDPTable) (c : nat) (col : option Column)
    (column : Column) (it : ColumnIterator) :
  fetch_column t c col = Ok (column, it) →
  it_columns it = it_columns (input_column_iterator t) ∧
  it_positions it = it_positions (input_column_iterator t) ∧
  (col = None → it_columns (input_column_iterator t) !! c = Some column ∧ it_next it = S c) ∧
  (∀ column', col = Some column' → column = column' ∧ it = input_column_iterator t).
Proof.
  destruct col as [column'|]; simpl; intros Hf.
  - inv_result. subst. split; [done|]. split; [done|]. split; [done|].
    by intros ? [= <-].
  - apply get_next_columns in Hf as (? & ? & ? & ?). simpl in *.
    split; [done|]. split; [done|]. split; [done|]. done.
Qed.

Lemma compute_column_frame (p : Params) (t t' : PedigreeDPTable) (c : nat)
    (col : option Column) :
  compute_column p t c col = Ok t' → same_frame t t'.
Proof.
  intros Hc. apply compute_column_inv in Hc as [_ [(v & _ & ->)|(_ & Hc)]].
  - apply same_frame_refl.
  - destruct Hc as (indexer & column & it & tabs & o & _ & Hf & _ & ->).
    apply fetch_column_columns in Hf as (? & ? & _).
    eapply same_frame_trans; [|apply store_tables_frame].
    by repeat split.
Qed.

Lemma release_tables_frame (t : PedigreeDPTable) (j : nat) :
  same_frame t (release_tables t j).
Proof. by repeat split. Qed.

Lemma peek_next_column_frame (p : Params) (c : nat) (fs fs' : ForwardState) :
  peek_next_column p fs c = Ok fs' → same_frame (fw_table fs) (fw_table fs').
Proof.
  unfold peek_next_column. destruct (has_next _); intros Hs.
  - inv_result. subst fs'. simpl.
    match goal with Hn : get_next _ = Ok _ |- _ =>
      apply get_next_columns in Hn as (_ & ? & ? & _) end.
    by repeat split.
  - inv_result. subst fs'. apply same_frame_refl.
Qed.

Lemma release_previous_frame (k c : nat) (t : PedigreeDPTable) :
  same_frame t (release_previous k t c).
Proof.
  unfold release_previous. destruct (_ && _);
    [apply release_tables_frame|apply same_frame_refl].
Qed.

Lemma forward_step_frame (p : Params) (k c : nat) (fs fs' : ForwardState) :
  forward_step p k fs c = Ok fs' → same_frame (fw_table fs) (fw_table fs').
Proof.
  unfold forward_step. intros Hs. inv_result. subst fs'. simpl.
  match goal with Hc : compute_column _ _ _ _ = Ok _ |- _ =>
    apply compute_column_frame in Hc end.
  match goal with Hp : peek_next_column _ _ _ = Ok _ |- _ =>
    apply peek_next_column_frame in Hp end.
  eauto using same_frame_trans, release_previous_frame.
Qed.

Lemma forward_upto_frame (p : Params) (k m : nat) (fs fs' : ForwardState) :
  forward_upto p k fs m = Ok fs' → same_frame (fw_table fs) (fw_table fs').
Proof.
  unfold forward_upto.
  apply (foldlM_invariant (λ fs', same_frame (fw_table fs) (fw_table fs')));
    [|apply same_frame_refl].
  intros a b a' _ Ha Hs. eauto using same_frame_trans, forward_step_frame.
Qed.

Lemma forward_start_frame (p : Params) (t : PedigreeDPTable) (fs : ForwardState) :
  forward_start p t = Ok fs → same_frame t (fw_table fs).
Proof.
  unfold forward_start. intros Hs. inv_result. subst fs. simpl.
  apply get_next_columns in Hstep as (_ & ? & ? & _). by repeat split.
Qed.

Lemma ensure_tables_frame (p : Params) (k i : nat) (t t' : PedigreeDPTable) :
  ensure_tables p k t i = Ok t' → same_frame t t'.
Proof.
  unfold ensure_tables. intros He. inv_result. destruct a as [v|].
  - inv_result. subst. apply same_frame_refl.
  - inv_result. revert He.
    apply (foldlM_invariant (λ t', same_frame t t')); [|apply same_frame_refl].
    intros t1 j t2 _ Ht1 Hc. eauto using same_frame_trans, compute_column_frame.
Qed.

Lemma free_block_frame (k i : nat) (t t' : PedigreeDPTable) :
  free_block k t i = Ok t' → same_frame t t'.
Proof.
  unfold free_block. destruct (bool_decide _).
  - apply (foldlM_invariant (λ t', same_frame t t')); [|apply same_frame_refl].
    intros t1 j t2 _ Ht1 Hc. inv_result. subst t2.
    eauto using same_frame_trans, release_tables_frame.
  - intros [= <-]. apply same_frame_refl.
Qed.

Lemma backtrace_step_inv (p : Params) (k i : nat) (bs bs' : BacktraceState) :
  backtrace_step p k i bs = Ok bs' →
  ∃ t1 indexer ibt tbt new_index prev t3,
    let bti := wrap32 (index_backward_projection indexer (index (bt_v bs))) in
    let v := {| index := new_index; inheritance_value := prev_inheritance_value bs |} in
    ensure_tables p k (bt_table bs) i = Ok t1 ∧
    mjoin (indexers t1 !! i) = Some indexer ∧
    mjoin (index_backtrace_table t1 !! (i - 1)%nat) = Some ibt ∧
    Vector2D_at ibt bti (prev_inheritance_value bs) = Ok new_index ∧
    mjoin (transmission_backtrace_table t1 !! (i - 1)%nat) = Some tbt ∧
    Vector2D_at tbt bti (prev_inheritance_value bs) = Ok prev ∧
    free_block k (with_index_path t1 (<[(i - 1)%nat := v]> (index_path t1))) i = Ok t3 ∧
    bs' = {| bt_table := t3; bt_v := v; prev_inheritance_value := prev |}.
Proof.
  unfold backtrace_step. intros Hs. inv_result. subst bs'.
  repeat eexists; eauto.
Qed.

Lemma backtrace_step_frame (p : Params) (k i : nat) (bs bs' : BacktraceState) :
  backtrace_step p k i bs = Ok bs' → same_frame (bt_table bs) (bt_table bs').
Proof.
  intros Hs. apply backtrace_step_inv in Hs
    as (t1 & indexer & ibt & tbt & new_index & prev & t3 & He & _ & _ & _ & _ & _ & Hf & ->).
  simpl. apply ensure_tables_frame in He. apply free_block_frame in Hf.
  eapply same_frame_trans; [done|]. eapply same_frame_trans; [|done].
  by repeat split.
Qed.

Lemma backtrace_loop_frame (p : Params) (k from : nat) (bs bs' : BacktraceState) :
  backtrace_loop p k from bs = Ok bs' → same_frame (bt_table bs) (bt_table bs').
Proof.
  revert bs. induction from as [|i IH]; intros bs; simpl.
  - intros [= <-]. apply same_frame_refl.
  - intros Hl. inv_result.
    eauto using same_frame_trans, backtrace_step_frame.
Qed.

Lemma compute_table_frame (p : Params) (t t' : PedigreeDPTable) :
  compute_table p t = Ok t' → same_frame t t'.
Proof.
  unfold compute_table. destruct (bool_decide _).
  - intros [= <-]. by repeat split.
  - intros Hc. inv_result. subst t'.
    unfold forward_sweep in Hstep. inv_result.
    apply forward_start_frame in Hstep1. apply forward_upto_frame in Hstep.
    apply backtrace_loop_frame in Hstep0.
    eapply same_frame_trans; [|done].
    eapply same_frame_trans; [|by repeat split].
    eapply same_frame_trans; [|done].
    eapply same_frame_trans; [|done]. by repeat split.
Qed.

Lemma set_index_path_step_frame (p : Params) (c : nat)
    (acc acc' : PedigreeDPTable * Column * list N) :
  set_index_path_step p acc c = Ok acc' → same_frame acc.1.1 acc'.1.1.
Proof.
  unfold set_index_path_step. destruct acc as [[t col] ids].
  destruct (pack_partitioning _ _ _) as [partitioning m]. simpl.
  intros Hs. inv_result. destruct (has_next _).
  - inv_result. subst acc'. simpl.
    apply get_next_columns in Hstep0 as (_ & ? & ? & _). by repeat split.
  - inv_result. subst acc'. by repeat split.
Qed.

Lemma set_index_path_frame (p : Params) (t t' : PedigreeDPTable) :
  set_index_path p t = Ok t' → same_frame t t'.
Proof.
  unfold set_index_path. destruct (bool_decide _).
  - intros [= <-]. by repeat split.
  - intros Hs. inv_result. subst.
    apply get_next_columns in Hstep as (_ & ? & ? & _).
    revert Hstep0.
    match goal with |- foldlM _ ?a0 _ = _ → _ =>
      apply (foldlM_invariant (λ acc, same_frame t acc.1.1) _ _) with (a := a0)
    end.
    + intros a b a' _ Ha Hs. apply set_index_path_step_frame in Hs.
      eauto using same_frame_trans.
    + by repeat split.
Qed.

Lemma reassignReadIds_ids (rs : ReadSet) :
  getID <$> reassignReadIds rs = Z.of_nat <$> seq 0 (length rs).
Proof.
  unfold reassignReadIds.
  cut (∀ n, getID <$> imap (λ i r, setID r (Z.of_nat (n + i))) rs
            = Z.of_nat <$> seq n (length rs)).
  { intros Hn. apply (Hn 0%nat). }
  induction rs as [|r rs IH]; intros n; [done|].
  cbn [length seq imap fmap list_fmap getID setID].
  rewrite Nat.add_0_r. f_equal.
  change (list_fmap _ _ Z.of_nat (seq (S n) (length rs)))
    with (Z.of_nat <$> seq (S n) (length rs)).
  rewrite <- (IH (S n)). f_equal.
  apply imap_ext. intros i x _. simpl. do 2 f_equal. lia.
Qed.

(** C9.  The constructor changes the read set of its caller: whatever the
    read set, the partitioning and the outcome of the construction, the read
    at position [i] has the id [i] afterwards, so the ids are dense in
    [0, num_reads); this is the read set the engine works on; and there are
    read sets that are not left as they were. *)
Theorem constructor_reassigns_read_ids :
  (∀ (reads : ReadSet) (p : Params) (positions precomputed : option (list N)),
     let reads' := (PedigreeDPTable_new reads p positions precomputed).1 in
     reads' = reassignReadIds reads ∧
     length reads' = length reads ∧
     getID <$> reads' = Z.of_nat <$> seq 0 (length reads) ∧
     ∀ t, (PedigreeDPTable_new reads p positions precomputed).2 = Ok t →
          read_set t = reads') ∧
  (∃ (reads : ReadSet) (p : Params) (positions precomputed : option (list N)),
     (PedigreeDPTable_new reads p positions precomputed).1 ≠ reads).
Proof.
  split.
  - intros reads p positions precomputed. simpl.
    split; [done|]. split; [apply reassignReadIds_length|].
    split; [apply reassignReadIds_ids|].
    intros t Ht. inv_result. destruct precomputed as [partitioning|].
    + inv_result.
      match goal with Hs : set_index_path _ _ = Ok _ |- _ =>
        apply set_index_path_frame in Hs as (-> & _) end.
      done.
    + match goal with Hs : compute_table _ _ = Ok _ |- _ =>
        apply compute_table_frame in Hs as (-> & _) end.
      done.
  - exists [Read_new "r" 0 0 0].
    exists {| recombcost := []; pedigree := {| individual_ids := [0]; triples := [] |};
              ploidy := 2; distrust_genotypes := false; allele_counts := [] |}.
    exists None, None. simpl. discriminate.
Qed.

(** ** get_optimal_partitioning (C8, C10) *)

Lemma mjoin_lookup_Some {A} (l : list (option A)) (i : nat) (x : A) :
  mjoin (l !! i) = Some x ↔ l !! i = Some (Some x).
Proof. destruct (l !! i) as [[y|]|]; simpl; split; congruence. Qed.

Lemma assign_partitions_inv (ploidy : N) (part part' : list N) (idx idx' id : N) :
  assign_partitions ploidy (part, idx) id = Ok (part', idx') →
  ploidy ≠ 0 ∧ (N.to_nat id < length part)%nat ∧
  part' = <[N.to_nat id := idx mod ploidy]> part ∧ idx' = idx / ploidy.
Proof.
  unfold assign_partitions. intros Ha. inv_result.
  apply negb_true_iff, N.eqb_neq in Hstep.
  apply lookup_lt_Some in Hstep0. by subst.
Qed.

Lemma assign_partitions_Ok (ploidy : N) (part : list N) (idx id : N) :
  ploidy ≠ 0 → (N.to_nat id < length part)%nat →
  assign_partitions ploidy (part, idx) id
    = Ok (<[N.to_nat id := idx mod ploidy]> part, idx / ploidy).
Proof.
  intros Hp Hid. unfold assign_partitions.
  destruct (ploidy =? 0) eqn:Hz; [by apply N.eqb_eq in Hz|]. simpl.
  by destruct (lookup_lt_is_Some_2 _ _ Hid) as [x ->].
Qed.

Lemma assign_partitions_fold (ploidy : N) (ids : list N) (part part' : list N)
    (idx idx' : N) :
  foldlM (assign_partitions ploidy) (part, idx) ids = Ok (part', idx') →
  length part' = length part ∧
  (∀ r, N.of_nat r ∉ ids → part' !! r = part !! r) ∧
  (Forall (λ x, x < ploidy) part → Forall (λ x, x < ploidy) part').
Proof.
  intros Hf.
  apply (foldlM_invariant
    (λ acc, length acc.1 = length part ∧
            (∀ r, N.of_nat r ∉ ids → acc.1 !! r = part !! r) ∧
            (Forall (λ x, x < ploidy) part → Forall (λ x, x < ploidy) acc.1))
    _ _) with (a := (part, idx)) (a' := (part', idx')) in Hf; [done| |done].
  intros [part1 idx1] id [part2 idx2] Hid (Hlen & Hout & Hrange) Ha. simpl in *.
  apply assign_partitions_inv in Ha as (Hp & Hlt & -> & ->).
  split; [by rewrite length_insert|]. split.
  - intros r Hr. rewrite list_lookup_insert_ne; [by apply Hout|].
    intros <-. apply Hr. by rewrite N2Nat.id.
  - intros Hall. apply Forall_insert; [by apply Hrange|].
    by apply N.mod_lt.
Qed.

(** C10.  In the sequence that [get_optimal_partitioning] returns, which has
    the length of the read set, every read that is in the read list of no
    column along the index path has partition 0. *)
Theorem inactive_reads_get_partition_0 (p : Params) (t : PedigreeDPTable)
    (part : list N) :
  get_optimal_partitioning p t = Ok part →
  length part = length (read_set t) ∧
  ∀ r : nat,
    (r < length (read_set t))%nat →
    (∀ i indexer, (i < length (index_path t))%nat →
       indexers t !! i = Some (Some indexer) →
       N.of_nat r ∉ get_read_ids indexer) →
    part !! r = Some 0.
Proof.
  unfold get_optimal_partitioning. intros Hg.
  set (inactive r := ∀ i indexer, (i < length (index_path t))%nat →
       indexers t !! i = Some (Some indexer) → N.of_nat r ∉ get_read_ids indexer).
  apply (foldlM_invariant
    (λ part, length part = length (read_set t) ∧
             ∀ r, (r < length (read_set t))%nat → inactive r → part !! r = Some 0)
    _ _) in Hg; [done| |].
  - intros part1 i part2 Hi (Hlen & Hzero) Hs. inv_result.
    subst part2. rename n into idx'.
    match goal with Hf : foldlM _ _ _ = Ok _ |- _ =>
      apply assign_partitions_fold in Hf as (Hlen' & Hout & _) end.
    split; [congruence|]. intros r Hr Hin.
    rewrite Hout; [by apply Hzero|].
    apply elem_of_seq in Hi.
    apply (Hin i); [lia|].
    by apply mjoin_lookup_Some.
  - split; [by rewrite length_replicate|].
    intros r Hr _. by apply lookup_replicate_2.
Qed.

(** On the same condition every partition of the sequence is below the
    ploidy. *)
Lemma get_optimal_partitioning_range (p : Params) (t : PedigreeDPTable)
    (part : list N) :
  ploidy p ≠ 0 →
  get_optimal_partitioning p t = Ok part →
  Forall (λ x, x < ploidy p) part.
Proof.
  unfold get_optimal_partitioning. intros Hp Hg.
  apply (foldlM_invariant (Forall (λ x, x < ploidy p)) _ _) in Hg; [done| |].
  - intros part1 i part2 Hi Hall Hs. inv_result. subst part2.
    match goal with Hf : foldlM _ _ _ = Ok _ |- _ =>
      apply assign_partitions_fold in Hf as (_ & _ & Hr) end.
    by apply Hr.
  - apply Forall_replicate. lia.
Qed.

(** The sequence is returned when every column of the index path has its
    indexing scheme and the reads of the schemes are reads of the read set. *)
Lemma get_optimal_partitioning_returns (p : Params) (t : PedigreeDPTable) :
  ploidy p ≠ 0 →
  (∀ i, (i < length (index_path t))%nat →
     ∃ indexer, indexers t !! i = Some (Some indexer) ∧
       Forall (λ id, (N.to_nat id < length (read_set t))%nat) (get_read_ids indexer)) →
  ∃ part, get_optimal_partitioning p t = Ok part.
Proof.
  intros Hp Hix. unfold get_optimal_partitioning.
  cut (∀ cols part0, length part0 = length (read_set t) →
         (∀ i, i ∈ cols → (i < length (index_path t))%nat) →
         ∃ part,
           foldlM (λ partitioning i,
               v ← require InvariantViolation (index_path t !! i);
               indexer ← require InvariantViolation (mjoin (indexers t !! i));
               '(partitioning', _) ←
                 foldlM (assign_partitions (ploidy p)) (partitioning, index v)
                   (get_read_ids indexer);
               Ok partitioning') part0 cols = Ok part).
  { intros Hcut. apply Hcut; [by rewrite length_replicate|].
    intros i Hi. apply elem_of_seq in Hi. lia. }
  induction cols as [|c cols IH]; intros part0 Hlen Hcols; simpl; [eauto|].
  assert (c < length (index_path t))%nat as Hc by (apply Hcols; left).
  destruct (lookup_lt_is_Some_2 _ _ Hc) as [v Hv].
  destruct (Hix c Hc) as (indexer & Hi & Hids).
  rewrite Hv, Hi. simpl.
  assert (∀ ids part1 idx, length part1 = length (read_set t) →
            Forall (λ id, (N.to_nat id < length (read_set t))%nat) ids →
            ∃ part2 idx2, foldlM (assign_partitions (ploidy p)) (part1, idx) ids
                          = Ok (part2, idx2) ∧ length part2 = length (read_set t))
    as Hinner.
  { clear -Hp. induction ids as [|id ids IHi]; intros part1 idx Hl Hall;
      cbn [foldlM]; [eauto|].
    inversion Hall as [|? ? Hid Hall']; subst.
    rewrite <- Hl in Hid. rewrite assign_partitions_Ok by done. simpl.
    apply IHi; [by rewrite length_insert|done]. }
  destruct (Hinner (get_read_ids indexer) part0 (index v) Hlen Hids)
    as (part2 & idx2 & -> & Hlen2). simpl.
  apply IH; [done|]. intros i' Hi'. apply Hcols. by right.
Qed.

(** ** Failures that are not a Mendelian conflict *)

Lemma bind_Err {A B} (m : result A) (f : A → result B) (e : error) :
  m ≫= f = Err e ↔ m = Err e ∨ ∃ a, m = Ok a ∧ f a = Err e.
Proof.
  destruct m as [a|e']; simpl; split.
  - intros Hf. right. eauto.
  - intros [?|(a' & ? & ?)]; congruence.
  - intros [= ->]. by left.
  - intros [?|(a' & ? & ?)]; congruence.
Qed.

Lemma require_no_conflict {A} (e : error) (o : option A) :
  e ≠ MendelianConflict → require e o ≠ Err MendelianConflict.
Proof. destruct o; simpl; congruence. Qed.

Lemma Vector2D_at_no_conflict (t : Vector2D) (i0 i1 : N) :
  Vector2D_at t i0 i1 ≠ Err MendelianConflict.
Proof. unfold Vector2D_at. by apply require_no_conflict. Qed.

Lemma Vector2D_set_no_conflict (t : Vector2D) (i0 i1 x : N) :
  Vector2D_set t i0 i1 x ≠ Err MendelianConflict.
Proof.
  unfold Vector2D_set. intros Hs.
  apply bind_Err in Hs as [Hs|(row & _ & Hs)];
    [by apply require_no_conflict in Hs|].
  apply bind_Err in Hs as [Hs|(? & _ & Hs)];
    [by apply require_no_conflict in Hs|done].
Qed.

Lemma foldlM_no_conflict {A B} (f : A → B → result A) (l : list B) :
  (∀ a b, f a b ≠ Err MendelianConflict) →
  ∀ a, foldlM f a l ≠ Err MendelianConflict.
Proof.
  intros Hf. induction l as [|b l IH]; intros a; simpl; [done|].
  intros Hs. apply bind_Err in Hs as [Hs|(a' & _ & Hs)]; [by eapply Hf|by eapply IH].
Qed.

Lemma candidate_cost_no_conflict (rc : list N) (c : nat) (cur prev i j : N) :
  candidate_cost rc c cur prev i j ≠ Err MendelianConflict.
Proof.
  unfold candidate_cost. destruct (_ <? UINT_MAX); [|done].
  intros Hs. apply bind_Err in Hs as [Hs|(? & _ & Hs)];
    [by apply require_no_conflict in Hs|done].
Qed.

Lemma predecessor_candidate_no_conflict (rc : list N) (c : nat)
    (prev : option Vector2D) (bpi cur i j : N) :
  predecessor_candidate rc c prev bpi cur i j ≠ Err MendelianConflict.
Proof.
  unfold predecessor_candidate, previous_cost_of. intros Hs.
  apply bind_Err in Hs as [Hs|(? & _ & Hs)];
    [|by apply candidate_cost_no_conflict in Hs].
  destruct (decide _); [|done].
  apply bind_Err in Hs as [Hs|(? & _ & Hs)];
    [by apply require_no_conflict in Hs|by apply Vector2D_at_no_conflict in Hs].
Qed.

Lemma relax_predecessor_no_conflict (rc : list N) (c : nat)
    (prev : option Vector2D) (bpi cur i : N) (acc : N * N) (j : N) :
  relax_predecessor rc c prev bpi cur i acc j ≠ Err MendelianConflict.
Proof.
  unfold relax_predecessor. destruct acc as [min min_index]. intros Hs.
  apply bind_Err in Hs as [Hs|(? & _ & Hs)];
    [by apply predecessor_candidate_no_conflict in Hs|done].
Qed.

Lemma get_cost_bound (c : CC) : get_cost c ≤ UINT_MAX.
Proof. apply wrap32_bound. Qed.

Lemma relax_pattern_inv (p : Params) (c : nat) (prev : option Vector2D)
    (bpi current_index : N) (ccs : list CC) (dp dp' : Vector2D)
    (mri mri' : list N) (found found' : bool) (i : N) :
  relax_pattern p c prev bpi current_index ccs (dp, mri, found) i = Ok (dp', mri', found') →
  ∃ cc, ccs !! N.to_nat i = Some cc ∧ found' = found || (get_cost cc <? UINT_MAX).
Proof.
  unfold relax_pattern. intros Hr. inv_result. subst. eauto.
Qed.

Lemma relax_pattern_no_conflict (p : Params) (c : nat) (prev : option Vector2D)
    (bpi current_index : N) (ccs : list CC) (acc : Vector2D * list N * bool) (i : N) :
  relax_pattern p c prev bpi current_index ccs acc i ≠ Err MendelianConflict.
Proof.
  unfold relax_pattern. destruct acc as [[dp mri] found]. intros Hs.
  apply bind_Err in Hs as [Hs|(? & _ & Hs)];
    [by apply require_no_conflict in Hs|].
  apply bind_Err in Hs as [Hs|([min min_index] & _ & Hs)].
  { revert Hs. apply foldlM_no_conflict. intros. apply relax_predecessor_no_conflict. }
  apply bind_Err in Hs as [Hs|(? & _ & Hs)];
    [by apply Vector2D_set_no_conflict in Hs|done].
Qed.

(** The flag [found_valid_transmission_vector] after the loop over the
    patterns [pats]. *)
Lemma relax_pattern_fold_found (p : Params) (c : nat) (prev : option Vector2D)
    (bpi current_index : N) (ccs : list CC) (pats : list N) (dp dp' : Vector2D)
    (mri mri' : list N) (found found' : bool) :
  foldlM (relax_pattern p c prev bpi current_index ccs) (dp, mri, found) pats
    = Ok (dp', mri', found') →
  Forall (λ i, is_Some (ccs !! N.to_nat i)) pats ∧
  (found' = true ↔
   found = true ∨ ∃ i cc, i ∈ pats ∧ ccs !! N.to_nat i = Some cc ∧ get_cost cc < UINT_MAX).
Proof.
  revert dp mri found. induction pats as [|i pats IH]; intros dp mri found; simpl.
  - intros [= <- <- <-]. split; [done|]. split; [by left|].
    intros [?|(i & cc & Hi & _)]; [done|by apply elem_of_nil in Hi].
  - intros Hf. apply bind_Ok in Hf as ([[dp1 mri1] found1] & Hr & Hf).
    apply relax_pattern_inv in Hr as (cc & Hcc & ->).
    apply IH in Hf as (Hall & Hfound). split; [constructor; eauto|].
    rewrite Hfound, orb_true_iff, N.ltb_lt. split.
    + intros [[?|?]|(i' & cc' & Hi' & ?)]; [by left|right..].
      * exists i, cc. split; [left|done].
      * exists i', cc'. split; [by right|done].
    + intros [?|(i' & cc' & Hi' & Hcc' & Hlt)]; [by left; left|].
      apply elem_of_cons in Hi' as [->|Hi'].
      * left. right. congruence.
      * right. eauto.
Qed.

Lemma length_N_range (n : N) : length (N_range n) = N.to_nat n.
Proof. unfold N_range. by rewrite length_fmap, length_seq. Qed.

(** A loop that appends one element in each round. *)
Lemma foldlM_app_length {A B} (g : B → result A) (f : list A → B → result (list A))
    (l : list B) (acc r : list A) :
  (∀ acc b, f acc b = (x ← g b; Ok (acc ++ [x]))) →
  foldlM f acc l = Ok r → length r = (length acc + length l)%nat.
Proof.
  intros Hf. revert acc. induction l as [|b l IH]; intros acc; simpl.
  - intros [= <-]. lia.
  - rewrite Hf. intros Hl. inv_result. apply IH in Hl. subst.
    rewrite length_app in Hl. simpl in Hl. lia.
Qed.

Lemma make_cost_computers_length (p : Params) (sources : list N)
    (partitions : list PedigreePartitions) (column : Column) (c : nat) (ccs : list CC) :
  make_cost_computers p sources partitions column c = Ok ccs →
  length ccs = N.to_nat (transmission_configurations (pedigree p)).
Proof.
  unfold make_cost_computers. rewrite <- length_N_range.
  generalize (N_range (transmission_configurations (pedigree p))). intros l.
  intros Hf.
  apply (foldlM_app_length (λ i,
           pp ← require InvariantViolation (partitions !! N.to_nat i);
           ac ← require PreconditionViolation (allele_counts p !! c);
           Ok (cc_new column c sources (pedigree p) pp (distrust_genotypes p) ac)))
    in Hf; [done|].
  intros acc i. destruct (require _ (partitions !! _)); simpl; [|done].
  by destruct (require _ (allele_counts p !! _)).
Qed.

Lemma make_cost_computers_no_conflict (p : Params) (sources : list N)
    (partitions : list PedigreePartitions) (column : Column) (c : nat) :
  make_cost_computers p sources partitions column c ≠ Err MendelianConflict.
Proof.
  unfold make_cost_computers. apply foldlM_no_conflict. intros ccs i Hs.
  apply bind_Err in Hs as [Hs|(? & _ & Hs)];
    [by apply require_no_conflict in Hs|].
  apply bind_Err in Hs as [Hs|(? & _ & Hs)];
    [by apply require_no_conflict in Hs|done].
Qed.

Lemma update_optimum_no_conflict (dp : Vector2D) (current_index : N)
    (s : IteratorStep) (mri : list N) (o : Optimum) (i : N) :
  update_optimum dp current_index s mri o i ≠ Err MendelianConflict.
Proof.
  unfold update_optimum. intros Hs.
  apply bind_Err in Hs as [Hs|(d & _ & Hs)];
    [by apply Vector2D_at_no_conflict in Hs|].
  destruct (d <? opt_score o); [|done].
  apply bind_Err in Hs as [Hs|(? & _ & Hs)];
    [by apply require_no_conflict in Hs|done].
Qed.

Lemma relax_projection_no_conflict (dp : Vector2D) (current_index fi it_idx : N)
    (mri : list N) (tabs : ColumnTables) (i : N) :
  relax_projection dp current_index fi it_idx mri tabs i ≠ Err MendelianConflict.
Proof.
  unfold relax_projection. intros Hs.
  apply bind_Err in Hs as [Hs|(d & _ & Hs)];
    [by apply Vector2D_at_no_conflict in Hs|].
  apply bind_Err in Hs as [Hs|(slot & _ & Hs)];
    [by apply Vector2D_at_no_conflict in Hs|].
  destruct (d <? slot); [|done].
  apply bind_Err in Hs as [Hs|(? & _ & Hs)];
    [by apply Vector2D_set_no_conflict in Hs|].
  apply bind_Err in Hs as [Hs|(? & _ & Hs)];
    [by apply Vector2D_set_no_conflict in Hs|].
  apply bind_Err in Hs as [Hs|(? & _ & Hs)];
    [by apply require_no_conflict in Hs|].
  apply bind_Err in Hs as [Hs|(? & _ & Hs)];
    [by apply Vector2D_set_no_conflict in Hs|done].
Qed.

Lemma length_advance_cost_computers (s : IteratorStep) (ccs : list CC) :
  length (advance_cost_computers s ccs) = length ccs.
Proof. unfold advance_cost_computers. destruct (_ <=? _)%Z; apply length_fmap. Qed.

(** A step of the iterator raises the conflict exactly when its row of costs
    has no finite cell. *)
Lemma process_step_conflict (p : Params) (c : nat) (prev : option Vector2D)
    (ccs0 : list CC) (dp : Vector2D) (tabs : option ColumnTables) (o : Optimum)
    (s : IteratorStep) :
  length ccs0 = N.to_nat (transmission_configurations (pedigree p)) →
  let row := get_cost <$> advance_cost_computers s ccs0 in
  (process_step p c prev (ccs0, dp, tabs, o) s = Err MendelianConflict →
   all_infinite row) ∧
  (∀ r, process_step p c prev (ccs0, dp, tabs, o) s = Ok r →
        r.1.1.1 = advance_cost_computers s ccs0 ∧ ¬ all_infinite row).
Proof.
  intros Hlen row. unfold process_step.
  set (T := transmission_configurations (pedigree p)) in *.
  set (ccs := advance_cost_computers s ccs0) in *.
  assert (length ccs = N.to_nat T) as Hlen'
    by (unfold ccs; by rewrite length_advance_cost_computers).
  destruct (foldlM _ _ (N_range T)) as [[[dp' mri] found]|e] eqn:Hfold; simpl.
  - apply relax_pattern_fold_found in Hfold as (_ & Hfound).
    destruct found; simpl.
    + assert (¬ all_infinite row) as Hrow.
      { destruct Hfound as [Hfound _].
        destruct (Hfound eq_refl) as [?|(i & cc & _ & Hcc & Hlt)]; [done|].
        unfold all_infinite, row. intros Hall.
        rewrite Forall_lookup in Hall.
        specialize (Hall (N.to_nat i) (get_cost cc)).
        rewrite list_lookup_fmap, Hcc in Hall. specialize (Hall eq_refl). lia. }
      split.
      * destruct tabs as [tb|]; intros Hs; exfalso.
        -- apply bind_Err in Hs as [Hs|(? & _ & Hs)]; [|done].
           revert Hs. apply foldlM_no_conflict. intros.
           apply relax_projection_no_conflict.
        -- apply bind_Err in Hs as [Hs|(? & _ & Hs)]; [|done].
           revert Hs. apply foldlM_no_conflict. intros.
           apply update_optimum_no_conflict.
      * intros r Hr. split; [|done].
        destruct tabs as [tb|]; inv_result; by subst r.
    + split; [|done]. intros _.
      unfold all_infinite, row. apply Forall_lookup. intros n x Hx.
      rewrite list_lookup_fmap in Hx.
      destruct (ccs !! n) as [cc|] eqn:Hcc; simpl in Hx; [|done].
      injection Hx as <-.
      pose proof (get_cost_bound cc) as Hb.
      destruct (N.lt_ge_cases (get_cost cc) UINT_MAX) as [Hlt|Hge]; [|lia].
      exfalso. assert (true = false) as Habs; [|done].
      symmetry. apply Hfound. right. exists (N.of_nat n), cc.
      rewrite Nat2N.id. split; [|done].
      apply elem_of_N_range. apply lookup_lt_Some in Hcc. lia.
  - split; [|done]. intros [= ->]. exfalso.
    revert Hfold. apply foldlM_no_conflict. intros. apply relax_pattern_no_conflict.
Qed.

(** The walk of a column raises the conflict exactly when one of its rows
    has no finite cell. *)
Lemma walk_conflict (p : Params) (c : nat) (prev : option Vector2D)
    (steps : list IteratorStep) (ccs : list CC) (dp : Vector2D)
    (tabs : option ColumnTables) (o : Optimum) :
  length ccs = N.to_nat (transmission_configurations (pedigree p)) →
  (foldlM (process_step p c prev) (ccs, dp, tabs, o) steps = Err MendelianConflict →
   Exists all_infinite (walk_costs ccs steps)) ∧
  (∀ r, foldlM (process_step p c prev) (ccs, dp, tabs, o) steps = Ok r →
        Forall (λ row, ¬ all_infinite row) (walk_costs ccs steps)).
Proof.
  revert ccs dp tabs o. induction steps as [|s steps IH]; intros ccs dp tabs o Hlen.
  { simpl. split; [done|]. by intros. }
  cbn [foldlM walk_costs].
  destruct (process_step_conflict p c prev ccs dp tabs o s Hlen) as [Herr Hok].
  destruct (process_step _ _ _ _ s) as [[[[ccs1 dp1] tabs1] o1]|e] eqn:Hs; simpl.
  - destruct (Hok _ eq_refl) as [Hccs Hrow]. simpl in Hccs. subst ccs1.
    destruct (IH (advance_cost_computers s ccs) dp1 tabs1 o1) as [IHerr IHok];
      [by rewrite length_advance_cost_computers|].
    split.
    + intros Hf. right. by apply IHerr.
    + intros r Hf. constructor; [done|]. by eapply IHok.
  - split; [|done]. intros [= ->]. left. by apply Herr.
Qed.

Lemma column_pass_conflict (p : Params) (sources : list N)
    (partitions : list PedigreePartitions) (n c : nat)
    (indexer : ColumnIndexingScheme) (column : Column) (prev : option Vector2D)
    (o : Optimum) :
  (column_pass p sources partitions n c indexer column prev o = Err MendelianConflict →
   ∃ ccs, make_cost_computers p sources partitions column c = Ok ccs ∧
          Exists all_infinite (walk_costs ccs (get_iterator indexer))) ∧
  (∀ r, column_pass p sources partitions n c indexer column prev o = Ok r →
   ∃ ccs, make_cost_computers p sources partitions column c = Ok ccs ∧
          Forall (λ row, ¬ all_infinite row) (walk_costs ccs (get_iterator indexer))).
Proof.
  unfold column_pass.
  destruct (make_cost_computers p sources partitions column c) as [ccs|e] eqn:Hm; simpl.
  - pose proof (make_cost_computers_length _ _ _ _ _ _ Hm) as Hlen.
    match goal with |- context [foldlM _ (ccs, ?dp, ?tabs, o) _] =>
      destruct (walk_conflict p c prev (get_iterator indexer) ccs dp tabs o Hlen)
        as [Herr Hok] end.
    split.
    + intros Hs. exists ccs. split; [done|]. apply Herr.
      apply bind_Err in Hs as [Hs|([[[? ?] ?] ?] & _ & Hs)]; done.
    + intros r Hs. exists ccs. split; [done|].
      apply bind_Ok in Hs as (r' & Hs & _). by eapply Hok.
  - split; [|done]. intros [= ->]. by apply make_cost_computers_no_conflict in Hm.
Qed.

(** ** The tables of a column do not depend on the running optimum *)

Lemma process_step_tables (p : Params) (c : nat) (prev : option Vector2D)
    (ccs : list CC) (dp : Vector2D) (tb : ColumnTables) (o : Optimum)
    (s : IteratorStep) r :
  process_step p c prev (ccs, dp, Some tb, o) s = Ok r →
  ∃ ccs' dp' tb', r = (ccs', dp', Some tb', o) ∧
    ∀ o2, process_step p c prev (ccs, dp, Some tb, o2) s = Ok (ccs', dp', Some tb', o2).
Proof.
  unfold process_step.
  destruct (foldlM _ _ (N_range _)) as [[[dp' mri] found]|e]; simpl; [|done].
  destruct found; simpl; [|done].
  destruct (foldlM _ tb _) as [tb'|e]; simpl; [|done].
  intros [= <-]. eauto.
Qed.

Lemma process_step_last (p : Params) (c : nat) (prev : option Vector2D)
    (ccs : list CC) (dp : Vector2D) (o : Optimum) (s : IteratorStep) r :
  process_step p c prev (ccs, dp, None, o) s = Ok r → r.1.2 = None.
Proof.
  unfold process_step.
  destruct (foldlM _ _ (N_range _)) as [[[dp' mri] found]|e]; simpl; [|done].
  destruct found; simpl; [|done].
  destruct (foldlM _ o _) as [o'|e]; simpl; [|done].
  by intros [= <-].
Qed.

Lemma walk_tables (p : Params) (c : nat) (prev : option Vector2D)
    (steps : list IteratorStep) (ccs : list CC) (dp : Vector2D)
    (tb : ColumnTables) (o : Optimum) r :
  foldlM (process_step p c prev) (ccs, dp, Some tb, o) steps = Ok r →
  ∃ ccs' dp' tb', r = (ccs', dp', Some tb', o) ∧
    ∀ o2, foldlM (process_step p c prev) (ccs, dp, Some tb, o2) steps
          = Ok (ccs', dp', Some tb', o2).
Proof.
  revert ccs dp tb. induction steps as [|s steps IH]; intros ccs dp tb; cbn [foldlM].
  - intros [= <-]. eauto.
  - intros Hf. apply bind_Ok in Hf as (r1 & Hs & Hf).
    apply process_step_tables in Hs as (ccs1 & dp1 & tb1 & -> & Hs).
    apply IH in Hf as (ccs2 & dp2 & tb2 & -> & Hf).
    exists ccs2, dp2, tb2. split; [done|]. intros o2. rewrite Hs. apply Hf.
Qed.

Lemma walk_last (p : Params) (c : nat) (prev : option Vector2D)
    (steps : list IteratorStep) (ccs : list CC) (dp : Vector2D) (o : Optimum) r :
  foldlM (process_step p c prev) (ccs, dp, None, o) steps = Ok r → r.1.2 = None.
Proof.
  revert ccs dp o. induction steps as [|s steps IH]; intros ccs dp o; cbn [foldlM].
  - by intros [= <-].
  - intros Hf. apply bind_Ok in Hf as ([[[ccs1 dp1] tabs1] o1] & Hs & Hf).
    apply process_step_last in Hs. simpl in Hs. subst tabs1. by eapply IH.
Qed.

(** A column that is not the last one gives tables; they and the success of
    the pass are the same for every running optimum, which stays as it is. *)
Lemma column_pass_tables (p : Params) (sources : list N)
    (partitions : list PedigreePartitions) (n c : nat)
    (indexer : ColumnIndexingScheme) (column : Column) (prev : option Vector2D)
    (o o' : Optimum) (r : option ColumnTables) :
  (c + 1 < n)%nat →
  column_pass p sources partitions n c indexer column prev o = Ok (r, o') →
  ∃ tb, r = Some tb ∧ o' = o ∧
    ∀ o2, column_pass p sources partitions n c indexer column prev o2 = Ok (Some tb, o2).
Proof.
  intros Hc. unfold column_pass. destruct (decide _); [|lia].
  destruct (make_cost_computers _ _ _ _ _) as [ccs|e]; simpl; [|done].
  intros Hp. apply bind_Ok in Hp as (r1 & Hw & Hp).
  apply walk_tables in Hw as (ccs' & dp' & tb' & -> & Hw).
  injection Hp as <- <-. exists tb'. split; [done|]. split; [done|].
  intros o2. by rewrite Hw.
Qed.

(** The last column gives no tables. *)
Lemma column_pass_last (p : Params) (sources : list N)
    (partitions : list PedigreePartitions) (n c : nat)
    (indexer : ColumnIndexingScheme) (column : Column) (prev : option Vector2D)
    (o o' : Optimum) (r : option ColumnTables) :
  ¬ (c + 1 < n)%nat →
  column_pass p sources partitions n c indexer column prev o = Ok (r, o') →
  r = None.
Proof.
  intros Hc. unfold column_pass. destruct (decide _); [lia|].
  destruct (make_cost_computers _ _ _ _ _) as [ccs|e]; simpl; [|done].
  intros Hp. apply bind_Ok in Hp as ([[[ccs1 dp1] tabs1] o1] & Hw & Hp).
  apply walk_last in Hw. simpl in Hw. by injection Hp as <- <-.
Qed.

(** ** The indexing schemes of the forward sweep *)

Lemma raw_schemes_length (ploidy : N) (previous : option ColumnIndexingScheme)
    (cols : list Column) :
  length (raw_schemes ploidy previous cols) = length cols.
Proof.
  revert previous. induction cols as [|col cols IH]; intros previous; simpl; [done|].
  by rewrite IH.
Qed.

Lemma raw_schemes_lookup_0 (ploidy : N) (previous : option ColumnIndexingScheme)
    (cols : list Column) (col : Column) :
  cols !! 0%nat = Some col →
  raw_schemes ploidy previous cols !! 0%nat
    = Some (scheme_new previous (extract_read_ids col) ploidy).
Proof. destruct cols; simpl; [done|]. by intros [= ->]. Qed.

Lemma raw_schemes_lookup_S (ploidy : N) (previous : option ColumnIndexingScheme)
    (cols : list Column) (c : nat) (s : ColumnIndexingScheme) (col : Column) :
  raw_schemes ploidy previous cols !! c = Some s →
  cols !! S c = Some col →
  raw_schemes ploidy previous cols !! S c
    = Some (scheme_new (Some s) (extract_read_ids col) ploidy).
Proof.
  revert previous c. induction cols as [|col0 cols IH]; intros previous c; [done|].
  destruct c as [|c].
  - simpl. intros [= <-] Hcol. by apply raw_schemes_lookup_0.
  - cbn [raw_schemes]. apply (IH _ c).
Qed.

Lemma has_tables_inj (t : PedigreeDPTable) (j : nat) (tb tb' : ColumnTables) :
  has_tables t j tb → has_tables t j tb' → tb = tb'.
Proof.
  intros (Ha & Hb & Hc) (Ha' & Hb' & Hc'). destruct tb, tb'. simpl in *.
  congruence.
Qed.

Lemma has_tables_not_no_tables (t : PedigreeDPTable) (j : nat) (tb : ColumnTables) :
  has_tables t j tb → no_tables t j → False.
Proof. intros (Ha & _) (Ha' & _). congruence. Qed.

Lemma tables_sized_store (n : nat) (t : PedigreeDPTable) (c : nat)
    (tabs : option ColumnTables) :
  tables_sized n t → tables_sized n (store_tables t c tabs).
Proof.
  intros (? & ? & ?). destruct tabs; [|done].
  unfold tables_sized. simpl. by rewrite !length_insert.
Qed.

Lemma tables_sized_release (n : nat) (t : PedigreeDPTable) (j : nat) :
  tables_sized n t → tables_sized n (release_tables t j).
Proof.
  intros (? & ? & ?). unfold tables_sized. simpl. by rewrite !length_insert.
Qed.

Lemma has_tables_store_eq (n : nat) (t : PedigreeDPTable) (c : nat) (tb : ColumnTables) :
  tables_sized n t → (c < n)%nat → has_tables (store_tables t c (Some tb)) c tb.
Proof.
  intros (? & ? & ?) Hc. unfold has_tables. simpl.
  rewrite !list_lookup_insert_eq by lia. done.
Qed.

Lemma has_tables_store_ne (t : PedigreeDPTable) (c j : nat)
    (tabs : option ColumnTables) (tb : ColumnTables) :
  c ≠ j → has_tables (store_tables t c tabs) j tb ↔ has_tables t j tb.
Proof.
  intros Hc. destruct tabs; [|done]. unfold has_tables. simpl.
  by rewrite !list_lookup_insert_ne.
Qed.

Lemma no_tables_store_ne (t : PedigreeDPTable) (c j : nat) (tabs : option ColumnTables) :
  c ≠ j → no_tables (store_tables t c tabs) j ↔ no_tables t j.
Proof.
  intros Hc. destruct tabs; [|done]. unfold no_tables. simpl.
  by rewrite !list_lookup_insert_ne.
Qed.

Lemma no_tables_release_eq (n : nat) (t : PedigreeDPTable) (j : nat) :
  tables_sized n t → (j < n)%nat → no_tables (release_tables t j) j.
Proof.
  intros (? & ? & ?) Hj. unfold no_tables. simpl.
  rewrite !list_lookup_insert_eq by lia. done.
Qed.

Lemma has_tables_release_ne (t : PedigreeDPTable) (c j : nat) (tb : ColumnTables) :
  c ≠ j → has_tables (release_tables t c) j tb ↔ has_tables t j tb.
Proof.
  intros Hc. unfold has_tables. simpl. by rewrite !list_lookup_insert_ne.
Qed.

Lemma no_tables_release_ne (t : PedigreeDPTable) (c j : nat) :
  c ≠ j → no_tables (release_tables t c) j ↔ no_tables t j.
Proof.
  intros Hc. unfold no_tables. simpl. by rewrite !list_lookup_insert_ne.
Qed.

Lemma reference_tables_pass (p : Params) (t : PedigreeDPTable) (c : nat) :
  reference_tables p t c = pass_tables (reference_pass p t c no_optimum).
Proof.
  unfold reference_pass. destruct c as [|c]; cbn [reference_tables].
  - destruct (it_columns _ !! 0%nat) as [column|]; simpl; [|done].
    by destruct (scheme_of_column _ _ 0) as [indexer|].
  - destruct (it_columns _ !! S c) as [column|]; simpl.
    + destruct (scheme_of_column _ _ (S c)) as [indexer|]; simpl.
      * by destruct (reference_tables p t c).
      * by destruct (reference_tables p t c).
    + by destruct (reference_tables p t c).
Qed.

(** When the pass over a column that is not the last one ends well, its
    tables are the reference tables. *)
Lemma reference_pass_tables (p : Params) (t : PedigreeDPTable) (c : nat)
    (o o' : Optimum) (r : option ColumnTables) :
  (c + 1 < length (it_columns (input_column_iterator t)))%nat →
  reference_pass p t c o = Ok (r, o') →
  ∃ tb, r = Some tb ∧ o' = o ∧ reference_tables p t c = Some tb.
Proof.
  intros Hc Hp. rewrite reference_tables_pass. unfold reference_pass in *.
  destruct (require _ (_ !! c)) as [column|]; simpl in *; [|done].
  destruct (require _ (scheme_of_column _ _ c)) as [indexer|]; simpl in *; [|done].
  destruct (match c with O => _ | S _ => _ end) as [prev|]; simpl in *; [|done].
  apply column_pass_tables in Hp as (tb & -> & -> & Hp); [|done].
  exists tb. by rewrite Hp.
Qed.

Lemma reference_pass_last (p : Params) (t : PedigreeDPTable) (c : nat)
    (o o' : Optimum) (r : option ColumnTables) :
  ¬ (c + 1 < length (it_columns (input_column_iterator t)))%nat →
  reference_pass p t c o = Ok (r, o') → r = None.
Proof.
  intros Hc Hp. unfold reference_pass in *.
  destruct (require _ (_ !! c)) as [column|]; simpl in *; [|done].
  destruct (require _ (scheme_of_column _ _ c)) as [indexer|]; simpl in *; [|done].
  destruct (match c with O => _ | S _ => _ end) as [prev|]; simpl in *; [|done].
  by eapply column_pass_last.
Qed.

(** ** The forward sweep, column by column *)

Lemma get_next_Ok (it : ColumnIterator) (col : Column) :
  it_columns it !! it_next it = Some col →
  get_next it = Ok (col, jump_to_column it (S (it_next it))).
Proof. unfold get_next. by intros ->. Qed.

(** On a state that has the scheme of column [c] and, for [c > 0], the
    reference tables of column [c-1], [compute_column] is the reference pass
    followed by the storing of its tables. *)
Lemma compute_column_reference (p : Params) (t0 t : PedigreeDPTable) (c : nat)
    (col : option Column) :
  let cols := it_columns (input_column_iterator t0) in
  same_frame t0 t →
  (c < length cols)%nat →
  projection_column_table t !! c = Some None →
  indexers t !! c = Some (scheme_of_column (ploidy p) cols c) →
  (col = None ∨ col = cols !! c) →
  ((0 < c)%nat → ∃ tb, reference_tables p t0 (c - 1) = Some tb ∧ has_tables t (c - 1) tb) →
  compute_column p t c col =
    ('(tabs, o) ← reference_pass p t0 c (optimum_of t);
     Ok (store_tables
           (with_optimum
              (with_iterator t
                 (match col with
                  | Some _ => input_column_iterator t
                  | None => jump_to_column (input_column_iterator t) (S c)
                  end)) o) c tabs)).
Proof.
  intros cols (Hrs & Hsrc & Hpp & Hcols & Hpos) Hc Hproj Hix Hcol Hprev.
  unfold compute_column, reference_pass. fold cols.
  assert (get_column_count (input_column_iterator t) = length cols) as Hn
    by (unfold get_column_count; by rewrite Hcols).
  rewrite (bool_decide_eq_true_2 (c < get_column_count (input_column_iterator t))%nat)
    by lia.
  simpl. rewrite Hproj. simpl. rewrite Hix. simpl.
  destruct (lookup_lt_is_Some_2 cols c Hc) as [column Hcolumn].
  rewrite Hcolumn. simpl.
  destruct (scheme_of_column (ploidy p) cols c) as [indexer|]; simpl; [|done].
  assert (fetch_column t c col =
          Ok (column, match col with
                      | Some _ => input_column_iterator t
                      | None => jump_to_column (input_column_iterator t) (S c)
                      end)) as ->.
  { destruct Hcol as [->| ->].
    - simpl. rewrite (get_next_Ok _ column); [done|]. simpl. by rewrite Hcols.
    - by rewrite Hcolumn. }
  simpl.
  assert (get_column_count
            match col with
            | Some _ => input_column_iterator t
            | None => jump_to_column (input_column_iterator t) (S c)
            end = length cols) as ->.
  { unfold get_column_count. destruct col; simpl; by rewrite Hcols. }
  rewrite Hsrc, Hpp.
  assert (match c with
          | O => Ok None
          | S c' => tb ← require InvariantViolation (reference_tables p t0 c');
                    Ok (Some (projection_column tb))
          end = Ok (previous_projection t c)) as ->.
  { unfold previous_projection. destruct c as [|c']; [done|].
    destruct (decide _); [|lia].
    destruct Hprev as (tb & Href & Hhas & _); [lia|].
    replace (S c' - 1)%nat with c' in * by lia.
    rewrite Href, Hhas. done. }
  done.
Qed.

Local Arguments Nat.min _ _ : simpl never.

Lemma scheme_of_column_raw (ploidy : N) (cols : list Column) (c : nat)
    (s : ColumnIndexingScheme) :
  raw_schemes ploidy None cols !! c = Some s →
  scheme_of_column ploidy cols c =
    Some (match raw_schemes ploidy None cols !! S c with
          | Some next => set_next_column s next
          | None => s
          end).
Proof. unfold scheme_of_column. by intros ->. Qed.

(** Peeking ahead in the round of column [m]. *)
Lemma peek_next_column_spec (p : Params) (t0 : PedigreeDPTable) (k m : nat)
    (fs : ForwardState) :
  let cols := it_columns (input_column_iterator t0) in
  let raw := raw_schemes (ploidy p) None cols in
  forward_inv p t0 k m fs →
  (m < length cols)%nat →
  ∃ fs1, peek_next_column p fs m = Ok fs1 ∧
    same_frame t0 (fw_table fs1) ∧
    it_next (input_column_iterator (fw_table fs1)) = Nat.min (S (S m)) (length cols) ∧
    next_input_column fs1 = cols !! S m ∧
    next_indexer fs1 = raw !! S m ∧
    length (indexers (fw_table fs1)) = length cols ∧
    (∀ j, (j < S m)%nat →
       indexers (fw_table fs1) !! j = Some (scheme_of_column (ploidy p) cols j)) ∧
    ((S m < length cols)%nat → indexers (fw_table fs1) !! S m = Some (raw !! S m)) ∧
    projection_column_table (fw_table fs1) = projection_column_table (fw_table fs) ∧
    index_backtrace_table (fw_table fs1) = index_backtrace_table (fw_table fs) ∧
    transmission_backtrace_table (fw_table fs1)
      = transmission_backtrace_table (fw_table fs) ∧
    optimum_of (fw_table fs1) = optimum_of (fw_table fs).
Proof.
  intros cols raw (Hframe & Hnext & Hcol & Hidx & Hlen & Hdone & Hcur & _) Hm.
  specialize (Hcur Hm).
  pose proof Hframe as (_ & _ & _ & Hcols & _).
  subst cols raw.
  set (cols := it_columns (input_column_iterator t0)) in *.
  set (raw := raw_schemes (ploidy p) None cols) in *.
  assert (length raw = length cols) as Hraw by apply raw_schemes_length.
  destruct (lookup_lt_is_Some_2 raw m) as [s Hs]; [lia|].
  unfold peek_next_column, has_next. rewrite Hcols, Hnext.
  destruct (decide (S m < length cols)%nat) as [Hlt|Hge].
  - rewrite bool_decide_eq_true_2 by lia.
    destruct (lookup_lt_is_Some_2 cols (S m) Hlt) as [col' Hcol'].
    assert (it_next (input_column_iterator (fw_table fs)) = S m) as Hnext'
      by (rewrite Hnext; lia).
    rewrite (get_next_Ok _ col') by (by rewrite Hcols, Hnext').
    simpl. rewrite Hidx, Hs. simpl.
    pose proof (raw_schemes_lookup_S _ _ _ _ _ _ Hs Hcol') as HrawS. fold raw in HrawS.
    eexists. split; [done|]. simpl.
    split; [destruct Hframe as (? & ? & ? & ? & ?); by repeat split|].
    split; [rewrite Hnext'; lia|].
    split; [done|]. split; [done|].
    split; [by rewrite !length_insert|].
    split; [|split; [|done]].
    + intros j Hj. destruct (decide (j = m)) as [->|Hne].
      * rewrite list_lookup_insert_ne by lia.
        rewrite list_lookup_insert_eq by lia.
        rewrite (scheme_of_column_raw _ _ _ s) by done. fold raw. by rewrite HrawS.
      * rewrite !list_lookup_insert_ne by lia. apply Hdone. lia.
    + intros _. rewrite list_lookup_insert_eq; [by rewrite HrawS|].
      rewrite length_insert. lia.
  - rewrite bool_decide_eq_false_2 by lia.
    eexists. split; [done|]. simpl.
    split; [done|]. split; [rewrite Hnext; lia|].
    assert (length cols ≤ S m)%nat as Hle by lia.
    split; [by rewrite (lookup_ge_None_2 cols)|].
    split; [by rewrite (lookup_ge_None_2 raw) by lia|].
    split; [done|]. split; [|split; [lia|done]].
    intros j Hj. destruct (decide (j = m)) as [->|Hne]; [|apply Hdone; lia].
    rewrite Hcur, Hs, (scheme_of_column_raw _ _ _ s) by done. fold raw.
    by rewrite (lookup_ge_None_2 raw) by lia.
Qed.

Lemma release_previous_cases (k m : nat) (t : PedigreeDPTable) :
  (release_previous k t m = release_tables t (m - 1) ∧
   (0 < m)%nat ∧ ¬ checkpoint k (m - 1)) ∨
  (release_previous k t m = t ∧ (m = 0%nat ∨ checkpoint k (m - 1))).
Proof.
  unfold release_previous, checkpoint.
  destruct (bool_decide (1 < k)%nat) eqn:Hk; simpl.
  - destruct (bool_decide (0 < m)%nat) eqn:Hm; simpl.
    + destruct (bool_decide ((m - 1) `mod` k = 0)%nat) eqn:Hmod; simpl.
      * right. split; [done|]. right. apply bool_decide_eq_true in Hmod. lia.
      * left. split; [done|].
        apply bool_decide_eq_true in Hk, Hm. apply bool_decide_eq_false in Hmod.
        split; [done|]. intros Hc. apply Hc. done.
    + right. split; [done|]. left. apply bool_decide_eq_false in Hm. lia.
  - right. split; [done|]. right. apply bool_decide_eq_false in Hk. lia.
Qed.

Lemma indexers_store_tables (t : PedigreeDPTable) (c : nat) (tabs : option ColumnTables) :
  indexers (store_tables t c tabs) = indexers t.
Proof. by destruct tabs. Qed.

Lemma iterator_store_tables (t : PedigreeDPTable) (c : nat) (tabs : option ColumnTables) :
  input_column_iterator (store_tables t c tabs) = input_column_iterator t.
Proof. by destruct tabs. Qed.

Lemma optimum_of_store_tables (t : PedigreeDPTable) (c : nat) (tabs : option ColumnTables) :
  optimum_of (store_tables t c tabs) = optimum_of t.
Proof. by destruct tabs. Qed.

Lemma optimum_of_with_optimum (t : PedigreeDPTable) (o : Optimum) :
  optimum_of (with_optimum t o) = o.
Proof. by destruct o. Qed.

Lemma release_previous_other (k m : nat) (t : PedigreeDPTable) :
  indexers (release_previous k t m) = indexers t ∧
  input_column_iterator (release_previous k t m) = input_column_iterator t ∧
  optimum_of (release_previous k t m) = optimum_of t.
Proof. unfold release_previous. by destruct (_ && _). Qed.

Lemma tables_sized_release_previous (n k m : nat) (t : PedigreeDPTable) :
  tables_sized n t → tables_sized n (release_previous k t m).
Proof.
  unfold release_previous. destruct (_ && _); [|done]. apply tables_sized_release.
Qed.

(** The tables of the other fields' setters. *)
Lemma has_tables_same (t t' : PedigreeDPTable) (j : nat) (tb : ColumnTables) :
  projection_column_table t' = projection_column_table t →
  index_backtrace_table t' = index_backtrace_table t →
  transmission_backtrace_table t' = transmission_backtrace_table t →
  has_tables t j tb → has_tables t' j tb.
Proof. unfold has_tables. by intros -> -> ->. Qed.

Lemma no_tables_same (t t' : PedigreeDPTable) (j : nat) :
  projection_column_table t' = projection_column_table t →
  index_backtrace_table t' = index_backtrace_table t →
  transmission_backtrace_table t' = transmission_backtrace_table t →
  no_tables t j → no_tables t' j.
Proof. unfold no_tables. by intros -> -> ->. Qed.

Lemma tables_sized_same (n : nat) (t t' : PedigreeDPTable) :
  projection_column_table t' = projection_column_table t →
  index_backtrace_table t' = index_backtrace_table t →
  transmission_backtrace_table t' = transmission_backtrace_table t →
  tables_sized n t → tables_sized n t'.
Proof. unfold tables_sized. by intros -> -> ->. Qed.

(** One round of the forward loop is the reference pass over its column, and
    it keeps the invariant of the loop. *)
Lemma forward_step_spec (p : Params) (t0 : PedigreeDPTable) (k m : nat)
    (fs : ForwardState) :
  forward_inv p t0 k m fs →
  (m < length (it_columns (input_column_iterator t0)))%nat →
  (∀ e, forward_step p k fs m = Err e →
        reference_pass p t0 m (optimum_of (fw_table fs)) = Err e) ∧
  (∀ fs', forward_step p k fs m = Ok fs' →
     ∃ tabs o, reference_pass p t0 m (optimum_of (fw_table fs)) = Ok (tabs, o) ∧
       optimum_of (fw_table fs') = o ∧ forward_inv p t0 k (S m) fs').
Proof.
  intros Hinv Hm.
  destruct (peek_next_column_spec p t0 k m fs Hinv Hm)
    as (fs1 & Hpeek & Hf1 & Hn1 & Hc1 & Hi1 & Hl1 & Hd1 & Hcur1 & Hp1 & Hib1 & Htb1 & Ho1).
  destruct Hinv as (Hframe & Hnext & Hcol & Hidx & Hlen & Hdone & Hcur & Hsized & Hnone & Hold).
  set (cols := it_columns (input_column_iterator t0)) in *.
  set (n := length cols) in *.
  destruct (lookup_lt_is_Some_2 cols m Hm) as [column Hcolumn].
  unfold forward_step. rewrite Hpeek. simpl.
  rewrite (compute_column_reference p t0 (fw_table fs1) m (next_input_column fs));
    [|done|done| |by apply Hd1; lia|by right| ]; cycle 1.
  { rewrite Hp1. apply (Hnone m). lia. }
  { intros Hpos. specialize (Hold (m - 1)%nat).
    destruct (decide _) as [_|Hn]; [|lia].
    destruct Hold as (tb & Href & Hhas); [lia|].
    exists tb. split; [done|]. by eapply has_tables_same. }
  rewrite Ho1, Hcol, Hcolumn.
  set (t1 := fw_table fs1) in *.
  destruct (reference_pass p t0 m (optimum_of (fw_table fs))) as [[tabs o]|e] eqn:Hpass;
    simpl; [|split; [by intros ? [= <-]|done]].
  split; [done|]. intros fs' [= <-]. exists tabs, o. split; [done|].
  set (t2 := store_tables (with_optimum (with_iterator t1 (input_column_iterator t1)) o) m tabs).
  destruct (release_previous_other k m t2) as (Hrix & Hrit & Hropt).
  split.
  { simpl. rewrite Hropt. unfold t2.
    by rewrite optimum_of_store_tables, optimum_of_with_optimum. }
  assert (tables_sized n t2) as Hsized2.
  { apply tables_sized_store. by eapply (tables_sized_same n (fw_table fs)). }
  unfold forward_inv. simpl. fold cols n.
  split.
  { eapply same_frame_trans; [|apply release_previous_frame].
    eapply same_frame_trans; [|apply store_tables_frame].
    destruct Hf1 as (Ha & Hb & Hc & Hd & He).
    split; [exact Ha|]. split; [exact Hb|]. split; [exact Hc|].
    split; [exact Hd|exact He]. }
  split; [rewrite Hrit; unfold t2; rewrite iterator_store_tables; exact Hn1|].
  split; [done|]. split; [done|].
  split; [rewrite Hrix; unfold t2; rewrite indexers_store_tables; exact Hl1|].
  split; [intros j Hj; rewrite Hrix; unfold t2; rewrite indexers_store_tables;
          by apply Hd1|].
  split; [intros Hj; rewrite Hrix; unfold t2; rewrite indexers_store_tables;
          by apply Hcur1|].
  split; [by apply tables_sized_release_previous|].
  assert (∀ j, j ≠ m → no_tables (fw_table fs) j → no_tables t2 j) as Hno2.
  { intros j Hj Hno. apply no_tables_store_ne; [done|]. by eapply no_tables_same. }
  assert (∀ j tb, j ≠ m → has_tables (fw_table fs) j tb → has_tables t2 j tb) as Hhas2.
  { intros j tb Hj Hhas. apply has_tables_store_ne; [done|]. by eapply has_tables_same. }
  split.
  - intros j Hj.
    destruct (release_previous_cases k m t2) as [(-> & _ & _)|(-> & _)].
    + apply no_tables_release_ne; [lia|]. apply Hno2; [lia|]. apply Hnone. lia.
    + apply Hno2; [lia|]. apply Hnone. lia.
  - intros j Hj. destruct (decide (j = m)) as [->|Hne].
    + (* the column of this round *)
      destruct (decide (S m < n)%nat) as [Hlt|Hge].
      * rewrite decide_True by (split; [done|by right]).
        apply reference_pass_tables in Hpass as (tb & -> & _ & Href); [|fold cols n; lia].
        exists tb. split; [done|].
        assert (has_tables t2 m tb) as Hhas.
        { unfold t2. apply (has_tables_store_eq n); [|done].
          by eapply (tables_sized_same n (fw_table fs)). }
        destruct (release_previous_cases k m t2) as [(-> & ? & _)|(-> & _)]; [|done].
        apply has_tables_release_ne; [lia|done].
      * rewrite decide_False by lia.
        apply reference_pass_last in Hpass as ->; [|fold cols n; lia].
        assert (no_tables t2 m) as Hno.
        { unfold t2. simpl. eapply no_tables_same; [| | |apply (Hnone m); lia]; done. }
        destruct (release_previous_cases k m t2) as [(-> & ? & _)|(-> & _)]; [|done].
        apply no_tables_release_ne; [lia|done].
    + (* an earlier column *)
      assert (j < m)%nat as Hjm by lia. specialize (Hold j Hjm).
      destruct (decide (S j = m)) as [Hprev|Hearlier].
      * (* the previous column: kept if it is a checkpoint *)
        rewrite decide_True in Hold by (split; [lia|by right]).
        destruct Hold as (tb & Href & Hhas).
        destruct (release_previous_cases k m t2) as [(-> & _ & Hnc)|(-> & [->|Hc])].
        -- rewrite decide_False.
           ++ replace (m - 1)%nat with j by lia.
              eapply no_tables_release_eq; [done|lia].
           ++ replace (m - 1)%nat with j in Hnc by lia. intros (_ & [?|?]); [done|lia].
        -- lia.
        -- replace (m - 1)%nat with j in Hc by lia.
           rewrite decide_True by (split; [lia|by left]).
           exists tb. split; [done|]. apply Hhas2; [lia|done].
      * assert (∀ tb, has_tables t2 j tb → has_tables (release_previous k t2 m) j tb) as Hr1.
        { intros tb Hhas.
          destruct (release_previous_cases k m t2) as [(-> & _ & _)|(-> & _)]; [|done].
          apply has_tables_release_ne; [lia|done]. }
        assert (no_tables t2 j → no_tables (release_previous k t2 m) j) as Hr2.
        { intros Hno.
          destruct (release_previous_cases k m t2) as [(-> & _ & _)|(-> & _)]; [|done].
          apply no_tables_release_ne; [lia|done]. }
        destruct (decide ((S j < n)%nat ∧ (checkpoint k j ∨ S j = m))) as [Hd|Hd].
        -- rewrite decide_True by (destruct Hd as (? & [?|?]); [split; [done|by left]|lia]).
           destruct Hold as (tb & Href & Hhas). exists tb. split; [done|].
           apply Hr1, Hhas2; [lia|done].
        -- rewrite decide_False
             by (intros (? & [?|?]); [apply Hd; split; [done|by left]|lia]).
           apply Hr2, Hno2; [lia|done].
Qed.

Lemma clear_table_cleared (t : PedigreeDPTable) : cleared (clear_table t).
Proof.
  unfold cleared, tables_sized, no_tables, clear_table.
  cbn -[replicate init get_column_count]. unfold init.
  rewrite !length_replicate. repeat split; try done;
    by apply lookup_replicate_2.
Qed.

Lemma forward_start_inv (p : Params) (t0 : PedigreeDPTable) (k : nat)
    (fs : ForwardState) :
  cleared t0 → forward_start p t0 = Ok fs → forward_inv p t0 k 0 fs.
Proof.
  intros (Hsized & Hlen & Hnone). unfold forward_start. intros Hs.
  apply bind_Ok in Hs as ([column it] & Hn & Hs). injection Hs as <-.
  apply get_next_columns in Hn as (Hcol & Hcols & Hpos & Hnext). simpl in *.
  unfold get_column_count in *.
  set (cols := it_columns (input_column_iterator t0)) in *.
  assert (0 < length cols)%nat as Hn by (by apply lookup_lt_Some in Hcol).
  unfold forward_inv. simpl. fold cols.
  split; [by repeat split|]. split; [rewrite Hnext; lia|].
  split; [done|]. split; [by rewrite (raw_schemes_lookup_0 _ _ _ column)|].
  split; [by rewrite length_insert|]. split; [lia|].
  split.
  { intros _. rewrite list_lookup_insert_eq by lia.
    by rewrite (raw_schemes_lookup_0 _ _ _ column). }
  split; [done|]. split; [|lia].
  intros j Hj. apply Hnone. lia.
Qed.

(** The forward loop up to column [m] is the sequence of the reference
    passes over the columns before [m]; it fails with the failure of the
    first pass that fails. *)
Lemma forward_upto_spec (p : Params) (t0 : PedigreeDPTable) (k : nat)
    (fs0 : ForwardState) (m : nat) :
  forward_inv p t0 k 0 fs0 →
  (m ≤ length (it_columns (input_column_iterator t0)))%nat →
  match forward_upto p k fs0 m with
  | Ok fs =>
      forward_inv p t0 k m fs ∧
      ∀ c, (c < m)%nat → ∃ o r, reference_pass p t0 c o = Ok r
  | Err e => ∃ c o, (c < m)%nat ∧ reference_pass p t0 c o = Err e
  end.
Proof.
  intros Hinv0. unfold forward_upto. induction m as [|m IH]; intros Hm.
  - simpl. split; [done|]. lia.
  - rewrite seq_S, foldlM_snoc. simpl.
    specialize (IH ltac:(lia)).
    destruct (foldlM (forward_step p k) fs0 (seq 0 m)) as [fs|e]; simpl.
    + destruct IH as (Hinv & Hpasses).
      destruct (forward_step_spec p t0 k m fs Hinv ltac:(lia)) as [Herr Hok].
      destruct (forward_step p k fs m) as [fs'|e].
      * destruct (Hok _ eq_refl) as (tabs & o & Hpass & _ & Hinv').
        split; [done|]. intros c Hc.
        destruct (decide (c = m)) as [->|Hne]; [eauto|]. apply Hpasses. lia.
      * exists m, (optimum_of (fw_table fs)). split; [lia|]. by apply Herr.
    + destruct IH as (c & o & Hc & Hpass). exists c, o. split; [lia|done].
Qed.

Lemma forward_upto_prefix (p : Params) (k : nat) (fs0 fs : ForwardState) (m m' : nat) :
  (m' ≤ m)%nat →
  forward_upto p k fs0 m = Ok fs → ∃ fs', forward_upto p k fs0 m' = Ok fs'.
Proof.
  intros Hm. unfold forward_upto.
  replace m with (m' + (m - m'))%nat by lia.
  rewrite seq_app, foldlM_app. intros Hf.
  apply bind_Ok in Hf as (fs' & Hf & _). eauto.
Qed.

(** ** The Mendelian conflict (C1) *)

Lemma reference_pass_conflict (p : Params) (t : PedigreeDPTable) (c : nat) (o : Optimum) :
  (reference_pass p t c o = Err MendelianConflict →
   ∃ cells, cost_cells p t c = Some cells ∧ Exists all_infinite cells) ∧
  (∀ r, reference_pass p t c o = Ok r →
   ∃ cells, cost_cells p t c = Some cells ∧ Forall (λ row, ¬ all_infinite row) cells).
Proof.
  unfold reference_pass, cost_cells.
  destruct (it_columns _ !! c) as [column|]; simpl; [|done].
  destruct (scheme_of_column _ _ c) as [indexer|]; simpl; [|done].
  destruct (match c with O => _ | S _ => _ end) as [prev|e] eqn:Hprev; simpl.
  - destruct (column_pass_conflict p (read_sources t) (pedigree_partitions t)
                (length (it_columns (input_column_iterator t))) c indexer column prev o)
      as [Herr Hok].
    split.
    + intros Hp. destruct (Herr Hp) as (ccs & -> & Hex). eauto.
    + intros r Hp. destruct (Hok r Hp) as (ccs & -> & Hall). eauto.
  - split; [|done]. intros [= ->]. exfalso. destruct c as [|c']; [done|].
    apply bind_Err in Hprev as [Hprev|(? & _ & ?)]; [|done].
    by apply require_no_conflict in Hprev.
Qed.

(** The guard as the code has it (lines 367 and 405-407).  The flag
    [found_valid_transmission_vector] is reset at every step of the iterator,
    so on a run that is not stopped by another failure, the forward sweep
    raises the Mendelian conflict exactly when some column has a step (a
    partitioning index) at which every inheritance pattern has the sentinel
    as its current cost. *)
Theorem conflict_iff_some_step_infinite (p : Params) (t : PedigreeDPTable) :
  forward_sweep p (clear_table t) ≠ Err InvariantViolation →
  forward_sweep p (clear_table t) ≠ Err PreconditionViolation →
  (forward_sweep p (clear_table t) = Err MendelianConflict ↔
   conflict_of_some_step p (clear_table t)).
Proof.
  set (t0 := clear_table t). intros Hiv Hpv.
  unfold forward_sweep in *.
  destruct (forward_start p t0) as [fs0|e] eqn:Hstart; simpl in *.
  2:{ destruct e; try done. exfalso. unfold forward_start in Hstart.
      apply bind_Err in Hstart as [Hs|([? ?] & _ & ?)]; [|done].
      unfold get_next in Hs.
      apply bind_Err in Hs as [Hs|(? & _ & ?)]; [|done].
      by apply require_no_conflict in Hs. }
  pose proof (forward_start_inv p t0 (checkpoint_stride (get_column_count
    (input_column_iterator t0))) fs0 (clear_table_cleared t) Hstart) as Hinv.
  pose proof (forward_upto_spec p t0 _ fs0
                (get_column_count (input_column_iterator t0)) Hinv (le_n _)) as Hspec.
  destruct (forward_upto p _ fs0 _) as [fs|e].
  - destruct Hspec as (_ & Hpasses). split; [done|].
    intros (c & cells & Hc & Hcells & Hex). exfalso.
    destruct (Hpasses c Hc) as (o & r & Hpass).
    apply reference_pass_conflict in Hpass as (cells' & Hcells' & Hall).
    rewrite Hcells in Hcells'. injection Hcells' as <-.
    apply Exists_exists in Hex as (row & Hrow & Hinf).
    rewrite Forall_forall in Hall. by apply (Hall row).
  - destruct e; try done. split; [|done]. intros _.
    destruct Hspec as (c & o & Hc & Hpass).
    apply reference_pass_conflict in Hpass as (cells & Hcells & Hex).
    by exists c, cells.
Qed.

(** When the costs of a column are finite or not for all steps alike, as for a
    cost computer whose sentinel only depends on the inheritance pattern, the
    two readings of the conflict agree. *)
Lemma conflict_readings_agree (p : Params) (t : PedigreeDPTable) :
  (∀ c cells, cost_cells p t c = Some cells →
     cells ≠ [] ∧ ∀ row row', row ∈ cells → row' ∈ cells →
       all_infinite row → all_infinite row') →
  conflict_of_some_step p t ↔ conflict_of_whole_column p t.
Proof.
  intros Huniform. split; intros (c & cells & Hc & Hcells & Hinf);
    exists c, cells; (split; [done|]); (split; [done|]);
    destruct (Huniform c cells Hcells) as (Hne & Hsame).
  - apply Exists_exists in Hinf as (row & Hrow & Hinf).
    apply Forall_forall. intros row' Hrow'. by apply (Hsame row).
  - destruct cells as [|row cells]; [done|]. left.
    by inversion Hinf.
Qed.

(** The rows of the cost cells have one cell for each cost computer, and
    there is one row for each step. *)
Lemma walk_costs_row_length (steps : list IteratorStep) :
  ∀ (ccs : list CC) row, row ∈ walk_costs ccs steps → length row = length ccs.
Proof.
  induction steps as [|s steps IH]; intros ccs row; cbn [walk_costs].
  - intros Hin. by apply elem_of_nil in Hin.
  - intros Hin. apply elem_of_cons in Hin as [->|Hin].
    + by rewrite length_fmap, length_advance_cost_computers.
    + apply IH in Hin. by rewrite Hin, length_advance_cost_computers.
Qed.

Lemma length_walk_costs (steps : list IteratorStep) :
  ∀ ccs : list CC, length (walk_costs ccs steps) = length steps.
Proof.
  induction steps as [|s steps IH]; intros ccs; cbn [walk_costs]; [done|].
  simpl. by rewrite IH.
Qed.

Lemma cost_cells_walk (p : Params) (t : PedigreeDPTable) (c : nat)
    (cells : list (list N)) :
  cost_cells p t c = Some cells →
  ∃ indexer ccs,
    scheme_of_column (ploidy p) (it_columns (input_column_iterator t)) c = Some indexer ∧
    cells = walk_costs ccs (get_iterator indexer).
Proof.
  unfold cost_cells. destruct (it_columns _ !! c) as [column|]; simpl; [|done].
  destruct (scheme_of_column _ _ c) as [indexer|]; simpl; [|done].
  destruct (make_cost_computers _ _ _ _ _) as [ccs|]; [|done].
  intros [= <-]. eauto.
Qed.

(** A cost computer that keeps the contract on its interface keeps it along
    every walk. *)
Lemma advance_sentinel (s : IteratorStep) (ccs : list CC) (i : nat) :
  sentinel_kept →
  (∃ cc, advance_cost_computers s ccs !! i = Some cc ∧ get_cost cc = UINT_MAX) ↔
  (∃ cc, ccs !! i = Some cc ∧ get_cost cc = UINT_MAX).
Proof.
  intros [Hset Hupdate]. unfold advance_cost_computers.
  destruct (0 <=? bit_changed s)%Z; rewrite list_lookup_fmap;
    destruct (ccs !! i) as [cc|]; simpl.
  - split; intros (cc' & [= <-] & Hcost); eexists; (split; [done|]).
    + by apply (Hupdate cc) in Hcost.
    + by apply (Hupdate cc).
  - split; intros (? & ? & _); done.
  - split; intros (cc' & [= <-] & Hcost); eexists; (split; [done|]).
    + by apply (Hset cc) in Hcost.
    + by apply (Hset cc).
  - split; intros (? & ? & _); done.
Qed.

Lemma walk_costs_sentinel (steps : list IteratorStep) :
  sentinel_kept →
  ∀ (ccs : list CC) row i, row ∈ walk_costs ccs steps →
    (row !! i = Some UINT_MAX ↔ ∃ cc, ccs !! i = Some cc ∧ get_cost cc = UINT_MAX).
Proof.
  intros Hkept. induction steps as [|s steps IH]; intros ccs row i; cbn [walk_costs].
  - intros Hin. by apply elem_of_nil in Hin.
  - intros Hin. rewrite <- (advance_sentinel s ccs i Hkept).
    apply elem_of_cons in Hin as [->|Hin]; [|by apply IH].
    rewrite list_lookup_fmap.
    destruct (advance_cost_computers s ccs !! i) as [cc|]; simpl.
    + split; [intros [= Hcost]; eauto|]. by intros (cc' & [= <-] & ->).
    + split; [done|]. by intros (? & ? & _).
Qed.

Lemma sentinel_kept_by_pattern (p : Params) (t : PedigreeDPTable) :
  sentinel_kept → sentinel_by_pattern p t.
Proof.
  intros Hkept c cells row row' i Hcells Hrow Hrow' Hi.
  destruct (cost_cells_walk p t c cells Hcells) as (indexer & ccs & _ & ->).
  apply (walk_costs_sentinel _ Hkept ccs row' i Hrow').
  by apply (walk_costs_sentinel _ Hkept ccs row i Hrow).
Qed.

(** C1.  Under the contract of section 4.3 of the specification for the
    cost computer (whether a cost is the sentinel does not depend on the
    partitioning), when every walk has a step, and on a run that is not
    stopped by another failure, the forward sweep raises the Mendelian
    conflict exactly when some column has no finite cell over its whole walk;
    if every column has a finite cell, no conflict is raised. *)
Theorem conflict_iff_whole_column_infinite (p : Params) (t : PedigreeDPTable) :
  sentinel_by_pattern p (clear_table t) →
  walks_nonempty p (clear_table t) →
  forward_sweep p (clear_table t) ≠ Err InvariantViolation →
  forward_sweep p (clear_table t) ≠ Err PreconditionViolation →
  (forward_sweep p (clear_table t) = Err MendelianConflict ↔
   conflict_of_whole_column p (clear_table t)) ∧
  ((∀ c cells, (c < get_column_count (input_column_iterator (clear_table t)))%nat →
      cost_cells p (clear_table t) c = Some cells →
      ∃ row x, row ∈ cells ∧ x ∈ row ∧ x ≠ UINT_MAX) →
   forward_sweep p (clear_table t) ≠ Err MendelianConflict).
Proof.
  intros Hcontract Hwalks Hiv Hpv.
  assert (conflict_of_some_step p (clear_table t) ↔
          conflict_of_whole_column p (clear_table t)) as Hagree.
  { apply conflict_readings_agree. intros c cells Hcells.
    destruct (cost_cells_walk _ _ _ _ Hcells) as (indexer & ccs & Hix & Heq).
    split.
    - intros Hnil. apply (Hwalks c indexer Hix).
      apply length_zero_iff_nil. rewrite <- (length_walk_costs _ ccs), <- Heq, Hnil. done.
    - intros row row' Hrow Hrow' Hinf. apply Forall_lookup. intros i x' Hx'.
      assert (length row = length row') as Hlen.
      { rewrite Heq in Hrow, Hrow'.
        by rewrite (walk_costs_row_length _ ccs row Hrow),
                   (walk_costs_row_length _ ccs row' Hrow'). }
      destruct (lookup_lt_is_Some_2 row i) as [x Hx];
        [apply lookup_lt_Some in Hx'; lia|].
      unfold all_infinite in Hinf. rewrite Forall_lookup in Hinf.
      rewrite (Hinf i x Hx) in Hx.
      pose proof (Hcontract c cells row row' i Hcells Hrow Hrow' Hx) as Hx''.
      congruence. }
  pose proof (conflict_iff_some_step_infinite p t Hiv Hpv) as Hcode.
  split; [by etrans|].
  intros Hfinite Hraise. apply Hcode, Hagree in Hraise.
  destruct Hraise as (c & cells & Hc & Hcells & Hall).
  destruct (Hfinite c cells Hc Hcells) as (row & x & Hrow & Hx & Hne).
  rewrite Forall_forall in Hall. specialize (Hall row Hrow).
  unfold all_infinite in Hall. rewrite Forall_forall in Hall. by apply Hne, Hall.
Qed.

(** ** Recomputing the tables in the backward sweep (C4) *)

Lemma reference_pass_any_optimum (p : Params) (t : PedigreeDPTable) (c : nat)
    (tb : ColumnTables) :
  (c + 1 < length (it_columns (input_column_iterator t)))%nat →
  reference_tables p t c = Some tb →
  ∀ o, reference_pass p t c o = Ok (Some tb, o).
Proof.
  intros Hc. rewrite reference_tables_pass. unfold reference_pass.
  destruct (require _ (_ !! c)) as [column|]; simpl; [|done].
  destruct (require _ (scheme_of_column _ _ c)) as [indexer|]; simpl; [|done].
  destruct (match c with O => _ | S _ => _ end) as [prev|]; simpl; [|done].
  destruct (column_pass _ _ _ _ _ _ _ _ no_optimum) as [[r o']|e] eqn:Hp; [|done].
  apply column_pass_tables in Hp as (tb' & -> & -> & Hany); [|done].
  simpl. intros [= <-]. apply Hany.
Qed.

Lemma compute_column_present (p : Params) (t : PedigreeDPTable) (c : nat)
    (col : option Column) (tb : ColumnTables) :
  (c < get_column_count (input_column_iterator t))%nat →
  has_tables t c tb → compute_column p t c col = Ok t.
Proof.
  intros Hc (Hp & Hi & Ht). unfold compute_column.
  rewrite (bool_decide_eq_true_2 (c < _)%nat) by done. simpl.
  by rewrite Hp, Hi, Ht.
Qed.

(** Computing a released column again, in a state of the backward sweep in
    which the previous column has its tables, gives the reference tables
    back. *)
Lemma compute_column_again (p : Params) (t0 t : PedigreeDPTable) (k i c : nat) :
  let n := length (it_columns (input_column_iterator t0)) in
  backward_inv p t0 k i t →
  (S c < n)%nat →
  is_Some (reference_tables p t0 c) →
  ((0 < c)%nat → has_reference_tables p t0 t (c - 1)) →
  ∃ t', compute_column p t c None = Ok t' ∧
    backward_inv p t0 k i t' ∧
    has_reference_tables p t0 t' c ∧
    index_path t' = index_path t ∧
    (∀ j, has_reference_tables p t0 t j → has_reference_tables p t0 t' j).
Proof.
  intros n (Hframe & Hsized & Hix & Htabs & Hkept) Hc [tb Href] Hprev.
  pose proof Hframe as (_ & _ & _ & Hcols & _).
  destruct (Htabs c ltac:(lia)) as [Hno|(tb' & Href' & Hhas)].
  - rewrite (compute_column_reference p t0 t c None);
      [|done|lia|by destruct Hno|by apply Hix; lia|by left|done].
    rewrite (reference_pass_any_optimum p t0 c tb) by (done || lia).
    cbn [mbind result_bind].
    eexists. split; [done|].
    set (t1 := with_optimum (with_iterator t _) _).
    assert (tables_sized n t1) as Hsized1 by done.
    assert (has_tables (store_tables t1 c (Some tb)) c tb) as Hnew
      by (apply (has_tables_store_eq n); [done|lia]).
    assert (∀ j, has_reference_tables p t0 t j →
                 has_reference_tables p t0 (store_tables t1 c (Some tb)) j) as Hmono.
    { intros j (tbj & Hrefj & Hhasj). exists tbj. split; [done|].
      destruct (decide (c = j)) as [<-|Hne].
      - by destruct (has_tables_not_no_tables _ _ _ Hhasj Hno).
      - by apply has_tables_store_ne. }
    split; [|split; [by exists tb|split; [done|done]]].
    split.
    { eapply same_frame_trans; [|apply (store_tables_frame t1)].
      destruct Hframe as (Ha & Hb & Hd & He & Hf).
      split; [exact Ha|]. split; [exact Hb|]. split; [exact Hd|].
      split; [exact He|exact Hf]. }
    split; [by apply tables_sized_store|].
    split; [intros j Hj; rewrite indexers_store_tables; by apply Hix|].
    split.
    + intros j Hj. destruct (decide (c = j)) as [<-|Hne].
      * right. by exists tb.
      * destruct (Htabs j Hj) as [Hnoj|Hhasj]; [left|right; by apply Hmono].
        apply no_tables_store_ne; [done|]. done.
    + intros j Hj HSj Hcp. by apply Hmono, Hkept.
  - exists t. rewrite (compute_column_present p t c None tb').
    + split; [done|]. split; [done|]. split; [by exists tb'|done].
    + unfold get_column_count. rewrite Hcols. fold n. lia.
    + done.
Qed.

(** The loop of lines 218-220 from column [start] on, when column
    [start - 1] has its tables. *)
Lemma recompute_loop (p : Params) (t0 : PedigreeDPTable) (k i : nat) :
  let n := length (it_columns (input_column_iterator t0)) in
  (∀ j, (S j < n)%nat → is_Some (reference_tables p t0 j)) →
  (i < n)%nat →
  ∀ len start t,
    backward_inv p t0 k i t →
    (0 < start)%nat → (start + len ≤ i)%nat →
    has_reference_tables p t0 t (start - 1) →
    ∃ t1, foldlM (λ t' j', compute_column p t' j' None) t (seq start len) = Ok t1 ∧
      backward_inv p t0 k i t1 ∧
      index_path t1 = index_path t ∧
      (∀ j, (start - 1 ≤ j < start + len)%nat → has_reference_tables p t0 t1 j) ∧
      (∀ j, has_reference_tables p t0 t j → has_reference_tables p t0 t1 j).
Proof.
  intros n Hrefs Hi. induction len as [|len IH]; intros start t Hinv Hstart Hlen Hprev.
  - exists t. simpl. split; [done|]. split; [done|]. split; [done|].
    split; [|done]. intros j Hj. by replace j with (start - 1)%nat by lia.
  - destruct (compute_column_again p t0 t k i start Hinv) as
      (t' & Hc & Hinv' & Hnew & Hpath & Hmono);
      [fold n; lia|apply Hrefs; lia|done|].
    destruct (IH (S start) t' Hinv') as (t1 & Hf & Hinv1 & Hpath1 & Hrange & Hmono1);
      [lia|lia|by replace (S start - 1)%nat with start by lia|].
    exists t1. cbn [seq foldlM]. rewrite Hc. cbn [mbind result_bind].
    split; [done|]. split; [done|]. split; [congruence|]. split.
    + intros j Hj. destruct (decide (j = start - 1)%nat) as [->|Hne].
      * by apply Hmono1, Hmono.
      * apply Hrange. lia.
    + intros j Hj. by apply Hmono1, Hmono.
Qed.

Lemma checkpoint_multiple (k q : nat) : checkpoint k (q * k).
Proof. unfold checkpoint. intros (Hk & Hmod). apply Hmod. apply Nat.Div0.mod_mul. Qed.

Lemma between_checkpoints (k i j : nat) :
  (0 < k)%nat → ((i - 1) / k * k < j < i)%nat → (1 < k)%nat ∧ (j `mod` k ≠ 0)%nat.
Proof.
  intros Hk Hj.
  pose proof (Nat.div_mod_eq (i - 1) k) as Hdm.
  pose proof (Nat.mod_upper_bound (i - 1) k ltac:(lia)) as Hub.
  assert (j `mod` k ≠ 0)%nat as Hmod.
  { intros Hz. pose proof (Nat.div_mod_eq j k) as Hj'. rewrite Hz in Hj'.
    generalize dependent ((i - 1) / k)%nat. intros q0 Hq0 Hdm.
    generalize dependent (j / k)%nat. intros q Hq.
    generalize dependent ((i - 1) `mod` k)%nat. intros r Hr Hdm.
    assert (q0 < q)%nat as Hlt by nia.
    assert (k * (q0 + 1) ≤ k * q)%nat as Hle by (apply Nat.mul_le_mono_l; lia).
    lia. }
  split; [|done].
  destruct (decide (k = 1%nat)) as [->|]; [|lia].
  rewrite Nat.mod_1_r in Hmod. done.
Qed.

(** Lines 214-221: after them column [i-1] has its reference tables, and so
    has every column that was computed again. *)
Lemma ensure_tables_spec (p : Params) (t0 t : PedigreeDPTable) (k i : nat) :
  let n := length (it_columns (input_column_iterator t0)) in
  (∀ j, (S j < n)%nat → is_Some (reference_tables p t0 j)) →
  (0 < k)%nat → (0 < i < n)%nat →
  backward_inv p t0 k i t →
  ∃ t1, ensure_tables p k t i = Ok t1 ∧
    backward_inv p t0 k i t1 ∧
    index_path t1 = index_path t ∧
    has_reference_tables p t0 t1 (i - 1) ∧
    (projection_column_table t !! (i - 1)%nat = Some None →
     ∀ j, ((i - 1) / k * k < j < i)%nat → has_reference_tables p t0 t1 j).
Proof.
  intros n Hrefs Hk Hi Hinv.
  pose proof Hinv as (Hframe & Hsized & Hix & Htabs & Hkept).
  unfold ensure_tables.
  destruct (Htabs (i - 1)%nat ltac:(lia)) as [Hno|Hhas].
  - destruct Hno as (Hp & _). rewrite Hp. cbn [require mbind result_bind].
    set (j0 := ((i - 1) / k * k)%nat).
    assert (j0 ≤ i - 1)%nat as Hj0
      by (unfold j0; rewrite Nat.mul_comm; apply Nat.Div0.mul_div_le).
    assert (has_reference_tables p t0 t j0) as Hcp.
    { apply Hkept; [lia|lia|]. apply checkpoint_multiple. }
    destruct Hcp as (tb0 & Href0 & Hhas0).
    pose proof Hhas0 as (Hp0 & _). rewrite Hp0.
    rewrite bool_decide_eq_true_2 by (simpl; eauto). cbn [assert mbind result_bind].
    destruct (recompute_loop p t0 k i Hrefs ltac:(lia) (i - (j0 + 1)) (j0 + 1) t Hinv)
      as (t1 & Hf & Hinv1 & Hpath & Hrange & _);
      [lia|lia|replace (j0 + 1 - 1)%nat with j0 by lia; by exists tb0|].
    exists t1. split; [done|]. split; [done|]. split; [done|].
    split; [apply Hrange; lia|]. intros _ j Hj. apply Hrange. unfold j0 in *. lia.
  - pose proof Hhas as (tb & _ & (Hp & _)). rewrite Hp. cbn [require mbind result_bind].
    exists t. split; [done|]. split; [done|]. split; [done|]. split; [done|].
    intros Hnone. congruence.
Qed.

Lemma backward_inv_index_path (p : Params) (t0 t : PedigreeDPTable) (k i : nat)
    (path : list index_and_inheritance_t) :
  backward_inv p t0 k i t → backward_inv p t0 k i (with_index_path t path).
Proof. done. Qed.

Lemma backward_inv_release (p : Params) (t0 t : PedigreeDPTable) (k i j : nat) :
  (i ≤ j < length (it_columns (input_column_iterator t0)))%nat →
  backward_inv p t0 k i t → backward_inv p t0 k i (release_tables t j).
Proof.
  intros Hj (Hframe & Hsized & Hix & Htabs & Hkept).
  split; [eapply same_frame_trans; [done|apply release_tables_frame]|].
  split; [by apply tables_sized_release|]. split; [done|]. split.
  - intros j' Hj'. destruct (decide (j = j')) as [<-|Hne].
    + left. eapply no_tables_release_eq; [done|lia].
    + destruct (Htabs j' Hj') as [Hno|(tb & Href & Hhas)].
      * left. by apply no_tables_release_ne.
      * right. exists tb. split; [done|]. by apply has_tables_release_ne.
  - intros j' Hj' HS Hcp. destruct (Hkept j' Hj' HS Hcp) as (tb & Href & Hhas).
    exists tb. split; [done|]. apply has_tables_release_ne; [lia|done].
Qed.

Lemma free_block_inv (p : Params) (t0 t t' : PedigreeDPTable) (k i : nat) :
  free_block k t i = Ok t' → backward_inv p t0 k i t → backward_inv p t0 k i t'.
Proof.
  unfold free_block. destruct (bool_decide _); [|by intros [= <-]].
  intros Hf Hinv. pose proof Hinv as ((_ & _ & _ & Hcols & _) & _).
  revert Hf. apply (foldlM_invariant (backward_inv p t0 k i)); [|done].
  intros t1 j t2 Hj Hinv1 Hs. inv_result. subst t2.
  apply backward_inv_release; [|done].
  apply elem_of_seq in Hj. unfold get_column_count in Hj. rewrite Hcols in Hj. lia.
Qed.

Lemma backward_inv_weaken (p : Params) (t0 t : PedigreeDPTable) (k i i' : nat) :
  (i' ≤ i)%nat → backward_inv p t0 k i t → backward_inv p t0 k i' t.
Proof.
  intros Hi (Hframe & Hsized & Hix & Htabs & Hkept).
  repeat (split; [done|]). intros j Hj. apply Hkept. lia.
Qed.

Lemma backtrace_step_backward_inv (p : Params) (t0 : PedigreeDPTable) (k i : nat)
    (bs bs' : BacktraceState) :
  let n := length (it_columns (input_column_iterator t0)) in
  (∀ j, (S j < n)%nat → is_Some (reference_tables p t0 j)) →
  (0 < k)%nat → (0 < i < n)%nat →
  backward_inv p t0 k i (bt_table bs) →
  backtrace_step p k i bs = Ok bs' →
  backward_inv p t0 k (i - 1) (bt_table bs').
Proof.
  intros n Hrefs Hk Hi Hinv Hs.
  apply backtrace_step_inv in Hs
    as (t1 & indexer & ibt & tbt & new_index & prev & t3 & He & _ & _ & _ & _ & _ & Hf & ->).
  destruct (ensure_tables_spec p t0 (bt_table bs) k i Hrefs Hk Hi Hinv)
    as (t1' & He' & Hinv1 & _).
  rewrite He in He'. injection He' as <-.
  apply (free_block_inv p t0) in Hf; [|by apply backward_inv_index_path].
  simpl. eapply backward_inv_weaken; [|done]. lia.
Qed.

Lemma backtrace_reaches_inv (p : Params) (t0 : PedigreeDPTable) (k i j : nat)
    (bs bs' : BacktraceState) :
  let n := length (it_columns (input_column_iterator t0)) in
  (∀ j, (S j < n)%nat → is_Some (reference_tables p t0 j)) →
  (0 < k)%nat →
  backtrace_reaches p k i bs j bs' →
  (i < n)%nat →
  backward_inv p t0 k i (bt_table bs) →
  (j ≤ i)%nat ∧ backward_inv p t0 k j (bt_table bs').
Proof.
  intros n Hrefs Hk Hreach. induction Hreach as [i bs|i j bs bs' bs'' Hs Hreach IH];
    intros Hi Hinv; [done|].
  apply (backtrace_step_backward_inv p t0) in Hs; [|done|done|lia|done].
  replace (S i - 1)%nat with i in Hs by lia.
  destruct (IH ltac:(lia) Hs). split; [lia|done].
Qed.

Lemma forward_inv_backward (p : Params) (t0 : PedigreeDPTable) (k i : nat)
    (fs : ForwardState) :
  forward_inv p t0 k (length (it_columns (input_column_iterator t0))) fs →
  backward_inv p t0 k i (bt_table (backtrace_start (fw_table fs))).
Proof.
  intros (Hframe & _ & _ & _ & _ & Hdone & _ & Hsized & _ & Hold).
  unfold backtrace_start. simpl. apply backward_inv_index_path.
  split; [done|]. split; [done|]. split; [done|]. split.
  - intros j Hj. specialize (Hold j Hj). destruct (decide _); [by right|by left].
  - intros j _ HS Hcp. specialize (Hold j ltac:(lia)).
    by rewrite decide_True in Hold by (split; [done|by left]).
Qed.

(** What a forward sweep that ended well has established. *)
Lemma forward_sweep_Ok (p : Params) (t : PedigreeDPTable) (fs : ForwardState) :
  let t0 := clear_table t in
  let n := length (it_columns (input_column_iterator t0)) in
  let k := checkpoint_stride n in
  forward_sweep p t0 = Ok fs →
  ∃ fs0, forward_start p t0 = Ok fs0 ∧ forward_upto p k fs0 n = Ok fs ∧
    forward_inv p t0 k 0 fs0 ∧ forward_inv p t0 k n fs ∧
    (0 < n)%nat ∧ (0 < k)%nat ∧
    (∀ j, (S j < n)%nat → is_Some (reference_tables p t0 j)).
Proof.
  intros t0 n k. unfold forward_sweep. intros Hs.
  apply bind_Ok in Hs as (fs0 & Hstart & Hupto).
  change (get_column_count (input_column_iterator t0)) with n in Hupto. fold k in Hupto.
  exists fs0. split; [done|]. split; [done|].
  pose proof (forward_start_inv p t0 k fs0 (clear_table_cleared t) Hstart) as Hinv0.
  pose proof (forward_upto_spec p t0 k fs0 n Hinv0 (le_n _)) as Hspec.
  rewrite Hupto in Hspec. destruct Hspec as (Hinv & Hpasses).
  split; [done|]. split; [done|].
  assert (0 < n)%nat as Hn.
  { unfold forward_start in Hstart. apply bind_Ok in Hstart as ([col it] & Hg & _).
    apply get_next_columns in Hg as (Hcol & _). simpl in Hcol.
    by apply lookup_lt_Some in Hcol. }
  split; [done|]. split.
  { unfold k, checkpoint_stride. pose proof (Nat.sqrt_le_mono 1 n ltac:(lia)) as Hs.
    rewrite Nat.sqrt_1 in Hs. lia. }
  intros j Hj. destruct (Hpasses j ltac:(lia)) as (o & [r o'] & Hpass).
  apply reference_pass_tables in Hpass as (tb & _ & _ & ->); [done|fold n; lia].
Qed.

(** C4.  Take a run whose forward sweep ended well and a round of the
    backward sweep, for column [i], in which the tables of column [i-1] are
    missing.  Then the forward computation is run again, starting behind the
    checkpoint [j0 = (i-1)/k*k], and it ends well; every column [j] between
    [j0] and [i] had lost its tables in the forward sweep, and its projection,
    index-backtrace and transmission-backtrace tables are now the very tables
    that the forward sweep had stored for it when it computed the column. *)
Theorem recomputed_tables_identical (p : Params) (t : PedigreeDPTable)
    (fs : ForwardState) (i : nat) (bs : BacktraceState) :
  let t0 := clear_table t in
  let n := get_column_count (input_column_iterator t0) in
  let k := checkpoint_stride n in
  forward_sweep p t0 = Ok fs →
  backtrace_reaches p k (n - 1) (backtrace_start (fw_table fs)) i bs →
  (0 < i)%nat →
  projection_column_table (bt_table bs) !! (i - 1)%nat = Some None →
  ∃ t1, ensure_tables p k (bt_table bs) i = Ok t1 ∧
    ∀ j, ((i - 1) / k * k < j < i)%nat →
      no_tables (fw_table fs) j ∧
      ∃ fs0 fsj tb,
        forward_start p t0 = Ok fs0 ∧
        forward_upto p k fs0 (S j) = Ok fsj ∧
        has_tables (fw_table fsj) j tb ∧
        has_tables t1 j tb.
Proof.
  intros t0 n k Hsweep Hreach Hi Hmissing.
  destruct (forward_sweep_Ok p t fs Hsweep)
    as (fs0 & Hstart & Hupto & Hinv0 & Hinv & Hn & Hk & Hrefs).
  change (clear_table t) with t0 in Hstart, Hupto, Hinv0, Hinv, Hn, Hk, Hrefs.
  change (length (it_columns (input_column_iterator t0))) with n
    in Hupto, Hinv0, Hinv, Hn, Hk, Hrefs.
  fold k in Hupto, Hinv0, Hinv, Hk.
  destruct (backtrace_reaches_inv p t0 k (n - 1) i _ bs Hrefs Hk Hreach)
    as (Hle & Hbinv).
  { change (length (it_columns (input_column_iterator t0))) with n. lia. }
  { by apply forward_inv_backward. }
  destruct (ensure_tables_spec p t0 (bt_table bs) k i Hrefs Hk) as
    (t1 & He & _ & _ & _ & Hagain); [|done|].
  { change (length (it_columns (input_column_iterator t0))) with n. lia. }
  exists t1. split; [done|]. intros j Hj.
  destruct (between_checkpoints k i j Hk Hj) as (Hk1 & Hmod).
  assert (S j < n)%nat as HSj by lia.
  split.
  - destruct Hinv as (_ & _ & _ & _ & _ & _ & _ & _ & _ & Hold).
    change (length (it_columns (input_column_iterator t0))) with n in Hold.
    specialize (Hold j ltac:(lia)).
    rewrite decide_False in Hold; [done|].
    intros (_ & [Hcp|Heq]); [by apply Hcp|lia].
  - destruct (forward_upto_prefix p k fs0 fs n (S j) ltac:(lia) Hupto) as (fsj & Hfsj).
    assert (S j ≤ length (it_columns (input_column_iterator t0)))%nat as HSj'
      by (change (length (it_columns (input_column_iterator t0))) with n; lia).
    pose proof (forward_upto_spec p t0 k fs0 (S j) Hinv0 HSj') as Hspec.
    rewrite Hfsj in Hspec.
    destruct Hspec as ((_ & _ & _ & _ & _ & _ & _ & _ & _ & Hold) & _).
    change (length (it_columns (input_column_iterator t0))) with n in Hold.
    specialize (Hold j ltac:(lia)).
    rewrite decide_True in Hold by (split; [lia|by right]).
    destruct Hold as (tb & Href & Hhas).
    destruct (Hagain Hmissing j Hj) as (tb' & Href' & Hhas').
    rewrite Href in Href'. injection Href' as <-.
    by exists fs0, fsj, tb.
Qed.

(** ** The backward sweep (C3) *)

Lemma compute_column_index_path (p : Params) (t t' : PedigreeDPTable) (c : nat)
    (col : option Column) :
  compute_column p t c col = Ok t' → index_path t' = index_path t.
Proof.
  intros Hc. apply compute_column_inv in Hc as [_ [(v & _ & ->)|(_ & Hc)]]; [done|].
  destruct Hc as (indexer & column & it & tabs & o & _ & _ & _ & ->).
  by destruct tabs.
Qed.

Lemma ensure_tables_index_path (p : Params) (k i : nat) (t t' : PedigreeDPTable) :
  ensure_tables p k t i = Ok t' → index_path t' = index_path t.
Proof.
  unfold ensure_tables. intros He. inv_result.
  match goal with Hm : match ?x with Some _ => _ | None => _ end = Ok _ |- _ =>
    destruct x end.
  - by inv_result; subst.
  - inv_result. revert He.
    apply (foldlM_invariant (λ t', index_path t' = index_path t)); [|done].
    intros t1 j t2 _ Ht1 Hc. apply compute_column_index_path in Hc. congruence.
Qed.

Lemma free_block_index_path (k i : nat) (t t' : PedigreeDPTable) :
  free_block k t i = Ok t' → index_path t' = index_path t.
Proof.
  unfold free_block. destruct (bool_decide _); [|by intros [= <-]].
  apply (foldlM_invariant (λ t', index_path t' = index_path t)); [|done].
  intros t1 j t2 _ Ht1 Hs. inv_result. by subst t2.
Qed.

(** C3, as the code has it.  In the round of the backward sweep for column
    [i > 0], with [v] the entry chosen for column [i] and [bpi] the backward
    projection of [v.index] by the scheme of column [i], the entry written to
    [index_path[i-1]] has the index [index_backtrace_table[i-1][bpi,
    prev_inheritance]] and the inheritance [prev_inheritance], and the new
    [prev_inheritance] is [transmission_backtrace_table[i-1][bpi, .]] read at
    the inheritance of the new entry, that is at the old [prev_inheritance]
    (line 249 runs after line 248 has overwritten [v.inheritance_value]). *)
Theorem backtrace_step_entry (p : Params) (k i : nat) (bs bs' : BacktraceState) :
  (0 < i ≤ length (index_path (bt_table bs)))%nat →
  backtrace_step p k i bs = Ok bs' →
  ∃ t1 indexer ibt tbt,
    ensure_tables p k (bt_table bs) i = Ok t1 ∧
    indexers t1 !! i = Some (Some indexer) ∧
    index_backtrace_table t1 !! (i - 1)%nat = Some (Some ibt) ∧
    transmission_backtrace_table t1 !! (i - 1)%nat = Some (Some tbt) ∧
    let bpi := wrap32 (index_backward_projection indexer (index (bt_v bs))) in
    let new_v := bt_v bs' in
    index_path (bt_table bs') !! (i - 1)%nat = Some new_v ∧
    Vector2D_at ibt bpi (prev_inheritance_value bs) = Ok (index new_v) ∧
    inheritance_value new_v = prev_inheritance_value bs ∧
    Vector2D_at tbt bpi (inheritance_value new_v) = Ok (prev_inheritance_value bs') ∧
    Vector2D_at tbt bpi (prev_inheritance_value bs) = Ok (prev_inheritance_value bs').
Proof.
  intros Hi Hs. apply backtrace_step_inv in Hs
    as (t1 & indexer & ibt & tbt & new_index & prev & t3
        & He & Hix & Hibt & Hat & Htbt & Hat' & Hf & ->).
  apply mjoin_lookup_Some in Hix, Hibt, Htbt.
  exists t1, indexer, ibt, tbt. simpl.
  repeat (split; [done|]). split; [|done].
  apply free_block_index_path in Hf. rewrite Hf. simpl.
  apply ensure_tables_index_path in He.
  apply list_lookup_insert_eq. rewrite He. lia.
Qed.

Lemma foldlM_ext_inv {A B} (P : A → Prop) (f g : A → B → result A) (l : list B) :
  (∀ a b a', P a → f a b = Ok a' → P a') →
  (∀ a b, P a → f a b = g a b) →
  ∀ a, P a → foldlM f a l = foldlM g a l.
Proof.
  intros Hstep Hfg. induction l as [|b l IH]; intros a Ha; simpl; [done|].
  rewrite <- Hfg by done. destruct (f a b) as [a'|e] eqn:Hf; simpl; [|done].
  apply IH. by eapply Hstep.
Qed.

(** ** A pedigree without triples (C6) *)

Lemma transmission_configurations_no_triples (ped : Pedigree) :
  triple_count ped = 0%nat → transmission_configurations ped = 1.
Proof. unfold transmission_configurations. by intros ->. Qed.

Lemma candidate_cost_no_triples (rc1 rc2 : list N) (c : nat) (cur prev : N) :
  (c < length rc1)%nat → (c < length rc2)%nat →
  candidate_cost rc1 c cur prev 0 0 = candidate_cost rc2 c cur prev 0 0.
Proof.
  intros H1' H2'.
  destruct (lookup_lt_is_Some_2 _ _ H1') as [r1 Hr1].
  destruct (lookup_lt_is_Some_2 _ _ H2') as [r2 Hr2].
  rewrite (candidate_cost_value rc1 c cur prev 0 0 r1 Hr1).
  rewrite (candidate_cost_value rc2 c cur prev 0 0 r2 Hr2).
  change (popcount (N.lxor 0 0)) with 0. by rewrite !N.mul_0_l.
Qed.

Section NoTriples.
Variables (p : Params) (rc2 : list N) (m : nat).
Hypothesis no_triples : triple_count (pedigree p) = 0%nat.
Hypothesis long1 : (m ≤ length (recombcost p))%nat.
Hypothesis long2 : (m ≤ length rc2)%nat.

Let p2 : Params := with_recombcost p rc2.

Lemma relax_pattern_no_triples (c : nat) (prev : option Vector2D)
    (bpi current_index : N) (ccs : list CC) (acc : Vector2D * list N * bool) :
  (c < m)%nat →
  relax_pattern p c prev bpi current_index ccs acc 0
  = relax_pattern p2 c prev bpi current_index ccs acc 0.
Proof.
  intros Hc. unfold relax_pattern. destruct acc as [[dp mri] found].
  cbn [pedigree p2 with_recombcost recombcost].
  rewrite (transmission_configurations_no_triples _ no_triples), N_range_1.
  destruct (require _ (ccs !! _)) as [cc|]; [|done]. cbn [mbind result_bind].
  cbn [foldlM]. unfold relax_predecessor, predecessor_candidate.
  destruct (previous_cost_of c prev bpi 0) as [pc|]; [|done]. cbn [mbind result_bind].
  by rewrite (candidate_cost_no_triples (recombcost p) rc2) by lia.
Qed.

Lemma process_step_no_triples (c : nat) (prev : option Vector2D)
    (acc : list CC * Vector2D * option ColumnTables * Optimum) (s : IteratorStep) :
  (c < m)%nat → process_step p c prev acc s = process_step p2 c prev acc s.
Proof.
  intros Hc. unfold process_step. destruct acc as [[[ccs0 dp] tabs] o].
  cbn [pedigree p2 with_recombcost].
  rewrite (transmission_configurations_no_triples _ no_triples), N_range_1.
  cbn [foldlM]. by rewrite relax_pattern_no_triples.
Qed.

Lemma column_pass_no_triples (sources : list N) (partitions : list PedigreePartitions)
    (n c : nat) (indexer : ColumnIndexingScheme) (column : Column)
    (prev : option Vector2D) (o : Optimum) :
  (c < m)%nat →
  column_pass p sources partitions n c indexer column prev o
  = column_pass p2 sources partitions n c indexer column prev o.
Proof.
  intros Hc. unfold column_pass.
  change (make_cost_computers p2) with (make_cost_computers p).
  cbn [pedigree p2 with_recombcost].
  destruct (make_cost_computers _ _ _ _ _) as [ccs|]; [|done]. cbn [mbind result_bind].
  f_equal. apply foldlM_ext. intros acc s _. by apply process_step_no_triples.
Qed.

(** The engines over at most [m] columns. *)
Let small (t : PedigreeDPTable) : Prop :=
  (get_column_count (input_column_iterator t) ≤ m)%nat.

Lemma small_frame (t t' : PedigreeDPTable) : same_frame t t' → small t → small t'.
Proof.
  intros (_ & _ & _ & Hcols & _). unfold small, get_column_count. by rewrite Hcols.
Qed.

Lemma compute_column_no_triples (t : PedigreeDPTable) (c : nat) (col : option Column) :
  small t → compute_column p t c col = compute_column p2 t c col.
Proof.
  intros Hsmall. unfold compute_column.
  destruct (bool_decide (c < _)%nat) eqn:Hc; [|done].
  apply bool_decide_eq_true in Hc. cbn [assert mbind result_bind].
  destruct (require _ (projection_column_table t !! c)) as [[v|]|]; [done| |done].
  cbn [mbind result_bind].
  destruct (require _ (mjoin _)) as [indexer|]; [|done]. cbn [mbind result_bind].
  destruct (fetch_column t c col) as [[column it]|]; [|done]. cbn [mbind result_bind].
  rewrite column_pass_no_triples; [done|]. unfold small in Hsmall. lia.
Qed.

Lemma forward_step_no_triples (k : nat) (fs : ForwardState) (c : nat) :
  small (fw_table fs) → forward_step p k fs c = forward_step p2 k fs c.
Proof.
  intros Hsmall. unfold forward_step.
  change (peek_next_column p2) with (peek_next_column p).
  destruct (peek_next_column p fs c) as [fs1|] eqn:Hpeek; [|done].
  cbn [mbind result_bind]. rewrite compute_column_no_triples; [done|].
  eapply small_frame; [|done]. by eapply peek_next_column_frame.
Qed.

Lemma forward_upto_no_triples (k : nat) (fs : ForwardState) (n : nat) :
  small (fw_table fs) → forward_upto p k fs n = forward_upto p2 k fs n.
Proof.
  intros Hsmall. unfold forward_upto.
  apply (foldlM_ext_inv (λ fs, small (fw_table fs))); [| |done].
  - intros fs1 c fs2 Hs Hstep. eapply small_frame; [|done].
    by eapply forward_step_frame.
  - intros fs1 c Hs. by apply forward_step_no_triples.
Qed.

Lemma ensure_tables_no_triples (k i : nat) (t : PedigreeDPTable) :
  small t → ensure_tables p k t i = ensure_tables p2 k t i.
Proof.
  intros Hsmall. unfold ensure_tables.
  destruct (require _ _) as [[v|]|]; [done| |done]. cbn [mbind result_bind].
  destruct (assert _); [|done]. cbn [mbind result_bind].
  apply (foldlM_ext_inv small); [| |done].
  - intros t1 c t2 Hs Hc. eapply small_frame; [|done]. by eapply compute_column_frame.
  - intros t1 c Hs. by apply compute_column_no_triples.
Qed.

Lemma backtrace_step_no_triples (k i : nat) (bs : BacktraceState) :
  small (bt_table bs) → backtrace_step p k i bs = backtrace_step p2 k i bs.
Proof.
  intros Hsmall. unfold backtrace_step. by rewrite ensure_tables_no_triples.
Qed.

Lemma backtrace_loop_no_triples (k from : nat) (bs : BacktraceState) :
  small (bt_table bs) → backtrace_loop p k from bs = backtrace_loop p2 k from bs.
Proof.
  revert bs. induction from as [|i IH]; intros bs Hsmall; [done|].
  cbn [backtrace_loop]. rewrite backtrace_step_no_triples by done.
  destruct (backtrace_step p2 k (S i) bs) as [bs'|] eqn:Hs; [|done].
  cbn [mbind result_bind]. apply IH.
  eapply small_frame; [|done]. eapply backtrace_step_frame.
  by rewrite backtrace_step_no_triples.
Qed.

Lemma compute_table_no_triples (t : PedigreeDPTable) :
  small t → compute_table p t = compute_table p2 t.
Proof.
  intros Hsmall. unfold compute_table. destruct (bool_decide _); [done|].
  unfold forward_sweep. change (forward_start p2) with (forward_start p).
  destruct (forward_start p (clear_table t)) as [fs0|] eqn:Hstart; [|done].
  cbn [mbind result_bind].
  assert (small (fw_table fs0)) as Hs0.
  { eapply small_frame; [by eapply forward_start_frame|]. done. }
  rewrite forward_upto_no_triples by done.
  destruct (forward_upto p2 _ fs0 _) as [fs|] eqn:Hupto; [|done].
  cbn [mbind result_bind].
  rewrite backtrace_loop_no_triples; [done|].
  unfold backtrace_start. cbn [bt_table].
  eapply (small_frame (fw_table fs0)); [|done].
  eapply same_frame_trans; [|by instantiate (1 := fw_table fs)].
  eapply forward_upto_frame. by rewrite forward_upto_no_triples.
Qed.

End NoTriples.

(** C6.  For a pedigree without triples there is one inheritance pattern,
    and the recombination costs do not matter: with any two sequences of
    recombination costs that have one entry for each column, the constructor
    has the same outcome, so the same optimal score and the same index
    path. *)
Theorem recombcost_irrelevant_without_triples (reads : ReadSet) (p : Params)
    (positions precomputed : option (list N)) (rc2 : list N) :
  triple_count (pedigree p) = 0%nat →
  length (recombcost p) = length (read_columns (reassignReadIds reads) positions) →
  length rc2 = length (read_columns (reassignReadIds reads) positions) →
  transmission_configurations (pedigree p) = 1 ∧
  PedigreeDPTable_new reads (with_recombcost p rc2) positions precomputed
    = PedigreeDPTable_new reads p positions precomputed ∧
  ∀ t1 t2,
    (PedigreeDPTable_new reads p positions precomputed).2 = Ok t1 →
    (PedigreeDPTable_new reads (with_recombcost p rc2) positions precomputed).2 = Ok t2 →
    get_optimal_score t1 = get_optimal_score t2 ∧ index_path t1 = index_path t2.
Proof.
  intros Hno Hl1 Hl2.
  split; [by apply transmission_configurations_no_triples|].
  assert (PedigreeDPTable_new reads (with_recombcost p rc2) positions precomputed
          = PedigreeDPTable_new reads p positions precomputed) as Heq.
  { unfold PedigreeDPTable_new. f_equal.
    change (translate_sources (with_recombcost p rc2)) with (translate_sources p).
    destruct (translate_sources p _) as [sources|]; [|done]. cbn [mbind result_bind].
    change (initial_table _ (with_recombcost p rc2)) with (initial_table (reassignReadIds reads) p).
    destruct precomputed as [partitioning|]; [done|].
    symmetry.
    apply (compute_table_no_triples p rc2
             (length (read_columns (reassignReadIds reads) positions)));
      [done|lia|lia|done]. }
  split; [done|]. intros t1 t2 Ht1 Ht2. rewrite Heq, Ht1 in Ht2.
  by injection Ht2 as <-.
Qed.

(** ** get_super_reads (C7) *)

Lemma with_iterator_twice (t : PedigreeDPTable) (it it' : ColumnIterator) :
  with_iterator (with_iterator t it) it' = with_iterator t it'.
Proof. done. Qed.

Lemma super_reads_loop_table (p : Params) (positions : list N) (rounds : nat) :
  ∀ (t : PedigreeDPTable) (i : nat) (sr : list (list Read)) (tv : list N) t' sr' tv',
    super_reads_loop p t positions rounds i sr tv = Ok (t', sr', tv') →
    ∃ it', t' = with_iterator t it' ∧
      it_columns it' = it_columns (input_column_iterator t) ∧
      it_positions it' = it_positions (input_column_iterator t).
Proof.
  induction rounds as [|rounds IH]; intros t i sr tv t' sr' tv'; cbn [super_reads_loop].
  - intros [= <- <- <-]. exists (input_column_iterator t). by destruct t.
  - destruct (has_next _).
    + intros Hl. apply bind_Ok in Hl as (v & _ & Hl).
      apply bind_Ok in Hl as ([column it] & Hn & Hl).
      apply get_next_columns in Hn as (_ & Hcols & Hpos & _).
      apply bind_Ok in Hl as (cc & _ & Hl).
      apply bind_Ok in Hl as (n_alleles & _ & Hl).
      apply bind_Ok in Hl as (position & _ & Hl).
      apply bind_Ok in Hl as (sr1 & _ & Hl).
      apply IH in Hl as (it' & -> & Hcols' & Hpos').
      exists it'. split; [done|]. simpl in *. split; congruence.
    + intros [= <- <- <-]. exists (input_column_iterator t). by destruct t.
Qed.

(** The loop over the columns ends because the iterator has no next column,
    not because the bound on its rounds is reached. *)
Lemma super_reads_loop_exhausts (p : Params) (positions : list N) (rounds : nat) :
  ∀ (t : PedigreeDPTable) (i : nat) (sr : list (list Read)) (tv : list N) t' sr' tv',
    (get_column_count (input_column_iterator t) ≤
       it_next (input_column_iterator t) + rounds)%nat →
    super_reads_loop p t positions rounds i sr tv = Ok (t', sr', tv') →
    has_next (input_column_iterator t') = false.
Proof.
  induction rounds as [|rounds IH]; intros t i sr tv t' sr' tv' Hr;
    cbn [super_reads_loop].
  - intros [= <- <- <-]. unfold has_next, get_column_count in *.
    apply bool_decide_eq_false. lia.
  - destruct (has_next _) eqn:Hnext; [|by intros [= <- <- <-]].
    intros Hl. apply bind_Ok in Hl as (v & _ & Hl).
    apply bind_Ok in Hl as ([column it] & Hn & Hl).
    apply get_next_columns in Hn as (_ & Hcols & Hpos & Hnx).
    apply bind_Ok in Hl as (cc & _ & Hl).
    apply bind_Ok in Hl as (n_alleles & _ & Hl).
    apply bind_Ok in Hl as (position & _ & Hl).
    apply bind_Ok in Hl as (sr1 & _ & Hl).
    apply IH in Hl; [done|]. simpl. unfold get_column_count in *.
    rewrite Hcols, Hnx. lia.
Qed.

(** C7.  A second call of [get_super_reads], on the engine as the first call
    has left it and with read sets like those given to the first call, ends
    as the first call did: the same transmission vector and the same read
    sets (whatever the caller's transmission vector holds before the call),
    and the engine is left as it was. *)
Theorem get_super_reads_twice (p : Params) (t t1 : PedigreeDPTable)
    (out out1 : list ReadSet) (tv tv1 : list N) :
  get_super_reads p t out tv = Ok (t1, out1, tv1) →
  ∀ tv', get_super_reads p t1 out tv' = Ok (t1, out1, tv1).
Proof.
  intros Hg tv'.
  assert (∃ it', t1 = with_iterator t it' ∧
            it_columns it' = it_columns (input_column_iterator t) ∧
            it_positions it' = it_positions (input_column_iterator t))
    as (it' & -> & Hcols & Hpos).
  { unfold get_super_reads in Hg.
    apply bind_Ok in Hg as (? & _ & Hg).
    apply bind_Ok in Hg as (sr & _ & Hg).
    apply bind_Ok in Hg as ([[t2 sr'] tv2] & Hloop & Hg).
    apply bind_Ok in Hg as (out' & _ & Hg). injection Hg as <- _ _.
    destruct (bool_decide _).
    - apply bind_Ok in Hloop as (? & _ & Hloop). injection Hloop as <- _ _.
      eexists. by split.
    - apply super_reads_loop_table in Hloop as (it' & -> & Hcols & Hpos).
      exists it'. by split. }
  unfold get_super_reads in *.
  cbn [input_column_iterator with_iterator index_backtrace_table] in *.
  rewrite !with_iterator_twice in *.
  assert (jump_to_column it' 0 = jump_to_column (input_column_iterator t) 0) as ->
    by (unfold jump_to_column; by rewrite Hcols, Hpos).
  done.
Qed.

Lemma sum_of_costs_snoc (costs : list N) (c : N) :
  sum_of_costs (costs ++ [c]) = sum_of_costs costs + c.
Proof.
  unfold sum_of_costs. induction costs as [|x costs IH]; simpl; [lia|].
  rewrite IH. lia.
Qed.

Lemma wrap32_add_l (a b : N) : wrap32 (wrap32 a + b) = wrap32 (a + b).
Proof. unfold wrap32. apply N.Div0.add_mod_idemp_l. Qed.

Lemma wrap32_add_r (a b : N) : wrap32 (a + wrap32 b) = wrap32 (a + b).
Proof. unfold wrap32. apply N.Div0.add_mod_idemp_r. Qed.

Lemma wrap32_mul_l (a b : N) : wrap32 (wrap32 a * b) = wrap32 (a * b).
Proof. unfold wrap32. apply N.Div0.mul_mod_idemp_l. Qed.

Lemma wrap32_mul_r (a b : N) : wrap32 (a * wrap32 b) = wrap32 (a * b).
Proof. unfold wrap32. apply N.Div0.mul_mod_idemp_r. Qed.

Lemma wrap32_idemp (a : N) : wrap32 (wrap32 a) = wrap32 a.
Proof. unfold wrap32. apply N.Div0.mod_mod. Qed.

(** ** The precomputed partitioning (C5) *)

Lemma partition_of_reads_as (f : N → N) (m : gmap N N) (id : N) :
  reads_as f m →
  (partition_of m id).1 = f id ∧ reads_as f (partition_of m id).2.
Proof.
  intros Hm. unfold partition_of. pose proof (Hm id) as Hid.
  destruct (m !! id) as [x|] eqn:Hlook; simpl in *; [done|].
  split; [done|]. intros id'. destruct (decide (id = id')) as [<-|Hne].
  - by rewrite lookup_insert_eq.
  - rewrite lookup_insert_ne by done. apply Hm.
Qed.

(** The loop of lines 122-126 computes the packing modulo 2^32. *)
Lemma pack_fold (ploidy : N) (f : N → N) (ids : list N) :
  ∀ (acc offset : N) (m : gmap N N),
    reads_as f m → wrap32 acc = acc →
    ∃ offset' m',
      foldl (pack_step ploidy) (acc, offset, m) ids
        = (wrap32 (acc + offset * packing ploidy (f <$> ids)), offset', m') ∧
      reads_as f m'.
Proof.
  induction ids as [|id ids IH]; intros acc offset m Hm Hacc.
  - exists offset, m. simpl. by rewrite N.mul_0_r, N.add_0_r, Hacc.
  - cbn [foldl]. unfold pack_step at 2.
    destruct (partition_of_reads_as f m id Hm) as (Hx & Hm').
    destruct (partition_of m id) as [x m1]. simpl in Hx, Hm'. subst x.
    destruct (IH (wrap32 (acc + wrap32 (f id * offset))) (wrap32 (offset * ploidy)) m1 Hm')
      as (offset' & m' & -> & Hm''); [apply wrap32_idemp|].
    exists offset', m'. split; [|done]. f_equal. f_equal.
    cbn [fmap list_fmap packing].
    set (P := packing ploidy (list_fmap N N f ids)).
    rewrite wrap32_add_l.
    rewrite (N.add_comm (acc + wrap32 (f id * offset))).
    rewrite <- wrap32_add_l, wrap32_mul_l, wrap32_add_l.
    rewrite (N.add_comm acc), N.add_assoc, <- (N.add_assoc _ _ acc).
    rewrite (N.add_comm _ (wrap32 _ + acc)), <- N.add_assoc.
    rewrite wrap32_add_l. f_equal. lia.
Qed.

Lemma pack_partitioning_spec (ploidy : N) (f : N → N) (m : gmap N N) (ids : list N) :
  reads_as f m →
  (pack_partitioning ploidy m ids).1 = wrap32 (packing ploidy (f <$> ids)) ∧
  reads_as f (pack_partitioning ploidy m ids).2.
Proof.
  intros Hm. unfold pack_partitioning.
  destruct (pack_fold ploidy f ids 0 1 m Hm eq_refl) as (offset' & m' & -> & Hm').
  simpl. split; [|done]. f_equal. lia.
Qed.

Local Arguments Nat.min _ _ : simpl never.

Lemma assign_reads_spec (reads : ReadSet) (partitioning : list N) (m : gmap N N) :
  assign_reads (reassignReadIds reads) partitioning = Ok m →
  reads_as (assigned_partition (length reads) partitioning) m.
Proof.
  unfold assign_reads. rewrite reassignReadIds_length.
  set (body := λ (m : gmap N N) (i : nat),
         r ← require InvariantViolation (reassignReadIds reads !! i);
         x ← require PreconditionViolation (partitioning !! i);
         Ok (<[read_key r := x]> m)).
  cut (∀ k m, foldlM body ∅ (seq 0 k) = Ok m →
         ∀ id, m !! id = if decide (N.to_nat id < k)%nat
                         then partitioning !! N.to_nat id else None).
  { intros Hcut Hf id. unfold assigned_partition. rewrite (Hcut _ _ Hf id).
    by destruct (decide _). }
  clear m. induction k as [|k IH]; intros m.
  - simpl. intros [= <-] id. rewrite lookup_empty.
    destruct (decide (N.to_nat id < 0)%nat); [lia|done].
  - rewrite seq_S, foldlM_snoc. simpl. intros Hf.
    apply bind_Ok in Hf as (m0 & Hf & Hb). specialize (IH _ Hf).
    unfold body in Hb. apply bind_Ok in Hb as (r & Hr & Hb).
    apply bind_Ok in Hb as (x & Hx & Hb). injection Hb as <-.
    apply require_Ok in Hr, Hx.
    apply reassignReadIds_lookup in Hr as (r0 & _ & ->).
    assert (read_key (setID r0 (Z.of_nat k)) = N.of_nat k) as ->
      by (unfold read_key; simpl; lia).
    intros id. destruct (decide (N.of_nat k = id)) as [<-|Hne].
    + rewrite lookup_insert_eq, Nat2N.id.
      destruct (decide (k < S k)%nat); [done|lia].
    + rewrite lookup_insert_ne, IH by done.
      destruct (decide (N.to_nat id < k)%nat), (decide (N.to_nat id < S k)%nat);
        try done; lia.
Qed.

Lemma path_cost_computer_frame (p : Params) (t t' : PedigreeDPTable) (column : Column)
    (c : nat) (v : index_and_inheritance_t) :
  same_frame t t' → path_cost_computer p t' column c v = path_cost_computer p t column c v.
Proof.
  intros (_ & Hsrc & Hpp & _). unfold path_cost_computer. by rewrite Hsrc, Hpp.
Qed.

Lemma set_index_path_step_inv (p : Params) (t1 : PedigreeDPTable) (num_reads : nat)
    (partitioning : list N) (m : nat) (acc acc' : PedigreeDPTable * Column * list N) :
  precomputed_inv p t1 num_reads partitioning m acc →
  (m < length (it_columns (input_column_iterator t1)))%nat →
  set_index_path_step p acc m = Ok acc' →
  precomputed_inv p t1 num_reads partitioning (S m) acc'.
Proof.
  destruct acc as [[t col] ids].
  intros (Hframe & (Hp & Hib & Htb & Hix) & Hcol & Hnext & Hlen & Hpath & Hrtp & Hcosts) Hm.
  destruct (Hcol Hm) as (Hcolm & ->).
  destruct Hcosts as (costs & Hclen & Hcc & Hscore).
  set (cols := it_columns (input_column_iterator t1)) in *.
  set (n := length cols) in *.
  pose proof Hframe as (_ & _ & _ & Hcols & _). fold cols in Hcols.
  unfold set_index_path_step.
  destruct (pack_partitioning_spec (ploidy p) _ _ (extract_read_ids col) Hrtp)
    as (Hpacked & Hrtp').
  destruct (pack_partitioning _ _ _) as [packed rtp']. simpl in Hpacked, Hrtp'.
  subst packed.
  change {| index := wrap32 _; inheritance_value := 0 |}
    with (path_entry p num_reads partitioning col).
  set (v := path_entry p num_reads partitioning col).
  intros Hs. apply bind_Ok in Hs as (cc & Hccv & Hs).
  rewrite (path_cost_computer_frame p t1) in Hccv
    by (destruct Hframe as (Ha & Hb & Hc & Hd & He); by repeat split).
  set (t2 := with_optimal_score _ _) in Hs.
  assert (has_next (input_column_iterator t2) = bool_decide (S m < n)%nat) as Hhn.
  { unfold has_next. simpl. rewrite Hcols, Hnext. fold n.
    apply bool_decide_ext. lia. }
  rewrite Hhn in Hs.
  assert (∀ j column, (j < S m)%nat → cols !! j = Some column →
            <[m := v]> (index_path t) !! j = Some (path_entry p num_reads partitioning column))
    as Hpath'.
  { intros j column Hj Hjc. destruct (decide (j = m)) as [->|Hne].
    - rewrite list_lookup_insert_eq by lia. rewrite Hcolm in Hjc. by injection Hjc as <-.
    - rewrite list_lookup_insert_ne by done. apply Hpath; [lia|done]. }
  assert (∃ costs', length costs' = S m ∧
            (∀ j column, (j < S m)%nat → cols !! j = Some column →
               ∃ cc, path_cost_computer p t1 column j
                       (path_entry p num_reads partitioning column) = Ok cc ∧
                     costs' !! j = Some (get_cost cc)) ∧
            optimal_score t2 = wrap32 (sum_of_costs costs')) as Hcosts'.
  { exists (costs ++ [get_cost cc]). split; [rewrite length_app; simpl; lia|]. split.
    - intros j column Hj Hjc. destruct (decide (j = m)) as [->|Hne].
      + rewrite Hcolm in Hjc. injection Hjc as <-. exists cc. split; [done|].
        rewrite lookup_app_r by lia. by replace (m - length costs)%nat with 0%nat by lia.
      + destruct (Hcc j column ltac:(lia) Hjc) as (cc' & Hcc' & Hl).
        exists cc'. split; [done|]. rewrite lookup_app_l by lia. done.
    - unfold t2. simpl. rewrite Hscore, sum_of_costs_snoc. apply wrap32_add_l. }
  destruct (bool_decide (S m < n)%nat) eqn:HSm.
  - apply bool_decide_eq_true in HSm.
    apply bind_Ok in Hs as ([column it] & Hn & Hs). injection Hs as <-.
    apply get_next_columns in Hn as (Hcn & Hcols' & Hpos' & Hnext').
    simpl in Hcn, Hcols', Hpos', Hnext'.
    rewrite Hcols, Hnext in Hcn. rewrite Nat.min_l in Hcn by (fold n; lia).
    unfold precomputed_inv. fold cols n.
    split.
    { destruct Hframe as (Ha & Hb & Hc & Hd & He). repeat split; simpl; congruence. }
    split; [done|]. split; [done|].
    split; [simpl; rewrite Hnext', Hnext; lia|].
    split; [simpl; by rewrite length_insert|]. split; [done|]. split; [done|]. done.
  - apply bool_decide_eq_false in HSm. injection Hs as <-.
    unfold precomputed_inv. fold cols n.
    split.
    { destruct Hframe as (Ha & Hb & Hc & Hd & He). repeat split; simpl; congruence. }
    split; [done|]. split; [lia|].
    split; [simpl; rewrite Hnext; lia|].
    split; [simpl; by rewrite length_insert|]. split; [done|]. split; [done|]. done.
Qed.

Local Arguments Nat.min _ _ : simpl never.

Lemma set_index_path_loop (p : Params) (t1 : PedigreeDPTable) (num_reads : nat)
    (partitioning : list N) (acc0 : PedigreeDPTable * Column * list N) (m : nat) :
  precomputed_inv p t1 num_reads partitioning 0 acc0 →
  (m ≤ length (it_columns (input_column_iterator t1)))%nat →
  ∀ acc, foldlM (set_index_path_step p) acc0 (seq 0 m) = Ok acc →
         precomputed_inv p t1 num_reads partitioning m acc.
Proof.
  intros Hinv0. induction m as [|m IH]; intros Hm acc.
  - simpl. by intros [= <-].
  - rewrite seq_S, foldlM_snoc. simpl. intros Hf.
    apply bind_Ok in Hf as (acc1 & Hf & Hs).
    eapply set_index_path_step_inv; [|lia|done]. apply IH; [lia|done].
Qed.

(** What [set_index_path] leaves behind when it ends well, on an engine whose
    map [read_to_partition] reads as the precomputed partitioning. *)
Lemma set_index_path_outcome (p : Params) (t0 t : PedigreeDPTable) (num_reads : nat)
    (partitioning : list N) :
  reads_as (assigned_partition num_reads partitioning) (read_to_partition t0) →
  set_index_path p t0 = Ok t →
  let cols := it_columns (input_column_iterator t0) in
  let n := length cols in
  length (index_path t) = n ∧
  (∀ c column, cols !! c = Some column →
     index_path t !! c = Some (path_entry p num_reads partitioning column)) ∧
  (∃ costs, length costs = n ∧
     (∀ c column, cols !! c = Some column →
        ∃ cc, path_cost_computer p t column c
                (path_entry p num_reads partitioning column) = Ok cc ∧
              costs !! c = Some (get_cost cc)) ∧
     get_optimal_score t = wrap32 (sum_of_costs costs)) ∧
  projection_column_table t = replicate n None ∧
  index_backtrace_table t = replicate n None ∧
  transmission_backtrace_table t = replicate n None ∧
  indexers t = replicate n None.
Proof.
  intros Hrtp Hset cols n.
  unfold set_index_path in Hset.
  set (t0' := with_optimum (clear_table _) _) in Hset.
  change (get_column_count (input_column_iterator t0')) with n in Hset.
  destruct (bool_decide (n = 0%nat)) eqn:Hn.
  - apply bool_decide_eq_true in Hn. injection Hset as <-.
    assert (cols = []) as Hnil by (by apply length_zero_iff_nil).
    simpl. unfold init, get_column_count. fold cols n.
    rewrite Hn. fold cols. rewrite Hnil. split; [done|]. split; [done|]. split; [|done].
    exists []. split; [done|]. split; [done|]. done.
  - apply bool_decide_eq_false in Hn.
    apply bind_Ok in Hset as ([col0 it] & Hnext & Hset).
    apply get_next_columns in Hnext as (Hcol0 & Hcols & Hpos & Hit).
    simpl in Hcol0, Hcols, Hpos, Hit. fold cols in Hcol0, Hcols.
    apply bind_Ok in Hset as ([[t2 col'] ids'] & Hloop & Hset). injection Hset as ->.
    set (t1 := with_index_path _ _) in Hloop.
    assert (it_columns (input_column_iterator t1) = cols) as Hcols1 by done.
    apply (set_index_path_loop p t1 num_reads partitioning) in Hloop.
    + destruct Hloop as (Hframe & (Hp & Hib & Htb & Hix) & _ & _ & Hlen & Hpath
                         & _ & costs & Hclen & Hcc & Hscore).
      rewrite Hcols1 in *. fold n in Hlen, Hpath, Hclen, Hcc.
      split; [done|]. split.
      { intros c column Hc. apply Hpath; [|done]. apply lookup_lt_Some in Hc. done. }
      split.
      { exists costs. split; [done|]. split; [|done].
        intros c column Hc. rewrite (path_cost_computer_frame p t1) by done.
        apply Hcc; [|done]. by apply lookup_lt_Some in Hc. }
      rewrite Hp, Hib, Htb, Hix. done.
    + unfold precomputed_inv. rewrite Hcols1. fold n.
      split; [apply same_frame_refl|]. split; [done|].
      split; [done|]. split; [simpl; rewrite Hit; lia|].
      split; [simpl; by rewrite length_replicate|]. split; [lia|]. split; [done|].
      exists []. split; [done|]. split; [lia|]. done.
    + rewrite Hcols1. done.
Qed.

(** C5, as the code has it.  With a precomputed partitioning the constructor
    runs [set_index_path] only.  When it ends well, the index path has for
    every column the packing, in base [ploidy] and in the order of the column,
    of the partitions assigned to its reads, taken modulo 2^32, with the
    inheritance 0; the optimal score is the sum over the columns of the cost
    that the cost computer of pattern 0 gives for this partitioning, taken
    modulo 2^32 (a cost that is the sentinel is added like any other); and
    the three table vectors and the vector of the indexing schemes hold null
    pointers only. *)
Theorem precomputed_partitioning_path (reads : ReadSet) (p : Params)
    (positions : option (list N)) (partitioning : list N) (t : PedigreeDPTable) :
  (PedigreeDPTable_new reads p positions (Some partitioning)).2 = Ok t →
  let cols := read_columns (reassignReadIds reads) positions in
  let n := length cols in
  length (index_path t) = n ∧
  (∀ c column, cols !! c = Some column →
     index_path t !! c = Some (path_entry p (length reads) partitioning column)) ∧
  (∃ costs, length costs = n ∧
     (∀ c column, cols !! c = Some column →
        ∃ cc, path_cost_computer p t column c
                (path_entry p (length reads) partitioning column) = Ok cc ∧
              costs !! c = Some (get_cost cc)) ∧
     get_optimal_score t = wrap32 (sum_of_costs costs)) ∧
  projection_column_table t = replicate n None ∧
  index_backtrace_table t = replicate n None ∧
  transmission_backtrace_table t = replicate n None ∧
  indexers t = replicate n None.
Proof.
  intros Hnew. simpl in Hnew.
  apply bind_Ok in Hnew as (sources & _ & Hnew).
  apply bind_Ok in Hnew as (rtp & Hrtp & Hset).
  apply assign_reads_spec in Hrtp.
  by apply (set_index_path_outcome p _ t (length reads) partitioning) in Hset.
Qed.

(** After a construction from a precomputed partitioning that ended well, no
    column has an indexing scheme, so [get_optimal_partitioning] dereferences
    a null pointer as soon as there is a column. *)
Lemma precomputed_run_has_no_schemes (reads : ReadSet) (p : Params)
    (positions : option (list N)) (partitioning : list N) (t : PedigreeDPTable) :
  (PedigreeDPTable_new reads p positions (Some partitioning)).2 = Ok t →
  (0 < length (read_columns (reassignReadIds reads) positions))%nat →
  get_optimal_partitioning p t = Err InvariantViolation.
Proof.
  intros Hnew Hn. simpl in Hnew.
  apply bind_Ok in Hnew as (sources & _ & Hnew).
  apply bind_Ok in Hnew as (rtp & Hrtp & Hset).
  apply assign_reads_spec in Hrtp.
  apply (set_index_path_outcome p _ t (length reads) partitioning) in Hset
    as (Hlen & _ & _ & _ & _ & _ & Hix); [|done].
  simpl in Hlen, Hix.
  unfold get_optimal_partitioning. rewrite Hlen.
  destruct (length (read_columns _ _)) as [|n] eqn:Hcols; [lia|].
  cbn [seq foldlM].
  destruct (lookup_lt_is_Some_2 (index_path t) 0) as [v ->]; [lia|].
  rewrite Hix. done.
Qed.

(** What [compute_column] leaves alone besides the frame: the schemes, the
    index path and the map of the precomputed partitioning; and for a column
    that is not the last one also the running optimum. *)
Lemma compute_column_other (p : Params) (t t' : PedigreeDPTable) (c : nat)
    (col : option Column) :
  compute_column p t c col = Ok t' →
  indexers t' = indexers t ∧ index_path t' = index_path t ∧
  read_to_partition t' = read_to_partition t ∧
  ((c + 1 < get_column_count (input_column_iterator t))%nat →
   optimum_of t' = optimum_of t).
Proof.
  intros Hc. apply compute_column_inv in Hc as [_ [(v & _ & ->)|(_ & Hc)]]; [done|].
  destruct Hc as (indexer & column & it & tabs & o & _ & Hf & Hp & ->).
  split; [by destruct tabs|]. split; [by destruct tabs|]. split; [by destruct tabs|].
  intros Hlast. apply fetch_column_columns in Hf as (Hcols & _).
  apply column_pass_tables in Hp as (tb & -> & -> & _).
  - by destruct t.
  - unfold get_column_count in *. by rewrite Hcols.
Qed.

(** X4.  A column that is not the last one is computed once: when
    [compute_column] has ended well on it, its three tables are there, the
    running optimum is as before, and a further call returns at line 286
    without changing anything. *)
Theorem compute_column_twice (p : Params) (t t' : PedigreeDPTable) (c : nat)
    (col : option Column) :
  tables_sized (get_column_count (input_column_iterator t)) t →
  (c + 1 < get_column_count (input_column_iterator t))%nat →
  compute_column p t c col = Ok t' →
  (∃ tb, has_tables t' c tb) ∧
  optimum_of t' = optimum_of t ∧
  ∀ col', compute_column p t' c col' = Ok t'.
Proof.
  intros Hsized Hc Hcomp.
  pose proof (compute_column_other p t t' c col Hcomp) as (_ & _ & _ & Hopt).
  pose proof (compute_column_frame p t t' c col Hcomp) as (_ & _ & _ & Hcols & _).
  assert (∃ tb, has_tables t' c tb) as [tb Htb].
  { pose proof Hcomp as Hcomp'. unfold compute_column in Hcomp'.
    apply bind_Ok in Hcomp' as (? & _ & Hcomp').
    apply bind_Ok in Hcomp' as (there & Hthere & Hcomp').
    apply require_Ok in Hthere. destruct there as [proj|].
    - apply bind_Ok in Hcomp' as (? & Hi & Hcomp').
      apply bind_Ok in Hcomp' as (? & Ht & Hcomp'). injection Hcomp' as <-.
      apply assert_Ok, bool_decide_eq_true in Hi, Ht.
      destruct Hi as [ibt Hi], Ht as [tbt Ht].
      apply mjoin_lookup_Some in Hi, Ht.
      by exists {| projection_column := proj; index_backtrace_column := ibt;
                   transmission_backtrace_column := tbt |}.
    - clear Hcomp'.
      apply compute_column_inv in Hcomp as [_ [(v & Hv & _)|(_ & Hcomp)]]; [congruence|].
      destruct Hcomp as (indexer & column & it & tabs & o & _ & Hf & Hp & ->).
      apply fetch_column_columns in Hf as (Hcols' & _).
      apply column_pass_tables in Hp as (tb & -> & -> & _);
        [|unfold get_column_count in *; by rewrite Hcols'].
      exists tb. apply (has_tables_store_eq (get_column_count (input_column_iterator t)));
        [done|lia]. }
  split; [by exists tb|]. split; [by apply Hopt|].
  intros col'. apply (compute_column_present p t' c col' tb); [|done].
  unfold get_column_count in *. rewrite Hcols. lia.
Qed.

(** X5.  When the forward sweep has ended well over [n] columns, with the
    stride [k] (the integer square root of [n]), every column has its
    indexing scheme, and the three tables are kept exactly for the columns
    before the last one whose index is a multiple of [k] (all of them when
    [k] is 1); the tables of every other column are null pointers. *)
Theorem forward_sweep_keeps_checkpoints (p : Params) (t : PedigreeDPTable)
    (fs : ForwardState) :
  let t0 := clear_table t in
  let n := get_column_count (input_column_iterator t0) in
  let k := checkpoint_stride n in
  forward_sweep p t0 = Ok fs →
  (0 < k)%nat ∧ (k * k ≤ n < S k * S k)%nat ∧
  ∀ j, (j < n)%nat →
    is_Some (mjoin (indexers (fw_table fs) !! j)) ∧
    ((S j < n)%nat ∧ (k = 1%nat ∨ (j `mod` k)%nat = 0%nat) →
       ∃ tb, has_tables (fw_table fs) j tb) ∧
    (¬ ((S j < n)%nat ∧ (k = 1%nat ∨ (j `mod` k)%nat = 0%nat)) →
       no_tables (fw_table fs) j).
Proof.
  intros t0 n k Hsweep.
  destruct (forward_sweep_Ok p t fs Hsweep)
    as (fs0 & _ & _ & _ & Hinv & Hn & Hk & _).
  change (clear_table t) with t0 in Hinv, Hk.
  change (length (it_columns (input_column_iterator t0))) with n in Hinv, Hn, Hk.
  fold k in Hinv, Hk.
  split; [done|]. split; [apply Nat.sqrt_spec; lia|].
  destruct Hinv as (_ & _ & _ & _ & _ & Hix & _ & _ & _ & Hold).
  change (length (it_columns (input_column_iterator t0))) with n in Hold.
  intros j Hj. split; [|split].
  - rewrite (Hix j Hj).
    destruct (lookup_lt_is_Some_2 (raw_schemes (ploidy p) None
                (it_columns (input_column_iterator t0))) j) as [s Hs].
    { rewrite raw_schemes_length. exact Hj. }
    unfold t0 in *. rewrite (scheme_of_column_raw _ _ _ s Hs). done.
  - intros (HS & Hcp). specialize (Hold j Hj).
    rewrite decide_True in Hold.
    + destruct Hold as (tb & _ & Hhas). by exists tb.
    + split; [done|]. left. unfold checkpoint. intros (Hk1 & Hmod).
      destruct Hcp as [Hcp|Hcp]; [lia|done].
  - intros Hno. specialize (Hold j Hj).
    rewrite decide_False in Hold; [done|].
    intros (HS & [Hcp|Heq]); [|lia]. apply Hno. split; [done|].
    unfold checkpoint in Hcp.
    destruct (decide (k = 1%nat)) as [|Hk1]; [by left|right].
    destruct (decide ((j `mod` k)%nat = 0%nat)) as [|Hmod]; [done|].
    exfalso. apply Hcp. split; [lia|done].
Qed.

(** ** What the backward sweep leaves alone *)

Lemma same_optimum_refl (t : PedigreeDPTable) : same_optimum t t.
Proof. done. Qed.

Lemma same_optimum_trans (t1 t2 t3 : PedigreeDPTable) :
  same_optimum t1 t2 → same_optimum t2 t3 → same_optimum t1 t3.
Proof. intros (? & ? & ?) (? & ? & ?). repeat split; congruence. Qed.

Lemma compute_column_same_optimum (p : Params) (t t' : PedigreeDPTable) (c : nat) :
  (c + 1 < get_column_count (input_column_iterator t))%nat →
  compute_column p t c None = Ok t' → same_optimum t t'.
Proof.
  intros Hc Hcomp.
  pose proof (compute_column_other p t t' c None Hcomp) as (Hix & _ & _ & Hopt).
  pose proof (compute_column_frame p t t' c None Hcomp) as (_ & _ & _ & Hcols & _).
  split; [done|]. split; [by apply Hopt|]. unfold get_column_count. by rewrite Hcols.
Qed.

Lemma ensure_tables_same_optimum (p : Params) (k i : nat) (t t' : PedigreeDPTable) :
  (i < get_column_count (input_column_iterator t))%nat →
  ensure_tables p k t i = Ok t' → same_optimum t t'.
Proof.
  intros Hi. unfold ensure_tables. intros He. inv_result.
  match goal with Hm : match ?x with Some _ => _ | None => _ end = Ok _ |- _ =>
    destruct x end.
  - inv_result. subst. apply same_optimum_refl.
  - inv_result. revert He.
    apply (foldlM_invariant (same_optimum t)); [|apply same_optimum_refl].
    intros t1 j t2 Hj Ht1 Hc. eapply same_optimum_trans; [done|].
    apply (compute_column_same_optimum p t1 t2 j); [|done].
    destruct Ht1 as (_ & _ & ->). apply elem_of_seq in Hj. lia.
Qed.

Lemma free_block_same_optimum (k i : nat) (t t' : PedigreeDPTable) :
  free_block k t i = Ok t' → same_optimum t t'.
Proof.
  unfold free_block. destruct (bool_decide _); [|by intros [= <-]].
  apply (foldlM_invariant (same_optimum t)); [|apply same_optimum_refl].
  intros t1 j t2 _ Ht1 Hs. inv_result. subst t2.
  eapply same_optimum_trans; [done|]. done.
Qed.

(** A round of the backward sweep writes one entry of the index path and
    leaves the schemes and the running optimum as they are. *)
Lemma backtrace_step_same_optimum (p : Params) (k i : nat) (bs bs' : BacktraceState) :
  (i < get_column_count (input_column_iterator (bt_table bs)))%nat →
  backtrace_step p k i bs = Ok bs' →
  same_optimum (bt_table bs) (bt_table bs') ∧
  index_path (bt_table bs') = <[(i - 1)%nat := bt_v bs']> (index_path (bt_table bs)).
Proof.
  intros Hi Hs. apply backtrace_step_inv in Hs
    as (t1 & indexer & ibt & tbt & new_index & prev & t3
        & He & _ & _ & _ & _ & _ & Hf & ->).
  pose proof (ensure_tables_same_optimum p k i _ _ Hi He) as Hs1.
  pose proof (free_block_same_optimum _ _ _ _ Hf) as Hs2.
  apply free_block_index_path in Hf. apply ensure_tables_index_path in He.
  split.
  - eapply same_optimum_trans; [done|]. eapply same_optimum_trans; [|done]. done.
  - simpl. rewrite Hf. simpl. by rewrite He.
Qed.

Lemma backtrace_loop_same_optimum (p : Params) (k from : nat) :
  ∀ bs bs',
    (from < get_column_count (input_column_iterator (bt_table bs)))%nat →
    backtrace_loop p k from bs = Ok bs' →
    same_optimum (bt_table bs) (bt_table bs') ∧
    length (index_path (bt_table bs')) = length (index_path (bt_table bs)) ∧
    ∀ j, (from ≤ j)%nat →
      index_path (bt_table bs') !! j = index_path (bt_table bs) !! j.
Proof.
  induction from as [|i IH]; intros bs bs' Hi; simpl.
  - intros [= <-]. done.
  - intros Hl. apply bind_Ok in Hl as (bs1 & Hs & Hl).
    apply backtrace_step_same_optimum in Hs as (Hsame & Hpath); [|done].
    apply IH in Hl as (Hsame' & Hlen & Hkeep).
    + split; [by eapply same_optimum_trans|].
      split; [by rewrite Hlen, Hpath, length_insert|].
      intros j Hj. rewrite Hkeep by lia. rewrite Hpath.
      apply list_lookup_insert_ne. lia.
    + destruct Hsame as (_ & _ & ->). lia.
Qed.

(** X6.  When [compute_table] has ended well on at least one column, the
    score, the index and the transmission values of the optimum are those that
    the forward sweep has found (the columns that the backward sweep computes
    again do not touch them), the index path has one entry for each column,
    and its last entry is the optimum. *)
Theorem backward_sweep_keeps_optimum (p : Params) (t t' : PedigreeDPTable) :
  let n := get_column_count (input_column_iterator t) in
  (0 < n)%nat →
  compute_table p t = Ok t' →
  ∃ fs, forward_sweep p (clear_table t) = Ok fs ∧
    optimum_of t' = optimum_of (fw_table fs) ∧
    indexers t' = indexers (fw_table fs) ∧
    length (index_path t') = n ∧
    index_path t' !! (n - 1)%nat
      = Some {| index := optimal_score_index t';
                inheritance_value := optimal_transmission_value t' |}.
Proof.
  intros n Hn. unfold compute_table.
  change (get_column_count (input_column_iterator (clear_table t))) with n.
  rewrite bool_decide_eq_false_2 by (clearbody n; lia).
  intros Hc. apply bind_Ok in Hc as (fs & Hsweep & Hc).
  apply bind_Ok in Hc as (bs & Hloop & Hc). injection Hc as <-.
  exists fs. split; [done|].
  destruct (forward_sweep_Ok p t fs Hsweep)
    as (fs0 & _ & _ & _ & Hinv & _ & _ & _).
  destruct Hinv as (Hframe & _ & _ & _ & Hlen & _).
  change (length (it_columns (input_column_iterator (clear_table t)))) with n in Hlen.
  assert (get_column_count (input_column_iterator (fw_table fs)) = n) as Hcount.
  { destruct Hframe as (_ & _ & _ & Hcols & _). unfold get_column_count. by rewrite Hcols. }
  rewrite Hlen in Hloop.
  apply backtrace_loop_same_optimum in Hloop as ((Hix & Hopt & _) & Hplen & Hkeep);
    [|simpl; rewrite Hcount; clearbody n; lia].
  simpl in Hix, Hopt, Hplen, Hkeep.
  rewrite length_insert, length_replicate, Hlen in Hplen.
  split; [done|]. split; [done|]. split; [done|].
  rewrite Hkeep by lia. rewrite Hlen.
  rewrite list_lookup_insert_eq by (rewrite length_replicate; clearbody n; lia).
  injection Hopt as _ Hi Ht _. by rewrite Hi, Ht.
Qed.

Lemma internal_bind {A B} (m : result A) (f : A → result B) :
  internal_failure_only m → (∀ a, m = Ok a → internal_failure_only (f a)) →
  internal_failure_only (m ≫= f).
Proof.
  intros Hm Hf e He. apply bind_Err in He as [He|(a & Ha & He)];
    [by apply Hm|by eapply Hf].
Qed.

Lemma internal_require {A} (o : option A) :
  internal_failure_only (require InvariantViolation o).
Proof. intros e. destruct o; simpl; congruence. Qed.

Lemma internal_assert (b : bool) : internal_failure_only (assert b).
Proof. intros e. destruct b; simpl; congruence. Qed.

Lemma internal_Ok {A} (a : A) : internal_failure_only (Ok a).
Proof. by intros e. Qed.

Lemma internal_Vector2D_at (t : Vector2D) (i0 i1 : N) :
  internal_failure_only (Vector2D_at t i0 i1).
Proof. apply internal_require. Qed.

Lemma internal_foldlM {A B} (f : A → B → result A) (l : list B) :
  (∀ a b, internal_failure_only (f a b)) →
  ∀ a, internal_failure_only (foldlM f a l).
Proof.
  intros Hf. induction l as [|b l IH]; intros a; simpl; [apply internal_Ok|].
  apply internal_bind; [apply Hf|]. intros a' _. apply IH.
Qed.

Lemma internal_free_block (k i : nat) (t : PedigreeDPTable) :
  internal_failure_only (free_block k t i).
Proof.
  unfold free_block. destruct (bool_decide _); [|apply internal_Ok].
  apply internal_foldlM. intros t' j.
  apply internal_bind; [apply internal_assert|]. intros _ _. apply internal_Ok.
Qed.

(** A round of the backward sweep after a forward sweep that ended well: the
    columns that are computed again end well again, so the round can only fail
    on a null pointer or an index outside a table. *)
Lemma internal_backtrace_step (p : Params) (t0 : PedigreeDPTable) (k i : nat)
    (bs : BacktraceState) :
  let n := length (it_columns (input_column_iterator t0)) in
  (∀ j, (S j < n)%nat → is_Some (reference_tables p t0 j)) →
  (0 < k)%nat → (0 < i < n)%nat →
  backward_inv p t0 k i (bt_table bs) →
  internal_failure_only (backtrace_step p k i bs).
Proof.
  intros n Hrefs Hk Hi Hinv. unfold backtrace_step.
  destruct (ensure_tables_spec p t0 (bt_table bs) k i Hrefs Hk Hi Hinv) as (t1 & -> & _).
  cbn [mbind result_bind].
  repeat (apply internal_bind;
          [first [apply internal_require|apply internal_Vector2D_at|apply internal_free_block]|];
          intros ? _).
  apply internal_Ok.
Qed.

Lemma internal_backtrace_loop (p : Params) (t0 : PedigreeDPTable) (k from : nat) :
  let n := length (it_columns (input_column_iterator t0)) in
  (∀ j, (S j < n)%nat → is_Some (reference_tables p t0 j)) →
  (0 < k)%nat → (from < n)%nat →
  ∀ bs, backward_inv p t0 k from (bt_table bs) →
        internal_failure_only (backtrace_loop p k from bs).
Proof.
  intros n Hrefs Hk. induction from as [|i IH]; intros Hi bs Hinv; simpl.
  - apply internal_Ok.
  - apply internal_bind.
    + apply (internal_backtrace_step p t0); [done|done|fold n; lia|done].
    + intros bs' Hs. apply IH; [lia|].
      apply (backtrace_step_backward_inv p t0) in Hs; [|done|done|lia|done].
      by replace (S i - 1)%nat with i in Hs by lia.
Qed.

(** ** Where a run stops on caller data *)

Lemma caller_data_internal {A} (P : Prop) (r : result A) :
  internal_failure_only r → caller_data_only_if P r.
Proof. intros Hr He. by apply Hr in He. Qed.

Lemma caller_data_bind {A B} (P : Prop) (m : result A) (f : A → result B) :
  caller_data_only_if P m → (∀ a, m = Ok a → caller_data_only_if P (f a)) →
  caller_data_only_if P (m ≫= f).
Proof.
  intros Hm Hf He. apply bind_Err in He as [He|(a & Ha & He)];
    [by apply Hm|by eapply Hf].
Qed.

Lemma caller_data_foldlM {A B} (P : Prop) (f : A → B → result A) (l : list B) :
  (∀ a b, caller_data_only_if P (f a b)) → ∀ a, caller_data_only_if P (foldlM f a l).
Proof.
  intros Hf. induction l as [|b l IH]; intros a; simpl; [done|].
  apply caller_data_bind; [apply Hf|]. intros a' _. apply IH.
Qed.

Lemma internal_Vector2D_set (t : Vector2D) (i0 i1 x : N) :
  internal_failure_only (Vector2D_set t i0 i1 x).
Proof.
  unfold Vector2D_set. apply internal_bind; [apply internal_require|]. intros row _.
  apply internal_bind; [apply internal_require|]. intros ? _. apply internal_Ok.
Qed.

Lemma internal_update_optimum (dp : Vector2D) (current_index : N)
    (s : IteratorStep) (mri : list N) (o : Optimum) (i : N) :
  internal_failure_only (update_optimum dp current_index s mri o i).
Proof.
  unfold update_optimum. apply internal_bind; [apply internal_Vector2D_at|]. intros d _.
  destruct (d <? opt_score o); [|apply internal_Ok].
  apply internal_bind; [apply internal_require|]. intros ? _. apply internal_Ok.
Qed.

Lemma internal_relax_projection (dp : Vector2D) (current_index fi it_idx : N)
    (mri : list N) (tabs : ColumnTables) (i : N) :
  internal_failure_only (relax_projection dp current_index fi it_idx mri tabs i).
Proof.
  unfold relax_projection. apply internal_bind; [apply internal_Vector2D_at|]. intros d _.
  apply internal_bind; [apply internal_Vector2D_at|]. intros slot _.
  destruct (d <? slot); [|apply internal_Ok].
  apply internal_bind; [apply internal_Vector2D_set|]. intros ? _.
  apply internal_bind; [apply internal_Vector2D_set|]. intros ? _.
  apply internal_bind; [apply internal_require|]. intros ? _.
  apply internal_bind; [apply internal_Vector2D_set|]. intros ? _. apply internal_Ok.
Qed.

(** The only caller data that the relaxation reads is [recombcost]. *)
Lemma caller_data_candidate_cost (rc : list N) (c : nat) (cur prev i j : N) :
  caller_data_only_if (rc !! c = None) (candidate_cost rc c cur prev i j).
Proof.
  unfold candidate_cost, caller_data_only_if. destruct (_ <? UINT_MAX); [|done].
  by destruct (rc !! c).
Qed.

Lemma caller_data_relax_pattern (p : Params) (c : nat) (prev : option Vector2D)
    (bpi current_index : N) (ccs : list CC) (acc : Vector2D * list N * bool) (i : N) :
  caller_data_only_if (recombcost p !! c = None)
    (relax_pattern p c prev bpi current_index ccs acc i).
Proof.
  unfold relax_pattern. destruct acc as [[dp mri] found].
  apply caller_data_bind; [apply caller_data_internal, internal_require|]. intros cc _.
  apply caller_data_bind.
  - apply caller_data_foldlM. intros [m mi] j. unfold relax_predecessor.
    apply caller_data_bind; [|by intros].
    unfold predecessor_candidate. apply caller_data_bind.
    + apply caller_data_internal. unfold previous_cost_of.
      destruct (decide _); [|apply internal_Ok].
      apply internal_bind; [apply internal_require|]. intros ? _.
      apply internal_Vector2D_at.
    + intros ? _. apply caller_data_candidate_cost.
  - intros [m mi] _.
    apply caller_data_bind; [apply caller_data_internal, internal_Vector2D_set|].
    by intros.
Qed.

Lemma caller_data_process_step (p : Params) (c : nat) (prev : option Vector2D)
    (acc : list CC * Vector2D * option ColumnTables * Optimum) (s : IteratorStep) :
  caller_data_only_if (recombcost p !! c = None) (process_step p c prev acc s).
Proof.
  unfold process_step. destruct acc as [[[ccs0 dp] tabs] o].
  apply caller_data_bind;
    [apply caller_data_foldlM; intros; apply caller_data_relax_pattern|].
  intros [[dp' mri] found] _. destruct found; simpl; [|done].
  destruct tabs as [tb|].
  - apply caller_data_bind; [|by intros].
    apply caller_data_internal, internal_foldlM. intros. apply internal_relax_projection.
  - apply caller_data_bind; [|by intros].
    apply caller_data_internal, internal_foldlM. intros. apply internal_update_optimum.
Qed.

(** The pass over a column reads [allele_counts] with [at] and [recombcost]
    without a check, each at the index of the column. *)
Lemma caller_data_column_pass (p : Params) (sources : list N)
    (partitions : list PedigreePartitions) (n c : nat)
    (indexer : ColumnIndexingScheme) (column : Column) (prev : option Vector2D)
    (o : Optimum) :
  caller_data_only_if (allele_counts p !! c = None ∨ recombcost p !! c = None)
    (column_pass p sources partitions n c indexer column prev o).
Proof.
  unfold column_pass. apply caller_data_bind.
  - unfold make_cost_computers. apply caller_data_foldlM. intros ccs i.
    apply caller_data_bind; [apply caller_data_internal, internal_require|].
    intros pp _. destruct (allele_counts p !! c); simpl; [done|]. intros _. by left.
  - intros ccs _. apply caller_data_bind; [|by intros [[[? ?] ?] ?]].
    intros He. right. revert He. apply caller_data_foldlM. intros.
    apply caller_data_process_step.
Qed.

Lemma caller_data_reference_pass (p : Params) (t : PedigreeDPTable) (c : nat)
    (o : Optimum) :
  caller_data_only_if (allele_counts p !! c = None ∨ recombcost p !! c = None)
    (reference_pass p t c o).
Proof.
  unfold reference_pass.
  apply caller_data_bind; [apply caller_data_internal, internal_require|]. intros column _.
  apply caller_data_bind; [apply caller_data_internal, internal_require|]. intros indexer _.
  apply caller_data_bind.
  - destruct c as [|c']; [done|]. apply caller_data_internal.
    apply internal_bind; [apply internal_require|]. intros ? _. apply internal_Ok.
  - intros prev _. apply caller_data_column_pass.
Qed.

(** The forward sweep stops on caller data only at a column for which
    [allele_counts] or [recombcost] has no entry. *)
Lemma caller_data_forward_sweep (p : Params) (t : PedigreeDPTable) :
  forward_sweep p (clear_table t) = Err PreconditionViolation →
  ∃ c, (c < get_column_count (input_column_iterator t))%nat ∧
    (allele_counts p !! c = None ∨ recombcost p !! c = None).
Proof.
  set (t0 := clear_table t). unfold forward_sweep.
  destruct (forward_start p t0) as [fs0|e] eqn:Hstart; simpl.
  2:{ intros [= ->]. exfalso. unfold forward_start in Hstart.
      apply bind_Err in Hstart as [Hs|([? ?] & _ & ?)]; [|done].
      unfold get_next in Hs.
      apply bind_Err in Hs as [Hs|(? & _ & ?)]; [|done].
      by apply internal_require in Hs. }
  pose proof (forward_start_inv p t0 (checkpoint_stride (get_column_count
    (input_column_iterator t0))) fs0 (clear_table_cleared t) Hstart) as Hinv.
  pose proof (forward_upto_spec p t0 _ fs0
                (get_column_count (input_column_iterator t0)) Hinv (le_n _)) as Hspec.
  destruct (forward_upto p _ fs0 _) as [fs|e]; [done|]. intros [= ->].
  destruct Hspec as (c & o & Hc & Hpass). exists c. split; [exact Hc|].
  by apply caller_data_reference_pass in Hpass.
Qed.

(** X7.  When [recombcost] has an entry for every column, so that the
    unchecked read of line 393 stays inside the vector: [compute_table] raises
    the Mendelian conflict only in its forward sweep; it stops on caller data
    only there, and only when [allele_counts], read with [at], has fewer
    entries than there are columns; once the forward sweep has ended well,
    the backward sweep, which computes columns again, can only fail on a
    broken invariant. *)
Theorem conflict_only_in_forward_sweep (p : Params) (t : PedigreeDPTable) :
  (get_column_count (input_column_iterator t) ≤ length (recombcost p))%nat →
  (compute_table p t = Err MendelianConflict ↔
   forward_sweep p (clear_table t) = Err MendelianConflict) ∧
  (compute_table p t = Err PreconditionViolation ↔
   forward_sweep p (clear_table t) = Err PreconditionViolation) ∧
  (compute_table p t = Err PreconditionViolation →
   (length (allele_counts p) < get_column_count (input_column_iterator t))%nat) ∧
  ∀ fs, forward_sweep p (clear_table t) = Ok fs →
        internal_failure_only (compute_table p t).
Proof.
  intros Hrc.
  assert (∀ fs, forward_sweep p (clear_table t) = Ok fs →
            internal_failure_only
              (backtrace_loop p
                 (checkpoint_stride (get_column_count (input_column_iterator (clear_table t))))
                 (length (indexers (fw_table fs)) - 1)
                 (backtrace_start (fw_table fs)))) as Hback.
  { intros fs Hsweep.
    destruct (forward_sweep_Ok p t fs Hsweep)
      as (fs0 & _ & _ & _ & Hinv & Hn & Hk & Hrefs).
    apply (internal_backtrace_loop p (clear_table t)); [done|done| |].
    - destruct Hinv as (_ & _ & _ & _ & -> & _). lia.
    - by apply forward_inv_backward. }
  assert (∀ e, e ≠ InvariantViolation →
            (compute_table p t = Err e ↔ forward_sweep p (clear_table t) = Err e)) as Hiff.
  { intros e He. unfold compute_table.
    destruct (bool_decide _) eqn:Hn.
    - apply bool_decide_eq_true in Hn. split; [done|].
      unfold forward_sweep, forward_start, get_next. simpl.
      rewrite lookup_ge_None_2; [simpl; congruence|].
      unfold get_column_count in Hn. simpl in Hn. lia.
    - destruct (forward_sweep p (clear_table t)) as [fs|e'] eqn:Hsweep; simpl; [|split; congruence].
      split; [|done]. intros Hc.
      apply bind_Err in Hc as [Hc|(? & _ & ?)]; [|done].
      by apply (Hback fs eq_refl) in Hc. }
  split; [by apply Hiff|]. split; [by apply Hiff|].
  split.
  { intros Hc. apply Hiff in Hc; [|done].
    apply caller_data_forward_sweep in Hc as (c & Hc & [Hac|Hcost]).
    - apply lookup_ge_None in Hac. lia.
    - apply lookup_ge_None in Hcost. lia. }
  intros fs Hsweep. unfold compute_table. destruct (bool_decide _); [apply internal_Ok|].
  rewrite Hsweep. cbn [mbind result_bind].
  apply internal_bind; [by apply Hback|]. intros bs _. apply internal_Ok.
Qed.

Lemma get_optimal_partitioning_length (p : Params) (t : PedigreeDPTable)
    (part : list N) :
  get_optimal_partitioning p t = Ok part → length part = length (read_set t).
Proof.
  unfold get_optimal_partitioning.
  apply (foldlM_invariant (λ part, length part = length (read_set t)));
    [|by rewrite length_replicate].
  intros part1 i part2 _ Hlen Hs. inv_result. subst part2.
  match goal with Hf : foldlM _ _ _ = Ok _ |- _ =>
    apply assign_partitions_fold in Hf as (Hlen' & _) end.
  congruence.
Qed.

(** The schemes and the index path that [compute_table] leaves behind. *)
Lemma compute_table_schemes (p : Params) (t t' : PedigreeDPTable) :
  let cols := it_columns (input_column_iterator t) in
  compute_table p t = Ok t' →
  length (index_path t') = length cols ∧
  ∀ j, (j < length cols)%nat →
    indexers t' !! j = Some (scheme_of_column (ploidy p) cols j).
Proof.
  intros cols. unfold compute_table.
  change (get_column_count (input_column_iterator (clear_table t))) with (length cols).
  destruct (bool_decide _) eqn:Hn.
  - apply bool_decide_eq_true in Hn. intros [= <-]. simpl. split; [done|]. lia.
  - apply bool_decide_eq_false in Hn.
    intros Hc. apply bind_Ok in Hc as (fs & Hsweep & Hc).
    apply bind_Ok in Hc as (bs & Hloop & Hc). injection Hc as <-.
    destruct (forward_sweep_Ok p t fs Hsweep)
      as (fs0 & _ & _ & _ & Hinv & _ & _ & _).
    destruct Hinv as (Hframe & _ & _ & _ & Hlen & Hix & _).
    change (it_columns (input_column_iterator (clear_table t))) with cols in Hlen, Hix.
    assert (get_column_count (input_column_iterator (fw_table fs)) = length cols) as Hcount.
    { destruct Hframe as (_ & _ & _ & Hcols & _). unfold get_column_count. by rewrite Hcols. }
    rewrite Hlen in Hloop.
    apply backtrace_loop_same_optimum in Hloop as ((Hix' & _ & _) & Hplen & _);
      [|simpl; rewrite Hcount; lia].
    simpl in Hix', Hplen.
    rewrite length_insert, length_replicate, Hlen in Hplen.
    split; [done|]. intros j Hj. rewrite Hix'. by apply Hix.
Qed.

Lemma scheme_of_column_read_ids (pl : N) (cols : list Column) (c : nat)
    (col : Column) :
  (∀ prev ids pl, get_read_ids (scheme_new prev ids pl) = ids) →
  (∀ s next, get_read_ids (set_next_column s next) = get_read_ids s) →
  cols !! c = Some col →
  ∃ s, scheme_of_column pl cols c = Some s ∧ get_read_ids s = extract_read_ids col.
Proof.
  intros Hnew Hnext Hcol.
  assert (∀ prev, ∃ s0, raw_schemes pl prev cols !! c = Some s0 ∧
            get_read_ids s0 = extract_read_ids col) as Hraw.
  { revert c Hcol. induction cols as [|col0 cols IH]; intros c Hcol prev; [done|].
    destruct c as [|c]; simpl in *.
    - injection Hcol as ->. eexists. split; [done|]. apply Hnew.
    - by apply IH. }
  destruct (Hraw None) as (s0 & Hs0 & Hids).
  rewrite (scheme_of_column_raw _ _ _ s0 Hs0).
  eexists. split; [done|].
  destruct (raw_schemes pl None cols !! S c); [by rewrite Hnext|done].
Qed.

(** X8.  After a construction that ran the sweeps and ended well,
    [get_optimal_partitioning] returns: one partition for each read of the
    read set, each below the ploidy.  The indexing schemes have to list the
    reads of their column, and the columns have to hold reads of the read
    set. *)
Theorem optimal_partitioning_after_sweeps (reads : ReadSet) (p : Params)
    (positions : option (list N)) (t : PedigreeDPTable) :
  (∀ prev ids pl, get_read_ids (scheme_new prev ids pl) = ids) →
  (∀ s next, get_read_ids (set_next_column s next) = get_read_ids s) →
  Forall (Forall (λ e, (N.to_nat (get_read_id e) < length reads)%nat))
    (read_columns (reassignReadIds reads) positions) →
  ploidy p ≠ 0 →
  (PedigreeDPTable_new reads p positions None).2 = Ok t →
  ∃ part, get_optimal_partitioning p t = Ok part ∧
    length part = length reads ∧ Forall (λ x, x < ploidy p) part.
Proof.
  intros Hnew Hnext Hcols Hpl Hcons. simpl in Hcons.
  apply bind_Ok in Hcons as (sources & _ & Hct).
  pose proof (compute_table_frame _ _ _ Hct) as (Hrs & _).
  apply compute_table_schemes in Hct as (Hlen & Hix).
  simpl in Hrs, Hlen, Hix.
  destruct (get_optimal_partitioning_returns p t Hpl) as [part Hpart].
  { intros i Hi. rewrite Hlen in Hi.
    destruct (lookup_lt_is_Some_2 _ _ Hi) as [col Hcol].
    destruct (scheme_of_column_read_ids (ploidy p) _ i col Hnew Hnext Hcol)
      as (s & Hs & Hids).
    exists s. rewrite (Hix i Hi), Hs. split; [done|].
    rewrite Hids, Hrs, reassignReadIds_length. unfold extract_read_ids.
    apply Forall_fmap. rewrite Forall_lookup in Hcols. by apply (Hcols i). }
  exists part. split; [done|]. split.
  - apply get_optimal_partitioning_length in Hpart.
    by rewrite Hpart, Hrs, reassignReadIds_length.
  - by apply (get_optimal_partitioning_range p t).
Qed.

(** The digit that the loop of lines 514-518 gives to a read: the one at the
    last place of the read in the list of the column. *)
Lemma assign_partitions_digit (pl : N) (ids : list N) :
  ∀ (part part' : list N) (idx idx' : N) (j : nat) (r : N),
    foldlM (assign_partitions pl) (part, idx) ids = Ok (part', idx') →
    ids !! j = Some r →
    (∀ j', (j < j')%nat → ids !! j' ≠ Some r) →
    part' !! N.to_nat r = Some ((idx / pl ^ N.of_nat j) mod pl).
Proof.
  induction ids as [|id ids IH]; intros part part' idx idx' j r Hf Hj Hlast; [done|].
  cbn [foldlM] in Hf. apply bind_Ok in Hf as ([part1 idx1] & Hs & Hf).
  apply assign_partitions_inv in Hs as (Hpl & Hid & -> & ->).
  destruct j as [|j]; simpl in Hj.
  - injection Hj as ->.
    apply assign_partitions_fold in Hf as (_ & Hkeep & _).
    rewrite Hkeep.
    + rewrite list_lookup_insert_eq by done. by rewrite N.pow_0_r, N.div_1_r.
    + rewrite N2Nat.id. intros Hin. apply list_elem_of_lookup in Hin as [j' Hj'].
      by apply (Hlast (S j')); [lia|].
  - rewrite (IH _ _ _ _ j r Hf Hj).
    + f_equal. rewrite N.Div0.div_div. do 2 f_equal.
      rewrite Nat2N.inj_succ, N.pow_succ_r'. done.
    + intros j' Hj'. apply (Hlast (S j')). lia.
Qed.

(** X9.  In the sequence that [get_optimal_partitioning] returns, a read has
    the digit of the packed index of the last column that lists it, at the
    last place at which that column lists it: (index / ploidy^j) mod ploidy. *)
Theorem optimal_partitioning_digit (p : Params) (t : PedigreeDPTable)
    (part : list N) (i j : nat) (v : index_and_inheritance_t)
    (indexer : ColumnIndexingScheme) (r : N) :
  get_optimal_partitioning p t = Ok part →
  index_path t !! i = Some v →
  indexers t !! i = Some (Some indexer) →
  get_read_ids indexer !! j = Some r →
  (∀ j', (j < j')%nat → get_read_ids indexer !! j' ≠ Some r) →
  (∀ i' indexer', (i < i' < length (index_path t))%nat →
     indexers t !! i' = Some (Some indexer') → r ∉ get_read_ids indexer') →
  part !! N.to_nat r = Some ((index v / ploidy p ^ N.of_nat j) mod ploidy p).
Proof.
  intros Hg Hv Hix Hj Hlastj Hlasti. unfold get_optimal_partitioning in Hg.
  pose proof (lookup_lt_Some _ _ _ Hv) as Hi.
  replace (length (index_path t)) with (i + S (length (index_path t) - S i))%nat in Hg by lia.
  rewrite seq_app in Hg. cbn [seq] in Hg. rewrite foldlM_app in Hg.
  apply bind_Ok in Hg as (part_a & _ & Hg). cbn [foldlM] in Hg.
  apply bind_Ok in Hg as (part_b & Hb & Hg).
  rewrite Nat.add_0_l, Hv, Hix in Hb. simpl in Hb.
  apply bind_Ok in Hb as ([part_b' idx'] & Hb & Heq). injection Heq as ->.
  apply (assign_partitions_digit _ _ _ _ _ _ j r) in Hb; [|done|done].
  revert Hg.
  apply (foldlM_invariant
    (λ part, part !! N.to_nat r = Some ((index v / ploidy p ^ N.of_nat j) mod ploidy p)));
    [|done].
  intros part1 i' part2 Hi' Hpart1 Hs.
  apply elem_of_seq in Hi'.
  apply bind_Ok in Hs as (v' & _ & Hs). apply bind_Ok in Hs as (indexer' & Hix' & Hs).
  apply bind_Ok in Hs as ([part2' idx2] & Hs & Heq). injection Heq as ->.
  apply require_Ok, mjoin_lookup_Some in Hix'.
  apply assign_partitions_fold in Hs as (_ & Hkeep & _).
  rewrite Hkeep; [done|]. rewrite N2Nat.id. apply (Hlasti i'); [lia|done].
Qed.

Lemma packing_bound (pl : N) (vs : list N) :
  Forall (λ v, v < pl) vs → packing pl vs < pl ^ N.of_nat (length vs) ∨ vs = [].
Proof.
  induction vs as [|v vs IH]; [by right|]. intros Hall. left.
  inversion Hall as [|? ? Hv Hvs]; subst.
  cbn [packing length]. rewrite Nat2N.inj_succ, N.pow_succ_r'.
  destruct (IH Hvs) as [Hlt| ->].
  - nia.
  - simpl. lia.
Qed.

(** Taking the digits of a packing apart, as the loop of
    [get_optimal_partitioning] does. *)
Lemma unpack_packing (pl : N) (f : N → N) (ids : list N) :
  ∀ part,
    Forall (λ id, f id < pl) ids →
    Forall (λ id, (N.to_nat id < length part)%nat) ids →
    ∃ part',
      foldlM (assign_partitions pl) (part, packing pl (f <$> ids)) ids = Ok (part', 0) ∧
      length part' = length part ∧
      (∀ id, id ∈ ids → part' !! N.to_nat id = Some (f id)) ∧
      (∀ r, N.of_nat r ∉ ids → part' !! r = part !! r).
Proof.
  induction ids as [|id ids IH]; intros part Hf Hin.
  - exists part. simpl. split; [done|]. split; [done|]. split; [|done].
    intros id Hid. by apply elem_of_nil in Hid.
  - inversion Hf as [|? ? Hv Hf']; subst. inversion Hin as [|? ? Hid Hin']; subst.
    cbn [fmap list_fmap packing foldlM].
    assert (pl ≠ 0) as Hpl by lia.
    rewrite assign_partitions_Ok by done. cbn [mbind result_bind].
    set (P := packing pl (f <$> ids)).
    assert ((f id + pl * P) mod pl = f id) as ->.
    { rewrite N.mul_comm, N.Div0.mod_add. by apply N.mod_small. }
    assert ((f id + pl * P) / pl = P) as ->.
    { rewrite N.mul_comm, N.div_add by done.
      by rewrite (N.div_small (f id)) by done. }
    subst P.
    destruct (IH (<[N.to_nat id := f id]> part) Hf') as (part' & Hfold & Hlen & Hset & Hkeep).
    { eapply Forall_impl; [exact Hin'|]. intros id' Hid'. simpl. by rewrite length_insert. }
    exists part'. split; [done|]. split; [by rewrite Hlen, length_insert|]. split.
    + intros id' Hid'. destruct (decide (id' ∈ ids)) as [Hin2|Hout]; [by apply Hset|].
      apply elem_of_cons in Hid' as [->|?]; [|done].
      rewrite Hkeep by (by rewrite N2Nat.id).
      by apply list_lookup_insert_eq.
    + intros r Hr. rewrite Hkeep by (intros ?; apply Hr; by right).
      apply list_lookup_insert_ne. intros Heq. apply Hr.
      replace (N.of_nat r) with id by lia. left.
Qed.

(** X10.  The packing of [set_index_path] is the one that
    [get_optimal_partitioning] takes apart.  When the partitions of the reads
    of a column are below the ploidy and ploidy^(number of reads) fits into
    an [unsigned int], the loop of lines 514-518, run on the index that the
    loop of lines 122-126 has packed, gives every read of the column its
    partition back, uses the index up, and leaves the other reads as they
    are. *)
Theorem pack_then_assign_round_trip (pl : N) (m : gmap N N) (ids : list N)
    (part : list N) :
  Forall (λ id, default 0 (m !! id) < pl) ids →
  pl ^ N.of_nat (length ids) ≤ 2 ^ 32 →
  Forall (λ id, (N.to_nat id < length part)%nat) ids →
  ∃ part',
    foldlM (assign_partitions pl) (part, (pack_partitioning pl m ids).1) ids
      = Ok (part', 0) ∧
    length part' = length part ∧
    (∀ id, id ∈ ids → part' !! N.to_nat id = Some (default 0 (m !! id))) ∧
    (∀ r, N.of_nat r ∉ ids → part' !! r = part !! r).
Proof.
  intros Hvals Hfit Hin.
  set (f := λ id, default 0 (m !! id)).
  destruct (pack_partitioning_spec pl f m ids) as [-> _]; [done|].
  rewrite wrap32_small.
  - by apply unpack_packing.
  - destruct (packing_bound pl (f <$> ids)) as [Hlt|Hnil].
    + by apply Forall_fmap.
    + rewrite length_fmap in Hlt. lia.
    + rewrite Hnil. done.
Qed.

(** ** What get_super_reads hands out *)

(** One round of the loop over the columns (lines 478-500). *)
Lemma super_reads_loop_round (p : Params) (t : PedigreeDPTable) (positions : list N)
    (rounds i : nat) (sr : list (list Read)) (tv : list N) r :
  has_next (input_column_iterator t) = true →
  super_reads_loop p t positions (S rounds) i sr tv = Ok r →
  ∃ v column it cc n_alleles position sr1,
    index_path t !! i = Some v ∧
    get_next (input_column_iterator t) = Ok (column, it) ∧
    path_cost_computer p (with_iterator t it) column i v = Ok cc ∧
    allele_counts p !! i = Some n_alleles ∧
    positions !! i = Some position ∧
    add_variants p position (to_int n_alleles) (get_alleles cc) sr = Ok sr1 ∧
    super_reads_loop p (with_iterator t it) positions rounds (S i) sr1
      (tv ++ [inheritance_value v]) = Ok r.
Proof.
  intros Hnext. cbn [super_reads_loop]. rewrite Hnext. intros Hl.
  apply bind_Ok in Hl as (v & Hv & Hl). apply require_Ok in Hv.
  apply bind_Ok in Hl as ([column it] & Hn & Hl).
  apply bind_Ok in Hl as (cc & Hcc & Hl).
  apply bind_Ok in Hl as (n_alleles & Hac & Hl). apply require_Ok in Hac.
  apply bind_Ok in Hl as (position & Hpos & Hl). apply require_Ok in Hpos.
  apply bind_Ok in Hl as (sr1 & Hadd & Hl).
  exists v, column, it, cc, n_alleles, position, sr1. done.
Qed.

Lemma super_reads_loop_transmission (p : Params) (positions : list N) (n rounds : nat) :
  ∀ (t : PedigreeDPTable) (i : nat) (sr : list (list Read)) (tv : list N) t' sr' tv',
    length (it_columns (input_column_iterator t)) = n →
    it_next (input_column_iterator t) = i →
    (n - i ≤ rounds)%nat →
    super_reads_loop p t positions rounds i sr tv = Ok (t', sr', tv') →
    tv' = tv ++ (inheritance_value <$> take (n - i) (drop i (index_path t))).
Proof.
  induction rounds as [|rounds IH]; intros t i sr tv t' sr' tv' Hn Hi Hr.
  - cbn [super_reads_loop]. intros [= <- <- <-].
    replace (n - i)%nat with 0%nat by lia. by rewrite take_0, app_nil_r.
  - destruct (has_next (input_column_iterator t)) eqn:Hnext.
    + intros Hl. apply super_reads_loop_round in Hl
        as (v & column & it & cc & n_alleles & position & sr1
            & Hv & Hg & _ & _ & _ & _ & Hl); [|done].
      apply get_next_columns in Hg as (_ & Hcols & _ & Hnx).
      apply IH in Hl; [|simpl; by rewrite Hcols|simpl; lia|lia].
      simpl in Hl. rewrite Hl.
      unfold has_next in Hnext. apply bool_decide_eq_true in Hnext.
      rewrite (drop_S _ v i Hv).
      replace (n - i)%nat with (S (n - S i)) by lia.
      cbn [take fmap list_fmap]. by rewrite <- app_assoc.
    + cbn [super_reads_loop]. rewrite Hnext. intros [= <- <- <-].
      unfold has_next in Hnext. apply bool_decide_eq_false in Hnext.
      replace (n - i)%nat with 0%nat by lia. by rewrite take_0, app_nil_r.
Qed.

(** X11.  The transmission vector that [get_super_reads] hands out holds the
    inheritance values of the index path, one for each column in the order
    of the columns; what the vector held before is dropped. *)
Theorem super_reads_transmission_vector (p : Params) (t t1 : PedigreeDPTable)
    (out out1 : list ReadSet) (tv tv1 : list N) :
  get_super_reads p t out tv = Ok (t1, out1, tv1) →
  tv1 = inheritance_value
          <$> take (get_column_count (input_column_iterator t)) (index_path t).
Proof.
  unfold get_super_reads. intros Hg.
  apply bind_Ok in Hg as (? & _ & Hg).
  apply bind_Ok in Hg as (sr & _ & Hg).
  apply bind_Ok in Hg as ([[t2 sr'] tv2] & Hloop & Hg).
  apply bind_Ok in Hg as (out' & _ & Hg). injection Hg as _ _ <-.
  destruct (bool_decide _).
  - apply bind_Ok in Hloop as (? & Hnone & Hloop). injection Hloop as _ _ <-.
    apply assert_Ok, negb_true_iff, bool_decide_eq_false in Hnone. simpl in Hnone.
    unfold get_column_count.
    replace (length (it_columns (input_column_iterator t))) with 0%nat by lia.
    done.
  - apply (super_reads_loop_transmission _ _
             (get_column_count (input_column_iterator t))) in Hloop;
      [|done|done|unfold get_column_count; simpl; lia].
    simpl in Hloop. rewrite Hloop. by rewrite Nat.sub_0_r, drop_0.
Qed.

(** ** Loops over the cells of a table *)

Lemma foldlM_fmap {A B C} (f : A → C → result A) (g : B → C) (l : list B) (a : A) :
  foldlM f a (g <$> l) = foldlM (λ a b, f a (g b)) a l.
Proof.
  revert a. induction l as [|b l IH]; intros a; simpl; [done|].
  destruct (f a (g b)); simpl; [apply IH|done].
Qed.

(** Two nested loops are one loop over the pairs of their indices. *)
Lemma foldlM_nested {A K J} (f : A → K * J → result A) (ks : list K) (js : list J)
    (a : A) :
  foldlM (λ a k, foldlM (λ a' j, f a' (k, j)) a js) a ks
    = foldlM f a (ks ≫= λ k, pair k <$> js).
Proof.
  revert a. induction ks as [|k ks IH]; intros a; [done|].
  cbn [foldlM]. rewrite bind_cons, foldlM_app, foldlM_fmap.
  destruct (foldlM _ a js); simpl; [apply IH|done].
Qed.

(** A loop that ended well has met what every round needs to end well. *)
Lemma foldlM_Forall {A B} (Q : B → Prop) (f : A → B → result A) (l : list B) :
  (∀ a b a', f a b = Ok a' → Q b) →
  ∀ a a', foldlM f a l = Ok a' → Forall Q l.
Proof.
  intros Hf. induction l as [|b l IH]; intros a a'; simpl; [done|].
  intros Hl. apply bind_Ok in Hl as (a1 & Hs & Hl). constructor; eauto.
Qed.

(** A loop over distinct keys, each round of which changes the cell of its
    key and no other cell, has changed the cell of each of its keys once and
    has left the other cells alone. *)
Lemma foldlM_cells {A K V} `{EqDecision K} (get : A → K → option V)
    (f : A → K → result A) (h : K → V → V) (l : list K) :
  (∀ a k a', f a k = Ok a' →
     ∃ v, get a k = Some v ∧ get a' k = Some (h k v) ∧
          ∀ k', k' ≠ k → get a' k' = get a k') →
  NoDup l →
  ∀ a a', foldlM f a l = Ok a' →
    (∀ k, k ∈ l → ∃ v, get a k = Some v ∧ get a' k = Some (h k v)) ∧
    (∀ k, k ∉ l → get a' k = get a k).
Proof.
  intros Hf. induction l as [|k0 l IH]; intros Hnd a a'; cbn [foldlM].
  - intros [= <-]. split; [|done]. intros k Hk. by apply elem_of_nil in Hk.
  - intros Hl. apply bind_Ok in Hl as (a1 & Hs & Hl).
    apply NoDup_cons in Hnd as (Hk0 & Hnd).
    destruct (Hf _ _ _ Hs) as (v & Hv & Hv' & Hother).
    destruct (IH Hnd _ _ Hl) as (Hin & Hout). split.
    + intros k Hk. destruct (decide (k = k0)) as [->|Hne].
      * exists v. split; [done|]. by rewrite Hout.
      * apply elem_of_cons in Hk as [?|Hk]; [done|].
        destruct (Hin k Hk) as (v' & Hg & Hg'). exists v'.
        split; [by rewrite <- Hother|done].
    + intros k Hk. apply not_elem_of_cons in Hk as (Hne & Hk).
      rewrite Hout by done. by apply Hother.
Qed.

Lemma cell_insert (sr : list (list Read)) (k : nat) (j : N) (row : list Read)
    (r r' : Read) (kj : nat * N) :
  sr !! k = Some row → row !! N.to_nat j = Some r →
  cell (<[k := <[N.to_nat j := r']> row]> sr) kj
    = if decide (kj = (k, j)) then Some r' else cell sr kj.
Proof.
  intros Hrow Hr. destruct kj as [k' j']. unfold cell. simpl.
  apply lookup_lt_Some in Hrow as Hk. apply lookup_lt_Some in Hr as Hj.
  destruct (decide (k' = k)) as [->|Hk'].
  - rewrite list_lookup_insert_eq by done. simpl.
    destruct (decide (j' = j)) as [->|Hj'].
    + rewrite decide_True by done. by apply list_lookup_insert_eq.
    + rewrite decide_False by congruence. rewrite Hrow. simpl.
      apply list_lookup_insert_ne. lia.
  - rewrite decide_False by congruence. by rewrite list_lookup_insert_ne.
Qed.

Lemma NoDup_N_range (n : N) : NoDup (N_range n).
Proof. unfold N_range. apply NoDup_fmap_2; [apply _|apply NoDup_seq]. Qed.

Lemma NoDup_pairs (ks : list nat) (js : list N) :
  NoDup ks → NoDup js → NoDup (ks ≫= λ k, pair k <$> js).
Proof.
  intros Hks Hjs. apply NoDup_bind; [| |done].
  - intros k1 k2 [k j] _ _ Hin1 Hin2.
    apply list_elem_of_fmap in Hin1 as (? & [= -> ->] & _).
    by apply list_elem_of_fmap in Hin2 as (? & [= -> _] & _).
  - intros k _. apply NoDup_fmap_2; [|done]. by intros ?? [=].
Qed.

Lemma elem_of_pairs (ks : list nat) (js : list N) (k : nat) (j : N) :
  (k, j) ∈ ks ≫= (λ k, pair k <$> js) ↔ k ∈ ks ∧ j ∈ js.
Proof.
  rewrite list_elem_of_bind. split.
  - intros (k' & Hin & Hk'). apply list_elem_of_fmap in Hin as (j' & [= -> ->] & Hj').
    done.
  - intros (Hk & Hj). exists k. split; [|done]. apply list_elem_of_fmap. eauto.
Qed.

(** Lines 488-496: every super-read gets one more variant. *)
Lemma add_variants_cells (p : Params) (position : N) (n_alleles : Z)
    (population_alleles : list (list Z)) (sr sr' : list (list Read)) :
  add_variants p position n_alleles population_alleles sr = Ok sr' →
  ∀ k j, (k < Pedigree_size (pedigree p))%nat → j < ploidy p →
    ∃ a r, (0 ≤ n_alleles)%Z ∧ allele_at population_alleles (k, j) = Some a ∧
      cell sr (k, j) = Some r ∧
      cell sr' (k, j) = Some (addVariant r position a (allele_qualities n_alleles a)).
Proof.
  unfold add_variants. intros Hadd k j Hk Hj.
  set (step := λ (sr' : list (list Read)) (kj : nat * N),
         _ ← new_qualities n_alleles;
         alleles ← require InvariantViolation (population_alleles !! kj.1);
         a ← require InvariantViolation (alleles !! N.to_nat kj.2);
         reads ← require InvariantViolation (sr' !! kj.1);
         r ← require InvariantViolation (reads !! N.to_nat kj.2);
         Ok (<[kj.1 := <[N.to_nat kj.2 :=
                 addVariant r position a (allele_qualities n_alleles a)]> reads]> sr')).
  change (foldlM (λ sr k, foldlM (λ sr' j, step sr' (k, j)) sr (N_range (ploidy p)))
            sr (seq 0 (Pedigree_size (pedigree p))) = Ok sr') in Hadd.
  rewrite foldlM_nested in Hadd.
  set (pairs := seq 0 (Pedigree_size (pedigree p)) ≫= λ k, pair k <$> N_range (ploidy p))
    in Hadd.
  assert ((k, j) ∈ pairs) as Hin.
  { apply elem_of_pairs. split; [apply elem_of_seq; lia|by apply elem_of_N_range]. }
  assert (∀ a kj a', step a kj = Ok a' →
            ∃ r, cell a kj = Some r ∧
              cell a' kj
                = Some (addVariant r position
                          (default 0%Z (allele_at population_alleles kj))
                          (allele_qualities n_alleles
                             (default 0%Z (allele_at population_alleles kj)))) ∧
              ∀ kj', kj' ≠ kj → cell a' kj' = cell a kj') as Hstep.
  { intros a [k0 j0] a' Hs. unfold step in Hs. simpl in Hs.
    apply bind_Ok in Hs as (? & _ & Hs).
    apply bind_Ok in Hs as (alleles & Hal & Hs). apply require_Ok in Hal.
    apply bind_Ok in Hs as (al & Ha & Hs). apply require_Ok in Ha.
    apply bind_Ok in Hs as (reads & Hreads & Hs). apply require_Ok in Hreads.
    apply bind_Ok in Hs as (r & Hr & Hs). apply require_Ok in Hr.
    injection Hs as <-. exists r.
    assert (allele_at population_alleles (k0, j0) = Some al) as ->
      by (unfold allele_at; simpl; by rewrite Hal).
    split; [unfold cell; simpl; by rewrite Hreads|].
    split; [rewrite (cell_insert _ _ _ _ r) by done; by rewrite decide_True|].
    intros kj' Hne. rewrite (cell_insert _ _ _ _ r) by done. by rewrite decide_False. }
  assert (Forall (λ kj, (0 ≤ n_alleles)%Z ∧ is_Some (allele_at population_alleles kj))
            pairs) as Hall.
  { apply (foldlM_Forall _ step pairs) with (a := sr) (a' := sr'); [|done].
    intros a [k0 j0] a' Hs. unfold step in Hs. simpl in Hs.
    apply bind_Ok in Hs as (? & Hq & Hs). unfold new_qualities in Hq.
    destruct (n_alleles <? 0)%Z eqn:Hneg; [done|]. apply Z.ltb_ge in Hneg.
    apply bind_Ok in Hs as (alleles & Hal & Hs). apply require_Ok in Hal.
    apply bind_Ok in Hs as (al & Ha & _). apply require_Ok in Ha.
    split; [done|]. exists al. unfold allele_at. simpl. by rewrite Hal. }
  rewrite Forall_forall in Hall. destruct (Hall (k, j) Hin) as [Hnn [a Ha]].
  destruct (foldlM_cells cell step _ pairs Hstep
              (NoDup_pairs _ _ (NoDup_seq _ _) (NoDup_N_range _)) _ _ Hadd)
    as (Hcells & _).
  destruct (Hcells (k, j) Hin) as (r & Hr & Hr'). rewrite Ha in Hr'.
  by exists a, r.
Qed.

Lemma lookup_N_range (n : N) (i : nat) :
  (i < N.to_nat n)%nat → N_range n !! i = Some (N.of_nat i).
Proof.
  intros Hi. unfold N_range. rewrite list_lookup_fmap, lookup_seq_lt by done. done.
Qed.

(** Lines 464-471: the super-reads start without variants. *)
Lemma new_superreads_cells (p : Params) (t : PedigreeDPTable) (sr : list (list Read)) :
  new_superreads p = Ok sr →
  ∀ k j, (k < Pedigree_size (pedigree p))%nat → j < ploidy p →
    ∃ r, cell sr (k, j) = Some r ∧ superread_after p t 0 k j r.
Proof.
  unfold new_superreads.
  set (row := λ (i : nat) (sample : N),
         (λ j, Read_new ("superread_" +:+ pretty j +:+ "_" +:+ pretty i)
                 (-1) (-1) sample) <$> N_range (ploidy p)).
  set (body := λ (acc : list (list Read)) (i : nat),
         sample ← index_to_id (pedigree p) i; Ok (acc ++ [row i sample])).
  assert (∀ m sr, foldlM body [] (seq 0 m) = Ok sr →
            length sr = m ∧
            ∀ k, (k < m)%nat → ∃ sample,
              individual_ids (pedigree p) !! k = Some sample ∧
              sr !! k = Some (row k sample)) as Hrows.
  { induction m as [|m IH]; intros sr0.
    - simpl. intros [= <-]. split; [done|]. lia.
    - rewrite seq_S, foldlM_snoc. simpl. intros Hf.
      apply bind_Ok in Hf as (sr1 & Hf & Hb). destruct (IH _ Hf) as (Hlen & Hold).
      unfold body in Hb. apply bind_Ok in Hb as (sample & Hs & Hb).
      apply require_Ok in Hs. injection Hb as <-.
      split; [rewrite length_app; simpl; lia|].
      intros k Hk. destruct (decide (k = m)) as [->|Hne].
      + exists sample. split; [done|].
        rewrite lookup_app_r by lia. by rewrite Hlen, Nat.sub_diag.
      + destruct (Hold k ltac:(lia)) as (sample' & Hs' & Hk').
        exists sample'. split; [done|]. rewrite lookup_app_l by lia. done. }
  intros Hnew k j Hk Hj. destruct (Hrows _ _ Hnew) as (_ & Hrow).
  destruct (Hrow k Hk) as (sample & Hsample & Hk').
  eexists. split.
  - unfold cell. simpl. rewrite Hk'. simpl. unfold row.
    rewrite list_lookup_fmap, lookup_N_range by lia. simpl. by rewrite N2Nat.id.
  - split; [done|]. split; [done|]. split; [done|]. intros c' Hc'. lia.
Qed.

(** The loop over the columns gives every super-read the variants of the
    columns that are left. *)
Lemma super_reads_loop_cells (p : Params) (t0 : PedigreeDPTable) (n rounds : nat) :
  ∀ (t : PedigreeDPTable) (i : nat) (sr : list (list Read)) (tv : list N) t' sr' tv',
    length (it_columns (input_column_iterator t0)) = n →
    same_frame t0 t → index_path t = index_path t0 →
    it_next (input_column_iterator t) = i →
    (i ≤ n)%nat → (n - i ≤ rounds)%nat →
    (∀ k j, (k < Pedigree_size (pedigree p))%nat → j < ploidy p →
       ∃ r, cell sr (k, j) = Some r ∧ superread_after p t0 i k j r) →
    super_reads_loop p t (it_positions (input_column_iterator t0)) rounds i sr tv
      = Ok (t', sr', tv') →
    ∀ k j, (k < Pedigree_size (pedigree p))%nat → j < ploidy p →
      ∃ r, cell sr' (k, j) = Some r ∧ superread_after p t0 n k j r.
Proof.
  induction rounds as [|rounds IH];
    intros t i sr tv t' sr' tv' Hn Hframe Hpath Hi Hin Hr Hcells.
  - cbn [super_reads_loop]. intros [= <- <- <-].
    by replace n with i by lia.
  - pose proof Hframe as (_ & _ & _ & Hcols & _).
    destruct (has_next (input_column_iterator t)) eqn:Hnext.
    + intros Hl. apply super_reads_loop_round in Hl
        as (v & column & it & cc & n_alleles & position & sr1
            & Hv & Hg & Hcc & Hac & Hpos & Hadd & Hl); [|done].
      apply get_next_columns in Hg as (Hcol & Hcols' & Hpos' & Hnx).
      unfold has_next in Hnext. apply bool_decide_eq_true in Hnext.
      rewrite Hcols, Hn, Hi in Hnext.
      assert (same_frame t0 (with_iterator t it)) as Hframe'.
      { destruct Hframe as (Ha & Hb & Hc & Hd & He).
        repeat split; simpl; congruence. }
      apply (IH (with_iterator t it) (S i) sr1 (tv ++ [inheritance_value v]) t' sr' tv'
               Hn Hframe'); [done|simpl; lia|lia|lia| |exact Hl].
      intros k j Hk Hj.
      destruct (add_variants_cells _ _ _ _ _ _ Hadd k j Hk Hj)
        as (a & r & Hnn & Ha & Hr0 & Hr1).
      destruct (Hcells k j Hk Hj) as (r' & Hr' & Hname & Hsample & Hlen & Hvars).
      rewrite Hr0 in Hr'. injection Hr' as <-.
      eexists. split; [done|].
      split; [done|]. split; [done|].
      split; [simpl; rewrite length_app; simpl; lia|].
      intros c' Hc'. destruct (decide (c' = i)) as [->|Hne].
      * exists v, column, cc, a, position, n_alleles.
        rewrite <- Hpath, <- Hcols. rewrite Hi in Hcol.
        rewrite (path_cost_computer_frame p t0) in Hcc by done.
        repeat (split; [done|]).
        simpl. rewrite lookup_app_r by lia. by rewrite Hlen, Nat.sub_diag.
      * destruct (Hvars c' ltac:(lia))
          as (v' & column' & cc' & a' & position' & n_alleles'
              & Hv' & Hcol' & Hcc' & Ha' & Hpos'' & Hac' & Hnn' & Hvar').
        exists v', column', cc', a', position', n_alleles'.
        repeat (split; [done|]). simpl. rewrite lookup_app_l by lia. done.
    + cbn [super_reads_loop]. rewrite Hnext. intros [= <- <- <-].
      unfold has_next in Hnext. apply bool_decide_eq_false in Hnext.
      rewrite Hcols, Hn, Hi in Hnext. by replace n with i by lia.
Qed.

(** Lines 502-507 for one individual: its super-reads are appended to its
    read set. *)
Lemma deliver_row (sr : list (list Read)) (k : nat) (js : list N) :
  ∀ out out',
    foldlM (λ out' j,
        rs ← require InvariantViolation (out' !! k);
        reads ← require InvariantViolation (sr !! k);
        r ← require InvariantViolation (reads !! N.to_nat j);
        Ok (<[k := ReadSet_add rs r]> out')) out js = Ok out' →
    length out' = length out ∧
    (∀ k', k' ≠ k → out' !! k' = out !! k') ∧
    ∀ rs, out !! k = Some rs →
      ∃ srs, out' !! k = Some (rs ++ srs) ∧
        Forall2 (λ j r, cell sr (k, j) = Some r) js srs.
Proof.
  induction js as [|j js IH]; intros out out'; cbn [foldlM].
  - intros [= <-]. split; [done|]. split; [done|].
    intros rs Hrs. exists []. by rewrite app_nil_r.
  - intros Hf. apply bind_Ok in Hf as (out1 & Hs & Hf).
    apply bind_Ok in Hs as (rs0 & Hrs0 & Hs). apply require_Ok in Hrs0.
    apply bind_Ok in Hs as (reads & Hreads & Hs). apply require_Ok in Hreads.
    apply bind_Ok in Hs as (r & Hr & Hs). apply require_Ok in Hr.
    injection Hs as <-.
    destruct (IH _ _ Hf) as (Hlen & Hother & Hrow).
    apply lookup_lt_Some in Hrs0 as Hk.
    split; [by rewrite Hlen, length_insert|]. split.
    + intros k' Hk'. rewrite Hother by done. by apply list_lookup_insert_ne.
    + intros rs Hrs. rewrite Hrs0 in Hrs. injection Hrs as <-.
      destruct (Hrow (ReadSet_add rs0 r)) as (srs & Hout & Hall);
        [by apply list_lookup_insert_eq|].
      exists (r :: srs). unfold ReadSet_add in Hout. rewrite <- app_assoc in Hout.
      split; [done|]. constructor; [|done].
      unfold cell. simpl. by rewrite Hreads.
Qed.

Lemma deliver_rows (sr : list (list Read)) (js : list N) (ks : list nat) :
  NoDup ks →
  ∀ out out',
    foldlM (λ out k,
        foldlM (λ out' j,
            rs ← require InvariantViolation (out' !! k);
            reads ← require InvariantViolation (sr !! k);
            r ← require InvariantViolation (reads !! N.to_nat j);
            Ok (<[k := ReadSet_add rs r]> out')) out js) out ks = Ok out' →
    length out' = length out ∧
    (∀ k, k ∉ ks → out' !! k = out !! k) ∧
    ∀ k rs, k ∈ ks → out !! k = Some rs →
      ∃ srs, out' !! k = Some (rs ++ srs) ∧
        Forall2 (λ j r, cell sr (k, j) = Some r) js srs.
Proof.
  induction ks as [|k0 ks IH]; intros Hnd out out'; cbn [foldlM].
  - intros [= <-]. split; [done|]. split; [done|].
    intros k rs Hk. by apply elem_of_nil in Hk.
  - intros Hf. apply bind_Ok in Hf as (out1 & Hrow & Hf).
    apply NoDup_cons in Hnd as (Hk0 & Hnd).
    apply deliver_row in Hrow as (Hlen1 & Hother1 & Hrow).
    destruct (IH Hnd _ _ Hf) as (Hlen & Hout & Hin).
    split; [congruence|]. split.
    + intros k Hk. apply not_elem_of_cons in Hk as (Hne & Hk).
      rewrite Hout by done. by apply Hother1.
    + intros k rs Hk Hrs. destruct (decide (k = k0)) as [->|Hne].
      * destruct (Hrow rs Hrs) as (srs & Hsrs & Hall). exists srs.
        by rewrite Hout.
      * apply elem_of_cons in Hk as [?|Hk]; [done|].
        apply Hin; [done|]. by rewrite Hother1.
Qed.

(** X12.  For a call with one read set for each individual (the condition
    of the [assert] of line 457): when [get_super_reads] ends well, it has
    appended [ploidy] super-reads to each read set, and the allele counts of
    the columns fit an [int]; the read for haplotype [j]
    of individual [k] is named superread_j_k, belongs to the sample of the
    individual, and has one variant for each column, at the position of the
    column, with the allele that the cost computer reports for the entry of
    the index path and with quality 0 for this allele and 10 for every other
    allele. *)
Theorem super_reads_delivered (p : Params) (t t1 : PedigreeDPTable)
    (out out1 : list ReadSet) (tv tv1 : list N) :
  length out = Pedigree_size (pedigree p) →
  get_super_reads p t out tv = Ok (t1, out1, tv1) →
  length out1 = length out ∧
  ∀ k rs, out !! k = Some rs →
    ∃ srs, out1 !! k = Some (rs ++ srs) ∧
      length srs = N.to_nat (ploidy p) ∧
      ∀ j r, srs !! j = Some r →
        superread_after p t (get_column_count (input_column_iterator t)) k
          (N.of_nat j) r.
Proof.
  unfold get_super_reads. intros Hsize Hg.
  apply bind_Ok in Hg as (? & _ & Hg).
  apply bind_Ok in Hg as (sr & Hnew & Hg).
  apply bind_Ok in Hg as ([[t2 sr'] tv2] & Hloop & Hg).
  apply bind_Ok in Hg as (out' & Hdeliver & Hg). injection Hg as _ <- _.
  set (n := get_column_count (input_column_iterator t)).
  assert (∀ k j, (k < Pedigree_size (pedigree p))%nat → j < ploidy p →
            ∃ r, cell sr' (k, j) = Some r ∧ superread_after p t n k j r) as Hcells.
  { pose proof (new_superreads_cells p t sr Hnew) as Hcells0.
    destruct (bool_decide _).
    - apply bind_Ok in Hloop as (? & Hnone & Hloop). injection Hloop as _ <- _.
      apply assert_Ok, negb_true_iff, bool_decide_eq_false in Hnone. simpl in Hnone.
      replace n with 0%nat by (unfold n, get_column_count; lia). done.
    - revert Hloop.
      apply (super_reads_loop_cells p t n); [done|by repeat split|done|done|lia| |done].
      unfold get_column_count. simpl. fold (get_column_count (input_column_iterator t)).
      fold n. lia. }
  unfold deliver_superreads in Hdeliver.
  apply deliver_rows in Hdeliver as (Hlen & _ & Hrows); [|apply NoDup_seq].
  split; [done|]. intros k rs Hrs.
  apply lookup_lt_Some in Hrs as Hk.
  destruct (Hrows k rs) as (srs & Hsrs & Hall); [apply elem_of_seq; lia|done|].
  exists srs. split; [done|].
  apply Forall2_length in Hall as Hl. rewrite length_N_range in Hl.
  split; [done|]. intros j r Hr.
  apply lookup_lt_Some in Hr as Hj.
  destruct (Forall2_lookup_r _ _ _ _ _ Hall Hr) as (j' & Hj' & Hcell).
  rewrite lookup_N_range in Hj' by lia. injection Hj' as <-.
  destruct (Hcells k (N.of_nat j)) as (r' & Hr' & Hafter); [lia|lia|].
  rewrite Hcell in Hr'. by injection Hr' as <-.
Qed.

Lemma path_cost_computer_no_conflict (p : Params) (t : PedigreeDPTable)
    (column : Column) (c : nat) (v : index_and_inheritance_t) :
  path_cost_computer p t column c v ≠ Err MendelianConflict.
Proof.
  unfold path_cost_computer. intros Hs.
  apply bind_Err in Hs as [Hs|(? & _ & Hs)]; [by apply require_no_conflict in Hs|].
  apply bind_Err in Hs as [Hs|(? & _ & Hs)]; [by apply require_no_conflict in Hs|done].
Qed.

Lemma get_next_no_conflict (it : ColumnIterator) : get_next it ≠ Err MendelianConflict.
Proof.
  unfold get_next. intros Hs.
  apply bind_Err in Hs as [Hs|(? & _ & Hs)]; [by apply require_no_conflict in Hs|done].
Qed.

Lemma set_index_path_no_conflict (p : Params) (t : PedigreeDPTable) :
  set_index_path p t ≠ Err MendelianConflict.
Proof.
  unfold set_index_path. destruct (bool_decide _); [done|]. intros Hs.
  apply bind_Err in Hs as [Hs|([column it] & _ & Hs)];
    [by apply get_next_no_conflict in Hs|].
  apply bind_Err in Hs as [Hs|([[t2 ?] ?] & _ & Hs)]; [|done].
  revert Hs. apply foldlM_no_conflict. intros [[t1 col] ids] c Hs.
  unfold set_index_path_step in Hs.
  destruct (pack_partitioning _ _ _) as [partitioning m].
  apply bind_Err in Hs as [Hs|(cc & _ & Hs)];
    [by apply path_cost_computer_no_conflict in Hs|].
  destruct (has_next _); [|done].
  apply bind_Err in Hs as [Hs|([? ?] & _ & Hs)];
    [by apply get_next_no_conflict in Hs|done].
Qed.

(** X13.  A construction from a precomputed partitioning never reads the
    recombination costs and never raises the Mendelian conflict: its outcome
    is the same for every sequence of recombination costs, and it is not the
    failure [MendelianConflict]. *)
Theorem precomputed_path_ignores_recombcost (reads : ReadSet) (p : Params)
    (positions : option (list N)) (partitioning rc : list N) :
  PedigreeDPTable_new reads (with_recombcost p rc) positions (Some partitioning)
    = PedigreeDPTable_new reads p positions (Some partitioning) ∧
  (PedigreeDPTable_new reads p positions (Some partitioning)).2
    ≠ Err MendelianConflict.
Proof.
  split; [reflexivity|]. simpl. intros Hs.
  apply bind_Err in Hs as [Hs|(sources & _ & Hs)].
  { revert Hs. unfold translate_sources. apply foldlM_no_conflict. intros acc r Hs.
    apply bind_Err in Hs as [Hs|(? & _ & Hs)]; [|done].
    unfold id_to_index in Hs. by apply require_no_conflict in Hs. }
  apply bind_Err in Hs as [Hs|(m & _ & Hs)].
  { revert Hs. unfold assign_reads. apply foldlM_no_conflict. intros acc i Hs.
    apply bind_Err in Hs as [Hs|(? & _ & Hs)]; [by apply require_no_conflict in Hs|].
    apply bind_Err in Hs as [Hs|(? & _ & Hs)]; [by apply require_no_conflict in Hs|done]. }
  by apply set_index_path_no_conflict in Hs.
Qed.

Lemma reassignReadIds_keys (reads : ReadSet) (i : nat) (r : Read) :
  reassignReadIds reads !! i = Some r → read_key r = N.of_nat i.
Proof.
  intros Hr. apply reassignReadIds_lookup in Hr as (r0 & _ & ->).
  unfold read_key. simpl. lia.
Qed.

(** The loop of lines 43-45 over the first [k] reads. *)
Lemma assign_reads_upto (reads : ReadSet) (partitioning : list N) (k : nat) :
  (∀ i r, reads !! i = Some r → read_key r = N.of_nat i) →
  (k ≤ length reads)%nat → (k ≤ length partitioning)%nat →
  ∃ m : gmap N N,
    foldlM (λ (m : gmap N N) i,
        r ← require InvariantViolation (reads !! i);
        x ← require PreconditionViolation (partitioning !! i);
        Ok (<[read_key r := x]> m)) ∅ (seq 0 k) = Ok m ∧
    ∀ id, m !! id = if decide (N.to_nat id < k)%nat
                    then partitioning !! N.to_nat id else None.
Proof.
  intros Hkeys. induction k as [|k IH]; intros Hr Hp.
  - exists ∅. split; [done|]. intros id. rewrite lookup_empty.
    destruct (decide (N.to_nat id < 0)%nat); [lia|done].
  - destruct IH as (m & Hm & Hlook); [lia|lia|].
    destruct (lookup_lt_is_Some_2 reads k ltac:(lia)) as [r Hrk].
    destruct (lookup_lt_is_Some_2 partitioning k ltac:(lia)) as [x Hx].
    exists (<[N.of_nat k := x]> m). rewrite seq_S, foldlM_snoc, Hm. simpl.
    rewrite Hrk, Hx. simpl. rewrite (Hkeys k r Hrk). split; [done|].
    intros id. destruct (decide (N.of_nat k = id)) as [<-|Hne].
    + rewrite lookup_insert_eq, Nat2N.id.
      destruct (decide (k < S k)%nat); [done|lia].
    + rewrite lookup_insert_ne, Hlook by done.
      destruct (decide (N.to_nat id < k)%nat), (decide (N.to_nat id < S k)%nat);
        try done; lia.
Qed.

(** X14.  The loop of lines 43-45, for a read set whose ids are the
    positions of its reads (as [reassignReadIds] leaves them): when the
    precomputed partitioning has an entry for every read, the map
    [read_to_partition] holds exactly the read ids, the id [i] with the
    [i]-th entry of the partitioning; entries beyond the read set are not
    read. *)
Theorem assign_reads_outcome (reads : ReadSet) (partitioning : list N) :
  (∀ i r, reads !! i = Some r → read_key r = N.of_nat i) →
  (length reads ≤ length partitioning)%nat →
  ∃ m, assign_reads reads partitioning = Ok m ∧
    ∀ id, m !! id = if decide (N.to_nat id < length reads)%nat
                    then partitioning !! N.to_nat id else None.
Proof.
  intros Hkeys Hlen. unfold assign_reads.
  destruct (assign_reads_upto reads partitioning (length reads) Hkeys (le_n _) Hlen)
    as (m & Hm & Hlook).
  exists m. split; [exact Hm|exact Hlook].
Qed.

(** X15.  A read set without columns (lines 102-104 and 152-156): when the
    samples of the reads are known and a precomputed partitioning, if there
    is one, has an entry for every read, the construction ends well on either
    path with the score 0, an empty index path and no tables;
    [get_optimal_partitioning] then returns the partition 0 for every read,
    and [get_super_reads] an empty transmission vector. *)
Theorem construction_without_columns (reads : ReadSet) (p : Params)
    (positions precomputed : option (list N)) (sources : list N) :
  read_columns (reassignReadIds reads) positions = [] →
  translate_sources p (reassignReadIds reads) = Ok sources →
  (∀ partitioning, precomputed = Some partitioning →
     (length reads ≤ length partitioning)%nat) →
  ∃ t, (PedigreeDPTable_new reads p positions precomputed).2 = Ok t ∧
    get_optimal_score t = 0 ∧
    index_path t = [] ∧
    projection_column_table t = [] ∧ index_backtrace_table t = [] ∧
    transmission_backtrace_table t = [] ∧ indexers t = [] ∧
    get_optimal_partitioning p t = Ok (replicate (length reads) 0) ∧
    ∀ out tv t1 out1 tv1,
      get_super_reads p t out tv = Ok (t1, out1, tv1) → tv1 = [].
Proof.
  intros Hcols Hsources Hlong.
  assert (∀ t : PedigreeDPTable,
            index_backtrace_table t = [] →
            ∀ out tv t1 out1 tv1,
              get_super_reads p t out tv = Ok (t1, out1, tv1) → tv1 = []) as Hsuper.
  { intros t Hempty out tv t1 out1 tv1. unfold get_super_reads. intros Hg.
    apply bind_Ok in Hg as (? & _ & Hg).
    apply bind_Ok in Hg as (sr & _ & Hg).
    apply bind_Ok in Hg as ([[t2 sr'] tv2] & Hloop & Hg).
    apply bind_Ok in Hg as (out' & _ & Hg). injection Hg as _ _ <-.
    simpl in Hloop. rewrite Hempty in Hloop.
    rewrite bool_decide_eq_true_2 in Hloop by done.
    apply bind_Ok in Hloop as (? & _ & Hloop). by injection Hloop as _ _ <-. }
  unfold PedigreeDPTable_new. cbn [snd]. rewrite Hsources. cbn [mbind result_bind].
  destruct precomputed as [partitioning|].
  - unfold assign_reads.
    destruct (assign_reads_upto (reassignReadIds reads) partitioning
                (length (reassignReadIds reads)) (reassignReadIds_keys reads))
      as (m & -> & _); [done|rewrite reassignReadIds_length; by apply Hlong|].
    cbn [mbind result_bind]. unfold set_index_path, clear_table, get_column_count.
    simpl. rewrite Hcols. simpl. eexists. split; [done|]. simpl.
    repeat (split; [done|]). split.
    + unfold get_optimal_partitioning. simpl. by rewrite reassignReadIds_length.
    + by apply Hsuper.
  - unfold compute_table, clear_table, get_column_count. simpl. rewrite Hcols. simpl.
    eexists. split; [done|]. simpl. repeat (split; [done|]). split.
    + unfold get_optimal_partitioning. simpl. by rewrite reassignReadIds_length.
    + by apply Hsuper.
Qed.

(** ** Reading and writing a table *)

Lemma Vector2D_at_Ok (t : Vector2D) (a b x : N) :
  Vector2D_at t a b = Ok x ↔
  ∃ row, cells t !! N.to_nat a = Some row ∧ row !! N.to_nat b = Some x.
Proof.
  unfold Vector2D_at. rewrite require_Ok.
  destruct (cells t !! N.to_nat a) as [row|]; simpl; split.
  - intros Hx. eauto.
  - by intros (row' & [= <-] & Hx).
  - done.
  - by intros (row' & ? & _).
Qed.

Lemma Vector2D_at_shape (rows columns : N) (t : Vector2D) (a b : N) :
  table_shape rows columns t → a < rows → b < columns →
  ∃ x, Vector2D_at t a b = Ok x.
Proof.
  intros (Hrows & Hcols) Ha Hb.
  destruct (lookup_lt_is_Some_2 (cells t) (N.to_nat a)) as [row Hrow]; [lia|].
  rewrite Forall_lookup in Hcols. specialize (Hcols _ _ Hrow).
  destruct (lookup_lt_is_Some_2 row (N.to_nat b)) as [x Hx]; [lia|].
  exists x. apply Vector2D_at_Ok. eauto.
Qed.

Lemma Vector2D_new_shape (rows columns x : N) :
  table_shape rows columns (Vector2D_new rows columns x).
Proof.
  unfold table_shape, Vector2D_new. simpl. split; [by rewrite length_replicate|].
  apply Forall_replicate. by rewrite length_replicate.
Qed.

Lemma Vector2D_new_at (rows columns x a b : N) :
  a < rows → b < columns → Vector2D_at (Vector2D_new rows columns x) a b = Ok x.
Proof.
  intros Ha Hb. apply Vector2D_at_Ok. exists (replicate (N.to_nat columns) x). simpl.
  split; apply lookup_replicate_2; lia.
Qed.

(** Writing a cell changes this cell and no other, and keeps the shape. *)
Lemma Vector2D_set_spec (t t' : Vector2D) (a b x : N) :
  Vector2D_set t a b x = Ok t' →
  Vector2D_at t' a b = Ok x ∧
  (∀ a' b', (a', b') ≠ (a, b) → Vector2D_at t' a' b' = Vector2D_at t a' b') ∧
  (∀ rows columns, table_shape rows columns t → table_shape rows columns t').
Proof.
  unfold Vector2D_set. intros Hs.
  apply bind_Ok in Hs as (row & Hrow & Hs). apply require_Ok in Hrow.
  apply bind_Ok in Hs as (old & Hold & Hs). apply require_Ok in Hold.
  injection Hs as <-.
  apply lookup_lt_Some in Hrow as Ha. apply lookup_lt_Some in Hold as Hb.
  split; [|split].
  - apply Vector2D_at_Ok. simpl. eexists.
    split; [by apply list_lookup_insert_eq|by apply list_lookup_insert_eq].
  - intros a' b' Hne. unfold Vector2D_at. simpl. f_equal.
    destruct (decide (N.to_nat a' = N.to_nat a)) as [Heq|Hna].
    + rewrite Heq, list_lookup_insert_eq, Hrow by done. simpl.
      apply list_lookup_insert_ne. intros Hb'. apply Hne. f_equal; lia.
    + by rewrite list_lookup_insert_ne.
  - intros rows columns (Hrows & Hcols). split; simpl.
    + by rewrite length_insert.
    + apply Forall_insert; [done|]. rewrite length_insert.
      rewrite Forall_lookup in Hcols. by apply (Hcols _ _ Hrow).
Qed.

(** ** The DP column of a step *)

(** The loop over the patterns (lines 368-404) fills the row of the DP column
    and [min_recomb_index]. *)
Lemma relax_pattern_fold_cells (p : Params) (c : nat) (prev : option Vector2D)
    (bpi ci : N) (ccs : list CC) (n : nat) :
  let T := transmission_configurations (pedigree p) in
  (N.of_nat n ≤ T) →
  ∀ dp0 mri0 found0 dp mri found,
    length mri0 = N.to_nat T →
    foldlM (relax_pattern p c prev bpi ci ccs) (dp0, mri0, found0) (N_range (N.of_nat n))
      = Ok (dp, mri, found) →
    length mri = N.to_nat T ∧
    (∀ rows columns, table_shape rows columns dp0 → table_shape rows columns dp) ∧
    ∀ i, i < N.of_nat n →
      ∃ cc m mi, ccs !! N.to_nat i = Some cc ∧
        foldlM (relax_predecessor (recombcost p) c prev bpi (get_cost cc) i)
          (UINT_MAX, 0) (N_range T) = Ok (m, mi) ∧
        Vector2D_at dp ci i = Ok m ∧ mri !! N.to_nat i = Some mi.
Proof.
  intros T. induction n as [|n IH]; intros Hn dp0 mri0 found0 dp mri found Hlen.
  - change (N_range (N.of_nat 0)) with (@nil N). simpl. intros [= <- <- <-].
    split; [done|]. split; [done|]. intros i Hi. lia.
  - rewrite N_range_S, foldlM_snoc. intros Hf.
    apply bind_Ok in Hf as ([[dp1 mri1] found1] & Hf & Hs).
    destruct (IH ltac:(lia) _ _ _ _ _ _ Hlen Hf) as (Hlen1 & Hshape1 & Hcells1).
    unfold relax_pattern in Hs.
    apply bind_Ok in Hs as (cc & Hcc & Hs). apply require_Ok in Hcc.
    apply bind_Ok in Hs as ([m mi] & Hmin & Hs).
    apply bind_Ok in Hs as (dp2 & Hset & Hs). injection Hs as <- <- <-.
    apply Vector2D_set_spec in Hset as (Hat & Hother & Hshape2).
    split; [by rewrite length_insert|]. split; [by eauto|].
    intros i Hi. destruct (decide (i = N.of_nat n)) as [->|Hne].
    + exists cc, m, mi. split; [done|]. split; [done|]. split; [done|].
      rewrite Nat2N.id. apply list_lookup_insert_eq. lia.
    + destruct (Hcells1 i ltac:(lia)) as (cc' & m' & mi' & Hcc' & Hmin' & Hat' & Hmri').
      exists cc', m', mi'. split; [done|]. split; [done|]. split.
      * rewrite Hother; [done|]. intros [= ?]. done.
      * rewrite list_lookup_insert_ne; [done|]. lia.
Qed.

Lemma Vector2D_at_bounds (rows columns : N) (t : Vector2D) (a b x : N) :
  table_shape rows columns t → Vector2D_at t a b = Ok x → a < rows ∧ b < columns.
Proof.
  intros (Hrows & Hcols) Hat. apply Vector2D_at_Ok in Hat as (row & Hrow & Hx).
  rewrite Forall_lookup in Hcols. specialize (Hcols _ _ Hrow).
  apply lookup_lt_Some in Hrow, Hx. lia.
Qed.

Lemma table_cell_shape (rows columns : N) (tb : ColumnTables) (f i : N) :
  tables_shape rows columns tb → f < rows → i < columns →
  ∃ x a b, table_cell tb f i = Ok (x, a, b).
Proof.
  intros (Hp & Hi & Ht) Hf Hc. unfold table_cell.
  destruct (Vector2D_at_shape _ _ _ f i Hp Hf Hc) as [x ->].
  destruct (Vector2D_at_shape _ _ _ f i Hi Hf Hc) as [a ->].
  destruct (Vector2D_at_shape _ _ _ f i Ht Hf Hc) as [b ->].
  simpl. eauto.
Qed.

Lemma table_cell_Ok (tb : ColumnTables) (f i x a b : N) :
  table_cell tb f i = Ok (x, a, b) ↔
  Vector2D_at (projection_column tb) f i = Ok x ∧
  Vector2D_at (index_backtrace_column tb) f i = Ok a ∧
  Vector2D_at (transmission_backtrace_column tb) f i = Ok b.
Proof.
  unfold table_cell. split.
  - intros Hc. apply bind_Ok in Hc as (x' & Hx & Hc).
    apply bind_Ok in Hc as (a' & Ha & Hc). apply bind_Ok in Hc as (b' & Hb & Hc).
    by injection Hc as -> -> ->.
  - by intros (-> & -> & ->).
Qed.

(** The loop of lines 423-429 takes the cell [(forward_index, i)] down to the
    DP value of the step when that is less, with the index of the step and
    its best predecessor, and leaves every other cell as it is. *)
Lemma relax_projection_fold (dp : Vector2D) (ci fi idx : N) (mri : list N)
    (rows columns : N) (n : nat) :
  ∀ tb0 tb,
    tables_shape rows columns tb0 →
    foldlM (relax_projection dp ci fi idx mri) tb0 (N_range (N.of_nat n)) = Ok tb →
    tables_shape rows columns tb ∧
    (∀ f i, f ≠ fi ∨ N.of_nat n ≤ i → table_cell tb f i = table_cell tb0 f i) ∧
    ∀ i, i < N.of_nat n →
      ∃ d x0 a0 b0, Vector2D_at dp ci i = Ok d ∧
        table_cell tb0 fi i = Ok (x0, a0, b0) ∧
        if d <? x0
        then ∃ mi, mri !! N.to_nat i = Some mi ∧ table_cell tb fi i = Ok (d, idx, mi)
        else table_cell tb fi i = Ok (x0, a0, b0).
Proof.
  induction n as [|n IH]; intros tb0 tb Hshape.
  - change (N_range (N.of_nat 0)) with (@nil N). simpl. intros [= <-].
    split; [done|]. split; [done|]. intros i Hi. lia.
  - rewrite N_range_S, foldlM_snoc. intros Hf.
    apply bind_Ok in Hf as (tb1 & Hf & Hs).
    destruct (IH _ _ Hshape Hf) as (Hshape1 & Hother1 & Hcells1).
    unfold relax_projection in Hs.
    apply bind_Ok in Hs as (d & Hd & Hs). apply bind_Ok in Hs as (slot & Hslot & Hs).
    pose proof Hshape1 as (Hsp & Hsi & Hst).
    destruct (Vector2D_at_bounds _ _ _ _ _ _ Hsp Hslot) as (Hfi & Hn).
    destruct (table_cell_shape _ _ tb1 fi (N.of_nat n) Hshape1 Hfi Hn) as (x1 & a1 & b1 & Hc1).
    pose proof Hc1 as Hc1'. apply table_cell_Ok in Hc1' as (Hx1 & Ha1 & Hb1).
    rewrite Hslot in Hx1. injection Hx1 as <-.
    assert (table_cell tb0 fi (N.of_nat n) = Ok (slot, a1, b1)) as Hc0
      by (rewrite <- Hother1; [done|right; lia]).
    destruct (d <? slot) eqn:Hlt.
    + apply bind_Ok in Hs as (proj & Hproj & Hs).
      apply bind_Ok in Hs as (ibt & Hibt & Hs).
      apply bind_Ok in Hs as (mi & Hmi & Hs). apply require_Ok in Hmi.
      apply bind_Ok in Hs as (tbt & Htbt & Hs). injection Hs as <-.
      apply Vector2D_set_spec in Hproj as (Hp1 & Hp2 & Hp3).
      apply Vector2D_set_spec in Hibt as (Hi1 & Hi2 & Hi3).
      apply Vector2D_set_spec in Htbt as (Ht1 & Ht2 & Ht3).
      assert (∀ f i, (f, i) ≠ (fi, N.of_nat n) →
                table_cell {| projection_column := proj; index_backtrace_column := ibt;
                              transmission_backtrace_column := tbt |} f i
                = table_cell tb1 f i) as Hsame.
      { intros f i Hne. unfold table_cell. simpl. by rewrite Hp2, Hi2, Ht2. }
      split; [split; [|split]; simpl; eauto|]. split.
      * intros f i Hfi'. rewrite Hsame.
        -- apply Hother1. destruct Hfi' as [?|?]; [by left|right; lia].
        -- intros [= -> ->]. destruct Hfi' as [?|?]; [done|lia].
      * intros i Hi. destruct (decide (i = N.of_nat n)) as [->|Hne].
        -- exists d, slot, a1, b1. split; [done|]. split; [done|]. rewrite Hlt.
           exists mi. split; [done|]. apply table_cell_Ok. done.
        -- destruct (Hcells1 i ltac:(lia)) as (d' & x0 & a0 & b0 & Hd' & Hc0' & Hres).
           exists d', x0, a0, b0. split; [done|]. split; [done|].
           rewrite Hsame by (intros [= ?]; done). done.
    + injection Hs as <-. split; [done|]. split.
      * intros f i Hfi'. apply Hother1. destruct Hfi' as [?|?]; [by left|right; lia].
      * intros i Hi. destruct (decide (i = N.of_nat n)) as [->|Hne].
        -- exists d, slot, a1, b1. split; [done|]. split; [done|]. by rewrite Hlt.
        -- apply Hcells1. lia.
Qed.

(** What a step of the iterator does to the tables of a column that is not
    the last one. *)
Lemma process_step_projection (p : Params) (c : nat) (prev : option Vector2D)
    (ccs : list CC) (dp : Vector2D) (tb0 : ColumnTables) (o : Optimum)
    (s : IteratorStep) (rows : N) r :
  let T := transmission_configurations (pedigree p) in
  tables_shape rows T tb0 →
  process_step p c prev (ccs, dp, Some tb0, o) s = Ok r →
  ∃ dp1 tb1, r = (advance_cost_computers s ccs, dp1, Some tb1, o) ∧
    tables_shape rows T tb1 ∧
    (∀ f i, f ≠ get_forward_projection s → table_cell tb1 f i = table_cell tb0 f i) ∧
    ∀ i, i < T →
      ∃ cost m mi x0 a0 b0,
        (get_cost <$> advance_cost_computers s ccs) !! N.to_nat i = Some cost ∧
        best_predecessor p c prev s cost i = Ok (m, mi) ∧
        table_cell tb0 (get_forward_projection s) i = Ok (x0, a0, b0) ∧
        table_cell tb1 (get_forward_projection s) i
          = Ok (if m <? x0 then (m, get_index s, mi) else (x0, a0, b0)).
Proof.
  intros T Hshape. unfold process_step. fold T. intros Hs.
  apply bind_Ok in Hs as ([[dp1 mri] found] & Hrow & Hs).
  destruct found; [|done]. cbn [negb] in Hs.
  apply bind_Ok in Hs as (tb1 & Hproj & Hs). injection Hs as <-.
  rewrite <- (N2Nat.id T) in Hrow, Hproj.
  apply relax_pattern_fold_cells in Hrow as (_ & _ & Hcells);
    [|fold T; lia|by rewrite length_replicate, N2Nat.id].
  apply (relax_projection_fold _ _ _ _ _ rows T) in Hproj as (Hshape1 & Hother & Hnew);
    [|done].
  rewrite N2Nat.id in Hcells, Hnew.
  exists dp1, tb1. split; [done|]. split; [done|]. split.
  - intros f i Hf. apply Hother. by left.
  - intros i Hi.
    destruct (Hcells i Hi) as (cc & m & mi & Hcc & Hmin & Hat & Hmri).
    destruct (Hnew i Hi) as (d & x0 & a0 & b0 & Hd & Hc0 & Hres).
    rewrite Hat in Hd. injection Hd as <-.
    exists (get_cost cc), m, mi, x0, a0, b0.
    split; [by rewrite list_lookup_fmap, Hcc|]. split; [done|]. split; [done|].
    destruct (m <? x0); [|done].
    destruct Hres as (mi' & Hmi' & Hres). rewrite Hmri in Hmi'. by injection Hmi' as <-.
Qed.

Lemma dp_cell_0 (p : Params) (c : nat) (prev : option Vector2D) (ccs : list CC)
    (s : IteratorStep) (steps : list IteratorStep) (i cost : N) :
  (get_cost <$> advance_cost_computers s ccs) !! N.to_nat i = Some cost →
  dp_cell p c prev ccs (s :: steps) 0 i
    = match best_predecessor p c prev s cost i with
      | Ok r => Some r
      | Err _ => None
      end.
Proof. intros Hcost. unfold dp_cell. simpl. by rewrite Hcost. Qed.

Lemma dp_cell_S (p : Params) (c : nat) (prev : option Vector2D) (ccs : list CC)
    (s : IteratorStep) (steps : list IteratorStep) (k : nat) (i : N) :
  dp_cell p c prev ccs (s :: steps) (S k) i
    = dp_cell p c prev (advance_cost_computers s ccs) steps k i.
Proof. done. Qed.

(** The walk of a column that is not the last one: every cell of the
    projection column goes down to the least DP value of the steps that
    project to it, and the backtrace cells follow the first step that attains
    it. *)
Lemma walk_projection (p : Params) (c : nat) (prev : option Vector2D) (rows : N)
    (steps : list IteratorStep) :
  let T := transmission_configurations (pedigree p) in
  ∀ (ccs : list CC) dp tb0 o r,
    tables_shape rows T tb0 →
    foldlM (process_step p c prev) (ccs, dp, Some tb0, o) steps = Ok r →
    ∃ ccs' dp' tb, r = (ccs', dp', Some tb, o) ∧ tables_shape rows T tb ∧
      ∀ f i x0 a0 b0, i < T → table_cell tb0 f i = Ok (x0, a0, b0) →
        ∃ x a b, table_cell tb f i = Ok (x, a, b) ∧ x ≤ x0 ∧
          (∀ k s m mi, steps !! k = Some s → get_forward_projection s = f →
             dp_cell p c prev ccs steps k i = Some (m, mi) → x ≤ m) ∧
          (x < x0 →
             ∃ k s mi, steps !! k = Some s ∧ get_forward_projection s = f ∧
               dp_cell p c prev ccs steps k i = Some (x, mi) ∧
               a = get_index s ∧ b = mi ∧
               ∀ k' s' m' mi', (k' < k)%nat → steps !! k' = Some s' →
                 get_forward_projection s' = f →
                 dp_cell p c prev ccs steps k' i = Some (m', mi') → x < m') ∧
          (x = x0 → a = a0 ∧ b = b0).
Proof.
  intros T. induction steps as [|s steps IH]; intros ccs dp tb0 o r Hshape.
  - simpl. intros [= <-]. exists ccs, dp, tb0. split; [done|]. split; [done|].
    intros f i x0 a0 b0 Hi Hc0. exists x0, a0, b0. split; [done|]. split; [lia|].
    split; [done|]. split; [lia|done].
  - cbn [foldlM]. intros Hf. apply bind_Ok in Hf as (r1 & Hs & Hf).
    apply (process_step_projection p c prev ccs dp tb0 o s rows) in Hs
      as (dp1 & tb1 & -> & Hshape1 & Hother & Hnew); [|done].
    apply IH in Hf as (ccs' & dp' & tb & -> & Hshape' & Hrest); [|done].
    exists ccs', dp', tb. split; [done|]. split; [done|].
    intros f i x0 a0 b0 Hi Hc0.
    destruct (decide (get_forward_projection s = f)) as [Hf|Hf].
    + (* the step projects to this cell *)
      destruct (Hnew i Hi) as (cost & m & mi & x0' & a0' & b0' & Hcost & Hbest & Hc0' & Hc1).
      rewrite Hf, Hc0 in Hc0'. injection Hc0' as <- <- <-. rewrite Hf in Hc1.
      pose proof (dp_cell_0 p c prev ccs s steps i cost Hcost) as Hcell0.
      rewrite Hbest in Hcell0.
      destruct (m <? x0) eqn:Hlt.
      * apply N.ltb_lt in Hlt.
        destruct (Hrest f i _ _ _ Hi Hc1) as (x & a & b & Hc & Hle & Hall & Hless & Hsame).
        exists x, a, b. split; [done|]. split; [lia|]. split; [|split].
        -- intros [|k] s' m' mi' Hk Hfp Hcell.
           ++ rewrite Hcell0 in Hcell. injection Hcell as <- <-. done.
           ++ rewrite dp_cell_S in Hcell. by apply (Hall k s' m' mi').
        -- intros _. destruct (decide (x < m)) as [Hxm|Hxm].
           ++ destruct (Hless Hxm) as (k & s' & mi' & Hk & Hfp & Hcell & -> & -> & Hfirst).
              exists (S k), s', mi'. repeat (split; [done|]).
              intros [|k'] s'' m'' mi'' Hk' Hs'' Hfp'' Hcell''.
              ** rewrite Hcell0 in Hcell''. by injection Hcell'' as <- <-.
              ** rewrite dp_cell_S in Hcell''. apply (Hfirst k' s'' m'' mi''); [lia|done..].
           ++ assert (x = m) as -> by lia. destruct (Hsame eq_refl) as (-> & ->).
              exists 0%nat, s, mi. repeat (split; [done|]).
              intros k' s'' m'' mi'' Hk'. lia.
        -- intros ->. lia.
      * apply N.ltb_ge in Hlt.
        destruct (Hrest f i _ _ _ Hi Hc1) as (x & a & b & Hc & Hle & Hall & Hless & Hsame).
        exists x, a, b. split; [done|]. split; [done|]. split; [|split; [|done]].
        -- intros [|k] s' m' mi' Hk Hfp Hcell.
           ++ rewrite Hcell0 in Hcell. injection Hcell as <- <-. lia.
           ++ rewrite dp_cell_S in Hcell. by apply (Hall k s' m' mi').
        -- intros Hx. destruct (Hless Hx) as (k & s' & mi' & Hk & Hfp & Hcell & -> & -> & Hfirst).
           exists (S k), s', mi'. repeat (split; [done|]).
           intros [|k'] s'' m'' mi'' Hk' Hs'' Hfp'' Hcell''.
           ++ rewrite Hcell0 in Hcell''. injection Hcell'' as <- <-. lia.
           ++ rewrite dp_cell_S in Hcell''. apply (Hfirst k' s'' m'' mi''); [lia|done..].
    + (* the step projects elsewhere *)
      rewrite <- (Hother f i) in Hc0 by done.
      destruct (Hrest f i _ _ _ Hi Hc0) as (x & a & b & Hc & Hle & Hall & Hless & Hsame).
      exists x, a, b. split; [done|]. split; [done|]. split; [|split; [|done]].
      * intros [|k] s' m' mi' Hk Hfp Hcell.
        -- simpl in Hk. injection Hk as <-. done.
        -- rewrite dp_cell_S in Hcell. by apply (Hall k s' m' mi').
      * intros Hx. destruct (Hless Hx) as (k & s' & mi' & Hk & Hfp & Hcell & -> & -> & Hfirst).
        exists (S k), s', mi'. repeat (split; [done|]).
        intros [|k'] s'' m'' mi'' Hk' Hs'' Hfp'' Hcell''.
        -- simpl in Hs''. injection Hs'' as <-. done.
        -- rewrite dp_cell_S in Hcell''. apply (Hfirst k' s'' m'' mi''); [lia|done..].
Qed.

(** X16.  The DP recurrence of a column that is not the last one.  When the
    pass over the column has ended well, the cell [(f, i)] of its projection
    column holds the least DP value, for the pattern [i], of the steps of the
    walk whose partitioning projects to [f]; if this is below the sentinel,
    the cell of the index backtrace table holds the index of the first step
    that attains it and the cell of the transmission backtrace table the best
    predecessor of that step; if no step has a DP value below the sentinel,
    the three cells hold the sentinel. *)
Theorem projection_column_is_minimum (p : Params) (sources : list N)
    (partitions : list PedigreePartitions) (n c : nat)
    (indexer : ColumnIndexingScheme) (column : Column) (prev : option Vector2D)
    (o o' : Optimum) (ccs : list CC) (tb : ColumnTables) :
  let T := transmission_configurations (pedigree p) in
  let steps := get_iterator indexer in
  make_cost_computers p sources partitions column c = Ok ccs →
  column_pass p sources partitions n c indexer column prev o = Ok (Some tb, o') →
  ∀ f i, f < forward_projection_size indexer → i < T →
    ∃ x a b, table_cell tb f i = Ok (x, a, b) ∧ x ≤ UINT_MAX ∧
      (∀ k s m mi, steps !! k = Some s → get_forward_projection s = f →
         dp_cell p c prev ccs steps k i = Some (m, mi) → x ≤ m) ∧
      (x < UINT_MAX →
         ∃ k s mi, steps !! k = Some s ∧ get_forward_projection s = f ∧
           dp_cell p c prev ccs steps k i = Some (x, mi) ∧
           a = get_index s ∧ b = mi ∧
           ∀ k' s' m' mi', (k' < k)%nat → steps !! k' = Some s' →
             get_forward_projection s' = f →
             dp_cell p c prev ccs steps k' i = Some (m', mi') → x < m') ∧
      (x = UINT_MAX → a = UINT_MAX ∧ b = UINT_MAX).
Proof.
  intros T steps Hccs. unfold column_pass. rewrite Hccs. cbn [mbind result_bind].
  fold T steps. intros Hp. apply bind_Ok in Hp as (r & Hwalk & Hp).
  destruct (decide (c + 1 < n)%nat) as [Hc|Hc].
  - apply (walk_projection p c prev (forward_projection_size indexer)) in Hwalk
      as (ccs' & dp' & tb' & -> & _ & Hcells).
    + injection Hp as <- _. intros f i Hf Hi.
      apply (Hcells f i UINT_MAX UINT_MAX UINT_MAX Hi).
      unfold table_cell. simpl. by rewrite !Vector2D_new_at.
    + split; [|split]; apply Vector2D_new_shape.
  - apply walk_last in Hwalk. destruct r as [[[? ?] tabs] ?]. simpl in Hwalk. subst tabs.
    by injection Hp.
Qed.

(** ** The optimum of the last column *)

(** The loop of lines 412-419 takes the running optimum down to the least
    cell of the row of the DP column when that is less, with the first
    pattern that attains it. *)
Lemma update_optimum_fold (dp : Vector2D) (ci : N) (s : IteratorStep) (mri : list N)
    (n : nat) :
  ∀ o0 o,
    foldlM (update_optimum dp ci s mri) o0 (N_range (N.of_nat n)) = Ok o →
    opt_score o ≤ opt_score o0 ∧
    (∀ i, i < N.of_nat n → ∃ d, Vector2D_at dp ci i = Ok d ∧ opt_score o ≤ d) ∧
    (opt_score o < opt_score o0 →
       ∃ i mi, i < N.of_nat n ∧ Vector2D_at dp ci i = Ok (opt_score o) ∧
         mri !! N.to_nat i = Some mi ∧
         o = {| opt_score := opt_score o; opt_index := get_index s;
                opt_transmission := i; opt_previous_transmission := mi |} ∧
         ∀ i' d, i' < i → Vector2D_at dp ci i' = Ok d → opt_score o < d) ∧
    (opt_score o = opt_score o0 → o = o0).
Proof.
  induction n as [|n IH]; intros o0 o.
  - change (N_range (N.of_nat 0)) with (@nil N). simpl. intros [= <-].
    split; [lia|]. split; [intros i Hi; lia|]. split; [lia|done].
  - rewrite N_range_S, foldlM_snoc. intros Hf.
    apply bind_Ok in Hf as (o1 & Hf & Hs).
    destruct (IH _ _ Hf) as (Hle & Hall & Hless & Hsame).
    unfold update_optimum in Hs. apply bind_Ok in Hs as (d & Hd & Hs).
    destruct (d <? opt_score o1) eqn:Hlt.
    + apply N.ltb_lt in Hlt.
      apply bind_Ok in Hs as (mi & Hmi & Hs). apply require_Ok in Hmi.
      injection Hs as <-. simpl.
      split; [lia|]. split; [|split].
      * intros i Hi. destruct (decide (i = N.of_nat n)) as [->|Hne].
        -- exists d. split; [done|lia].
        -- destruct (Hall i ltac:(lia)) as (d' & Hd' & Hle'). exists d'. split; [done|lia].
      * intros _. exists (N.of_nat n), mi. split; [lia|]. split; [done|].
        split; [done|]. split; [done|].
        intros i' d' Hi' Hd'. destruct (Hall i' Hi') as (d'' & Hd'' & Hle'').
        rewrite Hd' in Hd''. injection Hd'' as <-. lia.
      * intros Heq. lia.
    + apply N.ltb_ge in Hlt. injection Hs as <-.
      split; [done|]. split; [|split; [|done]].
      * intros i Hi. destruct (decide (i = N.of_nat n)) as [->|Hne].
        -- exists d. split; [done|lia].
        -- apply Hall. lia.
      * intros Hx. destruct (Hless Hx) as (i & mi & Hi & Hat & Hmi & Ho & Hfirst).
        exists i, mi. split; [lia|done].
Qed.

(** What a step of the iterator does to the running optimum in the last
    column. *)
Lemma process_step_optimum (p : Params) (c : nat) (prev : option Vector2D)
    (ccs : list CC) (dp : Vector2D) (o0 : Optimum) (s : IteratorStep) r :
  let T := transmission_configurations (pedigree p) in
  process_step p c prev (ccs, dp, None, o0) s = Ok r →
  ∃ dp1 o, r = (advance_cost_computers s ccs, dp1, None, o) ∧
    opt_score o ≤ opt_score o0 ∧
    (∀ i, i < T →
       ∃ cost m mi,
         (get_cost <$> advance_cost_computers s ccs) !! N.to_nat i = Some cost ∧
         best_predecessor p c prev s cost i = Ok (m, mi) ∧ opt_score o ≤ m) ∧
    (opt_score o < opt_score o0 →
       ∃ i cost mi, i < T ∧
         (get_cost <$> advance_cost_computers s ccs) !! N.to_nat i = Some cost ∧
         best_predecessor p c prev s cost i = Ok (opt_score o, mi) ∧
         o = {| opt_score := opt_score o; opt_index := get_index s;
                opt_transmission := i; opt_previous_transmission := mi |} ∧
         ∀ i' cost' m' mi', i' < i →
           (get_cost <$> advance_cost_computers s ccs) !! N.to_nat i' = Some cost' →
           best_predecessor p c prev s cost' i' = Ok (m', mi') → opt_score o < m') ∧
    (opt_score o = opt_score o0 → o = o0).
Proof.
  intros T. unfold process_step. fold T. intros Hs.
  apply bind_Ok in Hs as ([[dp1 mri] found] & Hrow & Hs).
  destruct found; [|done]. cbn [negb] in Hs.
  apply bind_Ok in Hs as (o & Hopt & Hs). injection Hs as <-.
  rewrite <- (N2Nat.id T) in Hrow, Hopt.
  apply relax_pattern_fold_cells in Hrow as (_ & _ & Hcells);
    [|fold T; lia|by rewrite length_replicate, N2Nat.id].
  apply update_optimum_fold in Hopt as (Hle & Hall & Hless & Hsame).
  rewrite N2Nat.id in Hcells, Hall, Hless.
  exists dp1, o. split; [done|]. split; [done|]. split; [|split; [|done]].
  - intros i Hi. destruct (Hcells i Hi) as (cc & m & mi & Hcc & Hmin & Hat & Hmri).
    destruct (Hall i Hi) as (d & Hd & Hle'). rewrite Hat in Hd. injection Hd as <-.
    exists (get_cost cc), m, mi. split; [by rewrite list_lookup_fmap, Hcc|]. done.
  - intros Hx. destruct (Hless Hx) as (i & mi & Hi & Hat & Hmi & Ho & Hfirst).
    destruct (Hcells i Hi) as (cc & m & mi' & Hcc & Hmin & Hat' & Hmri).
    rewrite Hat in Hat'. injection Hat' as <-. rewrite Hmi in Hmri. injection Hmri as <-.
    exists i, (get_cost cc), mi. split; [done|].
    split; [by rewrite list_lookup_fmap, Hcc|]. split; [done|]. split; [done|].
    intros i' cost' m' mi'' Hi' Hcost' Hbest'.
    destruct (Hcells i' ltac:(lia)) as (cc' & m2 & mi2 & Hcc' & Hmin' & Hat2 & _).
    rewrite list_lookup_fmap, Hcc' in Hcost'. injection Hcost' as <-.
    change (best_predecessor p c prev s (get_cost cc') i' = Ok (m2, mi2)) in Hmin'.
    rewrite Hmin' in Hbest'. injection Hbest' as <- <-. by apply (Hfirst i').
Qed.

(** The walk of the last column. *)
Lemma walk_optimum (p : Params) (c : nat) (prev : option Vector2D)
    (steps : list IteratorStep) :
  let T := transmission_configurations (pedigree p) in
  ∀ (ccs : list CC) dp o0 r,
    foldlM (process_step p c prev) (ccs, dp, None, o0) steps = Ok r →
    ∃ ccs' dp' o, r = (ccs', dp', None, o) ∧
      opt_score o ≤ opt_score o0 ∧
      (∀ k i m mi, i < T → dp_cell p c prev ccs steps k i = Some (m, mi) →
         opt_score o ≤ m) ∧
      (opt_score o < opt_score o0 →
         ∃ k s i mi, steps !! k = Some s ∧ i < T ∧
           dp_cell p c prev ccs steps k i = Some (opt_score o, mi) ∧
           o = {| opt_score := opt_score o; opt_index := get_index s;
                  opt_transmission := i; opt_previous_transmission := mi |} ∧
           ∀ k' i' m' mi', i' < T → (k' < k)%nat ∨ (k' = k ∧ i' < i) →
             dp_cell p c prev ccs steps k' i' = Some (m', mi') → opt_score o < m') ∧
      (opt_score o = opt_score o0 → o = o0).
Proof.
  intros T. induction steps as [|s steps IH]; intros ccs dp o0 r.
  - simpl. intros [= <-]. exists ccs, dp, o0. split; [done|]. split; [lia|].
    split; [|split; [lia|done]].
    intros k i m mi Hi Hcell. unfold dp_cell in Hcell. by rewrite lookup_nil in Hcell.
  - cbn [foldlM]. intros Hf. apply bind_Ok in Hf as (r1 & Hs & Hf).
    apply process_step_optimum in Hs as (dp1 & o1 & -> & Hle1 & Hall1 & Hless1 & Hsame1).
    apply IH in Hf as (ccs' & dp' & o & -> & Hle & Hall & Hless & Hsame).
    exists ccs', dp', o. split; [done|]. split; [lia|].
    assert (∀ i m mi, i < T → dp_cell p c prev ccs (s :: steps) 0 i = Some (m, mi) →
              ∃ cost, (get_cost <$> advance_cost_computers s ccs) !! N.to_nat i = Some cost ∧
                best_predecessor p c prev s cost i = Ok (m, mi) ∧ opt_score o1 ≤ m)
      as Hhead.
    { intros i m mi Hi Hcell.
      destruct (Hall1 i Hi) as (cost & m' & mi' & Hcost & Hbest & Hle').
      rewrite (dp_cell_0 p c prev ccs s steps i cost Hcost), Hbest in Hcell.
      injection Hcell as <- <-. eauto. }
    split; [|split].
    + intros [|k] i m mi Hi Hcell.
      * destruct (Hhead i m mi Hi Hcell) as (cost & _ & _ & Hle'). lia.
      * rewrite dp_cell_S in Hcell. by apply (Hall k i m mi).
    + intros Hx. destruct (decide (opt_score o < opt_score o1)) as [Hlt|Hge].
      * destruct (Hless Hlt) as (k & s' & i & mi & Hk & Hi & Hcell & Ho & Hfirst).
        exists (S k), s', i, mi. split; [done|]. split; [done|]. split; [done|].
        split; [done|].
        intros [|k'] i' m' mi' Hi' Hk' Hcell'.
        -- destruct (Hhead i' m' mi' Hi' Hcell') as (cost & _ & _ & Hle'). lia.
        -- rewrite dp_cell_S in Hcell'. apply (Hfirst k' i' m' mi'); [done|lia|done].
      * assert (opt_score o = opt_score o1) as Heq by lia.
        specialize (Hsame Heq). subst o1.
        destruct Hless1 as (i & cost & mi & Hi & Hcost & Hbest & Ho & Hfirst); [lia|].
        exists 0%nat, s, i, mi. split; [done|]. split; [done|].
        split; [by rewrite (dp_cell_0 p c prev ccs s steps i cost Hcost), Hbest|].
        split; [done|].
        intros k' i' m' mi' Hi' [Hk'|(-> & Hi'')] Hcell'; [lia|].
        destruct (Hhead i' m' mi' Hi' Hcell') as (cost' & Hcost' & Hbest' & _).
        by apply (Hfirst i' cost' m' mi').
    + intros Heq. assert (opt_score o1 = opt_score o0) as Heq1 by lia.
      rewrite Hsame by lia. by apply Hsame1.
Qed.

(** X17.  The optimum of the last column.  When the pass over the last
    column has ended well, the running optimum is as before if no DP value of
    the column is less than its score; otherwise its score is the least DP
    value of the column over all steps and patterns, its index is the index
    of the first step that attains it, its transmission value the first
    pattern that attains it at that step, and its previous transmission
    value the best predecessor of that cell. *)
Theorem last_column_optimum_is_minimum (p : Params) (sources : list N)
    (partitions : list PedigreePartitions) (n c : nat)
    (indexer : ColumnIndexingScheme) (column : Column) (prev : option Vector2D)
    (o0 o : Optimum) (ccs : list CC) :
  let T := transmission_configurations (pedigree p) in
  let steps := get_iterator indexer in
  make_cost_computers p sources partitions column c = Ok ccs →
  column_pass p sources partitions n c indexer column prev o0 = Ok (None, o) →
  opt_score o ≤ opt_score o0 ∧
  (∀ k i m mi, i < T → dp_cell p c prev ccs steps k i = Some (m, mi) →
     opt_score o ≤ m) ∧
  (opt_score o < opt_score o0 →
     ∃ k s i mi, steps !! k = Some s ∧ i < T ∧
       dp_cell p c prev ccs steps k i = Some (opt_score o, mi) ∧
       o = {| opt_score := opt_score o; opt_index := get_index s;
              opt_transmission := i; opt_previous_transmission := mi |} ∧
       ∀ k' i' m' mi', i' < T → (k' < k)%nat ∨ (k' = k ∧ i' < i) →
         dp_cell p c prev ccs steps k' i' = Some (m', mi') → opt_score o < m') ∧
  (opt_score o = opt_score o0 → o = o0).
Proof.
  intros T steps Hccs. unfold column_pass. rewrite Hccs. cbn [mbind result_bind].
  fold T steps. intros Hp. apply bind_Ok in Hp as (r & Hwalk & Hp).
  destruct (decide (c + 1 < n)%nat) as [Hc|Hc].
  - apply walk_tables in Hwalk as (ccs' & dp' & tb' & -> & _). by injection Hp.
  - apply walk_optimum in Hwalk as (ccs' & dp' & o1 & -> & Hres).
    by injection Hp as <-.
Qed.

(** The columns before the last one leave the running optimum as it is. *)
Lemma forward_upto_optimum (p : Params) (t0 : PedigreeDPTable) (k : nat)
    (fs0 : ForwardState) (m : nat) :
  forward_inv p t0 k 0 fs0 →
  (m < length (it_columns (input_column_iterator t0)))%nat →
  ∀ fs, forward_upto p k fs0 m = Ok fs →
        optimum_of (fw_table fs) = optimum_of (fw_table fs0).
Proof.
  intros Hinv0. induction m as [|m IH]; intros Hm fs.
  - unfold forward_upto. simpl. by intros [= <-].
  - unfold forward_upto. rewrite seq_S, foldlM_snoc. simpl. intros Hf.
    apply bind_Ok in Hf as (fs1 & Hf & Hs).
    pose proof (forward_upto_spec p t0 k fs0 m Hinv0 ltac:(lia)) as Hspec.
    unfold forward_upto in Hspec. rewrite Hf in Hspec. destruct Hspec as (Hinv & _).
    destruct (forward_step_spec p t0 k m fs1 Hinv ltac:(lia)) as [_ Hok].
    destruct (Hok _ Hs) as (tabs & o & Hpass & Hopt & _).
    apply reference_pass_tables in Hpass as (tb & _ & -> & _); [|lia].
    rewrite Hopt. by apply IH; [lia|].
Qed.

(** X18.  The optimal score is the least value of the last DP column.  When
    [compute_table] has ended well on [n > 0] columns, the optimal score is
    at most every DP value of the last column, computed from the projection
    column of column [n-2] (from nothing when there is one column); if it is
    below the sentinel, it is the DP value of a step and a pattern of the
    last column, the first such in the order of the walk, and the last entry
    of the index path holds the index of this step and this pattern;
    otherwise it is the sentinel and the last entry of the index path is
    (0, 0). *)
Theorem optimal_score_is_minimum (p : Params) (t t' : PedigreeDPTable) :
  let t0 := clear_table t in
  let cols := it_columns (input_column_iterator t) in
  let n := length cols in
  let T := transmission_configurations (pedigree p) in
  (0 < n)%nat →
  compute_table p t = Ok t' →
  ∃ column indexer ccs prev,
    cols !! (n - 1)%nat = Some column ∧
    scheme_of_column (ploidy p) cols (n - 1) = Some indexer ∧
    make_cost_computers p (read_sources t) (pedigree_partitions t) column (n - 1)
      = Ok ccs ∧
    (n = 1%nat → prev = None) ∧
    ((1 < n)%nat →
       ∃ tb, reference_tables p t0 (n - 2) = Some tb ∧ prev = Some (projection_column tb)) ∧
    let steps := get_iterator indexer in
    (∀ k i m mi, i < T → dp_cell p (n - 1) prev ccs steps k i = Some (m, mi) →
       get_optimal_score t' ≤ m) ∧
    (get_optimal_score t' < UINT_MAX →
       ∃ k s i mi, steps !! k = Some s ∧ i < T ∧
         dp_cell p (n - 1) prev ccs steps k i = Some (get_optimal_score t', mi) ∧
         index_path t' !! (n - 1)%nat
           = Some {| index := get_index s; inheritance_value := i |} ∧
         ∀ k' i' m' mi', i' < T → (k' < k)%nat ∨ (k' = k ∧ i' < i) →
           dp_cell p (n - 1) prev ccs steps k' i' = Some (m', mi') →
           get_optimal_score t' < m') ∧
    (¬ get_optimal_score t' < UINT_MAX →
       get_optimal_score t' = UINT_MAX ∧
       index_path t' !! (n - 1)%nat = Some {| index := 0; inheritance_value := 0 |}).
Proof.
  intros t0 cols n T Hn. unfold compute_table.
  change (get_column_count (input_column_iterator (clear_table t))) with n.
  rewrite bool_decide_eq_false_2 by (clearbody n; lia).
  intros Hc. apply bind_Ok in Hc as (fs & Hsweep & Hc).
  apply bind_Ok in Hc as (bs & Hloop & Hc). injection Hc as <-.
  destruct (forward_sweep_Ok p t fs Hsweep)
    as (fs0 & Hstart & Hupto & Hinv0 & Hinv & _ & _ & _).
  fold t0 in Hstart, Hupto, Hinv0, Hinv.
  change (length (it_columns (input_column_iterator t0))) with n in Hupto, Hinv0, Hinv.
  set (k := checkpoint_stride n) in Hupto, Hinv0, Hinv.
  (* the backward sweep *)
  destruct Hinv as (Hframe & _ & _ & _ & Hlen & _).
  change (length (it_columns (input_column_iterator t0))) with n in Hlen.
  assert (get_column_count (input_column_iterator (fw_table fs)) = n) as Hcount.
  { destruct Hframe as (_ & _ & _ & Hcols & _). unfold get_column_count. by rewrite Hcols. }
  rewrite Hlen in Hloop.
  apply backtrace_loop_same_optimum in Hloop as ((_ & Hopt & _) & _ & Hkeep);
    [|simpl; rewrite Hcount; clearbody n; lia].
  simpl in Hopt, Hkeep.
  assert (index_path (bt_table bs) !! (n - 1)%nat
          = Some {| index := optimal_score_index (fw_table fs);
                    inheritance_value := optimal_transmission_value (fw_table fs) |})
    as Hlast.
  { rewrite Hkeep by lia. rewrite Hlen.
    apply list_lookup_insert_eq. rewrite length_replicate. clearbody n. lia. }
  unfold get_optimal_score.
  assert (optimal_score (bt_table bs) = opt_score (optimum_of (fw_table fs))) as ->.
  { change (opt_score (optimum_of (bt_table bs)) = opt_score (optimum_of (fw_table fs))).
    f_equal. exact Hopt. }
  clear Hopt Hkeep.
  (* the last round of the forward sweep *)
  unfold forward_upto in Hupto.
  assert (seq 0 n = seq 0 (n - 1) ++ [(n - 1)%nat]) as Hseq.
  { change [(n - 1)%nat] with [(0 + (n - 1))%nat]. rewrite <- (seq_S (n - 1) 0).
    f_equal. clearbody n. lia. }
  rewrite Hseq, foldlM_snoc in Hupto.
  apply bind_Ok in Hupto as (fs1 & Hupto & Hstep).
  pose proof (forward_upto_optimum p t0 k fs0 (n - 1) Hinv0
                ltac:(change (length (it_columns (input_column_iterator t0))) with n;
                      clearbody n; lia) fs1 Hupto) as Hopt1.
  assert (optimum_of (fw_table fs0) = no_optimum) as Hopt0.
  { unfold forward_start in Hstart. apply bind_Ok in Hstart as ([col it] & _ & Hstart).
    by injection Hstart as <-. }
  rewrite Hopt0 in Hopt1.
  pose proof (forward_upto_spec p t0 k fs0 (n - 1) Hinv0
                ltac:(change (length (it_columns (input_column_iterator t0))) with n;
                      clearbody n; lia)) as Hspec.
  unfold forward_upto in Hspec. rewrite Hupto in Hspec. destruct Hspec as (Hinv1 & _).
  destruct (forward_step_spec p t0 k (n - 1) fs1 Hinv1
              ltac:(change (length (it_columns (input_column_iterator t0))) with n;
                    clearbody n; lia)) as [_ Hok].
  destruct (Hok _ Hstep) as (tabs & o & Hpass & Ho & _). rewrite Hopt1 in Hpass.
  rewrite Ho.
  assert (optimal_score_index (fw_table fs) = opt_index o ∧
          optimal_transmission_value (fw_table fs) = opt_transmission o) as (Hi1 & Hi2)
    by (by rewrite <- Ho).
  rewrite Hi1, Hi2 in Hlast. clear Ho Hi1 Hi2.
  (* the pass over the last column *)
  unfold reference_pass in Hpass.
  change (it_columns (input_column_iterator t0)) with cols in Hpass.
  apply bind_Ok in Hpass as (column & Hcol & Hpass). apply require_Ok in Hcol.
  apply bind_Ok in Hpass as (indexer & Hix & Hpass). apply require_Ok in Hix.
  apply bind_Ok in Hpass as (prev & Hprev & Hpass).
  unfold column_pass in Hpass.
  destruct (make_cost_computers p (read_sources t0) (pedigree_partitions t0) column (n - 1))
    as [ccs|] eqn:Hccs; [|done].
  cbn [mbind result_bind] in Hpass.
  apply bind_Ok in Hpass as (r & Hwalk & Hpass).
  rewrite decide_False in Hwalk by (fold n; clearbody n; lia).
  apply walk_optimum in Hwalk as (ccs' & dp' & o1 & -> & Hle & Hall & Hless & Hsame).
  injection Hpass as _ <-.
  exists column, indexer, ccs, prev.
  split; [done|]. split; [done|]. split; [done|]. split; [|split].
  - intros Hn1. rewrite Hn1 in Hprev. simpl in Hprev. by injection Hprev as <-.
  - intros Hn1. destruct (n - 1)%nat as [|c'] eqn:Hc'; [clearbody n; lia|].
    apply bind_Ok in Hprev as (tb & Htb & Hprev). apply require_Ok in Htb.
    injection Hprev as <-. exists tb.
    replace (n - 2)%nat with c' by (clearbody n; lia). done.
  - fold T in Hall, Hless. simpl in Hle, Hless, Hsame. split; [done|]. split.
    + intros Hx. destruct (Hless Hx) as (k0 & s & i & mi & Hk & Hi & Hcell & Ho & Hfirst).
      exists k0, s, i, mi. repeat (split; [done|]). split; [|done].
      rewrite Hlast, Ho. done.
    + intros Hx. assert (opt_score o1 = UINT_MAX) as Heq by lia.
      split; [done|]. rewrite Hlast, (Hsame Heq). done.
Qed.

(** ** What a construction that ended well has read *)

Lemma transmission_configurations_pos (ped : Pedigree) :
  0 < transmission_configurations ped.
Proof.
  unfold transmission_configurations.
  pose proof (N.pow_nonzero 4 (N.of_nat (triple_count ped))). lia.
Qed.

Lemma make_cost_computers_allele_count (p : Params) (sources : list N)
    (partitions : list PedigreePartitions) (column : Column) (c : nat) (ccs : list CC) :
  make_cost_computers p sources partitions column c = Ok ccs →
  is_Some (allele_counts p !! c).
Proof.
  unfold make_cost_computers.
  pose proof (transmission_configurations_pos (pedigree p)) as HT.
  destruct (N.to_nat (transmission_configurations (pedigree p))) as [|n] eqn:Hn; [lia|].
  unfold N_range. rewrite Hn. cbn [seq fmap list_fmap foldlM]. intros Hf.
  apply bind_Ok in Hf as (ccs1 & Hs & _).
  apply bind_Ok in Hs as (pp & _ & Hs). apply bind_Ok in Hs as (ac & Hac & _).
  apply require_Ok in Hac. eauto.
Qed.

Lemma reference_pass_allele_count (p : Params) (t : PedigreeDPTable) (c : nat)
    (o : Optimum) r :
  reference_pass p t c o = Ok r → is_Some (allele_counts p !! c).
Proof.
  unfold reference_pass. intros Hp.
  apply bind_Ok in Hp as (column & _ & Hp). apply bind_Ok in Hp as (indexer & _ & Hp).
  apply bind_Ok in Hp as (prev & _ & Hp). unfold column_pass in Hp.
  apply bind_Ok in Hp as (ccs & Hccs & _).
  by eapply make_cost_computers_allele_count.
Qed.

(** X19.  A construction that ends well, on either path, has found an entry
    of [allele_counts] for every column: with fewer allele counts than
    columns the construction fails. *)
Theorem construction_needs_allele_counts (reads : ReadSet) (p : Params)
    (positions precomputed : option (list N)) (t : PedigreeDPTable) :
  (PedigreeDPTable_new reads p positions precomputed).2 = Ok t →
  (length (read_columns (reassignReadIds reads) positions)
     ≤ length (allele_counts p))%nat.
Proof.
  intros Hnew. simpl in Hnew. apply bind_Ok in Hnew as (sources & _ & Hnew).
  set (cols := read_columns (reassignReadIds reads) positions) in *.
  assert (∀ c, (c < length cols)%nat → is_Some (allele_counts p !! c)) as Hall.
  { destruct precomputed as [partitioning|].
    - apply bind_Ok in Hnew as (m & Hm & Hset).
      apply assign_reads_spec in Hm.
      apply (set_index_path_outcome p _ t (length reads) partitioning) in Hset
        as (_ & _ & (costs & _ & Hcc & _) & _); [|done].
      simpl in Hcc. fold cols in Hcc. intros c Hc.
      destruct (lookup_lt_is_Some_2 cols c Hc) as [column Hcolumn].
      destruct (Hcc c column Hcolumn) as (cc & Hcc' & _).
      unfold path_cost_computer in Hcc'.
      apply bind_Ok in Hcc' as (pp & _ & Hcc'). apply bind_Ok in Hcc' as (ac & Hac & _).
      apply require_Ok in Hac. eauto.
    - unfold compute_table in Hnew.
      set (t0 := clear_table (initial_table (reassignReadIds reads) p positions sources))
        in Hnew.
      assert (it_columns (input_column_iterator t0) = cols) as Hcols by done.
      unfold get_column_count in Hnew. rewrite Hcols in Hnew.
      destruct (bool_decide _) eqn:Hn.
      + apply bool_decide_eq_true in Hn. intros c Hc. lia.
      + apply bind_Ok in Hnew as (fs & Hsweep & _).
        unfold forward_sweep in Hsweep. apply bind_Ok in Hsweep as (fs0 & Hstart & Hupto).
        unfold get_column_count in Hupto. rewrite Hcols in Hupto.
        pose proof (forward_start_inv p t0 (checkpoint_stride (length cols)) fs0
          (clear_table_cleared _) Hstart) as Hinv0.
        pose proof (forward_upto_spec p t0 _ fs0 (length cols) Hinv0) as Hspec.
        rewrite Hcols in Hspec. specialize (Hspec (le_n _)).
        rewrite Hupto in Hspec.
        destruct Hspec as (_ & Hpasses).
        intros c Hc. destruct (Hpasses c Hc) as (o & r & Hpass).
        by eapply reference_pass_allele_count. }
  destruct (decide (length cols ≤ length (allele_counts p))%nat) as [|Hlt]; [done|].
  destruct (Hall (length (allele_counts p)) ltac:(lia)) as [ac Hac].
  apply lookup_lt_Some in Hac. lia.
Qed.

(** X20.  After a construction from a precomputed partitioning,
    [get_super_reads] hands out a transmission vector of zeros, one for each
    column. *)
Theorem precomputed_transmission_vector (reads : ReadSet) (p : Params)
    (positions : option (list N)) (partitioning : list N) (t t1 : PedigreeDPTable)
    (out out1 : list ReadSet) (tv tv1 : list N) :
  (PedigreeDPTable_new reads p positions (Some partitioning)).2 = Ok t →
  get_super_reads p t out tv = Ok (t1, out1, tv1) →
  tv1 = replicate (length (read_columns (reassignReadIds reads) positions)) 0.
Proof.
  intros Hnew Hg. simpl in Hnew.
  apply bind_Ok in Hnew as (sources & _ & Hnew).
  apply bind_Ok in Hnew as (m & Hm & Hset). apply assign_reads_spec in Hm.
  pose proof (set_index_path_frame _ _ _ Hset) as (_ & _ & _ & Hcols & _).
  apply (set_index_path_outcome p _ t (length reads) partitioning) in Hset
    as (Hlen & Hpath & _ & _ & Hibt & _); [|done].
  simpl in Hlen, Hpath, Hibt, Hcols.
  set (cols := read_columns (reassignReadIds reads) positions) in *.
  assert (inheritance_value <$> index_path t = replicate (length cols) 0) as Hzero.
  { apply list_eq. intros c. rewrite list_lookup_fmap.
    destruct (decide (c < length cols)%nat) as [Hc|Hc].
    - destruct (lookup_lt_is_Some_2 cols c Hc) as [column Hcolumn].
      rewrite (Hpath c column Hcolumn). simpl. symmetry. by apply lookup_replicate_2.
    - rewrite (lookup_ge_None_2 (index_path t)) by lia. simpl. symmetry.
      apply lookup_replicate_None. lia. }
  unfold get_super_reads in Hg.
  apply bind_Ok in Hg as (? & _ & Hg). apply bind_Ok in Hg as (sr & _ & Hg).
  apply bind_Ok in Hg as ([[t2 sr'] tv2] & Hloop & Hg).
  apply bind_Ok in Hg as (out' & _ & Hg). injection Hg as _ _ <-.
  simpl in Hloop. destruct (bool_decide _) eqn:Hempty.
  - apply bool_decide_eq_true in Hempty. rewrite Hibt in Hempty.
    destruct (length cols); [|done].
    apply bind_Ok in Hloop as (? & _ & Hloop). by injection Hloop as _ _ <-.
  - apply (super_reads_loop_transmission _ _ (length cols)) in Hloop;
      [|simpl; by rewrite Hcols|done|unfold get_column_count; simpl; rewrite Hcols; lia].
    simpl in Hloop. rewrite Hloop, Nat.sub_0_r, drop_0.
    rewrite take_ge by (fold cols in Hlen; lia). exact Hzero.
Qed.

End EngineProperties.

(** * The examples *)

Import Toy Examples.

(** Example G: the first column has finite cells and is passed, the second
    has none and raises the conflict. *)
Lemma conflict_iff_whole_column_infinite_witness :
  @sentinel_by_pattern toy_indexing ToyCC (toy_cost_computer costs_g)
    params_c (clear_table table_c) ∧
  @walks_nonempty toy_indexing params_c (clear_table table_c) ∧
  sweep costs_g params_c table_c ≠ Err InvariantViolation ∧
  sweep costs_g params_c table_c ≠ Err PreconditionViolation ∧
  sweep costs_g params_c table_c = Err MendelianConflict ∧
  @conflict_of_whole_column toy_indexing ToyCC (toy_cost_computer costs_g)
    params_c (clear_table table_c).
Proof.
  assert (@sentinel_by_pattern toy_indexing ToyCC (toy_cost_computer costs_g)
            params_c (clear_table table_c)) as Hcontract.
  { intros c cells row row' i Hcells Hrow Hrow' Hi.
    destruct c as [|[|c]]; vm_compute in Hcells; [| |discriminate Hcells];
      injection Hcells as <-;
      repeat (apply elem_of_cons in Hrow as [->|Hrow]);
      try (by apply elem_of_nil in Hrow);
      repeat (apply elem_of_cons in Hrow' as [->|Hrow']);
      try (by apply elem_of_nil in Hrow'); exact Hi. }
  assert (@walks_nonempty toy_indexing params_c (clear_table table_c)) as Hwalks.
  { intros c indexer Hix.
    destruct c as [|[|c]]; vm_compute in Hix; [| |discriminate Hix];
      injection Hix as <-; discriminate. }
  assert (sweep costs_g params_c table_c = Err MendelianConflict) as Hraise
    by (by vm_compute).
  assert (sweep costs_g params_c table_c ≠ Err InvariantViolation) as Hiv
    by (by rewrite Hraise).
  assert (sweep costs_g params_c table_c ≠ Err PreconditionViolation) as Hpv
    by (by rewrite Hraise).
  split; [exact Hcontract|]. split; [exact Hwalks|].
  split; [exact Hiv|]. split; [exact Hpv|]. split; [exact Hraise|].
  apply (proj1 (@conflict_iff_whole_column_infinite toy_indexing ToyCC
                  (toy_cost_computer costs_g) params_c table_c
                  Hcontract Hwalks Hiv Hpv)).
  exact Hraise.
Defined.

(** Example B does not keep the contract: its cost is the sentinel for the
    partitioning 0 only.  Its run is stopped by the conflict of its first
    step. *)
Lemma conflict_iff_some_step_infinite_witness :
  sweep costs_b params_b table_b ≠ Err InvariantViolation ∧
  sweep costs_b params_b table_b ≠ Err PreconditionViolation ∧
  (sweep costs_b params_b table_b = Err MendelianConflict ↔
   @conflict_of_some_step toy_indexing ToyCC (toy_cost_computer costs_b)
     params_b (clear_table table_b)).
Proof.
  split; [by vm_compute|]. split; [by vm_compute|].
  apply (@conflict_iff_some_step_infinite toy_indexing ToyCC
           (toy_cost_computer costs_b) params_b table_b); by vm_compute.
Defined.

(** The contract is needed: in example B, which does not keep it, the
    conflict is raised though the only column has a finite cell (the
    partitioning 1). *)
Lemma conflict_not_of_whole_column :
  ¬ (sweep costs_b params_b table_b = Err MendelianConflict ↔
     @conflict_of_whole_column toy_indexing ToyCC (toy_cost_computer costs_b)
       params_b (clear_table table_b)).
Proof.
  intros [Hraise _].
  destruct (Hraise ltac:(by vm_compute)) as (c & cells & Hc & Hcells & Hall).
  assert (c = 0%nat) as -> by (vm_compute in Hc; lia).
  vm_compute in Hcells. injection Hcells as <-.
  inversion Hall as [|? ? _ Hrest]. inversion Hrest as [|? ? Hrow _].
  inversion Hrow as [|? ? Hcell _]. discriminate Hcell.
Qed.

(** The last round of the backtrace of example C. *)
Lemma backtrace_step_entry_witness :
  (0 < 1 ≤ length (index_path (bt_table backtrace_c)))%nat ∧
  @backtrace_step ToyCC (toy_cost_computer costs_c) params_c 1 1 backtrace_c
    = Ok backtrace_c_1 ∧
  ∃ t1 indexer ibt tbt,
    @ensure_tables ToyCC (toy_cost_computer costs_c) params_c 1
      (bt_table backtrace_c) 1 = Ok t1 ∧
    indexers t1 !! 1%nat = Some (Some indexer) ∧
    index_backtrace_table t1 !! (1 - 1)%nat = Some (Some ibt) ∧
    transmission_backtrace_table t1 !! (1 - 1)%nat = Some (Some tbt) ∧
    let bpi := wrap32 (index_backward_projection indexer (index (bt_v backtrace_c))) in
    let new_v := bt_v backtrace_c_1 in
    index_path (bt_table backtrace_c_1) !! (1 - 1)%nat = Some new_v ∧
    Vector2D_at ibt bpi (prev_inheritance_value backtrace_c) = Ok (index new_v) ∧
    inheritance_value new_v = prev_inheritance_value backtrace_c ∧
    Vector2D_at tbt bpi (inheritance_value new_v)
      = Ok (prev_inheritance_value backtrace_c_1) ∧
    Vector2D_at tbt bpi (prev_inheritance_value backtrace_c)
      = Ok (prev_inheritance_value backtrace_c_1).
Proof.
  split; [vm_compute; lia|]. split; [by vm_compute|].
  apply (@backtrace_step_entry ToyCC (toy_cost_computer costs_c) params_c 1 1
           backtrace_c backtrace_c_1); [vm_compute; lia|by vm_compute].
Defined.

(** C3 as the specification states it fails on example C: the optimum of the
    last column has the inheritance 1 and the predecessor 0; the code reads
    the transmission backtrace table at 0 and gets 0, the specification reads
    it at 1, the inheritance of the entry of the last column, and gets 1. *)
Lemma prev_inheritance_not_as_stated :
  inheritance_value (bt_v backtrace_c) = 1 ∧
  prev_inheritance_value backtrace_c = 0 ∧
  @backtrace_step ToyCC (toy_cost_computer costs_c) params_c 1 1 backtrace_c
    = Ok backtrace_c_1 ∧
  prev_inheritance_value backtrace_c_1 = 0 ∧
  @prev_inheritance_as_stated ToyCC (toy_cost_computer costs_c) params_c 1 1 backtrace_c
    = Ok 1 ∧
  @prev_inheritance_as_stated ToyCC (toy_cost_computer costs_c) params_c 1 1 backtrace_c
    ≠ Ok (prev_inheritance_value backtrace_c_1).
Proof. by vm_compute. Qed.

(** The round of column 2 in the backward sweep of example D computes
    column 1 again. *)
Lemma recomputed_tables_identical_witness :
  sweep costs_d params_d table_d = Ok forward_d ∧
  @backtrace_reaches ToyCC (toy_cost_computer costs_d) params_d 2 3 backtrace_d
    2 backtrace_d_3 ∧
  (0 < 2)%nat ∧
  projection_column_table (bt_table backtrace_d_3) !! (2 - 1)%nat = Some None ∧
  ∃ t1, @ensure_tables ToyCC (toy_cost_computer costs_d) params_d 2
          (bt_table backtrace_d_3) 2 = Ok t1 ∧
    ∀ j, ((2 - 1) / 2 * 2 < j < 2)%nat →
      no_tables (fw_table forward_d) j ∧
      ∃ fs0 fsj tb,
        @forward_start toy_indexing params_d (clear_table table_d) = Ok fs0 ∧
        @forward_upto toy_indexing ToyCC (toy_cost_computer costs_d) params_d 2 fs0 (S j)
          = Ok fsj ∧
        has_tables (fw_table fsj) j tb ∧
        has_tables t1 j tb.
Proof.
  assert (@backtrace_reaches ToyCC (toy_cost_computer costs_d) params_d 2 3 backtrace_d
            2 backtrace_d_3) as Hreach.
  { apply (reaches_step params_d 2 2 2 backtrace_d backtrace_d_3 backtrace_d_3);
      [by vm_compute|apply reaches_here]. }
  split; [by vm_compute|]. split; [exact Hreach|]. split; [lia|].
  split; [by vm_compute|].
  apply (@recomputed_tables_identical toy_indexing ToyCC (toy_cost_computer costs_d)
           params_d table_d forward_d 2 backtrace_d_3);
    [by vm_compute|exact Hreach|lia|by vm_compute].
Defined.

(** The engine of example A, constructed from the partitioning (0, 1, 0). *)
Lemma precomputed_partitioning_path_witness :
  engine costs_a reads_a params_a [100; 200] (Some [0; 1; 0]) = Ok precomputed_a ∧
  let cols := @read_columns toy_reader (reassignReadIds reads_a) (Some [100; 200]) in
  let n := length cols in
  length (index_path precomputed_a) = n ∧
  (∀ c column, cols !! c = Some column →
     index_path precomputed_a !! c
       = Some (path_entry params_a (length reads_a) [0; 1; 0] column)) ∧
  (∃ costs, length costs = n ∧
     (∀ c column, cols !! c = Some column →
        ∃ cc, @path_cost_computer ToyCC (toy_cost_computer costs_a) params_a
                precomputed_a column c
                (path_entry params_a (length reads_a) [0; 1; 0] column) = Ok cc ∧
              costs !! c = Some (@get_cost ToyCC (toy_cost_computer costs_a) cc)) ∧
     get_optimal_score precomputed_a = wrap32 (sum_of_costs costs)) ∧
  projection_column_table precomputed_a = replicate n None ∧
  index_backtrace_table precomputed_a = replicate n None ∧
  transmission_backtrace_table precomputed_a = replicate n None ∧
  indexers precomputed_a = replicate n None.
Proof.
  split; [by vm_compute|].
  apply (@precomputed_partitioning_path toy_indexing ToyCC (toy_cost_computer costs_a)
           toy_reader reads_a params_a (Some [100; 200]) [0; 1; 0] precomputed_a).
  by vm_compute.
Defined.

(** C5 as the specification states it fails on example E: the costs of the two
    columns are the sentinel and 1, and the reported score is 0, which is
    their sum neither in exact nor in saturating arithmetic. *)
Lemma precomputed_score_not_the_sum :
  engine costs_e reads_a params_a [100; 200] (Some [0; 1; 0]) = Ok precomputed_e ∧
  ∃ col0 col1 cc0 cc1,
    @read_columns toy_reader (reassignReadIds reads_a) (Some [100; 200]) = [col0; col1] ∧
    @path_cost_computer ToyCC (toy_cost_computer costs_e) params_a precomputed_e col0 0
      (path_entry params_a (length reads_a) [0; 1; 0] col0) = Ok cc0 ∧
    @path_cost_computer ToyCC (toy_cost_computer costs_e) params_a precomputed_e col1 1
      (path_entry params_a (length reads_a) [0; 1; 0] col1) = Ok cc1 ∧
    @get_cost ToyCC (toy_cost_computer costs_e) cc0 = UINT_MAX ∧
    @get_cost ToyCC (toy_cost_computer costs_e) cc1 = 1 ∧
    get_optimal_score precomputed_e = 0 ∧
    get_optimal_score precomputed_e
      ≠ sum_of_costs [@get_cost ToyCC (toy_cost_computer costs_e) cc0;
                      @get_cost ToyCC (toy_cost_computer costs_e) cc1] ∧
    get_optimal_score precomputed_e
      ≠ N.min UINT_MAX
          (sum_of_costs [@get_cost ToyCC (toy_cost_computer costs_e) cc0;
                         @get_cost ToyCC (toy_cost_computer costs_e) cc1]).
Proof.
  split; [by vm_compute|].
  do 4 eexists. split; [by vm_compute|]. split; [by vm_compute|].
  split; [by vm_compute|]. by vm_compute.
Qed.

(** Example A with the recombination costs (0, 0) and (5, 9). *)
Lemma recombcost_irrelevant_without_triples_witness :
  triple_count (pedigree params_a) = 0%nat ∧
  length (recombcost params_a)
    = length (@read_columns toy_reader (reassignReadIds reads_a) (Some [100; 200])) ∧
  length [5; 9]
    = length (@read_columns toy_reader (reassignReadIds reads_a) (Some [100; 200])) ∧
  transmission_configurations (pedigree params_a) = 1 ∧
  @PedigreeDPTable_new toy_indexing ToyCC (toy_cost_computer costs_a) toy_reader
     reads_a (with_recombcost params_a [5; 9]) (Some [100; 200]) None
    = @PedigreeDPTable_new toy_indexing ToyCC (toy_cost_computer costs_a) toy_reader
        reads_a params_a (Some [100; 200]) None ∧
  ∀ t1 t2,
    (@PedigreeDPTable_new toy_indexing ToyCC (toy_cost_computer costs_a) toy_reader
       reads_a params_a (Some [100; 200]) None).2 = Ok t1 →
    (@PedigreeDPTable_new toy_indexing ToyCC (toy_cost_computer costs_a) toy_reader
       reads_a (with_recombcost params_a [5; 9]) (Some [100; 200]) None).2 = Ok t2 →
    get_optimal_score t1 = get_optimal_score t2 ∧ index_path t1 = index_path t2.
Proof.
  split; [reflexivity|]. split; [reflexivity|]. split; [reflexivity|].
  apply (@recombcost_irrelevant_without_triples toy_indexing ToyCC
           (toy_cost_computer costs_a) toy_reader reads_a params_a
           (Some [100; 200]) None [5; 9]); reflexivity.
Defined.

(** The super-reads of example A, asked for twice. *)
Lemma get_super_reads_twice_witness :
  super_reads_a = Ok after_super_reads_a ∧
  ∀ tv', @get_super_reads ToyCC (toy_cost_computer costs_a) params_a
           after_super_reads_a.1.1 [[]] tv' = Ok after_super_reads_a.
Proof.
  split; [by vm_compute|].
  apply (@get_super_reads_twice ToyCC (toy_cost_computer costs_a) params_a engine_a
           after_super_reads_a.1.1 [[]] after_super_reads_a.1.2 []
           after_super_reads_a.2).
  by vm_compute.
Defined.

(** C8 fails on the engine of example A that is constructed from the
    partitioning (0, 1, 0): the construction ends well, and
    [get_optimal_partitioning] returns no sequence but runs into the null
    pointer [indexers[0]]. *)
Theorem precomputed_run_has_no_optimal_partitioning :
  engine costs_a reads_a params_a [100; 200] (Some [0; 1; 0]) = Ok precomputed_a ∧
  indexers precomputed_a = [None; None] ∧
  get_optimal_partitioning params_a precomputed_a = Err InvariantViolation.
Proof. by vm_compute. Qed.

(** On the engine of example A that ran the sweeps, the sequence is returned
    and the third read, which is in no column, has partition 0. *)
Lemma inactive_reads_get_partition_0_witness :
  get_optimal_partitioning params_a engine_a = Ok [1; 0; 0] ∧
  length [1; 0; 0] = length (read_set engine_a) ∧
  ∀ r : nat,
    (r < length (read_set engine_a))%nat →
    (∀ i indexer, (i < length (index_path engine_a))%nat →
       indexers engine_a !! i = Some (Some indexer) →
       N.of_nat r ∉ get_read_ids indexer) →
    [1; 0; 0] !! r = Some 0.
Proof.
  split; [by vm_compute|].
  apply (inactive_reads_get_partition_0 params_a engine_a [1; 0; 0]).
  by vm_compute.
Defined.

(** The third read of example A is such a read. *)
Lemma third_read_inactive :
  ∀ i indexer, (i < length (index_path engine_a))%nat →
    indexers engine_a !! i = Some (Some indexer) →
    N.of_nat 2 ∉ get_read_ids indexer.
Proof.
  intros i indexer Hi Hix. vm_compute in Hi.
  destruct i as [|[|i]]; [| |lia]; vm_compute in Hix; injection Hix as <-;
    cbn [get_read_ids]; intros Hin; repeat (apply elem_of_cons in Hin as [Hin|Hin]; [done|]);
    by apply elem_of_nil in Hin.
Qed.

(** The loop over four predecessors of the pattern 1. *)
Lemma relax_predecessor_first_minimum_witness :
  foldlM (relax_predecessor [0; 5] 1 (Some (Vector2D_new 1 4 7)) 0 3 1) (UINT_MAX, 0)
    (N_range 4) = Ok (10, 1) ∧
  (∀ j, j < 4 →
     ∃ v, predecessor_candidate [0; 5] 1 (Some (Vector2D_new 1 4 7)) 0 3 1 j = Ok v ∧
          10 ≤ v) ∧
  (10 < UINT_MAX →
     1 < 4 ∧
     predecessor_candidate [0; 5] 1 (Some (Vector2D_new 1 4 7)) 0 3 1 1 = Ok 10 ∧
     ∀ j, j < 1 →
       ∃ v, predecessor_candidate [0; 5] 1 (Some (Vector2D_new 1 4 7)) 0 3 1 j = Ok v ∧
            10 < v) ∧
  (¬ 10 < UINT_MAX → 10 = UINT_MAX ∧ 1 = 0).
Proof.
  split; [reflexivity|].
  apply (relax_predecessor_first_minimum [0; 5] 1 (Some (Vector2D_new 1 4 7)) 0 3 1 4 10 1).
  reflexivity.
Defined.

(** Column 1 of example D, computed again after the forward sweep. *)
Lemma compute_column_twice_witness :
  tables_sized (get_column_count (input_column_iterator (fw_table forward_d)))
    (fw_table forward_d) ∧
  (1 + 1 < get_column_count (input_column_iterator (fw_table forward_d)))%nat ∧
  @compute_column ToyCC (toy_cost_computer costs_d) params_d (fw_table forward_d) 1 None
    = Ok recomputed_d ∧
  (∃ tb, has_tables recomputed_d 1 tb) ∧
  optimum_of recomputed_d = optimum_of (fw_table forward_d) ∧
  ∀ col', @compute_column ToyCC (toy_cost_computer costs_d) params_d recomputed_d 1 col'
          = Ok recomputed_d.
Proof.
  split; [by vm_compute|]. split; [vm_compute; lia|]. split; [by vm_compute|].
  apply (@compute_column_twice ToyCC (toy_cost_computer costs_d) params_d
           (fw_table forward_d) recomputed_d 1 None);
    [by vm_compute|vm_compute; lia|by vm_compute].
Defined.

(** The forward sweep of example D: four columns, stride 2. *)
Lemma forward_sweep_keeps_checkpoints_witness :
  sweep costs_d params_d table_d = Ok forward_d ∧
  let n := get_column_count (input_column_iterator (clear_table table_d)) in
  let k := checkpoint_stride n in
  (0 < k)%nat ∧ (k * k ≤ n < S k * S k)%nat ∧
  ∀ j, (j < n)%nat →
    is_Some (mjoin (indexers (fw_table forward_d) !! j)) ∧
    ((S j < n)%nat ∧ (k = 1%nat ∨ (j `mod` k)%nat = 0%nat) →
       ∃ tb, has_tables (fw_table forward_d) j tb) ∧
    (¬ ((S j < n)%nat ∧ (k = 1%nat ∨ (j `mod` k)%nat = 0%nat)) →
       no_tables (fw_table forward_d) j).
Proof.
  split; [by vm_compute|].
  apply (@forward_sweep_keeps_checkpoints toy_indexing ToyCC (toy_cost_computer costs_d)
           params_d table_d forward_d).
  by vm_compute.
Defined.

(** The engine of example D. *)
Lemma backward_sweep_keeps_optimum_witness :
  (0 < get_column_count (input_column_iterator table_d))%nat ∧
  @compute_table toy_indexing ToyCC (toy_cost_computer costs_d) params_d table_d
    = Ok engine_d ∧
  ∃ fs, sweep costs_d params_d table_d = Ok fs ∧
    optimum_of engine_d = optimum_of (fw_table fs) ∧
    indexers engine_d = indexers (fw_table fs) ∧
    length (index_path engine_d) = get_column_count (input_column_iterator table_d) ∧
    index_path engine_d !! (get_column_count (input_column_iterator table_d) - 1)%nat
      = Some {| index := optimal_score_index engine_d;
                inheritance_value := optimal_transmission_value engine_d |}.
Proof.
  split; [vm_compute; lia|]. split; [by vm_compute|].
  apply (@backward_sweep_keeps_optimum toy_indexing ToyCC (toy_cost_computer costs_d)
           params_d table_d engine_d); [vm_compute; lia|by vm_compute].
Defined.

(** The engine of example A, which ran the sweeps. *)
Lemma optimal_partitioning_after_sweeps_witness :
  (∀ prev ids pl, get_read_ids (toy_scheme_new prev ids pl) = ids) ∧
  (∀ s next, get_read_ids (toy_set_next_column s next) = get_read_ids s) ∧
  Forall (Forall (λ e, (N.to_nat (get_read_id e) < length reads_a)%nat))
    (@read_columns toy_reader (reassignReadIds reads_a) (Some [100; 200])) ∧
  ploidy params_a ≠ 0 ∧
  engine costs_a reads_a params_a [100; 200] None = Ok engine_a ∧
  ∃ part, get_optimal_partitioning params_a engine_a = Ok part ∧
    length part = length reads_a ∧ Forall (λ x, x < ploidy params_a) part.
Proof.
  assert (Forall (Forall (λ e, (N.to_nat (get_read_id e) < length reads_a)%nat))
            (@read_columns toy_reader (reassignReadIds reads_a) (Some [100; 200])))
    as Hcols by (vm_compute; repeat constructor).
  split; [done|]. split; [done|]. split; [exact Hcols|]. split; [done|].
  split; [by vm_compute|].
  apply (@optimal_partitioning_after_sweeps toy_indexing ToyCC (toy_cost_computer costs_a)
           toy_reader reads_a params_a (Some [100; 200]) engine_a);
    [done|done|exact Hcols|done|by vm_compute].
Defined.

(** The first read of example A in its last column. *)
Lemma optimal_partitioning_digit_witness :
  get_optimal_partitioning params_a engine_a = Ok [1; 0; 0] ∧
  index_path engine_a !! 1%nat = Some last_entry_a ∧
  indexers engine_a !! 1%nat = Some (Some last_scheme_a) ∧
  get_read_ids last_scheme_a !! 0%nat = Some 0 ∧
  (∀ j', (0 < j')%nat → get_read_ids last_scheme_a !! j' ≠ Some 0) ∧
  (∀ i' indexer', (1 < i' < length (index_path engine_a))%nat →
     indexers engine_a !! i' = Some (Some indexer') → 0 ∉ get_read_ids indexer') ∧
  [1; 0; 0] !! N.to_nat 0
    = Some ((index last_entry_a / ploidy params_a ^ N.of_nat 0) mod ploidy params_a).
Proof.
  assert (∀ j', (0 < j')%nat → get_read_ids last_scheme_a !! j' ≠ Some 0) as Hlast.
  { intros [|[|j']] Hj'; [lia|by vm_compute|by vm_compute]. }
  assert (∀ i' indexer', (1 < i' < length (index_path engine_a))%nat →
            indexers engine_a !! i' = Some (Some indexer') → 0 ∉ get_read_ids indexer')
    as Hnone by (intros i' indexer' Hi'; vm_compute in Hi'; lia).
  split; [by vm_compute|]. split; [by vm_compute|]. split; [by vm_compute|].
  split; [by vm_compute|]. split; [exact Hlast|]. split; [exact Hnone|].
  apply (optimal_partitioning_digit params_a engine_a [1; 0; 0] 1 0 last_entry_a
           last_scheme_a 0);
    [by vm_compute|by vm_compute|by vm_compute|by vm_compute|exact Hlast|exact Hnone].
Defined.

(** Two reads with the partitions 1 and 0, ploidy 2. *)
Lemma pack_then_assign_round_trip_witness :
  Forall (λ id, default 0 ((<[0 := 1]> (<[1 := 0]> (∅ : gmap N N))) !! id) < 2) [0; 1] ∧
  2 ^ N.of_nat (length [0; 1]) ≤ 2 ^ 32 ∧
  Forall (λ id, (N.to_nat id < length [7; 7; 7])%nat) [0; 1] ∧
  ∃ part',
    foldlM (assign_partitions 2)
      ([7; 7; 7], (pack_partitioning 2 (<[0 := 1]> (<[1 := 0]> ∅)) [0; 1]).1) [0; 1]
      = Ok (part', 0) ∧
    length part' = length [7; 7; 7] ∧
    (∀ id, id ∈ [0; 1] →
       part' !! N.to_nat id
         = Some (default 0 ((<[0 := 1]> (<[1 := 0]> (∅ : gmap N N))) !! id))) ∧
    (∀ r, N.of_nat r ∉ [0; 1] → part' !! r = [7; 7; 7] !! r).
Proof.
  assert (Forall (λ id, default 0 ((<[0 := 1]> (<[1 := 0]> (∅ : gmap N N))) !! id) < 2)
            [0; 1]) as Hvals by (repeat constructor).
  assert (2 ^ N.of_nat (length [0; 1]) ≤ 2 ^ 32) as Hfit by (vm_compute; discriminate).
  assert (Forall (λ id, (N.to_nat id < length [7; 7; 7])%nat) [0; 1]) as Hin
    by (repeat constructor; vm_compute; lia).
  split; [exact Hvals|]. split; [exact Hfit|]. split; [exact Hin|].
  apply (pack_then_assign_round_trip 2 (<[0 := 1]> (<[1 := 0]> ∅)) [0; 1] [7; 7; 7]
           Hvals Hfit Hin).
Defined.

(** The super-reads of example A. *)
Lemma super_reads_transmission_vector_witness :
  super_reads_a = Ok after_super_reads_a ∧
  after_super_reads_a.2
    = inheritance_value
        <$> take (get_column_count (input_column_iterator engine_a)) (index_path engine_a).
Proof.
  split; [by vm_compute|].
  apply (@super_reads_transmission_vector ToyCC (toy_cost_computer costs_a) params_a
           engine_a after_super_reads_a.1.1 [[]] after_super_reads_a.1.2 []
           after_super_reads_a.2).
  by vm_compute.
Defined.

Lemma super_reads_delivered_witness :
  length [@nil Read] = Pedigree_size (pedigree params_a) ∧
  super_reads_a = Ok after_super_reads_a ∧
  length after_super_reads_a.1.2 = length [@nil Read] ∧
  ∀ k rs, [@nil Read] !! k = Some rs →
    ∃ srs, after_super_reads_a.1.2 !! k = Some (rs ++ srs) ∧
      length srs = N.to_nat (ploidy params_a) ∧
      ∀ j r, srs !! j = Some r →
        @superread_after ToyCC (toy_cost_computer costs_a) params_a engine_a
          (get_column_count (input_column_iterator engine_a)) k (N.of_nat j) r.
Proof.
  split; [by vm_compute|]. split; [by vm_compute|].
  apply (@super_reads_delivered ToyCC (toy_cost_computer costs_a) params_a
           engine_a after_super_reads_a.1.1 [[]] after_super_reads_a.1.2 []
           after_super_reads_a.2); by vm_compute.
Defined.

(** The reads of example A with the partitioning (0, 1, 0, 1): the fourth
    entry is not read. *)
Lemma assign_reads_outcome_witness :
  (∀ i r, reassignReadIds reads_a !! i = Some r → read_key r = N.of_nat i) ∧
  (length (reassignReadIds reads_a) ≤ length [0; 1; 0; 1])%nat ∧
  ∃ m, assign_reads (reassignReadIds reads_a) [0; 1; 0; 1] = Ok m ∧
    ∀ id, m !! id = if decide (N.to_nat id < length (reassignReadIds reads_a))%nat
                    then [0; 1; 0; 1] !! N.to_nat id else None.
Proof.
  assert (∀ i r, reassignReadIds reads_a !! i = Some r → read_key r = N.of_nat i) as Hkeys.
  { intros [|[|[|i]]] r Hr; vm_compute in Hr; [injection Hr as <-; reflexivity..|done]. }
  assert (length (reassignReadIds reads_a) ≤ length [0; 1; 0; 1])%nat as Hlen
    by (vm_compute; lia).
  split; [exact Hkeys|]. split; [exact Hlen|].
  apply (assign_reads_outcome (reassignReadIds reads_a) [0; 1; 0; 1] Hkeys Hlen).
Defined.

(** Example F: one read, no column, the partitioning (1). *)
Lemma construction_without_columns_witness :
  @read_columns toy_reader (reassignReadIds reads_f) None = [] ∧
  translate_sources params_a (reassignReadIds reads_f) = Ok [0] ∧
  (∀ partitioning, Some [1] = Some partitioning →
     (length reads_f ≤ length partitioning)%nat) ∧
  ∃ t, (@PedigreeDPTable_new toy_indexing ToyCC (toy_cost_computer costs_a) toy_reader
          reads_f params_a None (Some [1])).2 = Ok t ∧
    get_optimal_score t = 0 ∧
    index_path t = [] ∧
    projection_column_table t = [] ∧ index_backtrace_table t = [] ∧
    transmission_backtrace_table t = [] ∧ indexers t = [] ∧
    get_optimal_partitioning params_a t = Ok (replicate (length reads_f) 0) ∧
    ∀ out tv t1 out1 tv1,
      @get_super_reads ToyCC (toy_cost_computer costs_a) params_a t out tv
        = Ok (t1, out1, tv1) → tv1 = [].
Proof.
  assert (∀ partitioning, Some [1] = Some partitioning →
            (length reads_f ≤ length partitioning)%nat) as Hlong
    by (intros partitioning [= <-]; vm_compute; lia).
  split; [by vm_compute|]. split; [by vm_compute|]. split; [exact Hlong|].
  apply (@construction_without_columns toy_indexing ToyCC (toy_cost_computer costs_a)
           toy_reader reads_f params_a None (Some [1]) [0]);
    [by vm_compute|by vm_compute|exact Hlong].
Defined.

(** Example B: one column and one entry of [recombcost]; the conflict of
    the forward sweep is the outcome of [compute_table]. *)
Lemma conflict_only_in_forward_sweep_witness :
  (get_column_count (input_column_iterator table_b) ≤ length (recombcost params_b))%nat ∧
  sweep costs_b params_b table_b = Err MendelianConflict ∧
  @compute_table toy_indexing ToyCC (toy_cost_computer costs_b) params_b table_b
    = Err MendelianConflict.
Proof.
  assert (get_column_count (input_column_iterator table_b)
            ≤ length (recombcost params_b))%nat as Hrc by (vm_compute; lia).
  split; [exact Hrc|]. split; [by vm_compute|].
  apply (proj2 (proj1 (@conflict_only_in_forward_sweep toy_indexing ToyCC
                         (toy_cost_computer costs_b) params_b table_b Hrc))).
  by vm_compute.
Defined.

(** The first column of example C. *)
Lemma projection_column_is_minimum_witness :
  @make_cost_computers ToyCC (toy_cost_computer costs_c) params_c [2]
    (pedigree_partitions table_c) (column_c 0) 0 = Ok (computers_c 0) ∧
  pass_c 0 None = Ok (Some tables_c0, no_optimum) ∧
  ∀ f i, f < forward_projection_size (scheme_c 0) →
    i < transmission_configurations (pedigree params_c) →
    ∃ x a b, table_cell tables_c0 f i = Ok (x, a, b) ∧ x ≤ UINT_MAX ∧
      (∀ k s m mi, get_iterator (scheme_c 0) !! k = Some s →
         get_forward_projection s = f →
         @dp_cell ToyCC (toy_cost_computer costs_c) params_c 0 None (computers_c 0)
           (get_iterator (scheme_c 0)) k i = Some (m, mi) → x ≤ m) ∧
      (x < UINT_MAX →
         ∃ k s mi, get_iterator (scheme_c 0) !! k = Some s ∧
           get_forward_projection s = f ∧
           @dp_cell ToyCC (toy_cost_computer costs_c) params_c 0 None (computers_c 0)
             (get_iterator (scheme_c 0)) k i = Some (x, mi) ∧
           a = get_index s ∧ b = mi ∧
           ∀ k' s' m' mi', (k' < k)%nat → get_iterator (scheme_c 0) !! k' = Some s' →
             get_forward_projection s' = f →
             @dp_cell ToyCC (toy_cost_computer costs_c) params_c 0 None (computers_c 0)
               (get_iterator (scheme_c 0)) k' i = Some (m', mi') → x < m') ∧
      (x = UINT_MAX → a = UINT_MAX ∧ b = UINT_MAX).
Proof.
  split; [by vm_compute|]. split; [by vm_compute|].
  apply (@projection_column_is_minimum ToyCC (toy_cost_computer costs_c) params_c [2]
           (pedigree_partitions table_c) 2 0 (scheme_c 0) (column_c 0) None
           no_optimum no_optimum (computers_c 0) tables_c0); by vm_compute.
Defined.

(** The second and last column of example C. *)
Lemma last_column_optimum_is_minimum_witness :
  @make_cost_computers ToyCC (toy_cost_computer costs_c) params_c [2]
    (pedigree_partitions table_c) (column_c 1) 1 = Ok (computers_c 1) ∧
  pass_c 1 (Some (projection_column tables_c0)) = Ok (None, optimum_c) ∧
  opt_score optimum_c ≤ opt_score no_optimum ∧
  (∀ k i m mi, i < transmission_configurations (pedigree params_c) →
     @dp_cell ToyCC (toy_cost_computer costs_c) params_c 1
       (Some (projection_column tables_c0)) (computers_c 1)
       (get_iterator (scheme_c 1)) k i = Some (m, mi) →
     opt_score optimum_c ≤ m) ∧
  (opt_score optimum_c < opt_score no_optimum →
     ∃ k s i mi, get_iterator (scheme_c 1) !! k = Some s ∧
       i < transmission_configurations (pedigree params_c) ∧
       @dp_cell ToyCC (toy_cost_computer costs_c) params_c 1
         (Some (projection_column tables_c0)) (computers_c 1)
         (get_iterator (scheme_c 1)) k i = Some (opt_score optimum_c, mi) ∧
       optimum_c = {| opt_score := opt_score optimum_c; opt_index := get_index s;
                      opt_transmission := i; opt_previous_transmission := mi |} ∧
       ∀ k' i' m' mi', i' < transmission_configurations (pedigree params_c) →
         (k' < k)%nat ∨ (k' = k ∧ i' < i) →
         @dp_cell ToyCC (toy_cost_computer costs_c) params_c 1
           (Some (projection_column tables_c0)) (computers_c 1)
           (get_iterator (scheme_c 1)) k' i' = Some (m', mi') →
         opt_score optimum_c < m') ∧
  (opt_score optimum_c = opt_score no_optimum → optimum_c = no_optimum).
Proof.
  split; [by vm_compute|]. split; [by vm_compute|].
  apply (@last_column_optimum_is_minimum ToyCC (toy_cost_computer costs_c) params_c [2]
           (pedigree_partitions table_c) 2 1 (scheme_c 1) (column_c 1)
           (Some (projection_column tables_c0)) no_optimum optimum_c (computers_c 1));
    by vm_compute.
Defined.

(** The engine of example C: the optimum is the pattern 1 with the
    predecessor 0. *)
Lemma optimal_score_is_minimum_witness :
  (0 < length (it_columns (input_column_iterator table_c)))%nat ∧
  @compute_table toy_indexing ToyCC (toy_cost_computer costs_c) params_c table_c
    = Ok engine_c ∧
  let t0 := clear_table table_c in
  let cols := it_columns (input_column_iterator table_c) in
  let n := length cols in
  let T := transmission_configurations (pedigree params_c) in
  ∃ column indexer ccs prev,
    cols !! (n - 1)%nat = Some column ∧
    scheme_of_column (ploidy params_c) cols (n - 1) = Some indexer ∧
    @make_cost_computers ToyCC (toy_cost_computer costs_c) params_c
      (read_sources table_c) (pedigree_partitions table_c) column (n - 1) = Ok ccs ∧
    (n = 1%nat → prev = None) ∧
    ((1 < n)%nat →
       ∃ tb, @reference_tables toy_indexing ToyCC (toy_cost_computer costs_c)
               params_c t0 (n - 2) = Some tb ∧
             prev = Some (projection_column tb)) ∧
    let steps := get_iterator indexer in
    (∀ k i m mi, i < T →
       @dp_cell ToyCC (toy_cost_computer costs_c) params_c (n - 1) prev ccs steps k i
         = Some (m, mi) →
       get_optimal_score engine_c ≤ m) ∧
    (get_optimal_score engine_c < UINT_MAX →
       ∃ k s i mi, steps !! k = Some s ∧ i < T ∧
         @dp_cell ToyCC (toy_cost_computer costs_c) params_c (n - 1) prev ccs steps k i
           = Some (get_optimal_score engine_c, mi) ∧
         index_path engine_c !! (n - 1)%nat
           = Some {| index := get_index s; inheritance_value := i |} ∧
         ∀ k' i' m' mi', i' < T → (k' < k)%nat ∨ (k' = k ∧ i' < i) →
           @dp_cell ToyCC (toy_cost_computer costs_c) params_c (n - 1) prev ccs steps
             k' i' = Some (m', mi') →
           get_optimal_score engine_c < m') ∧
    (¬ get_optimal_score engine_c < UINT_MAX →
       get_optimal_score engine_c = UINT_MAX ∧
       index_path engine_c !! (n - 1)%nat
         = Some {| index := 0; inheritance_value := 0 |}).
Proof.
  split; [vm_compute; lia|]. split; [by vm_compute|].
  apply (@optimal_score_is_minimum toy_indexing ToyCC (toy_cost_computer costs_c)
           params_c table_c engine_c); [vm_compute; lia|by vm_compute].
Defined.

(** Example A: two columns, two allele counts. *)
Lemma construction_needs_allele_counts_witness :
  engine costs_a reads_a params_a [100; 200] None = Ok engine_a ∧
  (length (@read_columns toy_reader (reassignReadIds reads_a) (Some [100%N; 200%N]))
     ≤ length (allele_counts params_a))%nat.
Proof.
  split; [by vm_compute|].
  apply (@construction_needs_allele_counts toy_indexing ToyCC (toy_cost_computer costs_a)
           toy_reader reads_a params_a (Some [100; 200]) None engine_a).
  by vm_compute.
Defined.

(** Example A with the partitioning (0, 1, 0): the vector [5] of the caller
    becomes (0, 0). *)
Lemma precomputed_transmission_vector_witness :
  engine costs_a reads_a params_a [100; 200] (Some [0; 1; 0]) = Ok precomputed_a ∧
  super_reads_precomputed_a = Ok after_super_reads_precomputed_a ∧
  after_super_reads_precomputed_a.2
    = replicate (length (@read_columns toy_reader (reassignReadIds reads_a)
                           (Some [100; 200]))) 0.
Proof.
  split; [by vm_compute|]. split; [by vm_compute|].
  apply (@precomputed_transmission_vector toy_indexing ToyCC (toy_cost_computer costs_a)
           toy_reader reads_a params_a (Some [100; 200]) [0; 1; 0] precomputed_a
           after_super_reads_precomputed_a.1.1 [[]] after_super_reads_precomputed_a.1.2
           [5] after_super_reads_precomputed_a.2); by vm_compute.
Defined.

